(** * TicTacToeRandomizer: a shallow embedding of main.cpp

    The program starts one thread per player; every thread walks the pool of
    games, claims the slots that are not full, joins them as 'O' or 'X' and
    plays random moves in turn with the other player of the slot.

    The embedding has two layers.

    - The sequential layer translates the functions that run while a thread
      holds a game's mutex: [DidWeWin], [MakeAMove], [PlayGame], [JoinGame]
      and the claim at the head of [TryToPlayEachGame]; and the two functions
      that print, [PrintGameBoard] as the text it writes and [PrintResults]
      as the list of its calls of [Log].  C++ [int]s are [Z]:
      the counters of a player and of a game grow by one per game and stay
      far from the bounds of [int]; the sums that [PrintResults] takes over
      all players are [int]s with their wrap-around written out
      ([int_wrap]).  An array access out of range is undefined behaviour
      and is [None] of [option].
    - The concurrent layer is an interleaving semantics: one step of a thread
      is one critical section of the source, from the acquisition of a mutex
      (or the wake-up inside [wait], which re-acquires it) to its release (an
      [unlock] or the next [wait]).  The mutexes [playerCountMutex] and
      [gameMutex] make these sections atomic, so the model has no lock state:
      between two steps every mutex is free.  Both unique locks that
      [gameUniqueLock] can point to wrap [gameMutex], so a wait through
      either releases that mutex.  A wait on a game's condition variable is
      enabled when the thread has been notified, by [notify_all] or
      spuriously; [notify_all] is called with [gameMutex] held, so no such
      notification is lost.

      The pool of players is modelled more coarsely than the source.  Its
      counter is incremented under [playersIncrementMutex], decremented under
      [playersDecrementMutex] and read by [main] under [totalPlayersMutex];
      the model takes each access as one atomic step.  That is exact as long
      as no increment runs beside a decrement: in the first round every
      thread has registered before the gun lets any thread go on.  In a
      later round the gun is fired from the start, an increment of one
      thread can run beside the decrement of another, and the source can
      lose one of the two; the model cannot.  A predicate wait on the pool
      (the starting gun, the two waits of [main]) is enabled in the model
      whenever its predicate holds; the source changes the predicate and
      notifies without the mutex of the waiter, so a waiter can miss the
      notification and stay in the wait.  What the model says of these waits
      is therefore where a wait cannot be left yet and which runs are
      possible, not that a wait is left. *)

From Stdlib Require Import ZArith Lia Bool List Ascii.
From stdpp Require Import base decidable option list strings.

Open Scope Z_scope.

(** ** Enumerations *)

Module GameState.
Inductive t := StillPlaying | Won | Draw.

#[global] Instance state_eq_dec : EqDecision t.
Proof. solve_decision. Defined.
End GameState.

Module PlayerType.
Inductive t := None | X | O.

#[global] Instance mark_eq_dec : EqDecision t.
Proof. solve_decision. Defined.
End PlayerType.

(** ** Arrays of three elements: [PlayerType gameBoard[3][3]] *)

Record Arr3 (A : Type) := MkArr3 { a0 : A; a1 : A; a2 : A }.
Arguments MkArr3 {A} _ _ _.
Arguments a0 {A} _.
Arguments a1 {A} _.
Arguments a2 {A} _.

(** [v[i]]: [None] when [i] is not 0, 1 or 2. *)
Definition arr_get {A} (v : Arr3 A) (i : Z) : option A :=
  match i with
  | 0 => Some (a0 v)
  | 1 => Some (a1 v)
  | 2 => Some (a2 v)
  | _ => None
  end.

(** [v[i] = x] *)
Definition arr_set {A} (v : Arr3 A) (i : Z) (x : A) : option (Arr3 A) :=
  match i with
  | 0 => Some (MkArr3 x (a1 v) (a2 v))
  | 1 => Some (MkArr3 (a0 v) x (a2 v))
  | 2 => Some (MkArr3 (a0 v) (a1 v) x)
  | _ => None
  end.

Definition Board := Arr3 (Arr3 PlayerType.t).

Definition getCell (b : Board) (row col : Z) : option PlayerType.t :=
  r ← arr_get b row; arr_get r col.

Definition setCell (b : Board) (row col : Z) (m : PlayerType.t) : option Board :=
  r ← arr_get b row; r' ← arr_set r col m; arr_set b row r'.

(** [memset(gameBoard, 0, sizeof(gameBoard))]: [PlayerType::None] is 0. *)
Definition emptyRow : Arr3 PlayerType.t :=
  MkArr3 PlayerType.None PlayerType.None PlayerType.None.
Definition emptyBoard : Board := MkArr3 emptyRow emptyRow emptyRow.

(** ** Structures *)

(** [struct Game].  The two mutexes, the condition variable and the pointer
    to the unique lock are synchronisation objects: the concurrent layer
    models them by its atomic steps and by the [notified] flag of a waiting
    thread. *)
Record Game := MkGame {
  playerCount : Z;
  gameNumber : Z;
  currentTurn : PlayerType.t;
  currentGameState : GameState.t;
  playerX : Z;
  playerO : Z;
  gameBoard : Board
}.

(** [struct Player].  The pointers to the two pools are the shared state of
    the concurrent layer; a value drawn from [myRand] is an argument of the
    function that draws it. *)
Record Player := MkPlayer {
  id : Z;
  gamesPlayed : Z;
  winCount : Z;
  loseCount : Z;
  drawCount : Z;
  type : PlayerType.t
}.

Definition set_playerCount (v : Z) (g : Game) : Game :=
  MkGame v (gameNumber g) (currentTurn g) (currentGameState g) (playerX g) (playerO g) (gameBoard g).
Definition set_currentTurn (v : PlayerType.t) (g : Game) : Game :=
  MkGame (playerCount g) (gameNumber g) v (currentGameState g) (playerX g) (playerO g) (gameBoard g).
Definition set_currentGameState (v : GameState.t) (g : Game) : Game :=
  MkGame (playerCount g) (gameNumber g) (currentTurn g) v (playerX g) (playerO g) (gameBoard g).
Definition set_playerX (v : Z) (g : Game) : Game :=
  MkGame (playerCount g) (gameNumber g) (currentTurn g) (currentGameState g) v (playerO g) (gameBoard g).
Definition set_playerO (v : Z) (g : Game) : Game :=
  MkGame (playerCount g) (gameNumber g) (currentTurn g) (currentGameState g) (playerX g) v (gameBoard g).
Definition set_gameBoard (v : Board) (g : Game) : Game :=
  MkGame (playerCount g) (gameNumber g) (currentTurn g) (currentGameState g) (playerX g) (playerO g) v.

Definition set_gamesPlayed (v : Z) (p : Player) : Player :=
  MkPlayer (id p) v (winCount p) (loseCount p) (drawCount p) (type p).
Definition set_winCount (v : Z) (p : Player) : Player :=
  MkPlayer (id p) (gamesPlayed p) v (loseCount p) (drawCount p) (type p).
Definition set_loseCount (v : Z) (p : Player) : Player :=
  MkPlayer (id p) (gamesPlayed p) (winCount p) v (drawCount p) (type p).
Definition set_drawCount (v : Z) (p : Player) : Player :=
  MkPlayer (id p) (gamesPlayed p) (winCount p) (loseCount p) v (type p).
Definition set_type (v : PlayerType.t) (p : Player) : Player :=
  MkPlayer (id p) (gamesPlayed p) (winCount p) (loseCount p) (drawCount p) v.

(** ** What a critical section did

    Every constructor stands for one statement of the source and carries the
    game number and the player id that the [Log] call next to that statement
    prints. *)
Inductive Action :=
| Joined (gn pid : Z) (role : PlayerType.t)
    (* JoinGame: [playerO = id; type = O] or [playerX = id; type = X] *)
| Placed (gn pid : Z) (mark : PlayerType.t) (row col : Z)
    (* MakeAMove: [gameBoard[row][col] = currentPlayer->type] *)
| CountedWin (gn pid : Z)      (* MakeAMove: [winCount++] *)
| CountedDrawMoving (gn pid : Z)   (* MakeAMove: [drawCount++] *)
| CountedLoss (gn pid : Z)     (* PlayGame, after the loop: [loseCount++] *)
| CountedDrawWaiting (gn pid : Z)  (* PlayGame, after the loop: [drawCount++] *)
| NotifiedAll (gn pid : Z)     (* PlayGame: [gameCondition.notify_all()] *)
| WrongPlayer (gn pid : Z)     (* PlayGame: wrong player is playing, [exit(1)] *)
| OnePlayer (gn pid : Z).      (* PlayGame: only one player present, [exit(1)] *)

#[global] Instance Action_eq_dec : EqDecision Action.
Proof. solve_decision. Defined.

(** ** Loops *)

(** [for (int i = from; ...; i++) body], [count] iterations.  The body
    threads the variables it assigns as a state and fails on an access out of
    range. *)
Fixpoint for_range {S : Type} (from : Z) (count : nat)
  (body : Z → S → option S) (s : S) : option S :=
  match count with
  | 0%nat => Some s
  | Datatypes.S k => s' ← body from s; for_range (from + 1) k body s'
  end.

(** ** DidWeWin *)

Record WinFlags := MkWinFlags {
  completeRow : bool;
  completeCol : bool;
  completeDiagonalA : bool;
  completeDiagonalB : bool
}.

Definition is_mark (c m : PlayerType.t) : bool := bool_decide (c = m).

Definition DidWeWin_body (row col : Z) (b : Board) (m : PlayerType.t)
  (i : Z) (f : WinFlags) : option WinFlags :=
  cr ← getCell b row i;
  cc ← getCell b i col;
  ca ← getCell b i i;
  cb ← getCell b (2 - i) i;
  Some (MkWinFlags
          (if is_mark cr m then completeRow f else false)
          (if is_mark cc m then completeCol f else false)
          (if is_mark ca m then completeDiagonalA f else false)
          (if is_mark cb m then completeDiagonalB f else false)).

Definition DidWeWin (row col : Z) (game : Game) (player : Player) : option bool :=
  f ← for_range 0 3 (DidWeWin_body row col (gameBoard game) (type player))
        (MkWinFlags true true true true);
  Some (completeRow f || completeCol f || completeDiagonalA f || completeDiagonalB f).

(** ** MakeAMove *)

(** The two nested loops that fill [possibleMoves]; the list is the filled
    prefix of the array and its length is [totalPossibleMoves]. *)
Definition findMoves_cell (b : Board) (row col : Z) (pm : list Z) : option (list Z) :=
  c ← getCell b row col;
  Some (if decide (c = PlayerType.None) then pm ++ [row * 3 + col] else pm).

Definition findMoves_row (b : Board) (row : Z) (pm : list Z) : option (list Z) :=
  for_range 0 3 (findMoves_cell b row) pm.

Definition findMoves (b : Board) : option (list Z) :=
  for_range 0 3 (findMoves_row b) [].

(** [possibleMoves[i]]: only the filled prefix may be read. *)
Definition readMove (pm : list Z) (i : Z) : option Z :=
  if decide (0 ≤ i) then pm !! Z.to_nat i else None.

(** The result of a call: the returned state, the player and the game as the
    call leaves them, and what it did. *)
Definition MoveResult : Type := GameState.t * Player * Game * list Action.

(** [rnd] is the value of [currentPlayer->myRand()]; it is drawn only when
    there is a move left.  [%] and [/] of C++ truncate: [Z.rem], [Z.quot]. *)
Definition MakeAMove (currentPlayer : Player) (currentGame : Game) (rnd : Z)
  : option MoveResult :=
  possibleMoves ← findMoves (gameBoard currentGame);
  let totalPossibleMoves := Z.of_nat (length possibleMoves) in
  if decide (totalPossibleMoves ≠ 0) then
    let randomMoveIndex := Z.rem rnd totalPossibleMoves in
    move ← readMove possibleMoves randomMoveIndex;
    let row := Z.quot move 3 in
    let col := Z.rem move 3 in
    b ← setCell (gameBoard currentGame) row col (type currentPlayer);
    let g := set_gameBoard b currentGame in
    let placed := Placed (gameNumber g) (id currentPlayer) (type currentPlayer) row col in
    won ← DidWeWin row col g currentPlayer;
    if won : bool then
      Some (GameState.Won,
            set_winCount (winCount currentPlayer + 1) currentPlayer, g,
            [placed; CountedWin (gameNumber g) (id currentPlayer)])
    else
      Some (GameState.StillPlaying, currentPlayer, g, [placed])
  else
    Some (GameState.Draw,
          set_drawCount (drawCount currentPlayer + 1) currentPlayer, currentGame,
          [CountedDrawMoving (gameNumber currentGame) (id currentPlayer)]).

(** ** PlayGame *)

(** How a critical section ends. *)
Inductive Exit :=
| WaitPartner   (* JoinGame: [gameCondition.wait(lock, playerX != -1)] *)
| WaitTurn      (* PlayGame: [gameCondition.wait(lock)] *)
| Returned      (* JoinGame has returned, the mutex is unlocked *)
| Exit1.        (* [exit(1)] *)

#[global] Instance Exit_eq_dec : EqDecision Exit.
Proof. solve_decision. Defined.

Record CritSec := MkCritSec {
  sec_player : Player;
  sec_game : Game;
  sec_exit : Exit;
  sec_actions : list Action
}.

(** [(type == X) ? O : X] *)
Definition otherTurn (t : PlayerType.t) : PlayerType.t :=
  if decide (t = PlayerType.X) then PlayerType.O else PlayerType.X.

(** The statement that hands the turn over. *)
Definition flipTurn (p : Player) (g : Game) : Game :=
  set_currentTurn (otherTurn (type p)) g.

(** One iteration of the [while] loop of PlayGame, entered with
    [currentGameState == StillPlaying]: the turn check, the flip, the move
    and the [switch] on its result, up to the [wait] or the [return]. *)
Definition PlayGame_turn (p : Player) (g : Game) (rnd : Z) : option CritSec :=
  if decide (currentTurn g ≠ type p) then
    Some (MkCritSec p g Exit1 [WrongPlayer (gameNumber g) (id p)])
  else
    let g1 := flipTurn p g in
    '(st, p', g2, acts) ← MakeAMove p g1 rnd;
    let g3 := set_currentGameState st g2 in
    let acts' := acts ++ [NotifiedAll (gameNumber g3) (id p')] in
    match st with
    | GameState.StillPlaying => Some (MkCritSec p' g3 WaitTurn acts')
    | GameState.Won => Some (MkCritSec p' g3 Returned acts')
    | GameState.Draw => Some (MkCritSec p' g3 Returned acts')
    end.

(** The code after the loop: the player that finds the game over. *)
Definition PlayGame_over (p : Player) (g : Game) : CritSec :=
  if decide (currentGameState g = GameState.Won) then
    MkCritSec (set_loseCount (loseCount p + 1) p) g Returned
      [CountedLoss (gameNumber g) (id p)]
  else if decide (currentGameState g = GameState.Draw) then
    MkCritSec (set_drawCount (drawCount p + 1) p) g Returned
      [CountedDrawWaiting (gameNumber g) (id p)]
  else MkCritSec p g Returned [].

(** PlayGame from the loop test: this is where a thread is after the call,
    and again each time it wakes up from [wait] and [continue]s. *)
Definition PlayGame_loop (p : Player) (g : Game) (rnd : Z) : option CritSec :=
  if decide (currentGameState g = GameState.StillPlaying)
  then PlayGame_turn p g rnd
  else Some (PlayGame_over p g).

(** PlayGame from its first line. *)
Definition PlayGame (p : Player) (g : Game) (rnd : Z) : option CritSec :=
  if decide (playerO g = -1 ∨ playerX g = -1) then
    Some (MkCritSec p g Exit1 [OnePlayer (gameNumber g) (id p)])
  else PlayGame_loop p g rnd.

(** ** JoinGame *)

(** The lines of JoinGame after the call of PlayGame. *)
Definition JoinGame_return (s : CritSec) : CritSec :=
  match sec_exit s with
  | Returned =>
      MkCritSec (set_gamesPlayed (gamesPlayed (sec_player s) + 1) (sec_player s))
        (sec_game s) Returned (sec_actions s)
  | _ => s
  end.

Definition prepend (acts : list Action) (s : CritSec) : CritSec :=
  MkCritSec (sec_player s) (sec_game s) (sec_exit s) (acts ++ sec_actions s).

(** JoinGame from the wait for the other player: the predicate is tested
    before the first wait and after every wake-up. *)
Definition JoinGame_partner (p : Player) (g : Game) (rnd : Z) : option CritSec :=
  if decide (playerX g ≠ -1)
  then JoinGame_return <$> PlayGame p g rnd
  else Some (MkCritSec p g WaitPartner []).

(** JoinGame from its first line. *)
Definition JoinGame (currentPlayer : Player) (currentGame : Game) (rnd : Z)
  : option CritSec :=
  if decide (playerO currentGame = -1) then
    let g := set_playerO (id currentPlayer) currentGame in
    let p := set_type PlayerType.O currentPlayer in
    prepend [Joined (gameNumber g) (id p) PlayerType.O] <$> JoinGame_partner p g rnd
  else
    let g := set_playerX (id currentPlayer) currentGame in
    let p := set_type PlayerType.X currentPlayer in
    prepend [Joined (gameNumber g) (id p) PlayerType.X]
      <$> (JoinGame_return <$> PlayGame p g rnd).

(** JoinGame from the wake-up inside PlayGame. *)
Definition JoinGame_turn (p : Player) (g : Game) (rnd : Z) : option CritSec :=
  JoinGame_return <$> PlayGame_loop p g rnd.

(** ** TryToPlayEachGame: the claim of a slot *)

(** The body of the loop under [playerCountMutex]: whether the slot was
    claimed, and the slot afterwards. *)
Definition TryToPlayEachGame_claim (g : Game) : bool * Game :=
  if decide (playerCount g = 2) then (false, g)
  else (true, set_playerCount (playerCount g + 1) g).

(** A number of claim attempts on one slot, one after the other. *)
Fixpoint claims (n : nat) (g : Game) : list bool * Game :=
  match n with
  | 0%nat => ([], g)
  | Datatypes.S k =>
      let '(ok, g') := TryToPlayEachGame_claim g in
      let '(oks, g'') := claims k g' in
      (ok :: oks, g'')
  end.

(** ** The pools and the threads *)

(** [struct GamePool] *)
Record GamePool := MkGamePool {
  perGameData : list Game;
  totalGameCount : Z
}.

(** [struct PlayerPool], without its mutexes and condition variables. *)
Record PlayerPool := MkPlayerPool {
  totalPlayerCount : Z;
  gunFlag : bool
}.

(** Where a player thread is between two of its critical sections.  A thread
    inside [wait] on a game's condition variable carries whether it has been
    notified since it started to wait. *)
Inductive Loc :=
| AtRegister                 (* PlayerThreadEntrypoint, first line *)
| AtStartingGun              (* [playerIncrementCondition.wait(lock, gunFlag)] *)
| AtScan (i : nat)           (* TryToPlayEachGame, loop test with index [i] *)
| AtJoin (i : nat)           (* slot [i] claimed, JoinGame not yet entered *)
| AtWaitPartner (i : nat) (notified : bool)   (* the wait of JoinGame *)
| AtWaitTurn (i : nat) (notified : bool)      (* the wait of PlayGame *)
| Finished.                  (* PlayerThreadEntrypoint has returned *)

#[global] Instance Loc_eq_dec : EqDecision Loc.
Proof. solve_decision. Defined.

(** A player thread: its entry of [perPlayerData] and where it is. *)
Record Worker := MkWorker {
  me : Player;
  pc : Loc
}.

(** Where [main] is. *)
Inductive MainLoc :=
| AwaitRegistered   (* [playerCondition.wait(.., totalPlayerCount == N)] *)
| AwaitFinished     (* [playerCondition.wait(.., totalPlayerCount == 0)] *)
| MainReturned.

#[global] Instance MainLoc_eq_dec : EqDecision MainLoc.
Proof. solve_decision. Defined.

(** The whole process.  [playerTotal] is the local [totalPlayerCount] of
    [main]; [alive] is false once [exit(1)] has been called. *)
Record Sys := MkSys {
  poolOfGames : GamePool;
  workers : list Worker;
  poolOfPlayers : PlayerPool;
  playerTotal : Z;
  mainAt : MainLoc;
  alive : bool
}.

Definition set_games (gs : list Game) (s : Sys) : Sys :=
  MkSys (MkGamePool gs (totalGameCount (poolOfGames s))) (workers s)
    (poolOfPlayers s) (playerTotal s) (mainAt s) (alive s).
Definition set_workers (ws : list Worker) (s : Sys) : Sys :=
  MkSys (poolOfGames s) ws (poolOfPlayers s) (playerTotal s) (mainAt s) (alive s).
Definition set_pool (pp : PlayerPool) (s : Sys) : Sys :=
  MkSys (poolOfGames s) (workers s) pp (playerTotal s) (mainAt s) (alive s).
Definition set_mainAt (m : MainLoc) (s : Sys) : Sys :=
  MkSys (poolOfGames s) (workers s) (poolOfPlayers s) (playerTotal s) m (alive s).
Definition set_alive (a : bool) (s : Sys) : Sys :=
  MkSys (poolOfGames s) (workers s) (poolOfPlayers s) (playerTotal s) (mainAt s) a.

Definition games (s : Sys) : list Game := perGameData (poolOfGames s).

Definition add_players (d : Z) (s : Sys) : Sys :=
  set_pool (MkPlayerPool (totalPlayerCount (poolOfPlayers s) + d)
              (gunFlag (poolOfPlayers s))) s.

(** [gameCondition.notify_all()] of game [i], seen from one thread. *)
Definition wake (i : nat) (w : Worker) : Worker :=
  match pc w with
  | AtWaitPartner j _ =>
      if decide (j = i) then MkWorker (me w) (AtWaitPartner j true) else w
  | AtWaitTurn j _ =>
      if decide (j = i) then MkWorker (me w) (AtWaitTurn j true) else w
  | _ => w
  end.

(** Whether a critical section called [notify_all]. *)
Definition is_notify (a : Action) : bool :=
  match a with NotifiedAll _ _ => true | _ => false end.
Definition notifies (acts : list Action) : bool := existsb is_notify acts.

(** The values [myRand] can return after [Init(0, INT_MAX)]. *)
Definition INT_MAX : Z := 2147483647.
Definition myRand_range (rnd : Z) : bool := (0 <=? rnd) && (rnd <=? INT_MAX).

(** Where thread [w] is after a critical section on game [i].  After
    [exit(1)] the thread is left where it was. *)
Definition next_loc (i : nat) (w : Worker) (c : CritSec) : Loc :=
  match sec_exit c with
  | WaitPartner => AtWaitPartner i false
  | WaitTurn => AtWaitTurn i false
  | Returned => AtScan (S i)
  | Exit1 => pc w
  end.

(** The state after thread [t], which was [w], ran a critical section on
    game [i]. *)
Definition commit (s : Sys) (t i : nat) (w : Worker) (c : CritSec) : Sys * list Action :=
  let ws := if notifies (sec_actions c) then wake i <$> workers s else workers s in
  let s1 := set_games (<[i := sec_game c]> (games s)) s in
  let s2 := set_workers (<[t := MkWorker (sec_player c) (next_loc i w c)]> ws) s1 in
  (if decide (sec_exit c = Exit1) then set_alive false s2 else s2, sec_actions c).

(** One step of player thread [t]: PlayerThreadEntrypoint, TryToPlayEachGame
    and JoinGame cut at their blocking points.  [rnd] is what [myRand] returns
    if the step draws a number.

    The steps on a game are the critical sections of the source.  The steps
    on the pool are coarser than the source: [totalPlayerCount++] (under
    [playersIncrementMutex]) and [totalPlayerCount--] (under
    [playersDecrementMutex]) are one atomic step each, although the two
    mutexes do not exclude each other; and the wait for the starting gun is
    passed whenever [gunFlag] holds, although [main] sets the flag under
    [startingGunMutex] and notifies without [playersIncrementMutex], so that
    the thread of the source can miss the notification. *)
Definition thread_step (s : Sys) (t : nat) (rnd : Z) : option (Sys * list Action) :=
  w ← workers s !! t;
  let goto l := set_workers (<[t := MkWorker (me w) l]> (workers s)) in
  match pc w with
  | AtRegister =>
      (* totalPlayerCount++ *)
      Some (goto AtStartingGun (add_players 1 s), [])
  | AtStartingGun =>
      if gunFlag (poolOfPlayers s) then Some (goto (AtScan 0) s, []) else None
  | AtScan i =>
      if decide (Z.of_nat i < totalGameCount (poolOfGames s)) then
        g ← games s !! i;
        let '(ok, g') := TryToPlayEachGame_claim g in
        Some (goto (if ok then AtJoin i else AtScan (S i))
                (set_games (<[i := g']> (games s)) s), [])
      else
        (* the loop is over; totalPlayerCount-- *)
        Some (goto Finished (add_players (-1) s), [])
  | AtJoin i =>
      g ← games s !! i; commit s t i w <$> JoinGame (me w) g rnd
  | AtWaitPartner i true =>
      g ← games s !! i; commit s t i w <$> JoinGame_partner (me w) g rnd
  | AtWaitTurn i true =>
      g ← games s !! i; commit s t i w <$> JoinGame_turn (me w) g rnd
  | AtWaitPartner _ false | AtWaitTurn _ false | Finished => None
  end.

(** A spurious wake-up of thread [t] from a wait on a game's condition
    variable. *)
Definition spurious_step (s : Sys) (t : nat) : option (Sys * list Action) :=
  w ← workers s !! t;
  match pc w with
  | AtWaitPartner i false =>
      Some (set_workers (<[t := MkWorker (me w) (AtWaitPartner i true)]> (workers s)) s, [])
  | AtWaitTurn i false =>
      Some (set_workers (<[t := MkWorker (me w) (AtWaitTurn i true)]> (workers s)) s, [])
  | _ => None
  end.

(** ** main *)

(** The game as the two initialisation loops of [main] leave it. *)
Definition resetGame (g : Game) : Game :=
  MkGame 0 (gameNumber g) PlayerType.X GameState.StillPlaying (-1) (-1) emptyBoard.

Definition initGame (i : nat) : Game :=
  MkGame 0 (Z.of_nat i + 1) PlayerType.X GameState.StillPlaying (-1) (-1) emptyBoard.

Definition resetPlayer (p : Player) : Player :=
  MkPlayer (id p) 0 0 0 0 PlayerType.None.

Definition initPlayer (i : nat) : Player :=
  MkPlayer (Z.of_nat i) 0 0 0 0 PlayerType.None.

(** The loop that starts one detached thread per player. *)
Definition spawn (w : Worker) : Worker := MkWorker (me w) AtRegister.

(** The checks of the two numbers read from the console: [true] when [main]
    goes on, [false] when it returns 1. *)
Definition main_accepts (totalPlayerCount totalGameCount : Z) : bool :=
  if decide (totalPlayerCount < 2) then false
  else if decide (totalGameCount < 0 ∨ totalPlayerCount < 0) then false
  else if decide (totalGameCount < 0 ∨ totalPlayerCount < 0) then false
  else if decide (totalPlayerCount < 2) then false
  else true.

(** The process when the first round has started its threads; [flag] is
    [gunFlag], false in [main]. *)
Definition round_start (players_n games_n : nat) (flag : bool) : Sys :=
  MkSys (MkGamePool (initGame <$> seq 0 games_n) (Z.of_nat games_n))
    ((λ i, MkWorker (initPlayer i) AtRegister) <$> seq 0 players_n)
    (MkPlayerPool 0 flag) (Z.of_nat players_n) AwaitRegistered true.

Definition main (totalPlayerCount totalGameCount : Z) : option Sys :=
  if main_accepts totalPlayerCount totalGameCount
  then Some (round_start (Z.to_nat totalPlayerCount) (Z.to_nat totalGameCount) false)
  else None.

(** The end of a round, from the second wait of [main] to the start of the
    next round or the return: the two reset loops and, when the user answers
    yes, the threads of the next round.  The threads of the past round have
    all returned by then ([all_returned] below), so each entry of
    [perPlayerData] has one thread again. *)
Definition main_replay (answer : bool) (s : Sys) : Sys :=
  let s1 := set_games (resetGame <$> games s) s in
  let s2 := set_workers ((λ w, MkWorker (resetPlayer (me w)) (pc w)) <$> workers s1) s1 in
  if answer
  then set_mainAt AwaitRegistered (set_workers (spawn <$> workers s2) s2)
  else set_mainAt MainReturned s2.

(** One step of [main] inside its [while] loop.  [answer] is the reply to
    "Do you want to play again?".  Each of the two waits is passed whenever
    its predicate holds; the threads of the source change the counter and
    notify [playerCondition] without [totalPlayersMutex], so that [main] can
    miss the last notification and stay in the wait: a step of [main] that
    is defined here is possible in the source, not certain. *)
Definition main_step (s : Sys) (answer : bool) : option (Sys * list Action) :=
  match mainAt s with
  | AwaitRegistered =>
      if decide (totalPlayerCount (poolOfPlayers s) = playerTotal s) then
        Some (set_mainAt AwaitFinished
                (set_pool (MkPlayerPool (totalPlayerCount (poolOfPlayers s)) true) s), [])
      else None
  | AwaitFinished =>
      if decide (totalPlayerCount (poolOfPlayers s) = 0)
      then Some (main_replay answer s, [])
      else None
  | MainReturned => None
  end.

(** ** Executions *)

Inductive Event :=
| Run (t : nat) (rnd : Z)     (* thread [t] runs its next critical section *)
| Spurious (t : nat)          (* thread [t] wakes up without a notification *)
| FireGun                     (* main passes its first wait *)
| EndRound (answer : bool).   (* main passes its second wait *)

Definition step (s : Sys) (e : Event) : option (Sys * list Action) :=
  if alive s then
    match e with
    | Run t rnd => if myRand_range rnd then thread_step s t rnd else None
    | Spurious t => spurious_step s t
    | FireGun =>
        if decide (mainAt s = AwaitRegistered) then main_step s false else None
    | EndRound answer =>
        if decide (mainAt s = AwaitFinished) then main_step s answer else None
    end
  else None.

(** The state and the actions after a list of events, when each is enabled. *)
Fixpoint run (s : Sys) (es : list Event) : option (Sys * list Action) :=
  match es with
  | [] => Some (s, [])
  | e :: es' =>
      '(s1, a1) ← step s e;
      '(s2, a2) ← run s1 es';
      Some (s2, a1 ++ a2)
  end.

(** The events of one round: everything but the end of the round. *)
Definition in_round (e : Event) : Prop :=
  match e with EndRound _ => False | _ => True end.

(** [exec s0 acts s]: inside one round, [s0] reaches [s] and does [acts]. *)
Inductive exec (s0 : Sys) : list Action → Sys → Prop :=
| exec_nil : exec s0 [] s0
| exec_snoc acts s e s' a :
    exec s0 acts s → in_round e → step s e = Some (s', a) →
    exec s0 (acts ++ a) s'.

(** ** Vocabulary of the statements *)

Definition rowFull (b : Board) (row : Z) (m : PlayerType.t) : Prop :=
  ∀ i, 0 ≤ i < 3 → getCell b row i = Some m.
Definition colFull (b : Board) (col : Z) (m : PlayerType.t) : Prop :=
  ∀ i, 0 ≤ i < 3 → getCell b i col = Some m.
Definition diagFull (b : Board) (m : PlayerType.t) : Prop :=
  ∀ i, 0 ≤ i < 3 → getCell b i i = Some m.
Definition antiDiagFull (b : Board) (m : PlayerType.t) : Prop :=
  ∀ i, 0 ≤ i < 3 → getCell b (2 - i) i = Some m.

(** No cell of the board is empty. *)
Definition boardFull (b : Board) : Prop :=
  ∀ row col, 0 ≤ row < 3 → 0 ≤ col < 3 → getCell b row col ≠ Some PlayerType.None.

(** Cell number [m] of the board, counted row by row, is empty. *)
Definition openAt (b : Board) (m : Z) : bool :=
  match getCell b (Z.quot m 3) (Z.rem m 3) with
  | Some PlayerType.None => true
  | _ => false
  end.

Definition cellNumbers : list Z := [0; 1; 2; 3; 4; 5; 6; 7; 8].

(** What a call of MakeAMove returns when no cell is empty. *)
Definition moveDraw (p : Player) (g : Game) : MoveResult :=
  (GameState.Draw, set_drawCount (drawCount p + 1) p, g,
   [CountedDrawMoving (gameNumber g) (id p)]).

(** What it returns when it has written cell [(row, col)], leaving the board
    [b], and DidWeWin has answered [won]. *)
Definition movePlaced (p : Player) (g : Game) (row col : Z) (b : Board) (won : bool)
  : MoveResult :=
  if won then
    (GameState.Won, set_winCount (winCount p + 1) p, set_gameBoard b g,
     [Placed (gameNumber g) (id p) (type p) row col; CountedWin (gameNumber g) (id p)])
  else
    (GameState.StillPlaying, p, set_gameBoard b g,
     [Placed (gameNumber g) (id p) (type p) row col]).

Inductive MoveSpec (p : Player) (g : Game) : MoveResult → Prop :=
| Move_draw :
    boardFull (gameBoard g) → MoveSpec p g (moveDraw p g)
| Move_placed row col b won :
    0 ≤ row < 3 → 0 ≤ col < 3 →
    getCell (gameBoard g) row col = Some PlayerType.None →
    setCell (gameBoard g) row col (type p) = Some b →
    DidWeWin row col (set_gameBoard b g) p = Some won →
    MoveSpec p g (movePlaced p g row col b won).

(** The number of successful claims in a list of results. *)
Definition successes (oks : list bool) : nat := length (List.filter (λ ok : bool, ok) oks).

(** ** Invariants of a round *)

(** The game number of slot [i] and the id of thread [t]. *)
Definition gn_of (i : nat) : Z := Z.of_nat i + 1.
Definition tid (t : nat) : Z := Z.of_nat t.

Definition action_game (a : Action) : Z :=
  match a with
  | Joined gn _ _ | Placed gn _ _ _ _ | CountedWin gn _ | CountedDrawMoving gn _
  | CountedLoss gn _ | CountedDrawWaiting gn _ | NotifiedAll gn _
  | WrongPlayer gn _ | OnePlayer gn _ => gn
  end.

Definition action_player (a : Action) : Z :=
  match a with
  | Joined _ p _ | Placed _ p _ _ _ | CountedWin _ p | CountedDrawMoving _ p
  | CountedLoss _ p | CountedDrawWaiting _ p | NotifiedAll _ p
  | WrongPlayer _ p | OnePlayer _ p => p
  end.

(** The joins, the marks placed and the results counted in one game, in the
    order in which they happened. *)
Definition join_of (gn : Z) (a : Action) : option (Z * PlayerType.t) :=
  match a with
  | Joined gn' pid role => if decide (gn' = gn) then Some (pid, role) else None
  | _ => None
  end.

Definition mark_of (gn : Z) (a : Action) : option (Z * PlayerType.t) :=
  match a with
  | Placed gn' pid mark _ _ => if decide (gn' = gn) then Some (pid, mark) else None
  | _ => None
  end.

Definition tally_of (gn : Z) (a : Action) : option Action :=
  match a with
  | CountedWin gn' _ | CountedDrawMoving gn' _ | CountedLoss gn' _
  | CountedDrawWaiting gn' _ => if decide (gn' = gn) then Some a else None
  | _ => None
  end.

Definition joins (gn : Z) (acts : list Action) : list (Z * PlayerType.t) :=
  omap (join_of gn) acts.
Definition marks (gn : Z) (acts : list Action) : list (Z * PlayerType.t) :=
  omap (mark_of gn) acts.
Definition tallies (gn : Z) (acts : list Action) : list Action :=
  omap (tally_of gn) acts.

(** How often a player counted a win, a loss, a draw. *)
Definition is_win (pid : Z) (a : Action) : bool :=
  match a with CountedWin _ p => bool_decide (p = pid) | _ => false end.
Definition is_loss (pid : Z) (a : Action) : bool :=
  match a with CountedLoss _ p => bool_decide (p = pid) | _ => false end.
Definition is_draw (pid : Z) (a : Action) : bool :=
  match a with
  | CountedDrawMoving _ p | CountedDrawWaiting _ p => bool_decide (p = pid)
  | _ => false
  end.
Definition times (f : Action → bool) (acts : list Action) : Z :=
  Z.of_nat (length (List.filter f acts)).

(** The role that places mark number [n] of a game, counted from 0. *)
Definition turn_after (n : nat) : PlayerType.t :=
  if Nat.even n then PlayerType.X else PlayerType.O.

Definition alternates (l : list PlayerType.t) : Prop :=
  ∀ n m, l !! n = Some m → m = turn_after n.

(** Thread locations seen from slot [i]. *)
Definition inside (i : nat) (l : Loc) : Prop :=
  match l with
  | AtWaitPartner j _ | AtWaitTurn j _ => j = i
  | _ => False
  end.

Definition ready (i : nat) (l : Loc) : Prop :=
  l = AtWaitPartner i true ∨ l = AtWaitTurn i true.

Definition parked (i : nat) (l : Loc) : Prop := ∃ n, l = AtWaitTurn i n.

Definition joining (ws : list Worker) (i : nat) : nat :=
  length (List.filter (λ w, bool_decide (pc w = AtJoin i)) ws).

Definition nobody_else (ws : list Worker) (i : nat) (allowed : list nat) : Prop :=
  ∀ t w, ws !! t = Some w → inside i (pc w) → t ∈ allowed.

(** The life of a slot during a round.  [a] is the thread that joined as O,
    [b] the one that joined as X. *)
Inductive Phase :=
| Open                           (* nobody has joined *)
| Lone (a : nat)                 (* [a] waits for a partner *)
| Playing (a b x y : nat)        (* [x] is to move, [y] has moved *)
| Over (a b m o : nat) (how : GameState.t)
    (* [m] has ended the game and left, [o] has not yet seen it *)
| Done (a b m o : nat) (how : GameState.t).   (* both have left *)

Definition pair_of (a b x y : nat) : Prop := (x = a ∧ y = b) ∨ (x = b ∧ y = a).

Definition role (a x : nat) : PlayerType.t :=
  if decide (x = a) then PlayerType.O else PlayerType.X.

Definition first_tally (how : GameState.t) (gn pid : Z) : Action :=
  match how with
  | GameState.Won => CountedWin gn pid
  | _ => CountedDrawMoving gn pid
  end.

Definition second_tally (how : GameState.t) (gn pid : Z) : Action :=
  match how with
  | GameState.Won => CountedLoss gn pid
  | _ => CountedDrawWaiting gn pid
  end.

Definition marks_by (a b : nat) (l : list (Z * PlayerType.t)) : Prop :=
  ∀ pid m, (pid, m) ∈ l →
    (pid = tid a ∧ m = PlayerType.O) ∨ (pid = tid b ∧ m = PlayerType.X).

(** What the actions of a round say about slot [i] in each phase. *)
Definition trace_ok (acts : list Action) (i : nat) (ph : Phase) : Prop :=
  let gn := gn_of i in
  alternates (snd <$> marks gn acts) ∧
  match ph with
  | Open => joins gn acts = [] ∧ marks gn acts = [] ∧ tallies gn acts = []
  | Lone a =>
      joins gn acts = [(tid a, PlayerType.O)] ∧ marks gn acts = [] ∧
      tallies gn acts = []
  | Playing a b x y =>
      joins gn acts = [(tid a, PlayerType.O); (tid b, PlayerType.X)] ∧
      marks_by a b (marks gn acts) ∧ tallies gn acts = []
  | Over a b m o how =>
      joins gn acts = [(tid a, PlayerType.O); (tid b, PlayerType.X)] ∧
      marks_by a b (marks gn acts) ∧
      tallies gn acts = [first_tally how gn (tid m)]
  | Done a b m o how =>
      joins gn acts = [(tid a, PlayerType.O); (tid b, PlayerType.X)] ∧
      marks_by a b (marks gn acts) ∧
      tallies gn acts = [first_tally how gn (tid m); second_tally how gn (tid o)]
  end.

(** What the state says about slot [i] in each phase: [g] is the slot, [ws]
    are the threads and [placed] is the number of marks on the board. *)
Definition slot_ok (g : Game) (ws : list Worker) (placed : nat) (i : nat)
  (ph : Phase) : Prop :=
  match ph with
  | Open =>
      playerO g = -1 ∧ playerX g = -1 ∧
      currentGameState g = GameState.StillPlaying ∧
      currentTurn g = PlayerType.X ∧
      playerCount g = Z.of_nat (joining ws i) ∧ playerCount g ≤ 2 ∧
      nobody_else ws i []
  | Lone a =>
      playerO g = tid a ∧ playerX g = -1 ∧
      currentGameState g = GameState.StillPlaying ∧
      currentTurn g = PlayerType.X ∧
      playerCount g = Z.of_nat (joining ws i) + 1 ∧ playerCount g ≤ 2 ∧
      nobody_else ws i [a] ∧
      ∃ w n, ws !! a = Some w ∧ pc w = AtWaitPartner i n ∧
             type (me w) = PlayerType.O
  | Playing a b x y =>
      playerO g = tid a ∧ playerX g = tid b ∧ a ≠ b ∧ pair_of a b x y ∧
      currentGameState g = GameState.StillPlaying ∧
      currentTurn g = role a x ∧
      currentTurn g = turn_after placed ∧
      playerCount g = 2 ∧ joining ws i = 0%nat ∧
      nobody_else ws i [x; y] ∧
      ∃ wx wy, ws !! x = Some wx ∧ ws !! y = Some wy ∧
               type (me wx) = role a x ∧ type (me wy) = role a y ∧
               ready i (pc wx) ∧ parked i (pc wy)
  | Over a b m o how =>
      playerO g = tid a ∧ playerX g = tid b ∧ a ≠ b ∧ pair_of a b m o ∧
      how ≠ GameState.StillPlaying ∧ currentGameState g = how ∧
      playerCount g = 2 ∧ joining ws i = 0%nat ∧
      nobody_else ws i [o] ∧
      ∃ wo, ws !! o = Some wo ∧ ready i (pc wo)
  | Done a b m o how =>
      a ≠ b ∧ pair_of a b m o ∧
      how ≠ GameState.StillPlaying ∧ currentGameState g = how ∧
      playerCount g = 2 ∧ joining ws i = 0%nat ∧
      nobody_else ws i []
  end.

Definition state_ok (s : Sys) (acts : list Action) (i : nat) (ph : Phase) : Prop :=
  ∃ g, games s !! i = Some g ∧
       slot_ok g (workers s) (length (marks (gn_of i) acts)) i ph.

Definition loc_ok (games_n : nat) (l : Loc) : Prop :=
  match l with
  | AtJoin i | AtWaitPartner i _ | AtWaitTurn i _ => (i < games_n)%nat
  | _ => True
  end.

(** The shape of the two pools. *)
Definition well_formed (players_n games_n : nat) (s : Sys) : Prop :=
  length (games s) = games_n ∧
  totalGameCount (poolOfGames s) = Z.of_nat games_n ∧
  length (workers s) = players_n ∧
  (∀ i g, games s !! i = Some g → gameNumber g = gn_of i) ∧
  (∀ t w, workers s !! t = Some w → id (me w) = tid t ∧ loc_ok games_n (pc w)).

(** The counters of every player are the numbers of results it counted. *)
Definition counters_ok (s : Sys) (acts : list Action) : Prop :=
  ∀ t w, workers s !! t = Some w →
    winCount (me w) = times (is_win (tid t)) acts ∧
    loseCount (me w) = times (is_loss (tid t)) acts ∧
    drawCount (me w) = times (is_draw (tid t)) acts.

Definition round_inv (players_n games_n : nat) (s : Sys) (acts : list Action) : Prop :=
  well_formed players_n games_n s ∧
  counters_ok s acts ∧
  ∀ i, (i < games_n)%nat → ∃ ph, trace_ok acts i ph ∧ state_ok s acts i ph.

(** Both players of slot [i] have joined it and have left it. *)
Definition completed (s : Sys) (i : nat) : Prop :=
  ∃ g, games s !! i = Some g ∧ playerCount g = 2 ∧
    ∀ t w, workers s !! t = Some w → pc w ≠ AtJoin i ∧ ¬ inside i (pc w).

(** What one critical section of PlayGame can be for a player whose turn it
    is: a move that leaves the game open, a winning move, or no move left. *)
Definition same_slot (g g' : Game) : Prop :=
  playerCount g' = playerCount g ∧ gameNumber g' = gameNumber g ∧
  playerX g' = playerX g ∧ playerO g' = playerO g.

Inductive TurnSpec (p : Player) (g : Game) : CritSec → Prop :=
| Turn_still g' row col :
    same_slot g g' → currentTurn g' = otherTurn (type p) →
    currentGameState g' = GameState.StillPlaying →
    TurnSpec p g (MkCritSec p g' WaitTurn
      [Placed (gameNumber g) (id p) (type p) row col;
       NotifiedAll (gameNumber g) (id p)])
| Turn_won g' row col :
    same_slot g g' → currentTurn g' = otherTurn (type p) →
    currentGameState g' = GameState.Won →
    TurnSpec p g (MkCritSec (set_winCount (winCount p + 1) p) g' Returned
      [Placed (gameNumber g) (id p) (type p) row col;
       CountedWin (gameNumber g) (id p);
       NotifiedAll (gameNumber g) (id p)])
| Turn_draw g' :
    same_slot g g' → currentTurn g' = otherTurn (type p) →
    currentGameState g' = GameState.Draw →
    TurnSpec p g (MkCritSec (set_drawCount (drawCount p + 1) p) g' Returned
      [CountedDrawMoving (gameNumber g) (id p);
       NotifiedAll (gameNumber g) (id p)]).

(** What every critical section of PlayGame called from JoinGame can be. *)
Inductive LoopSpec (p : Player) (g : Game) : CritSec → Prop :=
| Loop_wrong :
    currentGameState g = GameState.StillPlaying → currentTurn g ≠ type p →
    LoopSpec p g (MkCritSec p g Exit1 [WrongPlayer (gameNumber g) (id p)])
| Loop_turn c :
    currentGameState g = GameState.StillPlaying → currentTurn g = type p →
    TurnSpec p g c → LoopSpec p g (JoinGame_return c)
| Loop_over :
    currentGameState g ≠ GameState.StillPlaying →
    LoopSpec p g (JoinGame_return (PlayGame_over p g)).

(** The counters of the player after a critical section are those before
    plus what the section counted, and the section acts in the name of the
    player on the game it was given. *)
Definition accounts (p : Player) (gn : Z) (c : CritSec) : Prop :=
  id (sec_player c) = id p ∧
  winCount (sec_player c) = winCount p + times (is_win (id p)) (sec_actions c) ∧
  loseCount (sec_player c) = loseCount p + times (is_loss (id p)) (sec_actions c) ∧
  drawCount (sec_player c) = drawCount p + times (is_draw (id p)) (sec_actions c) ∧
  Forall (λ a, action_player a = id p ∧ action_game a = gn) (sec_actions c) ∧
  gameNumber (sec_game c) = gn.

(** [notify_all] on the location of a thread. *)
Definition wake_loc (i : nat) (l : Loc) : Loc :=
  match l with
  | AtWaitPartner j _ => if decide (j = i) then AtWaitPartner j true else l
  | AtWaitTurn j _ => if decide (j = i) then AtWaitTurn j true else l
  | _ => l
  end.

Definition wake_if (b : bool) (i : nat) (w : Worker) : Worker :=
  if b then wake i w else w.

(** The threads after thread [t] became [w'] and, when [b], notified the
    threads that wait on game [i]. *)
Definition after_step (ws : list Worker) (t : nat) (w' : Worker) (b : bool) (i : nat)
  : list Worker :=
  <[t := w']> (wake_if b i <$> ws).

Definition joins_at (j : nat) (w : Worker) : nat :=
  if bool_decide (pc w = AtJoin j) then 1%nat else 0%nat.

(** The locations that belong to no slot. *)
Definition outside (l : Loc) : Prop :=
  match l with
  | AtJoin _ | AtWaitPartner _ _ | AtWaitTurn _ _ => False
  | _ => True
  end.

(** A round of two players and one game in which every number drawn is 0:
    the marks fill the board row by row and X wins with its fourth mark. *)
Definition demo_events : list Event :=
  [Run 0 0; Run 1 0; FireGun; Run 0 0; Run 1 0; Run 0 0; Run 1 0;
   Run 0 0; Run 1 0; Run 0 0; Run 1 0; Run 0 0; Run 1 0; Run 0 0; Run 1 0;
   Run 0 0; Run 0 0; Run 1 0].

(** ** Rounds without games and the replay *)

(** What holds in every state of a round without games. *)
Definition zero_inv (s : Sys) : Prop :=
  games s = [] ∧ totalGameCount (poolOfGames s) = 0 ∧
  ∀ t w, workers s !! t = Some w → me w = initPlayer t ∧ outside (pc w).

(** The threads of a round of [N] players in which the [k] first threads
    are at [l'] and the others at [l]. *)
Definition sweep (N k : nat) (l l' : Loc) : list Worker :=
  (λ t, MkWorker (initPlayer t) (if decide (t < k)%nat then l' else l)) <$> seq 0 N.

(** The process in such a round: no game, the threads of [sweep], the
    counter of the pool at [count]. *)
Definition zero_state (N k : nat) (l l' : Loc) (count : Z) (flag : bool)
  (m : MainLoc) : Sys :=
  MkSys (MkGamePool [] 0) (sweep N k l l') (MkPlayerPool count flag)
    (Z.of_nat N) m true.

(** Every thread registers, main fires the gun, every thread passes the gun,
    every thread runs its empty loop. *)
Definition all_run (N : nat) : list Event := (λ t, Run t 0) <$> seq 0 N.

Definition zero_round (N : nat) : list Event :=
  all_run N ++ [FireGun] ++ all_run N ++ all_run N.

(** What holds of [main] in every state of a round: once it has passed
    its first wait the gun has been fired. *)
Definition main_inv (N : nat) (s : Sys) : Prop :=
  playerTotal s = Z.of_nat N ∧
  (mainAt s = AwaitFinished → gunFlag (poolOfPlayers s) = true).

(** ** The barrier of a round *)

(** A thread that has registered and has not returned. *)
Definition running (l : Loc) : bool :=
  match l with AtRegister | Finished => false | _ => true end.

Definition runners (ws : list Worker) : nat :=
  length (List.filter (λ w, running (pc w)) ws).

Definition runs_at (w : Worker) : nat := if running (pc w) then 1%nat else 0%nat.

(** The counter of the pool counts the threads that run, and [main] passes
    its first wait only when all threads have registered. *)
Definition barrier_inv (s : Sys) : Prop :=
  totalPlayerCount (poolOfPlayers s) = Z.of_nat (runners (workers s)) ∧
  playerTotal s = Z.of_nat (length (workers s)) ∧
  (mainAt s = AwaitFinished → ∀ t w, workers s !! t = Some w → pc w ≠ AtRegister).

(** In the first round, as long as [main] is in its first wait the gun has
    not been fired and no thread has passed it. *)
Definition gun_inv (s : Sys) : Prop :=
  mainAt s = AwaitRegistered →
  gunFlag (poolOfPlayers s) = false ∧
  ∀ t w, workers s !! t = Some w → pc w = AtRegister ∨ pc w = AtStartingGun.

(** What a step of a thread does to the thread and to the pool of players:
    [w] is the thread before and [w'] after. *)
Definition thread_shape (s s' : Sys) (t : nat) (w w' : Worker) : Prop :=
  workers s !! t = Some w ∧
  (∃ b i, workers s' = after_step (workers s) t w' b i) ∧
  totalPlayerCount (poolOfPlayers s') =
    totalPlayerCount (poolOfPlayers s) + Z.of_nat (runs_at w') - Z.of_nat (runs_at w) ∧
  gunFlag (poolOfPlayers s') = gunFlag (poolOfPlayers s) ∧
  mainAt s' = mainAt s ∧ playerTotal s' = playerTotal s ∧
  pc w' ≠ AtRegister ∧
  ((pc w = AtRegister ∧ pc w' = AtStartingGun) ∨
   (pc w = AtStartingGun ∧ gunFlag (poolOfPlayers s) = true) ∨
   (running (pc w) = true ∧ pc w ≠ AtStartingGun)).

(** ** PrintGameBoard *)

(** What [printf] writes for one cell: ["[ ]"], or ["[%c]"] with ['X'] for
    an X and ['O'] for everything else. *)
Definition showCell (c : PlayerType.t) : string :=
  if decide (c = PlayerType.None) then "[ ]"
  else String "[" (String (if decide (c = PlayerType.X) then "X" else "O")%char "]").

(** The line feed of [printf("\n")]. *)
Definition newline : string := String "010" "".

(** The body of the inner loop; [out] is the text written so far. *)
Definition PrintGameBoard_cell (b : Board) (row col : Z) (out : string) : option string :=
  c ← getCell b row col; Some (out +:+ showCell c).

Definition PrintGameBoard_row (b : Board) (row : Z) (out : string) : option string :=
  out' ← for_range 0 3 (PrintGameBoard_cell b row) out;
  Some (out' +:+ newline).

(** The text that a call writes to the standard output. *)
Definition PrintGameBoard (currentGame : Game) : option string :=
  for_range 0 3 (PrintGameBoard_row (gameBoard currentGame)) "".

(** Reading the text back: a cell, a row of three cells and its line feed,
    three rows and the end of the text. *)
Definition readCell (s : string) : option (PlayerType.t * string) :=
  match s with
  | String "[" (String c (String "]" rest)) =>
      if decide (c = " "%char) then Some (PlayerType.None, rest)
      else if decide (c = "X"%char) then Some (PlayerType.X, rest)
      else if decide (c = "O"%char) then Some (PlayerType.O, rest)
      else None
  | _ => None
  end.

Definition readRow (s : string) : option (Arr3 PlayerType.t * string) :=
  '(c0, s0) ← readCell s;
  '(c1, s1) ← readCell s0;
  '(c2, s2) ← readCell s1;
  match s2 with
  | String "010" rest => Some (MkArr3 c0 c1 c2, rest)
  | _ => None
  end.

Definition readBoard (s : string) : option Board :=
  '(r0, s0) ← readRow s;
  '(r1, s1) ← readRow s0;
  '(r2, s2) ← readRow s1;
  match s2 with
  | EmptyString => Some (MkArr3 r0 r1 r2)
  | _ => None
  end.

Definition showRow (r : Arr3 PlayerType.t) : string :=
  showCell (a0 r) +:+ showCell (a1 r) +:+ showCell (a2 r) +:+ newline.

Definition showBoard (b : Board) : string :=
  showRow (a0 b) +:+ showRow (a1 b) +:+ showRow (a2 b).

(** ** PrintResults *)

(** [a[i]] for an array of [length a] entries. *)
Definition at_index {A} (a : list A) (i : Z) : option A :=
  if decide (0 ≤ i) then a !! Z.to_nat i else None.

(** The calls of [Log] in PrintResults, each with the arguments that
    PrintResults gives it.  ([Log] itself hands only the format on to
    [printf]; what the lines record is the call, not the characters
    written.) *)
Inductive ResultLine :=
| PlayerHeader                                   (* "********* Player Results **********" *)
| PlayerResult (pid played won lost draw : Z)    (* "Player %d, Played %d game(s), Won %d, Lost %d, Draw %d" *)
| PlayerTotals (players wins losses draws : Z)   (* "Total Players %d, Wins %d, Losses %d, Draws %d" *)
| GameHeader                                     (* "********* Game Results **********" *)
| GameResult (gn x o : Z) (result : string)      (* "Game %d - 'X' player %d, 'O' player %d, game result %s" *)
| GameTotals (games won drawn : Z).              (* "Total Games = %d, %d Games Won, %d Games were a Draw" *)

(** The [int] that holds the result [z] of an addition of [int]s: [z] modulo
    2^32 in two's complement, so [z] itself when it is between [INT_MIN] and
    [INT_MAX].  (C++ leaves the overflow of a signed addition undefined; the
    compiled [+=] and [++] wrap around.) *)
Definition INT_MIN : Z := -2147483648.

Definition int_wrap (z : Z) : Z :=
  Z.modulo (z + 2147483648) 4294967296 - 2147483648.

(** The local counters of the two loops. *)
Record PlayerSums := MkPlayerSums {
  totalPlayerWins : Z;
  totalPlayerLoses : Z;
  totalPlayerTies : Z
}.

Record GameSums := MkGameSums {
  totalGamesWon : Z;
  totalGamesTied : Z
}.

Definition PrintResults_player (perPlayerData : list Player) (i : Z)
  (st : PlayerSums * list ResultLine) : option (PlayerSums * list ResultLine) :=
  p ← at_index perPlayerData i;
  Some (MkPlayerSums (int_wrap (totalPlayerWins st.1 + winCount p))
          (int_wrap (totalPlayerLoses st.1 + loseCount p))
          (int_wrap (totalPlayerTies st.1 + drawCount p)),
        st.2 ++ [PlayerResult (id p) (gamesPlayed p) (winCount p) (loseCount p)
                   (drawCount p)]).

Definition PrintResults_game (perGameData : list Game) (i : Z)
  (st : GameSums * list ResultLine) : option (GameSums * list ResultLine) :=
  g ← at_index perGameData i;
  let line := GameResult (gameNumber g) (playerX g) (playerO g)
                (if decide (currentGameState g = GameState.Won) then "Won" else "Draw") in
  Some (if decide (currentGameState g = GameState.Won)
        then MkGameSums (int_wrap (totalGamesWon st.1 + 1)) (totalGamesTied st.1)
        else MkGameSums (totalGamesWon st.1) (int_wrap (totalGamesTied st.1 + 1)),
        st.2 ++ [line]).

Definition PrintResults (perPlayerData : list Player) (totalPlayerCount : Z)
  (perGameData : list Game) (totalGameCount : Z) : option (list ResultLine) :=
  '(ps, log1) ← for_range 0 (Z.to_nat totalPlayerCount)
                  (PrintResults_player perPlayerData)
                  (MkPlayerSums 0 0 0, [PlayerHeader]);
  let log2 := log1 ++ [PlayerTotals totalPlayerCount (totalPlayerWins ps)
                         (totalPlayerLoses ps) (Z.quot (totalPlayerTies ps) 2);
                       GameHeader] in
  '(gs, log3) ← for_range 0 (Z.to_nat totalGameCount)
                  (PrintResults_game perGameData) (MkGameSums 0 0, log2);
  Some (log3 ++ [GameTotals totalGameCount (totalGamesWon gs) (totalGamesTied gs)]).

(** The call of PrintResults in [main], when it has passed its second wait. *)
Definition main_results (s : Sys) : option (list ResultLine) :=
  PrintResults (me <$> workers s) (playerTotal s) (games s)
    (totalGameCount (poolOfGames s)).

(** The sum of a field over an array. *)
Definition total {A} (f : A → Z) (l : list A) : Z := foldr (λ x n, f x + n) 0 l.

(** The games of an array that are in a state. *)
Definition in_state (st : GameState.t) (gs : list Game) : Z :=
  Z.of_nat (length (List.filter (λ g, bool_decide (currentGameState g = st)) gs)).

Definition playerLine (p : Player) : ResultLine :=
  PlayerResult (id p) (gamesPlayed p) (winCount p) (loseCount p) (drawCount p).

Definition gameLine (g : Game) : ResultLine :=
  GameResult (gameNumber g) (playerX g) (playerO g)
    (if decide (currentGameState g = GameState.Won) then "Won" else "Draw").

(** What PrintResults logs for [players] and [games] when it is given
    their lengths: the totals are the sums as an [int] holds them. *)
Definition report (players : list Player) (games : list Game) : list ResultLine :=
  [PlayerHeader] ++ (playerLine <$> players) ++
  [PlayerTotals (Z.of_nat (length players)) (int_wrap (total winCount players))
     (int_wrap (total loseCount players))
     (Z.quot (int_wrap (total drawCount players)) 2);
   GameHeader] ++
  (gameLine <$> games) ++
  [GameTotals (Z.of_nat (length games)) (int_wrap (in_state GameState.Won games))
     (int_wrap (Z.of_nat (length games) - in_state GameState.Won games))].

(** ** What a critical section of a game is *)

(** The player after [winCount++], [loseCount++] or [drawCount++] and the
    [gamesPlayed++] of JoinGame. *)
Definition won_game (p : Player) : Player :=
  set_gamesPlayed (gamesPlayed p + 1) (set_winCount (winCount p + 1) p).
Definition lost_game (p : Player) : Player :=
  set_gamesPlayed (gamesPlayed p + 1) (set_loseCount (loseCount p + 1) p).
Definition drew_game (p : Player) : Player :=
  set_gamesPlayed (gamesPlayed p + 1) (set_drawCount (drawCount p + 1) p).

(** The game after the player has taken its turn and left the board [b]. *)
Definition moved (p : Player) (g : Game) (b : Board) (st : GameState.t) : Game :=
  set_currentGameState st (set_gameBoard b (flipTurn p g)).

(** Every way in which JoinGame can go on from the loop test of PlayGame to
    the next wait or to its end. *)
Inductive TurnOutcome (p : Player) (g : Game) : CritSec → Prop :=
| Outcome_wrong :
    currentGameState g = GameState.StillPlaying → currentTurn g ≠ type p →
    TurnOutcome p g (MkCritSec p g Exit1 [WrongPlayer (gameNumber g) (id p)])
| Outcome_still row col b :
    currentGameState g = GameState.StillPlaying → currentTurn g = type p →
    0 ≤ row < 3 → 0 ≤ col < 3 →
    getCell (gameBoard g) row col = Some PlayerType.None →
    setCell (gameBoard g) row col (type p) = Some b →
    DidWeWin row col (set_gameBoard b (flipTurn p g)) p = Some false →
    TurnOutcome p g
      (MkCritSec p (moved p g b GameState.StillPlaying) WaitTurn
         [Placed (gameNumber g) (id p) (type p) row col;
          NotifiedAll (gameNumber g) (id p)])
| Outcome_won row col b :
    currentGameState g = GameState.StillPlaying → currentTurn g = type p →
    0 ≤ row < 3 → 0 ≤ col < 3 →
    getCell (gameBoard g) row col = Some PlayerType.None →
    setCell (gameBoard g) row col (type p) = Some b →
    DidWeWin row col (set_gameBoard b (flipTurn p g)) p = Some true →
    TurnOutcome p g
      (MkCritSec (won_game p) (moved p g b GameState.Won) Returned
         [Placed (gameNumber g) (id p) (type p) row col;
          CountedWin (gameNumber g) (id p);
          NotifiedAll (gameNumber g) (id p)])
| Outcome_full :
    currentGameState g = GameState.StillPlaying → currentTurn g = type p →
    boardFull (gameBoard g) →
    TurnOutcome p g
      (MkCritSec (drew_game p) (moved p g (gameBoard g) GameState.Draw) Returned
         [CountedDrawMoving (gameNumber g) (id p);
          NotifiedAll (gameNumber g) (id p)])
| Outcome_lost :
    currentGameState g = GameState.Won →
    TurnOutcome p g
      (MkCritSec (lost_game p) g Returned [CountedLoss (gameNumber g) (id p)])
| Outcome_tied :
    currentGameState g = GameState.Draw →
    TurnOutcome p g
      (MkCritSec (drew_game p) g Returned [CountedDrawWaiting (gameNumber g) (id p)]).

(** How a thread at [l] enters its next critical section on slot [i]: what
    JoinGame does to the player and the game before PlayGame, and what it
    logs. *)
Inductive Entry (p : Player) (g : Game) (i : nat)
  : Loc → Player → Game → list Action → Prop :=
| Entry_O :
    playerO g = -1 →
    Entry p g i (AtJoin i) (set_type PlayerType.O p) (set_playerO (id p) g)
      [Joined (gameNumber g) (id p) PlayerType.O]
| Entry_X :
    playerO g ≠ -1 →
    Entry p g i (AtJoin i) (set_type PlayerType.X p) (set_playerX (id p) g)
      [Joined (gameNumber g) (id p) PlayerType.X]
| Entry_partner : Entry p g i (AtWaitPartner i true) p g []
| Entry_turn : Entry p g i (AtWaitTurn i true) p g [].

(** A critical section of a thread at [l]: the wait for the partner, or a
    turn in PlayGame. *)
Inductive SectionSpec (p : Player) (g : Game) (i : nat) (l : Loc) (c : CritSec) : Prop :=
| Section_wait p0 g0 pre :
    Entry p g i l p0 g0 pre → playerX g0 = -1 →
    c = MkCritSec p0 g0 WaitPartner pre →
    SectionSpec p g i l c
| Section_play p0 g0 pre c0 :
    Entry p g i l p0 g0 pre → TurnOutcome p0 g0 c0 →
    playerX g0 ≠ -1 → playerO g0 ≠ -1 →
    c = prepend pre c0 →
    SectionSpec p g i l c.

(** The critical section that thread [w] runs on the game [g] of slot [i]
    when it draws [rnd]. *)
Definition enters (w : Worker) (g : Game) (i : nat) (rnd : Z) (c : CritSec) : Prop :=
  (pc w = AtJoin i ∧ JoinGame (me w) g rnd = Some c) ∨
  (pc w = AtWaitPartner i true ∧ JoinGame_partner (me w) g rnd = Some c) ∨
  (pc w = AtWaitTurn i true ∧ JoinGame_turn (me w) g rnd = Some c).

(** A step of a thread outside the games: it registers, passes the starting
    gun, finds the loop of TryToPlayEachGame over, or wakes up by itself. *)
Definition walks (s : Sys) (l l' : Loc) : Prop :=
  (l = AtRegister ∧ l' = AtStartingGun) ∨
  (l = AtStartingGun ∧ l' = AtScan 0 ∧ gunFlag (poolOfPlayers s) = true) ∨
  (∃ i, l = AtScan i ∧ l' = Finished ∧ ¬ Z.of_nat i < totalGameCount (poolOfGames s)) ∨
  (∃ i, l = AtWaitPartner i false ∧ l' = AtWaitPartner i true) ∨
  (∃ i, l = AtWaitTurn i false ∧ l' = AtWaitTurn i true).

(** The event is a wake-up without a notification. *)
Definition is_spurious (e : Event) : bool :=
  match e with Spurious _ => true | _ => false end.

(** The steps of a round; [spur] tells whether a thread may have woken up
    by itself. *)
Inductive StepKind (spur : bool) (s s' : Sys) (a : list Action) : Prop :=
| Step_walk t w l :
    workers s !! t = Some w → walks s (pc w) l →
    (spur = false → outside (pc w)) →
    workers s' = <[t := MkWorker (me w) l]> (workers s) →
    poolOfGames s' = poolOfGames s → alive s' = true → a = [] →
    StepKind spur s s' a
| Step_claim t w i g :
    workers s !! t = Some w → pc w = AtScan i → games s !! i = Some g →
    workers s' =
      <[t := MkWorker (me w)
               (if (TryToPlayEachGame_claim g).1 then AtJoin i else AtScan (S i))]>
        (workers s) →
    games s' = <[i := (TryToPlayEachGame_claim g).2]> (games s) →
    totalGameCount (poolOfGames s') = totalGameCount (poolOfGames s) →
    alive s' = true → a = [] →
    StepKind spur s s' a
| Step_section t w i g rnd c :
    workers s !! t = Some w → games s !! i = Some g →
    myRand_range rnd = true → enters w g i rnd c →
    workers s' =
      after_step (workers s) t (MkWorker (sec_player c) (next_loc i w c))
        (notifies (sec_actions c)) i →
    games s' = <[i := sec_game c]> (games s) →
    totalGameCount (poolOfGames s') = totalGameCount (poolOfGames s) →
    alive s' = (if decide (sec_exit c = Exit1) then false else true) →
    a = sec_actions c →
    StepKind spur s s' a
| Step_fire :
    workers s' = workers s → poolOfGames s' = poolOfGames s →
    alive s' = true → a = [] →
    StepKind spur s s' a.

(** ** What holds of the players, the games and the actions in a round *)

(** The action is done by a thread of the round on a game of the round. *)
Definition in_pools (players_n games_n : nat) (a : Action) : Prop :=
  (∃ t, (t < players_n)%nat ∧ action_player a = tid t) ∧
  (∃ i, (i < games_n)%nat ∧ action_game a = gn_of i).

(** The slots that a thread at [l] has behind it: it found them full or
    claimed them. *)
Definition passed (l : Loc) (i : nat) : Prop :=
  match l with
  | AtRegister | AtStartingGun => False
  | AtScan j => (i < j)%nat
  | AtJoin j | AtWaitPartner j _ | AtWaitTurn j _ => (i ≤ j)%nat
  | Finished => True
  end.

(** Every slot that some thread has behind it has been claimed. *)
Definition scan_inv (s : Sys) : Prop :=
  ∀ t w i g, workers s !! t = Some w → games s !! i = Some g →
    passed (pc w) i → 0 < playerCount g.

(** [gamesPlayed] is the number of results that the player has counted. *)
Definition played_inv (s : Sys) : Prop :=
  ∀ t w, workers s !! t = Some w →
    gamesPlayed (me w) = winCount (me w) + loseCount (me w) + drawCount (me w).

(** ** Counting the results of a round *)

(** The results counted by whatever player. *)
Definition is_a_win (a : Action) : bool :=
  match a with CountedWin _ _ => true | _ => false end.
Definition is_a_loss (a : Action) : bool :=
  match a with CountedLoss _ _ => true | _ => false end.
Definition is_a_draw (a : Action) : bool :=
  match a with CountedDrawMoving _ _ | CountedDrawWaiting _ _ => true | _ => false end.

(** The actions of a kind with a given player or game number. *)
Definition with_key (f : Action → bool) (key : Action → Z) (k : Z) (a : Action) : bool :=
  f a && bool_decide (key a = k).

(** The state and the actions at the end of the sample round. *)
Definition demo_end : Sys * list Action :=
  Eval vm_compute in
    default (round_start 0 0 false, []) (run (round_start 2 1 false) demo_events).

(** ** The boards of a round *)

(** The number of cells that are not empty. *)
Definition filled (b : Board) : nat :=
  length (List.filter (λ m, negb (openAt b m)) cellNumbers).

(** Some row, column or diagonal of the board holds [m] three times. *)
Definition hasLine (b : Board) (m : PlayerType.t) : Prop :=
  (∃ r, 0 ≤ r < 3 ∧ rowFull b r m) ∨ (∃ c, 0 ≤ c < 3 ∧ colFull b c m) ∨
  diagFull b m ∨ antiDiagFull b m.

Definition noLine (b : Board) : Prop :=
  ∀ m, m ≠ PlayerType.None → ¬ hasLine b m.

(** What the board of game [gn] has to do with the actions of the round and
    with the state of the game. *)
Definition board_ok (g : Game) (gn : Z) (acts : list Action) : Prop :=
  currentTurn g ≠ PlayerType.None ∧
  filled (gameBoard g) = length (marks gn acts) ∧
  (∀ pid m r c, Placed gn pid m r c ∈ acts →
     getCell (gameBoard g) r c = Some m ∧ m ≠ PlayerType.None) ∧
  (∀ m r c, getCell (gameBoard g) r c = Some m → m ≠ PlayerType.None →
     ∃ pid, Placed gn pid m r c ∈ acts) ∧
  match currentGameState g with
  | GameState.StillPlaying => noLine (gameBoard g)
  | GameState.Won =>
      ∃ pid m, last (marks gn acts) = Some (pid, m) ∧
        CountedWin gn pid ∈ acts ∧
        hasLine (gameBoard g) m ∧
        ∀ m', m' ≠ PlayerType.None → m' ≠ m → ¬ hasLine (gameBoard g) m'
  | GameState.Draw => boardFull (gameBoard g) ∧ noLine (gameBoard g)
  end.

Definition board_inv (s : Sys) (acts : list Action) : Prop :=
  ∀ i g, games s !! i = Some g → board_ok g (gn_of i) acts.

(** ** The two calls of [exit(1)] *)

(** The action comes with a call of [exit(1)]. *)
Definition is_exit (a : Action) : bool :=
  match a with WrongPlayer _ _ | OnePlayer _ _ => true | _ => false end.

(** No thread that was woken from the wait of PlayGame finds the game
    going on and the turn with the other player. *)
Definition calm (s : Sys) : Prop :=
  alive s = true ∧
  ∀ t w i g, workers s !! t = Some w → pc w = AtWaitTurn i true →
    games s !! i = Some g →
    currentGameState g = GameState.StillPlaying → currentTurn g = type (me w).

(** The sample round up to the first move: player 1 has joined as X, has
    placed its mark and waits for its turn. *)
Definition demo_first_move : Sys * list Action :=
  Eval vm_compute in
    default (round_start 0 0 false, [])
      (run (round_start 2 1 false) (take 9 demo_events)).

(** ** The choice of MakeAMove *)

(** The empty cells of a board, numbered row by row: the filled part of
    [possibleMoves]. *)
Definition openCells (b : Board) : list Z := List.filter (openAt b) cellNumbers.

(** ** Where a thread cannot go on *)

(** The thread is inside a wait on a game that nobody has ended, or has
    returned. *)
Definition blocked (l : Loc) : Prop :=
  match l with
  | AtWaitPartner _ false | AtWaitTurn _ false | Finished => True
  | _ => False
  end.

(** ** The seats of a game *)

(** The join that a field [playerO] or [playerX] stands for. *)
Definition seat (r : PlayerType.t) (v : Z) : list (Z * PlayerType.t) :=
  if decide (v = -1) then [] else [(v, r)].

(** The two fields of every game name the threads that have joined it. *)
Definition seats_inv (s : Sys) (acts : list Action) : Prop :=
  ∀ i g, games s !! i = Some g →
    joins (gn_of i) acts = seat PlayerType.O (playerO g) ++ seat PlayerType.X (playerX g).

(** In a game that ended in a draw, the player that found the board full
    is the one that joined as O. *)
Definition draw_inv (s : Sys) (acts : list Action) : Prop :=
  ∀ i g, games s !! i = Some g → currentGameState g = GameState.Draw →
    CountedDrawMoving (gn_of i) (playerO g) ∈ acts.

(** A round of two players and one game that ends in a draw: the numbers
    drawn fill the board with
    [X O X / X O O / O X X]. *)
Definition draw_events : list Event :=
  [Run 0 0; Run 1 0; FireGun; Run 0 0; Run 1 0; Run 0 0; Run 1 0;
   Run 0 0; Run 1 0; Run 0 0; Run 1 0; Run 0 1; Run 1 0; Run 0 0; Run 1 1;
   Run 0 0; Run 1 0; Run 0 0; Run 1 0; Run 0 0; Run 1 0].

Definition draw_end : Sys * list Action :=
  Eval vm_compute in
    default (round_start 0 0 false, []) (run (round_start 2 1 false) draw_events).

(** * Proofs *)

(** ** Arrays and boards *)

Lemma in_range3 (i : Z) : 0 ≤ i < 3 → i = 0 ∨ i = 1 ∨ i = 2.
Proof. lia. Qed.

Lemma three_cases (P : Z → Prop) : (∀ i, 0 ≤ i < 3 → P i) ↔ P 0 ∧ P 1 ∧ P 2.
Proof.
  split.
  - intros H. repeat split; apply H; lia.
  - intros (H0 & H1 & H2) i Hi.
    apply in_range3 in Hi as [-> | [-> | ->]]; assumption.
Qed.

Lemma arr_get_out {A} (v : Arr3 A) (j : Z) : ¬ (0 ≤ j < 3) → arr_get v j = None.
Proof.
  intros Hj. destruct j as [|q|q]; [lia | | reflexivity].
  destruct q as [[q|q|]|[q|q|]|]; try reflexivity; lia.
Qed.

Lemma arr_get_set {A} (v v' : Arr3 A) (i j : Z) (x : A) :
  arr_set v i x = Some v' →
  arr_get v' j = if decide (j = i) then Some x else arr_get v j.
Proof.
  intros Hset.
  assert (0 ≤ i < 3) as Hi.
  { destruct i as [|q|q]; [lia | | discriminate].
    destruct q as [[q|q|]|[q|q|]|]; try discriminate; lia. }
  destruct (decide (0 ≤ j < 3)) as [Hj|Hj].
  - assert (i = 0 ∨ i = 1 ∨ i = 2) as [-> | [-> | ->]] by lia;
    assert (j = 0 ∨ j = 1 ∨ j = 2) as [-> | [-> | ->]] by lia;
    injection Hset as <-; reflexivity.
  - rewrite !arr_get_out by done. rewrite decide_False by lia. reflexivity.
Qed.

Lemma getCell_setCell (b b' : Board) (row col r c : Z) (v : PlayerType.t) :
  setCell b row col v = Some b' →
  getCell b' r c = if decide (r = row ∧ c = col) then Some v else getCell b r c.
Proof.
  unfold setCell, getCell. intros Hset.
  destruct (arr_get b row) as [old|] eqn:Erow; [|discriminate]. cbn in Hset.
  destruct (arr_set old col v) as [new|] eqn:Ecol; [|discriminate]. cbn in Hset.
  rewrite (arr_get_set _ _ _ r _ Hset).
  destruct (decide (r = row)) as [->|Hr]; cbn.
  - rewrite (arr_get_set _ _ _ c _ Ecol).
    destruct (decide (c = col)) as [->|Hc].
    + rewrite decide_True; done.
    + rewrite decide_False by tauto. rewrite Erow. reflexivity.
  - rewrite decide_False by tauto. reflexivity.
Qed.

Lemma setCell_in_range (b : Board) (row col : Z) (v : PlayerType.t) :
  0 ≤ row < 3 → 0 ≤ col < 3 → is_Some (setCell b row col v).
Proof.
  intros Hr Hc. apply in_range3 in Hr, Hc.
  destruct Hr as [-> | [-> | ->]], Hc as [-> | [-> | ->]]; eexists; reflexivity.
Qed.

Lemma for_range_3 {S} (body : Z → S → option S) (s : S) :
  for_range 0 3 body s = (s1 ← body 0 s; s2 ← body 1 s1; body 2 s2).
Proof.
  cbn [for_range]. change (0 + 1 + 1) with 2. change (0 + 1) with 1.
  destruct (body 0 s) as [s1|]; cbn; [|reflexivity].
  destruct (body 1 s1) as [s2|]; cbn; [|reflexivity].
  destruct (body 2 s2); reflexivity.
Qed.

(** ** DidWeWin *)

Lemma rowFull_iff b row m :
  rowFull b row m ↔
  getCell b row 0 = Some m ∧ getCell b row 1 = Some m ∧ getCell b row 2 = Some m.
Proof. apply (three_cases (λ i, getCell b row i = Some m)). Qed.

Lemma colFull_iff b col m :
  colFull b col m ↔
  getCell b 0 col = Some m ∧ getCell b 1 col = Some m ∧ getCell b 2 col = Some m.
Proof. apply (three_cases (λ i, getCell b i col = Some m)). Qed.

Lemma diagFull_iff b m :
  diagFull b m ↔
  getCell b 0 0 = Some m ∧ getCell b 1 1 = Some m ∧ getCell b 2 2 = Some m.
Proof. apply (three_cases (λ i, getCell b i i = Some m)). Qed.

Lemma antiDiagFull_iff b m :
  antiDiagFull b m ↔
  getCell b 2 0 = Some m ∧ getCell b 1 1 = Some m ∧ getCell b 0 2 = Some m.
Proof. apply (three_cases (λ i, getCell b (2 - i) i = Some m)). Qed.

(** A flag of DidWeWin after the three iterations. *)
Lemma flag3 (a b c m : PlayerType.t) :
  (if is_mark c m then if is_mark b m then if is_mark a m then true else false
                       else false
   else false) = true
  ↔ Some a = Some m ∧ Some b = Some m ∧ Some c = Some m.
Proof.
  unfold is_mark.
  destruct (bool_decide_reflect (c = m)), (bool_decide_reflect (b = m)),
    (bool_decide_reflect (a = m)); intuition congruence.
Qed.

Lemma or4 (A B C D : Prop) : ((A ∨ B) ∨ C) ∨ D ↔ A ∨ B ∨ C ∨ D.
Proof. tauto. Qed.

Lemma DidWeWin_cells (game : Game) (player : Player) (row col : Z) :
  0 ≤ row < 3 → 0 ≤ col < 3 →
  let b := gameBoard game in
  let m := Some (type player) in
  ∃ won, DidWeWin row col game player = Some won ∧
    (won = true ↔
       (getCell b row 0 = m ∧ getCell b row 1 = m ∧ getCell b row 2 = m) ∨
       (getCell b 0 col = m ∧ getCell b 1 col = m ∧ getCell b 2 col = m) ∨
       (getCell b 0 0 = m ∧ getCell b 1 1 = m ∧ getCell b 2 2 = m) ∨
       (getCell b 2 0 = m ∧ getCell b 1 1 = m ∧ getCell b 0 2 = m)).
Proof.
  intros Hr Hc.
  destruct game as [? ? ? ? ? ? [[b00 b01 b02] [b10 b11 b12] [b20 b21 b22]]].
  destruct player as [? ? ? ? ? m].
  apply in_range3 in Hr, Hc.
  destruct Hr as [-> | [-> | ->]], Hc as [-> | [-> | ->]];
    (eexists; split; [reflexivity |]);
    cbn; rewrite !orb_true_iff, !flag3; apply or4.
Qed.

(** C3. For every board, every cell (row, col) of the board and every mark,
    DidWeWin returns true exactly when row [row], or column [col], or the
    main diagonal, or the anti-diagonal holds that mark three times; the two
    diagonals count whether or not (row, col) lies on them.  In particular
    DidWeWin(0, 2) is true for X on a board whose row 0 is X, X, X. *)
Theorem DidWeWin_spec (game : Game) (player : Player) (row col : Z) :
  0 ≤ row < 3 → 0 ≤ col < 3 →
  ∃ won, DidWeWin row col game player = Some won ∧
    (won = true ↔
       rowFull (gameBoard game) row (type player) ∨
       colFull (gameBoard game) col (type player) ∨
       diagFull (gameBoard game) (type player) ∨
       antiDiagFull (gameBoard game) (type player)) ∧
    (row = 0 → col = 2 → type player = PlayerType.X →
     arr_get (gameBoard game) 0 = Some (MkArr3 PlayerType.X PlayerType.X PlayerType.X) →
     won = true).
Proof.
  intros Hr Hc.
  destruct (DidWeWin_cells game player row col Hr Hc) as (won & Hwon & Hiff).
  exists won. split; [done|].
  assert (won = true ↔
       rowFull (gameBoard game) row (type player) ∨
       colFull (gameBoard game) col (type player) ∨
       diagFull (gameBoard game) (type player) ∨
       antiDiagFull (gameBoard game) (type player)) as Hspec.
  { rewrite rowFull_iff, colFull_iff, diagFull_iff, antiDiagFull_iff. exact Hiff. }
  split; [exact Hspec|].
  intros -> -> Hx Hrow0. apply Hspec. left. apply rowFull_iff.
  unfold getCell. rewrite Hrow0, Hx. done.
Qed.

(** The witness: X asks about cell (0, 2) of a board whose row 0 is X, X, X
    and whose other cells are empty. *)
Lemma DidWeWin_spec_witness :
  DidWeWin 0 2
    (MkGame 2 1 PlayerType.O GameState.StillPlaying 1 0
       (MkArr3 (MkArr3 PlayerType.X PlayerType.X PlayerType.X) emptyRow emptyRow))
    (MkPlayer 1 0 0 0 0 PlayerType.X) = Some true.
Proof.
  destruct (DidWeWin_spec
              (MkGame 2 1 PlayerType.O GameState.StillPlaying 1 0
                 (MkArr3 (MkArr3 PlayerType.X PlayerType.X PlayerType.X)
                    emptyRow emptyRow))
              (MkPlayer 1 0 0 0 0 PlayerType.X) 0 2 ltac:(lia) ltac:(lia))
    as (won & Hwon & _ & Hrow).
  rewrite Hwon. f_equal. apply Hrow; reflexivity.
Defined.

Lemma DidWeWin_in_range (row col : Z) (g : Game) (p : Player) :
  0 ≤ row < 3 → 0 ≤ col < 3 → is_Some (DidWeWin row col g p).
Proof.
  intros Hr Hc. destruct (DidWeWin_cells g p row col Hr Hc) as (won & -> & _).
  by eexists.
Qed.

(** ** MakeAMove *)

Lemma findMoves_row_spec (b : Board) (row : Z) (pm : list Z) :
  0 ≤ row < 3 →
  findMoves_row b row pm =
  Some (pm ++ List.filter (openAt b) [row * 3; row * 3 + 1; row * 3 + 2]).
Proof.
  intros Hr. apply in_range3 in Hr.
  destruct b as [[b00 b01 b02] [b10 b11 b12] [b20 b21 b22]].
  unfold findMoves_row. rewrite for_range_3.
  destruct Hr as [-> | [-> | ->]]; cbn.
  - destruct b00, b01, b02; cbv -[app]; rewrite <- ?app_assoc, ?app_nil_r; reflexivity.
  - destruct b10, b11, b12; cbv -[app]; rewrite <- ?app_assoc, ?app_nil_r; reflexivity.
  - destruct b20, b21, b22; cbv -[app]; rewrite <- ?app_assoc, ?app_nil_r; reflexivity.
Qed.

(** The list of possible moves is the list of the empty cells, row by row. *)
Lemma findMoves_spec (b : Board) :
  findMoves b = Some (List.filter (openAt b) cellNumbers).
Proof.
  unfold findMoves. rewrite for_range_3.
  rewrite (findMoves_row_spec b 0) by lia. cbn [mbind option_bind].
  rewrite (findMoves_row_spec b 1) by lia. cbn [mbind option_bind].
  rewrite (findMoves_row_spec b 2) by lia.
  change cellNumbers with
    ([0 * 3; 0 * 3 + 1; 0 * 3 + 2] ++ [1 * 3; 1 * 3 + 1; 1 * 3 + 2]
       ++ [2 * 3; 2 * 3 + 1; 2 * 3 + 2]).
  rewrite !List.filter_app, <- !app_assoc. reflexivity.
Qed.

Lemma cellNumbers_spec (m : Z) : In m cellNumbers ↔ 0 ≤ m < 9.
Proof. unfold cellNumbers. cbn. lia. Qed.

Lemma cell_of_number (m : Z) :
  0 ≤ m < 9 → 0 ≤ Z.quot m 3 < 3 ∧ 0 ≤ Z.rem m 3 < 3.
Proof.
  intros Hm. split.
  - pose proof (Z.quot_pos m 3).
    assert (Z.quot m 3 < 3) by (apply Z.quot_lt_upper_bound; lia). lia.
  - pose proof (Z.rem_bound_pos m 3). lia.
Qed.

Lemma number_of_cell (row col : Z) :
  0 ≤ row < 3 → 0 ≤ col < 3 →
  Z.quot (row * 3 + col) 3 = row ∧ Z.rem (row * 3 + col) 3 = col.
Proof.
  intros Hr Hc. apply in_range3 in Hr, Hc.
  destruct Hr as [-> | [-> | ->]], Hc as [-> | [-> | ->]]; split; reflexivity.
Qed.

Lemma openAt_true (b : Board) (m : Z) :
  openAt b m = true ↔ getCell b (Z.quot m 3) (Z.rem m 3) = Some PlayerType.None.
Proof.
  unfold openAt. destruct (getCell _ _ _) as [[]|]; split; congruence.
Qed.

Lemma boardFull_iff (b : Board) :
  boardFull b ↔ List.filter (openAt b) cellNumbers = [].
Proof.
  split.
  - intros Hfull. destruct (List.filter _ _) as [|m l] eqn:E; [done|].
    assert (In m (List.filter (openAt b) cellNumbers)) as Hin
      by (rewrite E; left; done).
    apply List.filter_In in Hin as [Hm Ho].
    apply cellNumbers_spec, cell_of_number in Hm as [Hrow Hcol].
    apply openAt_true in Ho. destruct (Hfull _ _ Hrow Hcol Ho).
  - intros Hnil row col Hr Hc Hcell.
    assert (In (row * 3 + col) (List.filter (openAt b) cellNumbers)) as Hin.
    { apply List.filter_In. split; [apply cellNumbers_spec; lia|].
      apply openAt_true.
      destruct (number_of_cell row col Hr Hc) as [-> ->]. done. }
    rewrite Hnil in Hin. destruct Hin.
Qed.

Lemma readMove_rem (pm : list Z) (rnd : Z) :
  0 ≤ rnd → pm ≠ [] →
  ∃ m, readMove pm (Z.rem rnd (Z.of_nat (length pm))) = Some m ∧ In m pm.
Proof.
  intros Hrnd Hpm.
  assert (0 < Z.of_nat (length pm)) as Hlen by (destruct pm; [done | cbn; lia]).
  pose proof (Z.rem_bound_pos rnd _ Hrnd Hlen) as Hb.
  unfold readMove. rewrite decide_True by lia.
  destruct (pm !! Z.to_nat (Z.rem rnd (Z.of_nat (length pm)))) as [m|] eqn:E.
  - exists m. split; [done|]. apply list_elem_of_In. eapply list_elem_of_lookup_2, E.
  - apply lookup_ge_None in E. lia.
Qed.

(** MakeAMove never reads or writes out of range when the number drawn is
    not negative, and its result is one of the two of [MoveSpec]. *)
Lemma MakeAMove_spec (p : Player) (g : Game) (rnd : Z) :
  0 ≤ rnd → ∃ r, MakeAMove p g rnd = Some r ∧ MoveSpec p g r.
Proof.
  intros Hrnd. unfold MakeAMove. rewrite findMoves_spec. cbn [mbind option_bind].
  destruct (List.filter (openAt (gameBoard g)) cellNumbers) as [|m0 pm0] eqn:Epm.
  - rewrite decide_False by (cbn; lia).
    eexists. split; [reflexivity|]. apply Move_draw. by apply boardFull_iff.
  - rewrite decide_True by (cbn; lia).
    destruct (readMove_rem (m0 :: pm0) rnd Hrnd) as (m & -> & Hin); [done|].
    cbn [mbind option_bind].
    rewrite <- Epm in Hin. apply List.filter_In in Hin as [Hm Ho].
    apply cellNumbers_spec, cell_of_number in Hm as [Hrow Hcol].
    apply openAt_true in Ho.
    destruct (setCell_in_range (gameBoard g) _ _ (type p) Hrow Hcol) as [b Hb].
    rewrite Hb. cbn [mbind option_bind].
    destruct (DidWeWin_in_range _ _ (set_gameBoard b g) p Hrow Hcol) as [won Hwon].
    rewrite Hwon. cbn [mbind option_bind].
    exists (movePlaced p g (Z.quot m 3) (Z.rem m 3) b won).
    split; [by destruct won|]. by apply Move_placed.
Qed.

Lemma MakeAMove_in_range (p : Player) (g : Game) (rnd : Z) :
  myRand_range rnd = true → ∃ r, MakeAMove p g rnd = Some r ∧ MoveSpec p g r.
Proof.
  unfold myRand_range. intros H. apply MakeAMove_spec.
  apply andb_true_iff in H as [H _]. lia.
Qed.

(** A call of MakeAMove writes at most one cell, and that cell is empty. *)
Lemma MakeAMove_one_cell (p : Player) (g : Game) (rnd : Z) :
  0 ≤ rnd →
  ∃ st p' g' acts, MakeAMove p g rnd = Some (st, p', g', acts) ∧
    (gameBoard g' = gameBoard g ∨
     ∃ row col, 0 ≤ row < 3 ∧ 0 ≤ col < 3 ∧
       getCell (gameBoard g) row col = Some PlayerType.None ∧
       setCell (gameBoard g) row col (type p) = Some (gameBoard g') ∧
       getCell (gameBoard g') row col = Some (type p) ∧
       ∀ r c, (r, c) ≠ (row, col) →
         getCell (gameBoard g') r c = getCell (gameBoard g) r c) ∧
    (∀ r c m, getCell (gameBoard g) r c = Some m → m ≠ PlayerType.None →
       getCell (gameBoard g') r c = Some m) ∧
    (∀ r c r' c',
       getCell (gameBoard g') r c ≠ getCell (gameBoard g) r c →
       getCell (gameBoard g') r' c' ≠ getCell (gameBoard g) r' c' →
       (r, c) = (r', c')).
Proof.
  intros Hrnd. destruct (MakeAMove_spec p g rnd Hrnd) as (r & Hr & Hspec).
  destruct Hspec as [Hfull | row col b won Hrow Hcol Hcell Hset Hwon].
  - exists GameState.Draw, (set_drawCount (drawCount p + 1) p), g,
      [CountedDrawMoving (gameNumber g) (id p)].
    split; [exact Hr|]. split; [by left|]. split; [done|]. intros; done.
  - pose proof (λ r c, getCell_setCell _ _ _ _ r c _ Hset) as Hget.
    assert (∃ st p' acts,
      movePlaced p g row col b won = (st, p', set_gameBoard b g, acts))
      as (st & p' & acts & E) by (destruct won; repeat eexists).
    exists st, p', (set_gameBoard b g), acts. rewrite <- E.
    split; [exact Hr|]. cbn [gameBoard set_gameBoard].
    split; [|split].
    + right. exists row, col. do 4 (split; [done|]). split.
      * rewrite Hget, decide_True; done.
      * intros r0 c0 Hne. rewrite Hget, decide_False; [done|].
        intros [-> ->]. done.
    + intros r0 c0 m Hm Hne. rewrite Hget.
      destruct (decide (r0 = row ∧ c0 = col)) as [[-> ->]|]; [congruence|done].
    + intros r0 c0 r1 c1. rewrite !Hget.
      destruct (decide (r0 = row ∧ c0 = col)) as [[-> ->]|]; [|done].
      destruct (decide (r1 = row ∧ c1 = col)) as [[-> ->]|]; done.
Qed.

(** ** PlayGame *)

Lemma otherTurn_ne (t : PlayerType.t) : otherTurn t ≠ t.
Proof. by destruct t. Qed.

(** C4. In a turn of play the owner of the turn is flipped before the move:
    MakeAMove, and DidWeWin inside it, run on the game whose [currentTurn] is
    already the other role, and the state they return is stored afterwards.
    So after a turn that ends the game as Won or Draw, [currentTurn] is the
    role that did not move. *)
Theorem PlayGame_flips_turn_first (p : Player) (g : Game) (rnd : Z) (c : CritSec) :
  currentTurn g = type p →
  PlayGame_turn p g rnd = Some c →
  ∃ st p' g' acts,
    currentTurn (flipTurn p g) = otherTurn (type p) ∧
    gameBoard (flipTurn p g) = gameBoard g ∧
    currentGameState (flipTurn p g) = currentGameState g ∧
    MakeAMove p (flipTurn p g) rnd = Some (st, p', g', acts) ∧
    sec_game c = set_currentGameState st g' ∧
    currentTurn (sec_game c) = otherTurn (type p) ∧
    currentTurn (sec_game c) ≠ type p ∧
    (st ≠ GameState.StillPlaying →
     sec_exit c = Returned ∧ currentGameState (sec_game c) = st).
Proof.
  intros Hturn Hc. unfold PlayGame_turn in Hc.
  rewrite decide_False in Hc by (intros H; apply H; exact Hturn).
  destruct (MakeAMove p (flipTurn p g) rnd) as [[[[st p'] g'] acts]|] eqn:Hmove;
    [|discriminate].
  cbn [mbind option_bind] in Hc.
  exists st, p', g', acts.
  assert (currentTurn g' = otherTurn (type p)) as Hg'.
  { unfold MakeAMove in Hmove.
    repeat (match type of Hmove with
            | context [mbind _ ?o] => destruct o; cbn [mbind option_bind] in Hmove
            | context [decide ?P] => destruct (decide P)
            | context [if ?b then _ else _] => destruct b
            end; try discriminate);
      injection Hmove as <- <- <- <-; reflexivity. }
  assert (sec_game c = set_currentGameState st g' ∧
          (st ≠ GameState.StillPlaying → sec_exit c = Returned)) as [Hgame Hexit].
  { destruct st; injection Hc as <-; cbn; split; congruence. }
  rewrite Hgame. cbn. rewrite Hg'.
  repeat split; try done. { apply otherTurn_ne. } { by apply Hexit. }
Qed.

(** The witness: X plays the first move of a game. *)
Lemma PlayGame_flips_turn_first_witness :
  ∃ c, PlayGame_turn (MkPlayer 1 0 0 0 0 PlayerType.X) (initGame 0) 4 = Some c ∧
       currentTurn (sec_game c) = PlayerType.O.
Proof.
  eexists. split; [reflexivity|].
  destruct (PlayGame_flips_turn_first
              (MkPlayer 1 0 0 0 0 PlayerType.X) (initGame 0) 4 _
              eq_refl eq_refl) as (st & p' & g' & acts & _ & _ & _ & _ & _ & H & _).
  exact H.
Defined.

(** ** The claim of a slot *)

Lemma claim_spec (g : Game) :
  0 ≤ playerCount g ≤ 2 →
  let '(ok, g') := TryToPlayEachGame_claim g in
  (ok = true ↔ playerCount g < 2) ∧
  playerCount g' = (if ok then playerCount g + 1 else playerCount g) ∧
  0 ≤ playerCount g' ≤ 2.
Proof.
  intros H. unfold TryToPlayEachGame_claim.
  destruct (decide (playerCount g = 2)); cbn; split; try split; try lia;
    intuition congruence || lia.
Qed.

Lemma claims_spec (n : nat) (g : Game) :
  0 ≤ playerCount g ≤ 2 →
  let '(oks, g') := claims n g in
  length oks = n ∧
  playerCount g' = playerCount g + Z.of_nat (successes oks) ∧
  0 ≤ playerCount g' ≤ 2.
Proof.
  revert g. induction n as [|n IH]; intros g Hg; cbn [claims].
  - cbn. lia.
  - pose proof (claim_spec g Hg) as Hc.
    destruct (TryToPlayEachGame_claim g) as [ok g1].
    destruct Hc as (Hok & Hcount & Hrange).
    specialize (IH g1 Hrange). destruct (claims n g1) as [oks g2].
    destruct IH as (Hlen & Hsum & Hr2). unfold successes in *.
    destruct ok; cbn [List.filter length]; lia.
Qed.

(** Any number of claims before and after one claim of a slot that starts
    empty. *)
Lemma claims_in_sequence (g : Game) (before after : nat) :
  playerCount g = 0 →
  let '(oks1, g1) := claims before g in
  let '(ok, g2) := TryToPlayEachGame_claim g1 in
  let '(oks3, g3) := claims after g2 in
  (ok = true ↔ playerCount g1 < 2) ∧
  playerCount g2 = (if ok then playerCount g1 + 1 else playerCount g1) ∧
  playerCount g1 ≤ 2 ∧ playerCount g2 ≤ 2 ∧ playerCount g3 ≤ 2 ∧
  (successes (oks1 ++ ok :: oks3) ≤ 2)%nat ∧
  claims (before + 1 + after) g = (oks1 ++ ok :: oks3, g3).
Proof.
  intros Hg.
  pose proof (claims_spec before g ltac:(lia)) as H1.
  destruct (claims before g) as [oks1 g1] eqn:E1. destruct H1 as (Hl1 & Hs1 & Hr1).
  pose proof (claim_spec g1 Hr1) as H2.
  destruct (TryToPlayEachGame_claim g1) as [ok g2] eqn:E2.
  destruct H2 as (Hok & Hc2 & Hr2).
  pose proof (claims_spec after g2 Hr2) as H3.
  destruct (claims after g2) as [oks3 g3] eqn:E3. destruct H3 as (Hl3 & Hs3 & Hr3).
  repeat split; try tauto; try lia.
  - unfold successes in *. rewrite List.filter_app, length_app.
    destruct ok; cbn [List.filter length]; lia.
  - clear - E1 E2 E3. revert g oks1 E1.
    induction before as [|n IH]; intros g oks1 E1; cbn [claims] in E1.
    + injection E1 as <- <-. cbn. rewrite E2, E3. reflexivity.
    + cbn [Nat.add claims]. destruct (TryToPlayEachGame_claim g) as [ok0 g0].
      destruct (claims n g0) as [oks0 g0'] eqn:E0. injection E1 as <- <-.
      rewrite (IH g0 oks0 E0). reflexivity.
Qed.

(** ** The critical sections of PlayGame and JoinGame *)

Lemma PlayGame_turn_spec (p : Player) (g : Game) (rnd : Z) :
  myRand_range rnd = true → currentTurn g = type p →
  ∃ c, PlayGame_turn p g rnd = Some c ∧ TurnSpec p g c.
Proof.
  intros Hrnd Hturn. unfold PlayGame_turn.
  rewrite decide_False by (intros H; apply H; exact Hturn).
  destruct (MakeAMove_in_range p (flipTurn p g) rnd Hrnd) as (r & -> & Hspec).
  destruct Hspec as [Hfull | row col b won _ _ _ _ _]; [|destruct won];
    cbn; eexists; (split; [reflexivity|]).
  - apply Turn_draw; cbn; done.
  - apply Turn_won; cbn; done.
  - apply Turn_still; cbn; done.
Qed.

Lemma PlayGame_turn_wrong (p : Player) (g : Game) (rnd : Z) :
  currentTurn g ≠ type p →
  PlayGame_turn p g rnd = Some (MkCritSec p g Exit1 [WrongPlayer (gameNumber g) (id p)]).
Proof. intros H. unfold PlayGame_turn. rewrite decide_True; done. Qed.

Lemma JoinGame_partner_turn (p : Player) (g : Game) (rnd : Z) :
  playerX g ≠ -1 → playerO g ≠ -1 →
  JoinGame_partner p g rnd = JoinGame_turn p g rnd.
Proof.
  intros HX HO. unfold JoinGame_partner, JoinGame_turn, PlayGame.
  rewrite decide_True by done. rewrite decide_False by tauto. reflexivity.
Qed.

(** ** Lists of threads *)

Lemma pc_wake (i : nat) (w : Worker) : pc (wake i w) = wake_loc i (pc w).
Proof.
  destruct w as [p l]. unfold wake, wake_loc. cbn.
  destruct l; try reflexivity; case_decide; reflexivity.
Qed.

Lemma me_wake (i : nat) (w : Worker) : me (wake i w) = me w.
Proof.
  destruct w as [p l]. unfold wake. cbn.
  destruct l; try reflexivity; case_decide; reflexivity.
Qed.

Lemma me_wake_if b i w : me (wake_if b i w) = me w.
Proof. destruct b; [apply me_wake | reflexivity]. Qed.

Lemma wake_loc_join i j l : wake_loc i l = AtJoin j ↔ l = AtJoin j.
Proof. destruct l; cbn; try case_decide; split; congruence. Qed.

Lemma wake_loc_inside i j l : inside j (wake_loc i l) ↔ inside j l.
Proof. destruct l; cbn; try case_decide; cbn; tauto. Qed.

Lemma wake_loc_ready i j l : ready j l → ready j (wake_loc i l).
Proof.
  intros [-> | ->]; cbn; case_decide; subst; [left| left | right | right]; done.
Qed.

Lemma wake_loc_parked i j l : parked j l → parked j (wake_loc i l).
Proof. intros [n ->]. cbn. case_decide; subst; eexists; done. Qed.

Lemma wake_loc_partner i j n l :
  l = AtWaitPartner j n → ∃ n', wake_loc i l = AtWaitPartner j n'.
Proof. intros ->. cbn. case_decide; subst; eexists; done. Qed.

Lemma wake_loc_wakes i l : inside i l → ready i (wake_loc i l).
Proof.
  destruct l; cbn; try done; intros ->; rewrite decide_True by done;
    [left | right]; done.
Qed.

Lemma wake_loc_ok n i l : loc_ok n (wake_loc i l) ↔ loc_ok n l.
Proof. destruct l; cbn; try case_decide; cbn; tauto. Qed.

Lemma pc_wake_if b i w :
  pc (wake_if b i w) = if b then wake_loc i (pc w) else pc w.
Proof. destruct b; [apply pc_wake | reflexivity]. Qed.

Lemma wake_if_join b i j w : pc (wake_if b i w) = AtJoin j ↔ pc w = AtJoin j.
Proof. rewrite pc_wake_if. destruct b; [apply wake_loc_join | done]. Qed.

Lemma wake_if_inside b i j w : inside j (pc (wake_if b i w)) ↔ inside j (pc w).
Proof. rewrite pc_wake_if. destruct b; [apply wake_loc_inside | done]. Qed.

Lemma wake_if_ready b i j w : ready j (pc w) → ready j (pc (wake_if b i w)).
Proof. rewrite pc_wake_if. destruct b; [apply wake_loc_ready | done]. Qed.

Lemma wake_if_parked b i j w : parked j (pc w) → parked j (pc (wake_if b i w)).
Proof. rewrite pc_wake_if. destruct b; [apply wake_loc_parked | done]. Qed.

Lemma wake_if_partner b i j n w :
  pc w = AtWaitPartner j n → ∃ n', pc (wake_if b i w) = AtWaitPartner j n'.
Proof.
  rewrite pc_wake_if. destruct b; [apply wake_loc_partner | by eexists].
Qed.

Lemma wake_if_ok b n i w : loc_ok n (pc (wake_if b i w)) ↔ loc_ok n (pc w).
Proof. rewrite pc_wake_if. destruct b; [apply wake_loc_ok | done]. Qed.

Lemma wake_if_fmap (b : bool) (i : nat) (ws : list Worker) :
  (if b then wake i <$> ws else ws) = wake_if b i <$> ws.
Proof.
  destruct b; [reflexivity|]. induction ws as [|w ws IH]; [done|].
  cbn. by rewrite <- IH.
Qed.

Lemma after_step_self ws t w w' b i :
  ws !! t = Some w → after_step ws t w' b i !! t = Some w'.
Proof.
  intros H. unfold after_step. apply list_lookup_insert_eq.
  rewrite length_fmap. by eapply lookup_lt_Some.
Qed.

Lemma after_step_other ws t t' w' b i :
  t' ≠ t → after_step ws t w' b i !! t' = wake_if b i <$> ws !! t'.
Proof.
  intros H. unfold after_step. rewrite list_lookup_insert_ne by done.
  apply list_lookup_fmap.
Qed.

Lemma after_step_length ws t w' b i :
  length (after_step ws t w' b i) = length ws.
Proof. unfold after_step. by rewrite length_insert, length_fmap. Qed.

(** A thread of the new list is the new [t] or a thread of the old list,
    woken or not. *)
Lemma after_step_inv ws t w w' b i t' w1 :
  ws !! t = Some w → after_step ws t w' b i !! t' = Some w1 →
  (t' = t ∧ w1 = w') ∨ (t' ≠ t ∧ ∃ w0, ws !! t' = Some w0 ∧ w1 = wake_if b i w0).
Proof.
  intros Ht H. destruct (decide (t' = t)) as [->|Hne].
  - rewrite (after_step_self _ _ _ _ _ _ Ht) in H. left. split; congruence.
  - rewrite after_step_other in H by done.
    destruct (ws !! t') as [w0|]; [|done]. right. split; [done|].
    exists w0. split; [done|]. cbn in H. congruence.
Qed.

Lemma joining_cons w ws j :
  joining (w :: ws) j = (joins_at j w + joining ws j)%nat.
Proof.
  unfold joining, joins_at. cbn. destruct (bool_decide _); reflexivity.
Qed.

Lemma joining_wake b i ws j : joining (wake_if b i <$> ws) j = joining ws j.
Proof.
  induction ws as [|w ws IH]; [done|].
  rewrite fmap_cons, !joining_cons, IH. f_equal. unfold joins_at.
  destruct (bool_decide_reflect (pc w = AtJoin j)) as [H|H].
  - rewrite bool_decide_eq_true_2; [done|]. by apply wake_if_join.
  - rewrite bool_decide_eq_false_2; [done|]. by rewrite wake_if_join.
Qed.

Lemma joining_insert ws t w w' j :
  ws !! t = Some w →
  (joining (<[t := w']> ws) j + joins_at j w = joining ws j + joins_at j w')%nat.
Proof.
  revert t. induction ws as [|w0 ws IH]; intros t Ht; [done|].
  destruct t as [|t]; cbn in Ht.
  - injection Ht as ->. change (<[0%nat := w']> (w :: ws)) with (w' :: ws).
    rewrite !joining_cons. lia.
  - change (<[S t := w']> (w0 :: ws)) with (w0 :: <[t := w']> ws).
    rewrite !joining_cons. specialize (IH t Ht). lia.
Qed.

Lemma joining_after ws t w w' b i j :
  ws !! t = Some w →
  (joining (after_step ws t w' b i) j + joins_at j w = joining ws j + joins_at j w')%nat.
Proof.
  intros Ht. unfold after_step.
  assert ((wake_if b i <$> ws) !! t = Some (wake_if b i w)) as Ht'
    by (rewrite list_lookup_fmap, Ht; done).
  pose proof (joining_insert _ _ _ w' j Ht') as H.
  rewrite joining_wake in H.
  assert (joins_at j (wake_if b i w) = joins_at j w) as E.
  { unfold joins_at.
    destruct (bool_decide_reflect (pc w = AtJoin j)) as [Hj|Hj].
    - rewrite bool_decide_eq_true_2; [done|]. by apply wake_if_join.
    - rewrite bool_decide_eq_false_2; [done|]. by rewrite wake_if_join. }
  lia.
Qed.

Lemma joining_pos ws t w j :
  ws !! t = Some w → pc w = AtJoin j → (0 < joining ws j)%nat.
Proof.
  revert t. induction ws as [|w0 ws IH]; intros t Ht Hpc; [done|].
  rewrite joining_cons. destruct t as [|t]; cbn in Ht.
  - injection Ht as ->. unfold joins_at. rewrite bool_decide_eq_true_2; [lia|done].
  - specialize (IH t Ht Hpc). lia.
Qed.

Lemma joins_at_yes j w : pc w = AtJoin j → joins_at j w = 1%nat.
Proof. intros H. unfold joins_at. by rewrite bool_decide_eq_true_2. Qed.

Lemma joins_at_no j w : pc w ≠ AtJoin j → joins_at j w = 0%nat.
Proof. intros H. unfold joins_at. by rewrite bool_decide_eq_false_2. Qed.

Lemma nobody_else_after ws t w w' b i j allowed allowed' :
  ws !! t = Some w →
  nobody_else ws j allowed →
  (inside j (pc w') → t ∈ allowed') →
  (∀ x, x ∈ allowed → x ≠ t → x ∈ allowed') →
  nobody_else (after_step ws t w' b i) j allowed'.
Proof.
  intros Ht Hold Hnew Hsub t' w1 Hl Hin.
  destruct (after_step_inv _ _ _ _ _ _ _ _ Ht Hl) as [[-> ->] | (Hne & w0 & Hw0 & ->)].
  - by apply Hnew.
  - apply Hsub; [|done]. eapply Hold; [exact Hw0|]. by apply wake_if_inside in Hin.
Qed.

Lemma JoinGame_turn_spec (p : Player) (g : Game) (rnd : Z) :
  myRand_range rnd = true →
  ∃ c, JoinGame_turn p g rnd = Some c ∧ LoopSpec p g c.
Proof.
  intros Hrnd. unfold JoinGame_turn, PlayGame_loop.
  destruct (decide (currentGameState g = GameState.StillPlaying)) as [Hs|Hs].
  - destruct (decide (currentTurn g = type p)) as [Ht|Ht].
    + destruct (PlayGame_turn_spec p g rnd Hrnd Ht) as (c & -> & Hc).
      eexists. split; [reflexivity|]. by apply Loop_turn.
    + rewrite PlayGame_turn_wrong by done.
      eexists. split; [reflexivity|]. by apply Loop_wrong.
  - eexists. split; [reflexivity|]. by apply Loop_over.
Qed.

Lemma JoinGame_first (p : Player) (g : Game) (rnd : Z) :
  playerO g = -1 → playerX g = -1 →
  JoinGame p g rnd =
  Some (MkCritSec (set_type PlayerType.O p) (set_playerO (id p) g) WaitPartner
          [Joined (gameNumber g) (id p) PlayerType.O]).
Proof.
  intros HO HX. unfold JoinGame. rewrite decide_True by done.
  unfold JoinGame_partner. cbn [playerX set_playerO].
  rewrite decide_False by (intros H; apply H; exact HX). reflexivity.
Qed.

Lemma JoinGame_second (p : Player) (g : Game) (rnd : Z) :
  playerO g ≠ -1 → id p ≠ -1 →
  JoinGame p g rnd =
  prepend [Joined (gameNumber g) (id p) PlayerType.X]
    <$> JoinGame_turn (set_type PlayerType.X p) (set_playerX (id p) g) rnd.
Proof.
  intros HO Hid. unfold JoinGame. rewrite decide_False by done.
  unfold JoinGame_turn, PlayGame. cbn [playerX playerO set_playerX].
  rewrite decide_False by tauto. reflexivity.
Qed.

(** ** Projections of the actions *)

Lemma gn_of_inj (i j : nat) : gn_of i = gn_of j → i = j.
Proof. unfold gn_of. lia. Qed.

Lemma tid_inj (t t' : nat) : tid t = tid t' → t = t'.
Proof. unfold tid. lia. Qed.

Lemma tid_ne (t : nat) : tid t ≠ -1.
Proof. unfold tid. lia. Qed.

Lemma joins_app gn l1 l2 : joins gn (l1 ++ l2) = joins gn l1 ++ joins gn l2.
Proof. apply omap_app. Qed.

Lemma marks_app gn l1 l2 : marks gn (l1 ++ l2) = marks gn l1 ++ marks gn l2.
Proof. apply omap_app. Qed.

Lemma tallies_app gn l1 l2 : tallies gn (l1 ++ l2) = tallies gn l1 ++ tallies gn l2.
Proof. apply omap_app. Qed.

Lemma times_app f l1 l2 : times f (l1 ++ l2) = times f l1 + times f l2.
Proof. unfold times. rewrite List.filter_app, length_app. lia. Qed.

Lemma other_game gn gn' (acts : list Action) :
  Forall (λ a, action_game a = gn') acts → gn' ≠ gn →
  joins gn acts = [] ∧ marks gn acts = [] ∧ tallies gn acts = [].
Proof.
  intros Hall Hne. induction Hall as [|a acts Ha _ IH]; [done|].
  destruct IH as (IH1 & IH2 & IH3). unfold joins, marks, tallies in *.
  cbn [omap list_omap]. fold (omap (join_of gn) acts).
  fold (omap (mark_of gn) acts). fold (omap (tally_of gn) acts).
  rewrite IH1, IH2, IH3.
  destruct a; cbn in *; rewrite ?decide_False by congruence; done.
Qed.

Lemma other_player f pid pid' (acts : list Action) :
  (∀ a, action_player a ≠ pid → f pid a = false) →
  Forall (λ a, action_player a = pid') acts → pid' ≠ pid →
  times (f pid) acts = 0.
Proof.
  intros Hf Hall Hne. unfold times.
  induction Hall as [|a acts Ha _ IH]; [done|].
  cbn [List.filter]. rewrite Hf by congruence. exact IH.
Qed.

Lemma is_win_other pid a : action_player a ≠ pid → is_win pid a = false.
Proof. destruct a; cbn; try done. intros. by apply bool_decide_eq_false_2. Qed.

Lemma is_loss_other pid a : action_player a ≠ pid → is_loss pid a = false.
Proof. destruct a; cbn; try done. intros. by apply bool_decide_eq_false_2. Qed.

Lemma is_draw_other pid a : action_player a ≠ pid → is_draw pid a = false.
Proof. destruct a; cbn; try done; intros; by apply bool_decide_eq_false_2. Qed.

Lemma trace_ok_ext acts acts' i ph :
  joins (gn_of i) acts' = joins (gn_of i) acts →
  marks (gn_of i) acts' = marks (gn_of i) acts →
  tallies (gn_of i) acts' = tallies (gn_of i) acts →
  trace_ok acts i ph → trace_ok acts' i ph.
Proof. unfold trace_ok. intros -> -> ->. done. Qed.

(** ** The sections account for the counters *)

Ltac count_it :=
  unfold times; cbn [List.filter is_win is_loss is_draw length];
  rewrite ?bool_decide_eq_true_2 by done; cbn [length]; lia.

Lemma TurnSpec_accounts p g c : TurnSpec p g c → accounts p (gameNumber g) c.
Proof.
  intros [g' row col [_ [Hgn _]] _ _ | g' row col [_ [Hgn _]] _ _ | g' [_ [Hgn _]] _ _];
    unfold accounts; cbn [sec_player sec_actions sec_game id winCount loseCount
                          drawCount set_winCount set_drawCount];
    (split; [done|]); (split; [count_it|]); (split; [count_it|]);
    (split; [count_it|]); (split; [|done]); repeat constructor.
Qed.

Lemma JoinGame_return_accounts p gn c :
  accounts p gn c → accounts p gn (JoinGame_return c).
Proof.
  unfold JoinGame_return. destruct (sec_exit c); done.
Qed.

Lemma LoopSpec_accounts p g c : LoopSpec p g c → accounts p (gameNumber g) c.
Proof.
  intros [Hs Ht | c' Hs Ht Hc | Hs].
  - unfold accounts. cbn. repeat split; try count_it. repeat constructor.
  - by apply JoinGame_return_accounts, TurnSpec_accounts.
  - apply JoinGame_return_accounts. unfold PlayGame_over.
    repeat case_decide; unfold accounts; cbn; repeat split; try count_it;
      repeat constructor.
Qed.

Lemma prepend_join_accounts p p0 gn c role :
  id p0 = id p → winCount p0 = winCount p → loseCount p0 = loseCount p →
  drawCount p0 = drawCount p →
  accounts p0 gn c →
  accounts p gn (prepend [Joined gn (id p) role] c).
Proof.
  intros Hid Hw Hl Hd (H1 & H2 & H3 & H4 & H5 & H6). unfold accounts.
  cbn [prepend sec_player sec_actions sec_game]. rewrite Hid in *.
  change ([Joined gn (id p) role] ++ sec_actions c)
    with (Joined gn (id p) role :: sec_actions c).
  unfold times in *. cbn [List.filter is_win is_loss is_draw].
  repeat split; try congruence. constructor; [done|]. exact H5.
Qed.

(** ** Frames *)

Lemma ready_inside i l : ready i l → inside i l.
Proof. intros [-> | ->]; done. Qed.

Lemma parked_inside i l : parked i l → inside i l.
Proof. intros [n ->]; done. Qed.

Lemma after_step_keeps ws t w w' b i x wx j :
  ws !! t = Some w → ¬ inside j (pc w) →
  ws !! x = Some wx → inside j (pc wx) →
  after_step ws t w' b i !! x = Some (wake_if b i wx).
Proof.
  intros Ht Hout Hx Hin.
  assert (x ≠ t) as Hne by (intros ->; congruence).
  rewrite after_step_other by done. rewrite Hx. done.
Qed.

Lemma joining_frame ws t w w' b i j :
  ws !! t = Some w → pc w ≠ AtJoin j → pc w' ≠ AtJoin j →
  joining (after_step ws t w' b i) j = joining ws j.
Proof.
  intros Ht H1 H2. pose proof (joining_after ws t w w' b i j Ht) as H.
  rewrite !joins_at_no in H by done. lia.
Qed.

Lemma nobody_else_frame ws t w w' b i j allowed :
  ws !! t = Some w → ¬ inside j (pc w') →
  nobody_else ws j allowed → nobody_else (after_step ws t w' b i) j allowed.
Proof.
  intros Ht Hout Hold. eapply nobody_else_after; [done..| |]; by auto.
Qed.

(** A step of a thread that is outside slot [j] before and after leaves
    what is known about slot [j]. *)
Lemma slot_ok_frame g ws n j ph t w w' b i :
  ws !! t = Some w →
  ¬ inside j (pc w) → pc w ≠ AtJoin j → ¬ inside j (pc w') → pc w' ≠ AtJoin j →
  slot_ok g ws n j ph → slot_ok g (after_step ws t w' b i) n j ph.
Proof.
  intros Ht Hin Hjoin Hin' Hjoin' Hok.
  pose proof (joining_frame ws t w w' b i j Ht Hjoin Hjoin') as Hj.
  pose proof (λ al, nobody_else_frame ws t w w' b i j al Ht Hin') as Hn.
  pose proof (λ x wx, after_step_keeps ws t w w' b i x wx j Ht Hin) as Hk.
  destruct ph as [|a|a b0 x y|a b0 m o how|a b0 m o how]; cbn [slot_ok] in *;
    rewrite Hj.
  - destruct Hok as (?&?&?&?&?&?&?). repeat split; auto.
  - destruct Hok as (?&?&?&?&?&?&?&wa&na&Hwa&Hpc&Hty).
    repeat split; auto.
    destruct (wake_if_partner b i j na wa Hpc) as [n' Hn'].
    exists (wake_if b i wa), n'. rewrite me_wake_if.
    split; [|done]. apply Hk; [done|]. rewrite Hpc. done.
  - destruct Hok as (?&?&?&?&?&?&?&?&?&?&wx&wy&Hwx&Hwy&Htx&Hty&Hrx&Hpy).
    repeat split; auto.
    exists (wake_if b i wx), (wake_if b i wy). rewrite !me_wake_if.
    split; [apply Hk; [done|by apply ready_inside]|].
    split; [apply Hk; [done|by apply parked_inside]|].
    repeat split; auto using wake_if_ready, wake_if_parked.
  - destruct Hok as (?&?&?&?&?&?&?&?&?&wo&Hwo&Hro).
    repeat split; auto.
    exists (wake_if b i wo).
    split; [apply Hk; [done|by apply ready_inside]|]. by apply wake_if_ready.
  - destruct Hok as (?&?&?&?&?&?&?). repeat split; auto.
Qed.

Lemma Forall_fst_snd {A} (P Q : A → Prop) (l : list A) :
  Forall (λ x, P x ∧ Q x) l → Forall P l ∧ Forall Q l.
Proof. intros H. split; eapply Forall_impl; try exact H; cbn; tauto. Qed.

(** The invariant after a step of thread [t] on slot [i], from what the
    step does to the thread and to the slot. *)
Lemma round_inv_update N G s s' acts a t w w' b i g g' :
  round_inv N G s acts →
  workers s !! t = Some w →
  games s !! i = Some g →
  workers s' = after_step (workers s) t w' b i →
  games s' = <[i := g']> (games s) →
  totalGameCount (poolOfGames s') = totalGameCount (poolOfGames s) →
  gameNumber g' = gameNumber g →
  id (me w') = id (me w) → loc_ok G (pc w') →
  winCount (me w') = winCount (me w) + times (is_win (id (me w))) a →
  loseCount (me w') = loseCount (me w) + times (is_loss (id (me w))) a →
  drawCount (me w') = drawCount (me w) + times (is_draw (id (me w))) a →
  Forall (λ x, action_player x = id (me w) ∧ action_game x = gameNumber g) a →
  (∀ j, j ≠ i → ¬ inside j (pc w) ∧ pc w ≠ AtJoin j ∧
                ¬ inside j (pc w') ∧ pc w' ≠ AtJoin j) →
  (∀ ph, trace_ok acts i ph →
         slot_ok g (workers s) (length (marks (gn_of i) acts)) i ph →
         ∃ ph', trace_ok (acts ++ a) i ph' ∧
                slot_ok g' (workers s') (length (marks (gn_of i) (acts ++ a))) i ph') →
  round_inv N G s' (acts ++ a).
Proof.
  intros (Hwf & Hcount & Hphase) Ht Hg Hws Hgs Htotal Hgn Hid Hloc Hwin Hlose Hdraw
    Hacts Hother Hslot.
  destruct Hwf as (Hlen & Htot & Hwlen & Hnum & Hwk).
  destruct (Hwk t w Ht) as [Hidt _].
  pose proof (Hnum i g Hg) as Hgi.
  apply Forall_fst_snd in Hacts as [Hactp Hactg].
  split; [|split].
  - split; [by rewrite Hgs, length_insert|].
    split; [congruence|].
    split; [by rewrite Hws, after_step_length|].
    split.
    + intros j gj. rewrite Hgs. intros Hj.
      destruct (decide (j = i)) as [->|Hne].
      * rewrite list_lookup_insert_eq in Hj by (by eapply lookup_lt_Some).
        injection Hj as <-. congruence.
      * rewrite list_lookup_insert_ne in Hj by done. by apply Hnum.
    + intros t' w1. rewrite Hws. intros Hl.
      destruct (after_step_inv _ _ _ _ _ _ _ _ Ht Hl)
        as [[-> ->] | (Hne & w0 & Hw0 & ->)].
      * split; [congruence|done].
      * destruct (Hwk t' w0 Hw0) as [Hid0 Hloc0].
        rewrite me_wake_if. split; [done|]. by apply wake_if_ok.
  - intros t' w1. rewrite Hws. intros Hl. rewrite !times_app.
    destruct (after_step_inv _ _ _ _ _ _ _ _ Ht Hl)
      as [[-> ->] | (Hne & w0 & Hw0 & ->)].
    + destruct (Hcount t w Ht) as (H1 & H2 & H3).
      rewrite Hidt in Hwin, Hlose, Hdraw. lia.
    + destruct (Hcount t' w0 Hw0) as (H1 & H2 & H3). rewrite me_wake_if.
      assert (id (me w) ≠ tid t') as Hpid
        by (rewrite Hidt; intros E; apply tid_inj in E; congruence).
      rewrite (other_player is_win _ _ a (is_win_other _) Hactp Hpid).
      rewrite (other_player is_loss _ _ a (is_loss_other _) Hactp Hpid).
      rewrite (other_player is_draw _ _ a (is_draw_other _) Hactp Hpid). lia.
  - intros j Hj. destruct (decide (j = i)) as [->|Hne].
    + destruct (Hphase i Hj) as (ph & Htr & g0 & Hg0 & Hok).
      assert (g0 = g) as -> by congruence.
      destruct (Hslot ph Htr Hok) as (ph' & Htr' & Hok').
      exists ph'. split; [done|]. exists g'. split; [|done].
      rewrite Hgs. apply list_lookup_insert_eq. by eapply lookup_lt_Some.
    + destruct (Hphase j Hj) as (ph & Htr & g0 & Hg0 & Hok).
      assert (gameNumber g ≠ gn_of j) as Hgne
        by (rewrite Hgi; intros E; apply gn_of_inj in E; congruence).
      destruct (other_game (gn_of j) _ a Hactg Hgne) as (Ej & Em & Et).
      exists ph. split.
      * eapply trace_ok_ext; [| | |exact Htr];
          rewrite ?joins_app, ?marks_app, ?tallies_app, ?Ej, ?Em, ?Et;
          by rewrite app_nil_r.
      * exists g0. split; [by rewrite Hgs, list_lookup_insert_ne|].
        rewrite marks_app, Em, app_nil_r, Hws.
        destruct (Hother j Hne) as (?&?&?&?). by eapply slot_ok_frame.
Qed.

(** ** Alternation *)

Lemma turn_after_S n : turn_after (S n) = otherTurn (turn_after n).
Proof.
  unfold turn_after. rewrite Nat.even_succ, <- Nat.negb_even.
  by destruct (Nat.even n).
Qed.

Lemma alternates_nil : alternates [].
Proof. intros n m H. done. Qed.

Lemma alternates_snoc l m :
  alternates l → m = turn_after (length l) → alternates (l ++ [m]).
Proof.
  intros Hl Hm n m' H. apply lookup_app_Some in H as [H | [Hlen H]].
  - by apply Hl.
  - destruct (n - length l)%nat as [|k] eqn:E; [|done].
    cbn in H. injection H as <-. replace n with (length l) by lia. done.
Qed.

Lemma marks_by_nil a b : marks_by a b [].
Proof. intros pid m H. by apply elem_of_nil in H. Qed.

Lemma marks_by_snoc a b l pid m :
  marks_by a b l →
  (pid = tid a ∧ m = PlayerType.O) ∨ (pid = tid b ∧ m = PlayerType.X) →
  marks_by a b (l ++ [(pid, m)]).
Proof.
  intros Hl Hm pid' m' H. apply elem_of_app in H as [H | H]; [by apply Hl|].
  apply list_elem_of_singleton in H. injection H as -> ->. done.
Qed.

Lemma role_other a b x y :
  a ≠ b → pair_of a b x y → role a y = otherTurn (role a x) ∧ x ≠ y ∧
  pair_of a b y x ∧
  ((tid x = tid a ∧ role a x = PlayerType.O) ∨ (tid x = tid b ∧ role a x = PlayerType.X)).
Proof.
  intros Hab [[-> ->] | [-> ->]]; unfold role, pair_of;
    repeat case_decide; try congruence; cbn; repeat split; auto.
Qed.

(** ** Steps outside the games *)

Lemma outside_spec l j : outside l → ¬ inside j l ∧ l ≠ AtJoin j ∧ ∀ n, loc_ok n l.
Proof.
  destruct l; cbn; try done; intros _;
    (split; [tauto | split; [congruence | intros; exact I]]).
Qed.

(** A step that takes a thread from a location outside the games to
    another one and touches no game keeps the invariant. *)
Lemma round_inv_local N G s s' acts t w l :
  round_inv N G s acts →
  workers s !! t = Some w →
  outside (pc w) → outside l →
  workers s' = <[t := MkWorker (me w) l]> (workers s) →
  poolOfGames s' = poolOfGames s →
  round_inv N G s' acts.
Proof.
  intros (Hwf & Hcount & Hphase) Ht Hout Hout' Hws Hgs.
  assert (workers s' = after_step (workers s) t (MkWorker (me w) l) false 0) as Hws'.
  { rewrite Hws. unfold after_step. by rewrite <- (wake_if_fmap false). }
  assert (games s' = games s) as Hgames by (unfold games; congruence).
  destruct Hwf as (Hlen & Htot & Hwlen & Hnum & Hwk).
  split; [|split].
  - split; [congruence|]. split; [congruence|].
    split; [by rewrite Hws, length_insert|].
    split; [by rewrite Hgames|].
    intros t' w1. rewrite Hws'. intros Hl.
    destruct (after_step_inv _ _ _ _ _ _ _ _ Ht Hl)
      as [[-> ->] | (Hne & w0 & Hw0 & ->)].
    + destruct (Hwk t w Ht) as [Hid _]. split; [done|].
      by apply (outside_spec l 0%nat).
    + by apply Hwk.
  - intros t' w1. rewrite Hws'. intros Hl.
    destruct (after_step_inv _ _ _ _ _ _ _ _ Ht Hl)
      as [[-> ->] | (Hne & w0 & Hw0 & ->)]; [by apply (Hcount t w)|].
    by apply Hcount.
  - intros j Hj. destruct (Hphase j Hj) as (ph & Htr & g0 & Hg0 & Hok).
    exists ph. split; [done|]. exists g0. split; [congruence|].
    rewrite Hws'.
    destruct (outside_spec _ j Hout) as (?&?&_).
    destruct (outside_spec _ j Hout') as (?&?&_).
    by eapply slot_ok_frame.
Qed.

(** ** The claim of slot [i] *)

Lemma slot_claim g ws n i ph t w :
  ws !! t = Some w → pc w = AtScan i → playerCount g ≠ 2 →
  slot_ok g ws n i ph →
  slot_ok (set_playerCount (playerCount g + 1) g)
    (after_step ws t (MkWorker (me w) (AtJoin i)) false i) n i ph.
Proof.
  intros Ht Hpc Hfull Hok.
  assert (¬ inside i (pc w)) as Hout by (rewrite Hpc; cbn; tauto).
  pose proof (joining_after ws t w (MkWorker (me w) (AtJoin i)) false i i Ht) as Hj.
  rewrite joins_at_no in Hj by (rewrite Hpc; congruence).
  rewrite joins_at_yes in Hj by done.
  pose proof (λ al, nobody_else_frame ws t w (MkWorker (me w) (AtJoin i)) false i i al
                      Ht (λ H, H)) as Hn.
  destruct ph as [|a|a b0 x y|a b0 m o how|a b0 m o how]; cbn [slot_ok] in *.
  - destruct Hok as (?&?&?&?&?&?&?). cbn. repeat split; auto; lia.
  - destruct Hok as (?&?&?&?&?&?&?&wa&na&Hwa&Hpa&Hty). cbn.
    repeat split; auto; try lia.
    exists wa, na. split; [|done].
    erewrite after_step_keeps; [done|done|done|exact Hwa|]. rewrite Hpa. done.
  - destruct Hok as (?&?&?&?&?&?&?&?&?). done.
  - destruct Hok as (?&?&?&?&?&?&?&?). done.
  - destruct Hok as (?&?&?&?&?&?). done.
Qed.

(** ** Joining slot [i] *)

Ltac project :=
  unfold joins, marks, tallies in *;
  rewrite ?omap_app;
  cbn [omap list_omap join_of mark_of tally_of];
  rewrite ?decide_True by done;
  cbn [omap list_omap join_of mark_of tally_of];
  rewrite ?app_nil_r.

Lemma elem_one (x a : nat) : x ∈ [a] ↔ x = a.
Proof. apply list_elem_of_singleton. Qed.

Lemma elem_two (x a b : nat) : x ∈ [a; b] ↔ x = a ∨ x = b.
Proof. rewrite elem_of_cons, elem_one. done. Qed.

(** The slot after the turn of thread [t], whose turn it is, when the other
    player [z] is inside the slot. *)
Lemma turn_effect g1 ws n i a b t z w wz p c1 :
  ws !! t = Some w → ws !! z = Some wz → inside i (pc wz) →
  type (me wz) = role a z →
  (∀ x wx, ws !! x = Some wx → inside i (pc wx) → x = t ∨ x = z) →
  (pc w = AtJoin i ∧ joining ws i = 1%nat ∨ inside i (pc w) ∧ joining ws i = 0%nat) →
  a ≠ b → pair_of a b t z →
  type p = role a t → id p = tid t → gameNumber g1 = gn_of i →
  playerO g1 = tid a → playerX g1 = tid b → playerCount g1 = 2 →
  role a t = turn_after n →
  TurnSpec p g1 c1 →
  let c := JoinGame_return c1 in
  let ws' := after_step ws t (MkWorker (sec_player c) (next_loc i w c)) true i in
  joins (gn_of i) (sec_actions c) = [] ∧ notifies (sec_actions c) = true ∧
  sec_exit c ≠ Exit1 ∧
  ((marks (gn_of i) (sec_actions c) = [(tid t, role a t)] ∧
    tallies (gn_of i) (sec_actions c) = [] ∧
    slot_ok (sec_game c) ws' (S n) i (Playing a b z t)) ∨
   (∃ how, tallies (gn_of i) (sec_actions c) = [first_tally how (gn_of i) (tid t)] ∧
      (marks (gn_of i) (sec_actions c) = [] ∨
       marks (gn_of i) (sec_actions c) = [(tid t, role a t)]) ∧
      ∀ n', slot_ok (sec_game c) ws' n' i (Over a b t z how))).
Proof.
  intros Ht Hz Hzin Hzty Hnobody Hw Hab Hpair Hty Hid Hgn HO HX Hcnt Hrole Hspec.
  destruct (role_other a b t z Hab Hpair) as (Hrz & Htz & Hpair' & _).
  assert (∀ w', pc w' ≠ AtJoin i → joining (after_step ws t w' true i) i = 0%nat)
    as Hjoin.
  { intros w' Hw'. pose proof (joining_after ws t w w' true i i Ht) as H.
    rewrite (joins_at_no _ w') in H by done.
    destruct Hw as [[Hpc Hj] | [Hin Hj]].
    - rewrite joins_at_yes in H by done. lia.
    - rewrite joins_at_no in H by (intros E; rewrite E in Hin; done). lia. }
  assert (∀ w', after_step ws t w' true i !! z = Some (wake i wz)) as Hz'.
  { intros w'. rewrite after_step_other by done. rewrite Hz. done. }
  assert (ready i (pc (wake i wz))) as Hzready
    by (rewrite pc_wake; by apply wake_loc_wakes).
  destruct Hspec as [g' row col (Hc1 & Hc2 & Hc3 & Hc4) Hturn Hst
                    | g' row col (Hc1 & Hc2 & Hc3 & Hc4) Hturn Hst
                    | g' (Hc1 & Hc2 & Hc3 & Hc4) Hturn Hst];
    cbn [JoinGame_return sec_exit sec_actions sec_game sec_player next_loc];
    rewrite ?Hgn, ?Hid, ?Hty;
    (split; [project; done|]); (split; [reflexivity|]); (split; [done|]).
  - left. split; [project; done|]. split; [project; done|].
    cbn [slot_ok]. rewrite Hjoin by done.
    repeat split; try congruence.
    + rewrite Hturn, Hty, turn_after_S, <- Hrole. done.
    + eapply nobody_else_after; [done| | |].
      * intros x wx Hx Hin. apply (elem_two x t z). eauto.
      * intros _. apply elem_two. by right.
      * intros x Hx Hne. apply elem_two. apply elem_two in Hx. tauto.
    + exists (wake i wz), (MkWorker p (AtWaitTurn i false)).
      rewrite me_wake. split; [apply Hz'|].
      split; [by eapply after_step_self|].
      repeat split; try done. by exists false.
  - right. exists GameState.Won. split; [project; done|].
    split; [right; project; done|]. intros n'.
    cbn [slot_ok]. rewrite Hjoin by done.
    repeat split; try congruence.
    + eapply nobody_else_after; [done| | |].
      * intros x wx Hx Hin. apply (elem_two x t z). eauto.
      * cbn. done.
      * intros x Hx Hne. apply elem_one. apply elem_two in Hx. tauto.
    + exists (wake i wz). split; [apply Hz'|done].
  - right. exists GameState.Draw. split; [project; done|].
    split; [left; project; done|]. intros n'.
    cbn [slot_ok]. rewrite Hjoin by done.
    repeat split; try congruence.
    + eapply nobody_else_after; [done| | |].
      * intros x wx Hx Hin. apply (elem_two x t z). eauto.
      * cbn. done.
      * intros x Hx Hne. apply elem_one. apply elem_two in Hx. tauto.
    + exists (wake i wz). split; [apply Hz'|done].
Qed.

Lemma next_loc_prepend i w acts c : next_loc i w (prepend acts c) = next_loc i w c.
Proof. reflexivity. Qed.

Lemma notifies_joined gn pid r acts :
  notifies ([Joined gn pid r] ++ acts) = notifies acts.
Proof. reflexivity. Qed.

Lemma slot_join g ws acts i ph t w rnd c :
  ws !! t = Some w → pc w = AtJoin i → id (me w) = tid t →
  gameNumber g = gn_of i → myRand_range rnd = true →
  JoinGame (me w) g rnd = Some c →
  trace_ok acts i ph →
  slot_ok g ws (length (marks (gn_of i) acts)) i ph →
  accounts (me w) (gn_of i) c ∧
  sec_exit c ≠ Exit1 ∧
  ∃ ph', trace_ok (acts ++ sec_actions c) i ph' ∧
    slot_ok (sec_game c)
      (after_step ws t (MkWorker (sec_player c) (next_loc i w c))
         (notifies (sec_actions c)) i)
      (length (marks (gn_of i) (acts ++ sec_actions c))) i ph'.
Proof.
  intros Ht Hpc Hid Hgn Hrnd Hc Htr Hok.
  pose proof (joining_pos ws t w i Ht Hpc) as Hpos.
  set (p := me w) in *.
  destruct ph as [|a|a b0 x y|a b0 m o how|a b0 m o how]; cbn [slot_ok] in Hok.
  - (* the first to join *)
    destruct Hok as (HO & HX & Hst & Hturn & Hcnt & Hle & Hnobody).
    rewrite JoinGame_first in Hc by done. injection Hc as <-.
    destruct Htr as (Halt & Hj & Hm & Hta).
    split; [|split; [done|]].
    { unfold accounts. cbn. rewrite Hgn. repeat split; try done; try count_it.
      repeat constructor. }
    exists (Lone t). cbn [sec_actions sec_game sec_player next_loc sec_exit notifies
                         existsb is_notify orb].
    rewrite Hgn, Hid. split.
    + unfold trace_ok. project. rewrite Hj, Hm, Hta. done.
    + cbn [slot_ok]. cbn [playerO playerX set_playerO currentGameState currentTurn
                           playerCount].
      pose proof (joining_after ws t w (MkWorker (set_type PlayerType.O p)
                    (AtWaitPartner i false)) false i i Ht) as Hjo.
      rewrite joins_at_yes in Hjo by done. rewrite joins_at_no in Hjo by done.
      repeat split; try done; try lia.
      * eapply nobody_else_after; [done|exact Hnobody| |].
        -- intros _. apply list_elem_of_singleton. done.
        -- intros z Hz. by apply elem_of_nil in Hz.
      * eexists _, false. split; [by eapply after_step_self|]. done.
  - (* the second to join *)
    destruct Hok as (HO & HX & Hst & Hturn & Hcnt & Hle & Hnobody & wa & na & Hwa & Hpa & Hta).
    destruct Htr as (Halt & Hj & Hm & Htal).
    rewrite JoinGame_second in Hc
      by (rewrite ?HO, ?Hid; apply tid_ne).
    set (p1 := set_type PlayerType.X p) in *.
    set (g1 := set_playerX (id p) g) in *.
    destruct (JoinGame_turn_spec p1 g1 rnd Hrnd) as (c1 & E & Hloop).
    rewrite E in Hc. injection Hc as <-.
    pose proof (LoopSpec_accounts _ _ _ Hloop) as Hacc.
    destruct Hloop as [Hs Hwrong | c1 Hs Hmine Hspec | Hs]; [done| |done].
    assert (a ≠ t) as Hat by (intros ->; congruence).
    assert (role a a = PlayerType.O) as Hra by (unfold role; by rewrite decide_True).
    assert (role a t = PlayerType.X) as Hrt by (unfold role; by rewrite decide_False).
    rewrite Hm in *. cbn [length] in *.
    destruct (turn_effect g1 ws 0 i a t t a w wa p1 c1) as (Ej & En & Hex & Hcases);
      try done.
    { rewrite Hpa. done. }
    { congruence. }
    { intros x wx Hx Hin. right. by apply elem_one, (Hnobody x wx). }
    { left. split; [done|]. lia. }
    { by right. }
    { cbn. lia. }
    split; [|split; [done|]].
    { rewrite <- Hgn. apply prepend_join_accounts with (p0 := p1); done. }
    cbn [prepend sec_actions sec_game sec_player next_loc sec_exit].
    rewrite next_loc_prepend, notifies_joined, En, Hgn, Hid.
    destruct Hcases as [(Em & Et & Hslot) | (how & Et & Em & Hslot)].
    + exists (Playing a t a t). split; [|].
      * unfold trace_ok. rewrite !app_assoc.
        rewrite joins_app, marks_app, tallies_app, Ej, Em, Et.
        project. rewrite Hj, Hm, Htal. cbn. rewrite Hrt.
        split; [|split; [done|split; [|done]]].
        -- apply (alternates_snoc []); [apply alternates_nil|done].
        -- apply (marks_by_snoc a t []); [apply marks_by_nil|by right].
      * rewrite marks_app, marks_app, Em. project. rewrite Hm. exact Hslot.
    + exists (Over a t t a how). split; [|apply Hslot].
      unfold trace_ok. rewrite !app_assoc.
      rewrite joins_app, marks_app, tallies_app, Ej, Et.
      project. rewrite Hj, Hm, Htal. cbn [app].
      destruct Em as [-> | ->]; cbn; rewrite ?Hrt.
      * split; [apply alternates_nil|]. split; [done|].
        split; [apply marks_by_nil|done].
      * split; [apply (alternates_snoc []); [apply alternates_nil|done]|].
        split; [done|].
        split; [apply (marks_by_snoc a t []); [apply marks_by_nil|by right]|done].
  - destruct Hok as (?&?&?&?&?&?&?&?&Hj0&?). lia.
  - destruct Hok as (?&?&?&?&?&?&?&Hj0&?). lia.
  - destruct Hok as (?&?&?&?&?&Hj0&?). lia.
Qed.

(** ** Waking up inside slot [i] *)

Lemma after_step_same ws t w i :
  ws !! t = Some w → after_step ws t (MkWorker (me w) (pc w)) false i = ws.
Proof.
  intros Ht. unfold after_step. rewrite <- (wake_if_fmap false).
  destruct w as [p l]. cbn. by apply list_insert_id.
Qed.

Lemma slot_wake g ws acts i ph t w rnd c :
  ws !! t = Some w → ready i (pc w) → id (me w) = tid t →
  gameNumber g = gn_of i → myRand_range rnd = true →
  (pc w = AtWaitPartner i true → JoinGame_partner (me w) g rnd = Some c) →
  (pc w = AtWaitTurn i true → JoinGame_turn (me w) g rnd = Some c) →
  trace_ok acts i ph →
  slot_ok g ws (length (marks (gn_of i) acts)) i ph →
  accounts (me w) (gn_of i) c ∧
  (sec_exit c = Exit1 →
   sec_game c = g ∧ sec_player c = me w ∧ notifies (sec_actions c) = false) ∧
  ∃ ph', trace_ok (acts ++ sec_actions c) i ph' ∧
    slot_ok (sec_game c)
      (after_step ws t (MkWorker (sec_player c) (next_loc i w c))
         (notifies (sec_actions c)) i)
      (length (marks (gn_of i) (acts ++ sec_actions c))) i ph'.
Proof.
  intros Ht Hready Hid Hgn Hrnd Hpartner Hturn Htr Hok.
  pose proof (ready_inside _ _ Hready) as Hin.
  assert (pc w ≠ AtJoin i) as Hnj by (destruct Hready as [-> | ->]; done).
  set (p := me w) in *.
  assert (playerX g ≠ -1 → playerO g ≠ -1 → JoinGame_turn p g rnd = Some c) as Hloop.
  { intros HX HO. destruct Hready as [Hpc | Hpc]; [|by apply Hturn].
    rewrite <- JoinGame_partner_turn by done. by apply Hpartner. }
  destruct ph as [|a|a b0 x y|a b0 m o how|a b0 m o how]; cbn [slot_ok] in Hok.
  - destruct Hok as (_&_&_&_&_&_&Hnobody).
    apply (Hnobody t w Ht) in Hin. by apply elem_of_nil in Hin.
  - (* alone: the partner has not come *)
    destruct Hok as (HO & HX & Hst & Htn & Hcnt & Hle & Hnobody & wa & na & Hwa & Hpa & Hta).
    assert (t = a) as -> by (by apply elem_one, (Hnobody t w)).
    assert (wa = w) as -> by congruence.
    assert (pc w = AtWaitPartner i true) as Hpc
      by (destruct Hready as [E | E]; [done | congruence]).
    specialize (Hpartner Hpc). unfold JoinGame_partner in Hpartner.
    rewrite decide_False in Hpartner by (intros H; by apply H).
    injection Hpartner as <-.
    split; [|split; [done|]].
    { unfold accounts. cbn. rewrite Hgn. repeat split; try done; try count_it. }
    exists (Lone a). cbn [sec_actions sec_game sec_player next_loc sec_exit notifies
                         existsb].
    rewrite app_nil_r. split; [done|]. cbn [slot_ok].
    rewrite (joining_frame ws a w _ false i i Ht) by done.
    repeat split; try done.
    + eapply nobody_else_after; [done|exact Hnobody| |]; [|by auto].
      intros _. by apply elem_one.
    + eexists _, false. split; [by eapply after_step_self|]. done.
  - (* playing *)
    destruct Hok as (HO & HX & Hab & Hpair & Hst & Htn & Hn & Hcnt & Hj & Hnobody
                     & wx & wy & Hwx & Hwy & Htx & Hty & Hrx & Hpy).
    destruct Htr as (Halt & Hjo & Hby & Htal).
    destruct (role_other a b0 x y Hab Hpair) as (Hry & Hxy & Hpair' & Hwho).
    specialize (Hloop ltac:(rewrite HX; apply tid_ne) ltac:(rewrite HO; apply tid_ne)).
    destruct (JoinGame_turn_spec p g rnd Hrnd) as (c' & E & Hspec).
    assert (c' = c) as -> by congruence.
    pose proof (LoopSpec_accounts _ _ _ Hspec) as Hacc. rewrite Hgn in Hacc.
    split; [done|].
    assert (t = x ∨ t = y) as [-> | ->] by (by apply elem_two, (Hnobody t w)).
    + (* the thread whose turn it is *)
      assert (wx = w) as -> by congruence. fold p in Htx.
      destruct Hspec as [Hs Hwrong | c1 Hs Hmine Hmove | Hs]; [congruence| |done].
      destruct (turn_effect g ws (length (marks (gn_of i) acts)) i a b0 x y w wy p c1)
        as (Ej & En & Hex & Hcases); try done.
      { by apply parked_inside. }
      { intros z wz Hz Hzin. by apply elem_two, (Hnobody z wz). }
      { by right. }
      { congruence. }
      split; [done|]. rewrite En.
      destruct Hcases as [(Em & Et & Hslot) | (how & Et & Em & Hslot)].
      * exists (Playing a b0 y x). split.
        -- unfold trace_ok. rewrite joins_app, marks_app, tallies_app, Ej, Em, Et.
           rewrite !app_nil_r, fmap_app. cbn [fmap list_fmap snd].
           split; [|split; [done|split; [|done]]].
           ++ apply alternates_snoc; [done|]. rewrite length_fmap. congruence.
           ++ by apply marks_by_snoc.
        -- rewrite marks_app, Em, length_app. cbn [length].
           replace (length (marks (gn_of i) acts) + 1)%nat
             with (S (length (marks (gn_of i) acts))) by lia.
           exact Hslot.
      * exists (Over a b0 x y how). split; [|apply Hslot].
        unfold trace_ok. rewrite joins_app, marks_app, tallies_app, Ej, Et, Htal.
        rewrite !app_nil_r. cbn [app].
        destruct Em as [-> | ->]; rewrite ?app_nil_r; [done|].
        rewrite fmap_app. cbn [fmap list_fmap snd].
        split; [|split; [done|split; [|done]]].
        -- apply alternates_snoc; [done|]. rewrite length_fmap. congruence.
        -- by apply marks_by_snoc.
    + (* the thread that has just moved: exit(1) *)
      assert (wy = w) as -> by congruence. fold p in Hty.
      assert (currentTurn g ≠ type p) as Hne.
      { rewrite Htn, Hty, Hry. intros E'. symmetry in E'. by apply otherTurn_ne in E'. }
      destruct Hspec as [Hs Hwrong | c1 Hs Hmine Hmove | Hs]; [|done|done].
      cbn [sec_exit sec_game sec_player sec_actions next_loc notifies existsb
           is_notify orb].
      split; [done|].
      exists (Playing a b0 x y). split.
      * eapply trace_ok_ext; [| | |split; [exact Halt|done]];
          rewrite ?joins_app, ?marks_app, ?tallies_app; cbn; by rewrite app_nil_r.
      * rewrite marks_app. cbn [marks omap list_omap mark_of]. rewrite app_nil_r.
        unfold p. rewrite after_step_same by done.
        cbn [slot_ok]. repeat split; try done. exists wx, w. done.
  - (* the other player has ended the game *)
    destruct Hok as (HO & HX & Hab & Hpair & Hhow & Hst & Hcnt & Hj & Hnobody
                     & wo & Hwo & Hro).
    destruct Htr as (Halt & Hjo & Hby & Htal).
    assert (t = o) as -> by (by apply elem_one, (Hnobody t w)).
    specialize (Hloop ltac:(rewrite HX; apply tid_ne) ltac:(rewrite HO; apply tid_ne)).
    destruct (JoinGame_turn_spec p g rnd Hrnd) as (c' & E & Hspec).
    assert (c' = c) as -> by congruence.
    pose proof (LoopSpec_accounts _ _ _ Hspec) as Hacc. rewrite Hgn in Hacc.
    split; [done|].
    destruct Hspec as [Hs Hwrong | c1 Hs Hmine Hmove | Hs]; [congruence|congruence|].
    assert (∃ p', JoinGame_return (PlayGame_over p g) =
                  MkCritSec p' g Returned [second_tally how (gameNumber g) (id p)])
      as (p' & ->).
    { unfold PlayGame_over. rewrite Hst. destruct how; [done| |];
        repeat case_decide; try done; eexists; reflexivity. }
    cbn [sec_exit sec_game sec_player sec_actions next_loc].
    split; [done|]. rewrite Hgn, Hid.
    assert (notifies [second_tally how (gn_of i) (tid o)] = false) as ->
      by (by destruct how).
    assert (tally_of (gn_of i) (second_tally how (gn_of i) (tid o))
            = Some (second_tally how (gn_of i) (tid o))) as Etal
      by (destruct how; cbn; by rewrite ?decide_True).
    assert (join_of (gn_of i) (second_tally how (gn_of i) (tid o)) = None
            ∧ mark_of (gn_of i) (second_tally how (gn_of i) (tid o)) = None)
      as [Ejoin Emark] by (by destruct how).
    exists (Done a b0 m o how). split.
    + unfold trace_ok. unfold joins, marks, tallies in *. rewrite !omap_app.
      cbn [omap list_omap]. rewrite Etal, Ejoin, Emark, Htal, !app_nil_r. done.
    + cbn [slot_ok].
      rewrite (joining_frame ws o w _ false i i Ht) by done.
      repeat split; try done.
      eapply nobody_else_after; [done|exact Hnobody| |].
      * cbn. done.
      * intros z Hz Hne. by apply elem_one in Hz.
  - destruct Hok as (_&_&_&_&_&_&Hnobody).
    apply (Hnobody t w Ht) in Hin. by apply elem_of_nil in Hin.
Qed.

(** ** A spurious wake-up *)

Lemma slot_spurious g ws n i ph t w l' :
  ws !! t = Some w →
  (pc w = AtWaitPartner i false ∧ l' = AtWaitPartner i true) ∨
  (pc w = AtWaitTurn i false ∧ l' = AtWaitTurn i true) →
  slot_ok g ws n i ph →
  slot_ok g (after_step ws t (MkWorker (me w) l') false i) n i ph.
Proof.
  intros Ht Hpc Hok.
  assert (inside i (pc w) ∧ inside i l' ∧ ¬ ready i (pc w) ∧ pc w ≠ AtJoin i
          ∧ l' ≠ AtJoin i ∧ (parked i (pc w) → parked i l')) as (Hin & Hin' & Hnr & Hj & Hj' & Hpk).
  { destruct Hpc as [[-> ->] | [-> ->]]; cbn; repeat split; try done.
    - intros [? | ?]; done.
    - intros [n' ?]. done.
    - intros [? | ?]; done.
    - intros _. by eexists. }
  pose proof (joining_frame ws t w (MkWorker (me w) l') false i i Ht Hj Hj') as Hjoin.
  assert (∀ al, nobody_else ws i al →
                nobody_else (after_step ws t (MkWorker (me w) l') false i) i al) as Hn.
  { intros al Hal. eapply nobody_else_after; [done|exact Hal| |by auto].
    intros _. by apply (Hal t w). }
  destruct ph as [|a|a b0 x y|a b0 m o how|a b0 m o how]; cbn [slot_ok] in *;
    rewrite Hjoin.
  - destruct Hok as (?&?&?&?&?&?&Hnobody).
    apply (Hnobody t w Ht) in Hin. by apply elem_of_nil in Hin.
  - destruct Hok as (?&?&?&?&?&?&Hnobody&wa&na&Hwa&Hpa&Hta).
    assert (t = a) as -> by (by apply elem_one, (Hnobody t w)).
    assert (wa = w) as -> by congruence.
    repeat split; auto.
    exists (MkWorker (me w) l'), true. split; [by eapply after_step_self|].
    split; [|done]. destruct Hpc as [[_ ->] | [E _]]; [done|congruence].
  - destruct Hok as (?&?&?&Hpair&?&?&?&?&?&Hnobody&wx&wy&Hwx&Hwy&Htx&Hty&Hrx&Hpy).
    assert (t = x ∨ t = y) as [-> | ->] by (by apply elem_two, (Hnobody t w)).
    { assert (wx = w) as -> by congruence. done. }
    assert (wy = w) as -> by congruence.
    assert (x ≠ y) as Hxy by (intros ->; congruence).
    repeat split; auto.
    exists wx, (MkWorker (me w) l').
    split; [rewrite after_step_other by done; by rewrite Hwx|].
    split; [by eapply after_step_self|]. repeat split; auto.
  - destruct Hok as (?&?&?&?&?&?&?&?&Hnobody&wo&Hwo&Hro).
    assert (t = o) as -> by (by apply elem_one, (Hnobody t w)).
    assert (wo = w) as -> by congruence. done.
  - destruct Hok as (?&?&?&?&?&?&Hnobody).
    apply (Hnobody t w Ht) in Hin. by apply elem_of_nil in Hin.
Qed.

(** ** Every step of a round keeps the invariant *)

Lemma round_inv_ext N G s s' acts :
  poolOfGames s' = poolOfGames s → workers s' = workers s →
  round_inv N G s acts → round_inv N G s' acts.
Proof.
  intros Hg Hw (Hwf & Hcount & Hphase).
  assert (games s' = games s) as Hgames by (unfold games; congruence).
  split; [|split].
  - unfold well_formed in *. rewrite Hg, Hw, Hgames. done.
  - unfold counters_ok in *. rewrite Hw. done.
  - intros i Hi. destruct (Hphase i Hi) as (ph & Htr & Hok).
    exists ph. split; [done|]. unfold state_ok in *. rewrite Hw, Hgames. done.
Qed.

Lemma commit_fields s t i w c :
  workers (commit s t i w c).1 =
    after_step (workers s) t (MkWorker (sec_player c) (next_loc i w c))
      (notifies (sec_actions c)) i ∧
  games (commit s t i w c).1 = <[i := sec_game c]> (games s) ∧
  totalGameCount (poolOfGames (commit s t i w c).1) = totalGameCount (poolOfGames s) ∧
  (commit s t i w c).2 = sec_actions c.
Proof.
  unfold commit, after_step. rewrite wake_if_fmap.
  destruct (decide (sec_exit c = Exit1)); cbn; done.
Qed.

Lemma some_eq {A} (x y : A) : Some x = Some y → x = y.
Proof. congruence. Qed.

Lemma loc_other i j l :
  j ≠ i →
  (l = AtScan i ∨ l = AtScan (S i) ∨ l = AtJoin i ∨ inside i l) →
  ¬ inside j l ∧ l ≠ AtJoin j.
Proof.
  intros Hne [-> | [-> | [-> | Hin]]]; cbn; try (split; [tauto|congruence]).
  destruct l; cbn in *; try done; subst; split; congruence.
Qed.

Lemma next_loc_cases i w c :
  next_loc i w c = AtScan (S i) ∨ inside i (next_loc i w c) ∨
  (sec_exit c = Exit1 ∧ next_loc i w c = pc w).
Proof. unfold next_loc. destruct (sec_exit c); cbn; auto. Qed.

Lemma thread_step_preserves N G s acts t rnd s' a :
  round_inv N G s acts → myRand_range rnd = true →
  thread_step s t rnd = Some (s', a) →
  round_inv N G s' (acts ++ a).
Proof.
  intros Hinv Hrnd Hstep. unfold thread_step in Hstep.
  destruct (workers s !! t) as [w|] eqn:Ht; [|done]. cbn [mbind option_bind] in Hstep.
  pose proof Hinv as (Hwf & Hcount & Hphase).
  destruct Hwf as (Hlen & Htot & Hwlen & Hnum & Hwk).
  destruct (Hwk t w Ht) as [Hid Hloc].
  destruct (pc w) as [| |i|i|i [|]|i [|]|] eqn:Hpc.
  - (* registration *)
    injection Hstep as <- <-. rewrite app_nil_r.
    eapply round_inv_local; [exact Hinv|exact Ht| | |reflexivity|reflexivity];
      rewrite ?Hpc; done.
  - (* the starting gun *)
    destruct (gunFlag (poolOfPlayers s)); [|done].
    injection Hstep as <- <-. rewrite app_nil_r.
    eapply round_inv_local; [exact Hinv|exact Ht| | |reflexivity|reflexivity];
      rewrite ?Hpc; done.
  - (* the loop of TryToPlayEachGame *)
    destruct (decide (Z.of_nat i < totalGameCount (poolOfGames s))) as [Hi|Hi].
    + destruct (games s !! i) as [g|] eqn:Hg; [|done].
      cbn [mbind option_bind] in Hstep. unfold TryToPlayEachGame_claim in Hstep.
      destruct (decide (playerCount g = 2)) as [Hfull|Hfull];
        injection Hstep as <- <-; rewrite app_nil_r.
      * eapply round_inv_local; [exact Hinv|exact Ht| | |reflexivity|];
          rewrite ?Hpc; try done.
        destruct s as [[gs n] ? ? ? ? ?]. cbn in *. by rewrite list_insert_id.
      * rewrite <- (app_nil_r acts).
        eapply (round_inv_update N G s _ acts [] t w (MkWorker (me w) (AtJoin i))
                  false i g (set_playerCount (playerCount g + 1) g));
          try done; try (cbn; unfold times; cbn; lia).
        -- cbn. unfold after_step. by rewrite <- (wake_if_fmap false).
        -- intros j Hne. rewrite Hpc. cbn. repeat split; try tauto; congruence.
        -- intros ph Htr Hok. exists ph. rewrite app_nil_r. split; [done|].
           cbn [workers set_workers].
           replace (<[t:=MkWorker (me w) (AtJoin i)]> (workers s))
             with (after_step (workers s) t (MkWorker (me w) (AtJoin i)) false i)
             by (unfold after_step; by rewrite <- (wake_if_fmap false)).
           by apply slot_claim.
    + injection Hstep as <- <-. rewrite app_nil_r.
      eapply round_inv_local; [exact Hinv|exact Ht| | |reflexivity|reflexivity];
        rewrite ?Hpc; done.
  - (* JoinGame *)
    destruct (games s !! i) as [g|] eqn:Hg; [|done].
    cbn [mbind option_bind] in Hstep.
    destruct (JoinGame (me w) g rnd) as [c|] eqn:Hc; [|done].
    apply (some_eq (commit s t i w c)) in Hstep.
    destruct (commit_fields s t i w c) as (Ews & Egs & Etot & Eacts).
    rewrite Hstep in Ews, Egs, Etot, Eacts. cbn [fst snd] in Ews, Egs, Etot, Eacts.
    rewrite Eacts.
    cbn in Hloc. destruct (Hphase i Hloc) as (ph & Htr & g0 & Hg0 & Hok).
    assert (g0 = g) as -> by congruence.
    pose proof (Hnum i g Hg) as Hgn.
    destruct (slot_join g (workers s) acts i ph t w rnd c Ht Hpc Hid Hgn Hrnd Hc Htr Hok)
      as ((A1 & A2 & A3 & A4 & A5 & A6) & Hex & _).
    eapply (round_inv_update N G s s' acts _ t w _ _ i g (sec_game c));
      try done; try congruence.
    + unfold next_loc. cbn. destruct (sec_exit c); cbn; try done.
    + rewrite Hgn. exact A5.
    + intros j Hne. rewrite Hpc. cbn [pc].
      split; [cbn; tauto|]. split; [congruence|].
      destruct (next_loc_cases i w c) as [-> | [Hin | [Hx _]]]; [| |done].
      * split; [cbn; tauto|done].
      * apply loc_other with (i := i); auto.
    + intros ph0 Htr0 Hok0. rewrite Ews.
      by destruct (slot_join g (workers s) acts i ph0 t w rnd c) as (_ & _ & H).
  - (* woken while waiting for the partner *)
    destruct (games s !! i) as [g|] eqn:Hg; [|done].
    cbn [mbind option_bind] in Hstep.
    destruct (JoinGame_partner (me w) g rnd) as [c|] eqn:Hc; [|done].
    apply (some_eq (commit s t i w c)) in Hstep.
    destruct (commit_fields s t i w c) as (Ews & Egs & Etot & Eacts).
    rewrite Hstep in Ews, Egs, Etot, Eacts. cbn [fst snd] in Ews, Egs, Etot, Eacts.
    rewrite Eacts.
    cbn in Hloc. destruct (Hphase i Hloc) as (ph & Htr & g0 & Hg0 & Hok).
    assert (g0 = g) as -> by congruence.
    pose proof (Hnum i g Hg) as Hgn.
    assert (ready i (pc w)) as Hready by (rewrite Hpc; by left).
    destruct (slot_wake g (workers s) acts i ph t w rnd c Ht Hready Hid Hgn Hrnd)
      as ((A1 & A2 & A3 & A4 & A5 & A6) & Hex & _); try done; try congruence.
    eapply (round_inv_update N G s s' acts _ t w _ _ i g (sec_game c));
      try done; try congruence.
    + unfold next_loc. cbn. rewrite Hpc. destruct (sec_exit c); cbn; try done.
    + rewrite Hgn. exact A5.
    + intros j Hne. rewrite Hpc. cbn [pc].
      split; [cbn; congruence|]. split; [congruence|].
      destruct (next_loc_cases i w c) as [-> | [Hin | [_ ->]]].
      * split; [cbn; tauto|done].
      * apply loc_other with (i := i); auto.
      * rewrite Hpc. split; [cbn; congruence|done].
    + intros ph0 Htr0 Hok0. rewrite Ews.
      destruct (slot_wake g (workers s) acts i ph0 t w rnd c) as (_ & _ & H);
        try done; congruence.
  - done.
  - (* woken while waiting for the turn *)
    destruct (games s !! i) as [g|] eqn:Hg; [|done].
    cbn [mbind option_bind] in Hstep.
    destruct (JoinGame_turn (me w) g rnd) as [c|] eqn:Hc; [|done].
    apply (some_eq (commit s t i w c)) in Hstep.
    destruct (commit_fields s t i w c) as (Ews & Egs & Etot & Eacts).
    rewrite Hstep in Ews, Egs, Etot, Eacts. cbn [fst snd] in Ews, Egs, Etot, Eacts.
    rewrite Eacts.
    cbn in Hloc. destruct (Hphase i Hloc) as (ph & Htr & g0 & Hg0 & Hok).
    assert (g0 = g) as -> by congruence.
    pose proof (Hnum i g Hg) as Hgn.
    assert (ready i (pc w)) as Hready by (rewrite Hpc; by right).
    destruct (slot_wake g (workers s) acts i ph t w rnd c Ht Hready Hid Hgn Hrnd)
      as ((A1 & A2 & A3 & A4 & A5 & A6) & Hex & _); try done; try congruence.
    eapply (round_inv_update N G s s' acts _ t w _ _ i g (sec_game c));
      try done; try congruence.
    + unfold next_loc. cbn. rewrite Hpc. destruct (sec_exit c); cbn; try done.
    + rewrite Hgn. exact A5.
    + intros j Hne. rewrite Hpc. cbn [pc].
      split; [cbn; congruence|]. split; [congruence|].
      destruct (next_loc_cases i w c) as [-> | [Hin | [_ ->]]].
      * split; [cbn; tauto|done].
      * apply loc_other with (i := i); auto.
      * rewrite Hpc. split; [cbn; congruence|done].
    + intros ph0 Htr0 Hok0. rewrite Ews.
      destruct (slot_wake g (workers s) acts i ph0 t w rnd c) as (_ & _ & H);
        try done; congruence.
  - done.
  - done.
Qed.

Lemma spurious_step_preserves N G s acts t s' a :
  round_inv N G s acts →
  spurious_step s t = Some (s', a) →
  round_inv N G s' (acts ++ a).
Proof.
  intros Hinv Hstep. unfold spurious_step in Hstep.
  destruct (workers s !! t) as [w|] eqn:Ht; [|done]. cbn [mbind option_bind] in Hstep.
  pose proof Hinv as (Hwf & Hcount & Hphase).
  destruct Hwf as (Hlen & Htot & Hwlen & Hnum & Hwk).
  destruct (Hwk t w Ht) as [Hid Hloc].
  assert (∃ i l', (pc w = AtWaitPartner i false ∧ l' = AtWaitPartner i true ∨
                   pc w = AtWaitTurn i false ∧ l' = AtWaitTurn i true) ∧
                  s' = set_workers (<[t := MkWorker (me w) l']> (workers s)) s ∧ a = [])
    as (i & l' & Hpc & -> & ->).
  { destruct (pc w) as [| |i|i|i [|]|i [|]|]; try done;
      injection Hstep as <- <-; eexists _, _; (split; [|done]); auto. }
  assert ((i < G)%nat ∧ inside i (pc w) ∧ inside i l' ∧ pc w ≠ AtJoin i ∧ l' ≠ AtJoin i)
    as (Hi & Hin & Hin' & Hj & Hj').
  { destruct Hpc as [[E ->] | [E ->]]; rewrite E in *; cbn in *; done. }
  destruct (games s !! i) as [g|] eqn:Hg;
    [|apply lookup_ge_None in Hg; lia].
  eapply (round_inv_update N G s _ acts [] t w (MkWorker (me w) l') false i g g);
    try done; try (cbn; unfold times; cbn; lia).
  - cbn. unfold after_step. by rewrite <- (wake_if_fmap false).
  - change (games s = <[i:=g]> (games s)). by rewrite list_insert_id.
  - cbn. destruct Hpc as [[_ ->] | [_ ->]]; done.
  - intros j Hne. cbn [pc].
    destruct (loc_other i j (pc w) Hne) as [? ?]; [auto|].
    destruct (loc_other i j l' Hne) as [? ?]; [auto|]. done.
  - intros ph Htr Hok. exists ph. rewrite app_nil_r. split; [done|].
    cbn [workers set_workers].
    replace (<[t:=MkWorker (me w) l']> (workers s))
      with (after_step (workers s) t (MkWorker (me w) l') false i)
      by (unfold after_step; by rewrite <- (wake_if_fmap false)).
    by apply slot_spurious.
Qed.

Lemma step_preserves N G s acts e s' a :
  round_inv N G s acts → in_round e → step s e = Some (s', a) →
  round_inv N G s' (acts ++ a).
Proof.
  intros Hinv He Hstep. unfold step in Hstep.
  destruct (alive s); [|done].
  destruct e as [t rnd|t| |answer]; [| | |done].
  - destruct (myRand_range rnd) eqn:Hrnd; [|done].
    by eapply thread_step_preserves.
  - by eapply spurious_step_preserves.
  - destruct (decide (mainAt s = AwaitRegistered)) as [Hm|]; [|done].
    unfold main_step in Hstep. rewrite Hm in Hstep.
    destruct (decide _); [|done]. injection Hstep as <- <-.
    rewrite app_nil_r. by eapply round_inv_ext; [| |exact Hinv].
Qed.

Lemma joining_none ws i :
  (∀ t w, ws !! t = Some w → pc w ≠ AtJoin i) → joining ws i = 0%nat.
Proof.
  induction ws as [|w ws IH]; intros H; [done|].
  rewrite joining_cons, joins_at_no by (by apply (H 0%nat)).
  apply IH. intros t w' Hw'. by apply (H (S t)).
Qed.

Lemma round_start_workers N G flag t w :
  workers (round_start N G flag) !! t = Some w →
  w = MkWorker (initPlayer t) AtRegister.
Proof.
  cbn. rewrite list_lookup_fmap. intros H.
  destruct (seq 0 N !! t) as [k|] eqn:E; [|done].
  apply lookup_seq in E as [-> _]. cbn in H. congruence.
Qed.

Lemma round_start_inv N G flag : round_inv N G (round_start N G flag) [].
Proof.
  split; [|split].
  - split; [cbn; by rewrite length_fmap, length_seq|].
    split; [done|].
    split; [cbn; by rewrite length_fmap, length_seq|].
    split.
    + intros i g. cbn. rewrite list_lookup_fmap. intros H.
      destruct (seq 0 G !! i) as [k|] eqn:E; [|done].
      apply lookup_seq in E as [-> _]. cbn in H. injection H as <-. done.
    + intros t w Hw. apply round_start_workers in Hw as ->. done.
  - intros t w Hw. apply round_start_workers in Hw as ->. done.
  - intros i Hi. exists Open. split; [split; [apply alternates_nil|done]|].
    exists (initGame i). split.
    + cbn. rewrite list_lookup_fmap, lookup_seq_lt by done. done.
    + cbn [slot_ok]. rewrite joining_none.
      * repeat split; try done. intros t w Hw.
        apply round_start_workers in Hw as ->. done.
      * intros t w Hw. apply round_start_workers in Hw as ->. done.
Qed.

(** Every state of a round satisfies the invariant. *)
Lemma exec_inv N G flag acts s :
  exec (round_start N G flag) acts s → round_inv N G s acts.
Proof.
  induction 1 as [|acts s e s' a _ IH He Hstep].
  - apply round_start_inv.
  - by eapply step_preserves.
Qed.

(** ** Runs are executions *)

Lemma run_exec_from s0 acts0 s1 es s acts :
  exec s0 acts0 s1 → Forall in_round es → run s1 es = Some (s, acts) →
  exec s0 (acts0 ++ acts) s.
Proof.
  intros Hexec Hes. revert s1 acts0 acts Hexec.
  induction Hes as [|e es He _ IH]; intros s1 acts0 acts Hexec Hrun.
  - cbn in Hrun. injection Hrun as <- <-. by rewrite app_nil_r.
  - cbn [run] in Hrun.
    destruct (step s1 e) as [[s2 a2]|] eqn:Hstep; [|done].
    cbn [mbind option_bind] in Hrun.
    destruct (run s2 es) as [[s3 a3]|] eqn:Hrest; [|done].
    cbn [mbind option_bind] in Hrun. injection Hrun as <- <-.
    rewrite app_assoc. eapply IH; [|done].
    by eapply exec_snoc.
Qed.

Lemma run_exec s0 es s acts :
  Forall in_round es → run s0 es = Some (s, acts) → exec s0 acts s.
Proof.
  intros Hes Hrun. apply (run_exec_from s0 [] s0 es s acts); [constructor|done..].
Qed.

(** ** The marks of a game *)

Lemma MakeAMove_marks (p : Player) (g : Game) (rnd : Z) st p' g' acts :
  MakeAMove p g rnd = Some (st, p', g', acts) →
  currentTurn g' = currentTurn g ∧
  ∀ gn pid mk row col, Placed gn pid mk row col ∈ acts → mk = type p.
Proof.
  intros Hmove. unfold MakeAMove in Hmove.
  repeat (match type of Hmove with
          | context [mbind _ ?o] => destruct o; cbn [mbind option_bind] in Hmove
          | context [decide ?P] => destruct (decide P)
          | context [if ?b then _ else _] => destruct b
          end; try discriminate);
    injection Hmove as <- <- <- <-; (split; [reflexivity|]);
    intros gn pid mk row col Hin;
    repeat (apply elem_of_cons in Hin as [Hin | Hin]; [congruence|]);
    by apply elem_of_nil in Hin.
Qed.

Lemma PlayGame_turn_marks (p : Player) (g : Game) (rnd : Z) (c : CritSec)
  gn pid mk row col :
  PlayGame_turn p g rnd = Some c →
  Placed gn pid mk row col ∈ sec_actions c →
  currentTurn g = type p ∧ mk = type p ∧
  currentTurn (sec_game c) = otherTurn (type p).
Proof.
  intros Hc Hin. unfold PlayGame_turn in Hc.
  destruct (decide (currentTurn g ≠ type p)) as [Hne|Heq].
  - injection Hc as <-. cbn in Hin.
    apply list_elem_of_singleton in Hin. done.
  - assert (currentTurn g = type p) as Hturn
      by (destruct (decide (currentTurn g = type p)); [done|tauto]).
    destruct (MakeAMove p (flipTurn p g) rnd) as [[[[st p'] g'] acts]|] eqn:Hmove;
      [|done].
    cbn [mbind option_bind] in Hc.
    destruct (MakeAMove_marks _ _ _ _ _ _ _ Hmove) as [Hg' Hmk].
    assert (sec_game c = set_currentGameState st g' ∧
            sec_actions c = acts ++ [NotifiedAll (gameNumber (set_currentGameState st g')) (id p')])
      as [Eg Ea] by (destruct st; injection Hc as <-; done).
    rewrite Ea in Hin. apply elem_of_app in Hin as [Hin | Hin].
    + split; [done|]. split; [by eapply Hmk|]. rewrite Eg. cbn. by rewrite Hg'.
    + apply list_elem_of_singleton in Hin. done.
Qed.

(** C5. In every game the marks are placed by the two roles in turn and the
    first mark is X: mark number [n] of a board, counted from 0, is X when
    [n] is even and O when [n] is odd.  The reason is in the code: a slot
    starts with [currentTurn = X], and a player places its own mark only
    when [currentTurn] is its role, which the same turn hands over. *)
Theorem marks_alternate N G flag acts s i :
  exec (round_start N G flag) acts s → (i < G)%nat →
  let placed := snd <$> marks (gn_of i) acts in
  (∀ n m, placed !! n = Some m → m = turn_after n) ∧
  (∀ m, placed !! 0%nat = Some m → m = PlayerType.X) ∧
  (∀ n m m', placed !! n = Some m → placed !! S n = Some m' →
     m' = otherTurn m ∧ m' ≠ m) ∧
  currentTurn (initGame i) = PlayerType.X ∧
  (∀ g, currentTurn (resetGame g) = PlayerType.X) ∧
  (∀ p g rnd c gn pid mk row col,
     PlayGame_turn p g rnd = Some c →
     Placed gn pid mk row col ∈ sec_actions c →
     currentTurn g = type p ∧ mk = type p ∧
     currentTurn (sec_game c) = otherTurn (type p)).
Proof.
  intros Hexec Hi placed.
  destruct (exec_inv _ _ _ _ _ Hexec) as (_ & _ & Hphase).
  destruct (Hphase i Hi) as (ph & (Halt & _) & _).
  split; [exact Halt|]. split; [intros m Hm; by apply (Halt 0%nat)|].
  split; [|split; [done|split; [done|]]].
  - intros n m m' Hm Hm'. apply Halt in Hm, Hm'. subst.
    rewrite turn_after_S. split; [done|]. apply otherTurn_ne.
  - intros. by eapply PlayGame_turn_marks.
Qed.

(** ** Completed games *)

Lemma completed_done N G acts s i :
  round_inv N G s acts → completed s i →
  ∃ g a b m o how,
    games s !! i = Some g ∧ trace_ok acts i (Done a b m o how) ∧
    slot_ok g (workers s) (length (marks (gn_of i) acts)) i (Done a b m o how).
Proof.
  intros (Hwf & _ & Hphase) (g & Hg & Hcnt & Hout).
  destruct Hwf as (Hlen & _).
  assert (i < G)%nat as Hi by (rewrite <- Hlen; by eapply lookup_lt_Some).
  destruct (Hphase i Hi) as (ph & Htr & g0 & Hg0 & Hok).
  assert (g0 = g) as -> by congruence.
  assert (joining (workers s) i = 0%nat) as Hj
    by (apply joining_none; intros t w Hw; by apply (Hout t w)).
  destruct ph as [|a|a b x y|a b m o how|a b m o how]; cbn [slot_ok] in Hok.
  - destruct Hok as (_&_&_&_&Hc&_). lia.
  - destruct Hok as (_&_&_&_&_&_&_&wa&na&Hwa&Hpa&_).
    destruct (Hout a wa Hwa) as [_ H]. rewrite Hpa in H. by destruct H.
  - destruct Hok as (_&_&_&_&_&_&_&_&_&_&wx&wy&Hwx&_&_&_&Hrx&_).
    destruct (Hout x wx Hwx) as [_ H]. by apply ready_inside in Hrx.
  - destruct Hok as (_&_&_&_&_&_&_&_&_&wo&Hwo&Hro).
    destruct (Hout o wo Hwo) as [_ H]. by apply ready_inside in Hro.
  - by exists g, a, b, m, o, how.
Qed.

Lemma MakeAMove_counts (p : Player) (g : Game) (rnd : Z) st p' g' acts :
  MakeAMove p g rnd = Some (st, p', g', acts) →
  loseCount p' = loseCount p ∧
  match st with
  | GameState.Won => winCount p' = winCount p + 1 ∧ drawCount p' = drawCount p
  | GameState.Draw => winCount p' = winCount p ∧ drawCount p' = drawCount p + 1
  | GameState.StillPlaying => p' = p
  end.
Proof.
  intros Hmove. unfold MakeAMove in Hmove.
  repeat (match type of Hmove with
          | context [mbind _ ?o] => destruct o; cbn [mbind option_bind] in Hmove
          | context [decide ?P] => destruct (decide P)
          | context [if ?b then _ else _] => destruct b
          end; try discriminate);
    injection Hmove as <- <- <- <-; done.
Qed.

(** C7. In a completed game the player whose move won has added exactly one
    to its [winCount] and the other player, which found the game over after
    it was woken, exactly one to its [loseCount]; in a draw each of the two
    has added exactly one to its [drawCount].  The counters of a player are
    the numbers of results it has counted, a completed game has been counted
    once by the player that moved last and once by the other, and the code
    after the loop never touches [winCount]. *)
Theorem results_counted_once N G flag acts s :
  exec (round_start N G flag) acts s →
  (∀ t w, workers s !! t = Some w →
     winCount (me w) = times (is_win (tid t)) acts ∧
     loseCount (me w) = times (is_loss (tid t)) acts ∧
     drawCount (me w) = times (is_draw (tid t)) acts) ∧
  (∀ i, completed s i →
     ∃ g a b m o,
       games s !! i = Some g ∧
       joins (gn_of i) acts = [(tid a, PlayerType.O); (tid b, PlayerType.X)] ∧
       a ≠ b ∧ pair_of a b m o ∧
       ((currentGameState g = GameState.Won ∧
         tallies (gn_of i) acts =
           [CountedWin (gn_of i) (tid m); CountedLoss (gn_of i) (tid o)]) ∨
        (currentGameState g = GameState.Draw ∧
         tallies (gn_of i) acts =
           [CountedDrawMoving (gn_of i) (tid m);
            CountedDrawWaiting (gn_of i) (tid o)]))) ∧
  (∀ p g rnd st p' g' acts',
     MakeAMove p g rnd = Some (st, p', g', acts') →
     loseCount p' = loseCount p ∧
     match st with
     | GameState.Won => winCount p' = winCount p + 1 ∧ drawCount p' = drawCount p
     | GameState.Draw => winCount p' = winCount p ∧ drawCount p' = drawCount p + 1
     | GameState.StillPlaying => p' = p
     end) ∧
  (∀ p g,
     let p' := sec_player (PlayGame_over p g) in
     winCount p' = winCount p ∧
     match currentGameState g with
     | GameState.Won => loseCount p' = loseCount p + 1 ∧ drawCount p' = drawCount p
     | GameState.Draw => loseCount p' = loseCount p ∧ drawCount p' = drawCount p + 1
     | GameState.StillPlaying => p' = p
     end).
Proof.
  intros Hexec. pose proof (exec_inv _ _ _ _ _ Hexec) as Hinv.
  split; [by destruct Hinv as (_ & Hcount & _)|].
  split; [|split].
  - intros i Hdone.
    destruct (completed_done _ _ _ _ _ Hinv Hdone)
      as (g & a & b & m & o & how & Hg & (_ & Hj & _ & Htal) & Hok).
    cbn [slot_ok] in Hok. destruct Hok as (Hab & Hpair & Hhow & Hst & _).
    exists g, a, b, m, o. repeat split; try done.
    rewrite Hst, Htal. destruct how; [done|left|right]; done.
  - apply MakeAMove_counts.
  - intros p g. unfold PlayGame_over.
    destruct (currentGameState g); repeat case_decide; try done.
Qed.

Lemma demo_exec :
  ∃ s, exec (round_start 2 1 false)
         [Joined 1 0 PlayerType.O; Joined 1 1 PlayerType.X;
          Placed 1 1 PlayerType.X 0 0; NotifiedAll 1 1;
          Placed 1 0 PlayerType.O 0 1; NotifiedAll 1 0;
          Placed 1 1 PlayerType.X 0 2; NotifiedAll 1 1;
          Placed 1 0 PlayerType.O 1 0; NotifiedAll 1 0;
          Placed 1 1 PlayerType.X 1 1; NotifiedAll 1 1;
          Placed 1 0 PlayerType.O 1 2; NotifiedAll 1 0;
          Placed 1 1 PlayerType.X 2 0; CountedWin 1 1;
          NotifiedAll 1 1; CountedLoss 1 0] s.
Proof.
  eexists. apply (run_exec _ demo_events); [repeat constructor|].
  vm_compute. reflexivity.
Defined.

(** The witness: the seven marks of the sample round. *)
Lemma marks_alternate_witness :
  ∃ acts s, exec (round_start 2 1 false) acts s ∧ (0 < 1)%nat ∧
    snd <$> marks (gn_of 0) acts =
      [PlayerType.X; PlayerType.O; PlayerType.X; PlayerType.O; PlayerType.X;
       PlayerType.O; PlayerType.X] ∧
    ∀ n m, (snd <$> marks (gn_of 0) acts) !! n = Some m → m = turn_after n.
Proof.
  destruct demo_exec as [s Hexec]. eexists _, s.
  split; [exact Hexec|]. split; [lia|]. split; [vm_compute; reflexivity|].
  destruct (marks_alternate 2 1 false _ _ 0%nat Hexec ltac:(lia)) as (H & _).
  exact H.
Defined.

(** The witness: the counters at the end of the sample round. *)
Lemma results_counted_once_witness :
  ∃ acts s, exec (round_start 2 1 false) acts s ∧
    tallies (gn_of 0) acts = [CountedWin 1 1; CountedLoss 1 0] ∧
    ∀ t w, workers s !! t = Some w →
      winCount (me w) = times (is_win (tid t)) acts.
Proof.
  destruct demo_exec as [s Hexec]. eexists _, s.
  split; [exact Hexec|]. split; [vm_compute; reflexivity|].
  intros t w Hw.
  destruct (results_counted_once 2 1 false _ _ Hexec) as (H & _).
  by apply H.
Defined.

(** ** The rendezvous of JoinGame *)

Lemma step_join s t w i g rnd c :
  alive s = true → myRand_range rnd = true →
  workers s !! t = Some w → pc w = AtJoin i → games s !! i = Some g →
  JoinGame (me w) g rnd = Some c →
  step s (Run t rnd) = Some (commit s t i w c).
Proof.
  intros Ha Hr Ht Hpc Hg Hc. unfold step, thread_step.
  rewrite Ha, Hr, Ht. cbn [mbind option_bind]. rewrite Hpc, Hg.
  cbn [mbind option_bind]. rewrite Hc. reflexivity.
Qed.

Lemma TurnSpec_facts p g c :
  TurnSpec p g c →
  same_slot g (sec_game c) ∧ type (sec_player (JoinGame_return c)) = type p ∧
  sec_game (JoinGame_return c) = sec_game c ∧
  sec_actions (JoinGame_return c) = sec_actions c ∧
  NotifiedAll (gameNumber g) (id p) ∈ sec_actions c ∧
  (marks (gameNumber g) (sec_actions c) ≠ [] ∨
   tallies (gameNumber g) (sec_actions c) ≠ []) ∧
  (∀ i w, next_loc i w (JoinGame_return c) = AtWaitTurn i false ∨
          next_loc i w (JoinGame_return c) = AtScan (S i)).
Proof.
  intros [g' row col Hs _ _ | g' row col Hs _ _ | g' Hs _ _]; cbn;
    (split; [done|]); (split; [done|]); (split; [done|]); (split; [done|]);
    (split; [repeat constructor|]); rewrite ?decide_True by done;
    split; auto.
Qed.

(** C1. The first thread that joins a slot becomes O and blocks, with the
    mutex of the slot released, until an X is assigned; the second thread
    that joins becomes X and goes on without waiting: in the same critical
    section it plays its turn, and that section always notifies the thread
    that waits as O.  No join of a slot is a third one.  The thread that
    waits for its partner stays in the wait as long as [playerX] is -1, and
    leaves it the first time it runs with [playerX] assigned: it goes on
    into PlayGame, where it places a mark or counts the result, and the
    process stays alive. *)
Theorem JoinGame_rendezvous N G flag acts s i g rnd :
  exec (round_start N G flag) acts s → alive s = true →
  myRand_range rnd = true → games s !! i = Some g →
  (∀ t w, workers s !! t = Some w → pc w = AtJoin i →
     ∃ s' a g' w',
       step s (Run t rnd) = Some (s', a) ∧
       games s' !! i = Some g' ∧ workers s' !! t = Some w' ∧
       ((joins (gn_of i) acts = [] ∧
         a = [Joined (gn_of i) (tid t) PlayerType.O] ∧
         type (me w') = PlayerType.O ∧
         playerO g' = tid t ∧ playerX g' = -1 ∧
         pc w' = AtWaitPartner i false) ∨
        (∃ o wo wo',
           joins (gn_of i) acts = [(tid o, PlayerType.O)] ∧ o ≠ t ∧
           workers s !! o = Some wo ∧ (∃ n, pc wo = AtWaitPartner i n) ∧
           joins (gn_of i) (acts ++ a) =
             [(tid o, PlayerType.O); (tid t, PlayerType.X)] ∧
           type (me w') = PlayerType.X ∧
           playerO g' = tid o ∧ playerX g' = tid t ∧
           (pc w' = AtWaitTurn i false ∨ pc w' = AtScan (S i)) ∧
           (marks (gn_of i) a ≠ [] ∨ tallies (gn_of i) a ≠ []) ∧
           NotifiedAll (gn_of i) (tid t) ∈ a ∧
           workers s' !! o = Some wo' ∧ pc wo' = AtWaitPartner i true))) ∧
  (∀ o wo n, workers s !! o = Some wo → pc wo = AtWaitPartner i n →
     playerX g = -1 →
     ∀ s' a, step s (Run o rnd) = Some (s', a) →
       a = [] ∧ games s' !! i = Some g ∧
       workers s' !! o = Some (MkWorker (me wo) (AtWaitPartner i false))) ∧
  (∀ o wo, workers s !! o = Some wo → pc wo = AtWaitPartner i true →
     playerX g ≠ -1 →
     ∃ s' a wo',
       step s (Run o rnd) = Some (s', a) ∧ alive s' = true ∧
       workers s' !! o = Some wo' ∧
       id (me wo') = tid o ∧ type (me wo') = type (me wo) ∧
       (pc wo' = AtWaitTurn i false ∨ pc wo' = AtScan (S i)) ∧
       (marks (gn_of i) a ≠ [] ∨ tallies (gn_of i) a ≠ [])).
Proof.
  intros Hexec Halive Hrnd Hg.
  pose proof (exec_inv _ _ _ _ _ Hexec) as (Hwf & _ & Hphase).
  destruct Hwf as (Hlen & _ & _ & Hnum & Hwk).
  assert (i < G)%nat as Hi by (rewrite <- Hlen; by eapply lookup_lt_Some).
  pose proof (Hnum i g Hg) as Hgn.
  assert (i < length (games s))%nat as Hilen by (by eapply lookup_lt_Some).
  split; [|split].
  - intros t w Ht Hpc.
    destruct (Hwk t w Ht) as [Hid _].
    pose proof (joining_pos _ _ _ _ Ht Hpc) as Hpos.
    destruct (Hphase i Hi) as (ph & Htr & g0 & Hg0 & Hok).
    assert (g0 = g) as -> by congruence.
    destruct ph as [|a|a b0 x y|a b0 m o how|a b0 m o how]; cbn [slot_ok] in Hok.
    + (* the first to join *)
      destruct Hok as (HO & HX & _). destruct Htr as (_ & Hj & _).
      pose proof (JoinGame_first (me w) g rnd HO HX) as Hc.
      pose proof (step_join s t w i g rnd _ Halive Hrnd Ht Hpc Hg Hc) as Hstep.
      destruct (commit_fields s t i w
                  (MkCritSec (set_type PlayerType.O (me w)) (set_playerO (id (me w)) g)
                     WaitPartner [Joined (gameNumber g) (id (me w)) PlayerType.O]))
        as (Ews & Egs & _ & Eacts).
      eexists (commit _ _ _ _ _).1, (commit _ _ _ _ _).2, _, _.
      split; [rewrite Hstep; f_equal; apply surjective_pairing|].
      split; [rewrite Egs; by apply list_lookup_insert_eq|].
      split; [rewrite Ews; by eapply after_step_self|].
      left. rewrite Eacts. cbn. rewrite Hgn, Hid. done.
    + (* the second to join *)
      destruct Hok as (HO & HX & Hst & Hturn & Hcnt & Hle & Hnobody
                       & wa & na & Hwa & Hpa & Hta).
      destruct Htr as (_ & Hj & Hm & Htal).
      assert (a ≠ t) as Hat by (intros ->; congruence).
      pose proof (JoinGame_second (me w) g rnd) as Hc.
      rewrite HO, Hid in Hc. specialize (Hc (tid_ne a) (tid_ne t)).
      destruct (JoinGame_turn_spec (set_type PlayerType.X (me w))
                  (set_playerX (tid t) g) rnd Hrnd) as (c1 & E & Hloop).
      rewrite E in Hc. cbn [fmap option_fmap option_map] in Hc.
      destruct Hloop as [Hs Hwrong | c1 Hs Hmine Hspec | Hs]; [done| |done].
      pose proof (step_join s t w i g rnd _ Halive Hrnd Ht Hpc Hg Hc) as Hstep.
      destruct (commit_fields s t i w
                  (prepend [Joined (gameNumber g) (tid t) PlayerType.X]
                     (JoinGame_return c1))) as (Ews & Egs & _ & Eacts).
      destruct (TurnSpec_facts _ _ _ Hspec)
        as ((_ & _ & HX' & HO') & Hty & Egame & Eact & Hnot & Hplayed & Hnext).
      cbn [gameNumber set_playerX id set_type type playerX playerO] in *.
      eexists (commit _ _ _ _ _).1, (commit _ _ _ _ _).2, _, _.
      split; [rewrite Hstep; f_equal; apply surjective_pairing|].
      split; [rewrite Egs; by apply list_lookup_insert_eq|].
      split; [rewrite Ews; by eapply after_step_self|].
      right. exists a, wa, (wake i wa). rewrite Eacts.
      cbn [prepend sec_actions sec_game sec_player pc me].
      rewrite next_loc_prepend, Egame, Eact, Hty, HX', HO', HO, Hgn, ?Hid in *.
      split; [done|]. split; [done|]. split; [done|]. split; [by eexists|].
      split.
      { rewrite joins_app, joins_app, Hj.
        assert (joins (gn_of i) (sec_actions c1) = []) as ->.
        { destruct Hspec; unfold joins; cbn; done. }
        unfold joins. cbn. by rewrite decide_True. }
      split; [done|]. split; [done|]. split; [done|].
      split; [apply Hnext|].
      split.
      { destruct Hplayed as [H | H]; [left | right];
          rewrite ?marks_app, ?tallies_app; cbn; done. }
      split; [apply elem_of_cons; right; exact Hnot|].
      split.
      { rewrite Ews, after_step_other by done. rewrite Hwa.
        cbn [prepend sec_actions]. rewrite notifies_joined, Eact.
        assert (notifies (sec_actions c1) = true) as -> by (by destruct Hspec).
        done. }
      rewrite pc_wake, Hpa. cbn. by rewrite decide_True.
    + destruct Hok as (?&?&?&?&?&?&?&?&Hj0&?). lia.
    + destruct Hok as (?&?&?&?&?&?&?&Hj0&?). lia.
    + destruct Hok as (?&?&?&?&?&Hj0&?). lia.
  - intros o wo n Ho Hpo HX s' a Hstep.
    unfold step, thread_step in Hstep.
    rewrite Halive, Hrnd, Ho in Hstep. cbn [mbind option_bind] in Hstep.
    rewrite Hpo in Hstep. destruct n; [|done].
    rewrite Hg in Hstep. cbn [mbind option_bind] in Hstep.
    unfold JoinGame_partner in Hstep.
    rewrite decide_False in Hstep by (intros H; by apply H).
    apply (some_eq (commit s o i wo (MkCritSec (me wo) g WaitPartner []))) in Hstep.
    destruct (commit_fields s o i wo (MkCritSec (me wo) g WaitPartner []))
      as (Ews & Egs & _ & Eacts).
    rewrite Hstep in Ews, Egs, Eacts. cbn [fst snd] in Ews, Egs, Eacts.
    split; [done|]. split.
    + rewrite Egs. by apply list_lookup_insert_eq.
    + rewrite Ews. by eapply after_step_self.
  - intros o wo Ho Hpo HX.
    destruct (Hwk o wo Ho) as [Hid _].
    destruct (Hphase i Hi) as (ph & _ & g0 & Hg0 & Hok).
    assert (g0 = g) as -> by congruence.
    assert (inside i (pc wo)) as Hin by (by rewrite Hpo).
    assert (playerO g ≠ -1 ∧
            (currentGameState g = GameState.StillPlaying →
             currentTurn g = type (me wo))) as [HO Hturn].
    { destruct ph as [|a|a b x y|a b m o' how|a b m o' how]; cbn [slot_ok] in Hok.
      - destruct Hok as (_ & _ & _ & _ & _ & _ & Hno).
        by apply (Hno o wo Ho), elem_of_nil in Hin.
      - by destruct Hok as (_ & ? & _).
      - (* the game goes on: the thread that was notified is the one to move *)
        destruct Hok as (-> & _ & _ & _ & _ & Hturn & _ & _ & _ & Hno &
                         wx & wy & Hwx & Hwy & Htx & _ & _ & [n Hpy]).
        split; [apply tid_ne|]. intros _.
        pose proof (Hno o wo Ho Hin) as Hxy. apply elem_two in Hxy as [-> | ->].
        + assert (wx = wo) as -> by congruence. congruence.
        + assert (wy = wo) as -> by congruence. congruence.
      - destruct Hok as (-> & _ & _ & _ & Hhow & Hhow' & _).
        split; [apply tid_ne|]. congruence.
      - destruct Hok as (_ & _ & _ & _ & _ & _ & Hno).
        by apply (Hno o wo Ho), elem_of_nil in Hin. }
    destruct (JoinGame_turn_spec (me wo) g rnd Hrnd) as (c & Hc & Hloop).
    rewrite <- JoinGame_partner_turn in Hc by done.
    assert (step s (Run o rnd) = Some (commit s o i wo c)) as Hstep.
    { unfold step, thread_step. rewrite Halive, Hrnd, Ho. cbn [mbind option_bind].
      rewrite Hpo, Hg. cbn [mbind option_bind]. rewrite Hc. reflexivity. }
    destruct (commit_fields s o i wo c) as (Ews & _ & _ & Eacts).
    assert (sec_exit c ≠ Exit1 ∧ id (sec_player c) = id (me wo) ∧
            type (sec_player c) = type (me wo) ∧
            (next_loc i wo c = AtWaitTurn i false ∨ next_loc i wo c = AtScan (S i)) ∧
            (marks (gn_of i) (sec_actions c) ≠ [] ∨
             tallies (gn_of i) (sec_actions c) ≠ []))
      as (Hx & Hid' & Hty & Hnext & Hplayed).
    { destruct Hloop as [Hs Hwrong | c1 Hs Hmine Hspec | Hs].
      - by destruct Hwrong, Hturn.
      - destruct (TurnSpec_facts _ _ _ Hspec)
          as (_ & Hty & _ & Eact & _ & Hplayed & Hnext).
        split; [by destruct Hspec|]. split; [by destruct Hspec|].
        split; [exact Hty|]. split; [apply Hnext|].
        rewrite Eact, <- Hgn. exact Hplayed.
      - unfold PlayGame_over.
        destruct (decide (currentGameState g = GameState.Won)) as [Hw|Hw];
          [|destruct (decide (currentGameState g = GameState.Draw)) as [Hd|Hd];
              [|by destruct (currentGameState g)]];
          cbn; rewrite Hgn; (do 3 (split; [done|])); (split; [by right|]); right;
          unfold tallies; cbn; by rewrite decide_True. }
    eexists (commit _ _ _ _ _).1, (commit _ _ _ _ _).2, _.
    split; [rewrite Hstep; f_equal; apply surjective_pairing|].
    split; [unfold commit; rewrite decide_False by done; cbn; exact Halive|].
    split; [rewrite Ews; by eapply after_step_self|].
    rewrite Eacts. cbn [me pc]. rewrite Hid', Hid. done.
Qed.

(** The witness: in a round of two players and one game both threads have
    claimed the slot; thread 0 joins first.  After thread 1 has joined and
    made its move, thread 0 leaves the wait and places its first mark. *)
Lemma JoinGame_rendezvous_witness :
  (∃ s, exec (round_start 2 1 false) [] s ∧
     ∃ s' a, step s (Run 0 0) = Some (s', a) ∧
             a = [Joined 1 0 PlayerType.O]) ∧
  (∃ acts s g wo,
     exec (round_start 2 1 false) acts s ∧
     games s !! 0%nat = Some g ∧ playerX g = 1 ∧
     workers s !! 0%nat = Some wo ∧ pc wo = AtWaitPartner 0 true ∧
     ∃ s' a wo', step s (Run 0 0) = Some (s', a) ∧
                 workers s' !! 0%nat = Some wo' ∧
                 pc wo' ≠ AtWaitPartner 0 false ∧ a ≠ []).
Proof.
  split.
  2: {
    eexists _, _, _, _.
    split; [apply (run_exec _ (take 9 demo_events)); [repeat constructor|];
            vm_compute; reflexivity|].
    split; [reflexivity|]. split; [reflexivity|].
    split; [reflexivity|]. split; [reflexivity|].
    match goal with
    | |- context [step ?s0 _] =>
        assert (∃ acts, exec (round_start 2 1 false) acts s0) as [acts Hexec]
    end.
    { eexists. apply (run_exec _ (take 9 demo_events)); [repeat constructor|].
      vm_compute. reflexivity. }
    match type of Hexec with
    | exec _ _ ?s0 =>
        destruct (JoinGame_rendezvous 2 1 false acts s0 0 _ 0 Hexec eq_refl eq_refl
                    eq_refl) as (_ & _ & Hleave)
    end.
    destruct (Hleave 0%nat _ eq_refl eq_refl ltac:(cbn; lia))
      as (s' & a & wo' & Hstep & _ & Hwo' & _ & _ & Hpc & Hplayed).
    exists s', a, wo'. split; [exact Hstep|]. split; [exact Hwo'|].
    split; [destruct Hpc as [-> | ->]; discriminate|].
    intros ->. by destruct Hplayed. }
  assert (∃ s, exec (round_start 2 1 false) [] s ∧ alive s = true ∧
            games s !! 0%nat = Some (set_playerCount 2 (initGame 0)) ∧
            workers s !! 0%nat = Some (MkWorker (initPlayer 0) (AtJoin 0)))
    as (s & Hexec & Halive & Hg & Hw).
  { eexists. split; [|split; [|split]].
    - apply (run_exec _ (firstn 7 demo_events)); [repeat constructor|].
      vm_compute. reflexivity.
    - reflexivity.
    - reflexivity.
    - reflexivity. }
  exists s. split; [exact Hexec|].
  destruct (JoinGame_rendezvous 2 1 false [] s 0 _ 0 Hexec Halive eq_refl Hg)
    as (Hjoin & _).
  destruct (Hjoin 0%nat _ Hw eq_refl) as (s' & a & g' & w' & Hstep & _ & _ & Hcase).
  exists s', a. split; [exact Hstep|].
  destruct Hcase as [(_ & Ha & _) | (o & wo & wo' & Hj & _)].
  - exact Ha.
  - discriminate Hj.
Defined.

(** ** Draws *)

Lemma MakeAMove_full (p : Player) (g : Game) (rnd : Z) :
  boardFull (gameBoard g) → MakeAMove p g rnd = Some (moveDraw p g).
Proof.
  intros Hfull. apply boardFull_iff in Hfull. unfold MakeAMove.
  rewrite findMoves_spec. cbn [mbind option_bind]. rewrite Hfull.
  rewrite decide_False by (cbn; lia). reflexivity.
Qed.

(** C6. A call of MakeAMove returns Draw exactly when the board has no empty
    cell at the call; otherwise it places a mark and returns Won or
    StillPlaying.  So the turn taken on a full board ends the game as Draw,
    whatever the lines of the board, and a game that both players have left
    is Won or Draw, never still in progress. *)
Theorem MakeAMove_draw_iff_full :
  (∀ p g rnd, 0 ≤ rnd →
     ∃ st p' g' acts, MakeAMove p g rnd = Some (st, p', g', acts) ∧
       (st = GameState.Draw ↔ boardFull (gameBoard g)) ∧
       (st = GameState.Draw → g' = g) ∧
       (st ≠ GameState.Draw →
        (st = GameState.Won ∨ st = GameState.StillPlaying) ∧
        ∃ row col,
          0 ≤ row < 3 ∧ 0 ≤ col < 3 ∧
          getCell (gameBoard g) row col = Some PlayerType.None ∧
          setCell (gameBoard g) row col (type p) = Some (gameBoard g') ∧
          getCell (gameBoard g') row col = Some (type p) ∧
          (∀ r c, (r, c) ≠ (row, col) →
             getCell (gameBoard g') r c = getCell (gameBoard g) r c) ∧
          Placed (gameNumber g) (id p) (type p) row col ∈ acts)) ∧
  (∀ p g rnd,
     boardFull (gameBoard g) →
     currentGameState g = GameState.StillPlaying → currentTurn g = type p →
     ∃ c, JoinGame_turn p g rnd = Some c ∧
          currentGameState (sec_game c) = GameState.Draw ∧
          sec_exit c = Returned) ∧
  (∀ N G flag acts s i,
     exec (round_start N G flag) acts s → completed s i →
     ∃ g, games s !! i = Some g ∧
          currentGameState g ≠ GameState.StillPlaying ∧
          (currentGameState g = GameState.Won ∨
           currentGameState g = GameState.Draw)).
Proof.
  split; [|split].
  - intros p g rnd Hrnd.
    destruct (MakeAMove_spec p g rnd Hrnd) as (r & Hr & Hspec).
    destruct Hspec as [Hfull | row col b won Hrow Hcol Hcell Hset Hwon].
    + eexists _, _, _, _. split; [exact Hr|]. repeat split; try done.
    + assert (¬ boardFull (gameBoard g)) as Hopen
        by (intros Hfull; by apply (Hfull row col)).
      assert (getCell b row col = Some (type p) ∧
              ∀ r c, (r, c) ≠ (row, col) → getCell b r c = getCell (gameBoard g) r c)
        as [Hnew Hold].
      { split.
        - rewrite (getCell_setCell _ _ _ _ _ _ _ Hset). by rewrite decide_True.
        - intros r c Hne. rewrite (getCell_setCell _ _ _ _ _ _ _ Hset).
          rewrite decide_False; [done|]. intros [-> ->]. by apply Hne. }
      destruct won; eexists _, _, _, _; (split; [exact Hr|]);
        (split; [split; [done|tauto]|]); (split; [done|]); intros _;
        (split; [auto|]); exists row, col;
        do 6 (split; [done|]); left.
  - intros p g rnd Hfull Hst Hturn.
    unfold JoinGame_turn, PlayGame_loop, PlayGame_turn.
    rewrite decide_True by done.
    rewrite decide_False by (intros H; by apply H).
    rewrite MakeAMove_full by done. cbn. eexists. done.
  - intros N G flag acts s i Hexec Hdone.
    pose proof (exec_inv _ _ _ _ _ Hexec) as Hinv.
    destruct (completed_done _ _ _ _ _ Hinv Hdone)
      as (g & a & b & m & o & how & Hg & _ & Hok).
    cbn [slot_ok] in Hok. destruct Hok as (_ & _ & Hhow & Hst & _).
    exists g. split; [done|]. rewrite Hst. split; [done|].
    destruct how; [done|by left|by right].
Qed.

(** The witness: the first move of a game, on an empty board; the number 4
    picks the middle cell, which holds the X afterwards. *)
Lemma MakeAMove_draw_iff_full_witness :
  0 ≤ 4 ∧
  ∃ st p' g' acts,
    MakeAMove (MkPlayer 1 0 0 0 0 PlayerType.X) (initGame 0) 4
      = Some (st, p', g', acts) ∧
    (st = GameState.Draw ↔ boardFull (gameBoard (initGame 0))) ∧
    st = GameState.StillPlaying ∧
    getCell (gameBoard (initGame 0)) 1 1 = Some PlayerType.None ∧
    getCell (gameBoard g') 1 1 = Some PlayerType.X.
Proof.
  split; [lia|].
  destruct MakeAMove_draw_iff_full as (Hmove & _).
  destruct (Hmove (MkPlayer 1 0 0 0 0 PlayerType.X) (initGame 0) 4 ltac:(lia))
    as (st & p' & g' & acts & H & Hiff & _).
  exists st, p', g', acts. split; [exact H|]. split; [exact Hiff|].
  vm_compute in H. injection H as <- <- <- <-.
  split; [reflexivity|]. split; reflexivity.
Defined.

(** ** A round without games *)

Lemma zero_step s e s' a :
  zero_inv s → in_round e → step s e = Some (s', a) → zero_inv s' ∧ a = [].
Proof.
  intros (Hg & Htot & Hws) He Hstep. unfold step in Hstep.
  destruct (alive s); [|done].
  destruct e as [t rnd|t| |answer]; [| | |done].
  - destruct (myRand_range rnd); [|done]. unfold thread_step in Hstep.
    destruct (workers s !! t) as [w|] eqn:Ht; [|done].
    cbn [mbind option_bind] in Hstep. destruct (Hws t w Ht) as [Hme Hout].
    assert (∀ l s0, outside l → games s0 = [] → totalGameCount (poolOfGames s0) = 0 →
              zero_inv (set_workers (<[t := MkWorker (me w) l]> (workers s)) s0)) as Hgo.
    { intros l s0 Hl Hg0 Ht0. split; [done|]. split; [done|].
      intros t' w'. cbn. intros Hl'.
      destruct (decide (t' = t)) as [->|Hne].
      - rewrite list_lookup_insert_eq in Hl' by (by eapply lookup_lt_Some).
        injection Hl' as <-. done.
      - rewrite list_lookup_insert_ne in Hl' by done. by apply Hws. }
    destruct (pc w) as [| |i|i|i [|]|i [|]|]; try done.
    + injection Hstep as <- <-. split; [|done]. by apply Hgo.
    + destruct (gunFlag _); [|done]. injection Hstep as <- <-.
      split; [|done]. by apply Hgo.
    + rewrite decide_False in Hstep by lia. injection Hstep as <- <-.
      split; [|done]. by apply Hgo.
  - unfold spurious_step in Hstep.
    destruct (workers s !! t) as [w|] eqn:Ht; [|done].
    cbn [mbind option_bind] in Hstep. destruct (Hws t w Ht) as [_ Hout].
    destruct (pc w) as [| |i|i|i [|]|i [|]|]; done.
  - destruct (decide _); [|done]. unfold main_step in Hstep.
    destruct (mainAt s); try done. destruct (decide _); [|done].
    injection Hstep as <- <-. done.
Qed.

Lemma zero_exec N flag acts s :
  exec (round_start N 0 flag) acts s → zero_inv s ∧ acts = [].
Proof.
  induction 1 as [|acts s e s' a _ [IH ->] He Hstep].
  - split; [|done]. split; [done|]. split; [done|].
    intros t w Hw. apply round_start_workers in Hw as ->. done.
  - destruct (zero_step _ _ _ _ IH He Hstep) as [? ->]. done.
Qed.

Lemma sweep_lookup N k l l' t :
  (t < N)%nat →
  sweep N k l l' !! t =
  Some (MkWorker (initPlayer t) (if decide (t < k)%nat then l' else l)).
Proof.
  intros Ht. unfold sweep. rewrite list_lookup_fmap, lookup_seq_lt by done. done.
Qed.

Lemma sweep_insert N k l l' :
  (k < N)%nat →
  <[k := MkWorker (initPlayer k) l']> (sweep N k l l') = sweep N (S k) l l'.
Proof.
  intros Hk. apply list_eq. intros t.
  destruct (decide (t < N)%nat) as [Ht|Ht].
  - destruct (decide (t = k)) as [->|Hne].
    + rewrite list_lookup_insert_eq
        by (unfold sweep; by rewrite length_fmap, length_seq).
      rewrite sweep_lookup by done. rewrite decide_True by lia. done.
    + rewrite list_lookup_insert_ne by done. rewrite !sweep_lookup by done.
      destruct (decide (t < k)%nat), (decide (t < S k)%nat); try done; lia.
  - rewrite !(proj2 (lookup_ge_None _ _)); [done| |];
      rewrite ?length_insert; unfold sweep; rewrite length_fmap, length_seq; lia.
Qed.

Lemma sweep_all N l l' l'' : sweep N N l l' = sweep N 0 l' l''.
Proof.
  apply list_eq. intros t. destruct (decide (t < N)%nat) as [Ht|Ht].
  - rewrite !sweep_lookup by done. rewrite decide_True by done.
    rewrite decide_False by lia. done.
  - rewrite !(proj2 (lookup_ge_None _ _)); [done| |];
      unfold sweep; rewrite length_fmap, length_seq; lia.
Qed.

Lemma run_app s es1 es2 s1 a1 s2 a2 :
  run s es1 = Some (s1, a1) → run s1 es2 = Some (s2, a2) →
  run s (es1 ++ es2) = Some (s2, a1 ++ a2).
Proof.
  revert s a1. induction es1 as [|e es1 IH]; intros s a1 H1 H2.
  - cbn in H1. injection H1 as <- <-. done.
  - cbn [run app] in *. change ((e :: es1) ++ es2) with (e :: (es1 ++ es2)).
    cbn [run]. destruct (step s e) as [[s0 a0]|]; [|done].
    cbn [mbind option_bind] in *.
    destruct (run s0 es1) as [[s3 a3]|] eqn:E; [|done].
    cbn [mbind option_bind] in H1. injection H1 as <- <-.
    rewrite (IH s0 a3 E H2). cbn. by rewrite app_assoc.
Qed.

(** One pass over the threads: each in turn goes from [l] to [l'] and adds
    [d] to the counter of the pool. *)
Lemma run_sweep N l l' d flag m c0 :
  (∀ k, (k < N)%nat →
     step (zero_state N k l l' (c0 + d * Z.of_nat k) flag m) (Run k 0) =
     Some (zero_state N (S k) l l' (c0 + d * Z.of_nat (S k)) flag m, [])) →
  ∀ j, (j ≤ N)%nat →
    run (zero_state N (N - j) l l' (c0 + d * Z.of_nat (N - j)) flag m)
        ((λ t, Run t 0) <$> seq (N - j) j) =
    Some (zero_state N N l l' (c0 + d * Z.of_nat N) flag m, []).
Proof.
  intros Hstep j. induction j as [|j IH]; intros Hj.
  - rewrite Nat.sub_0_r. done.
  - cbn [seq fmap list_fmap run]. rewrite Hstep by lia.
    cbn [mbind option_bind].
    replace (S (N - S j)) with (N - j)%nat by lia.
    rewrite IH by lia. done.
Qed.

Lemma zero_state_eq N k l l' c c' flag m :
  c = c' → zero_state N k l l' c flag m = zero_state N k l l' c' flag m.
Proof. by intros ->. Qed.

Lemma step_register N k flag m c :
  (k < N)%nat →
  step (zero_state N k AtRegister AtStartingGun c flag m) (Run k 0) =
  Some (zero_state N (S k) AtRegister AtStartingGun (c + 1) flag m, []).
Proof.
  intros Hk. unfold step, thread_step. cbn [alive zero_state workers].
  change (myRand_range 0) with true. cbv iota.
  rewrite sweep_lookup by done. rewrite decide_False by lia.
  cbn [mbind option_bind pc me]. unfold zero_state, add_players, set_pool, set_workers.
  cbn. by rewrite sweep_insert.
Qed.

Lemma step_gun N k m c :
  (k < N)%nat →
  step (zero_state N k AtStartingGun (AtScan 0) c true m) (Run k 0) =
  Some (zero_state N (S k) AtStartingGun (AtScan 0) c true m, []).
Proof.
  intros Hk. unfold step, thread_step. cbn [alive zero_state workers].
  change (myRand_range 0) with true. cbv iota.
  rewrite sweep_lookup by done. rewrite decide_False by lia.
  cbn [mbind option_bind pc me]. unfold zero_state, set_workers.
  cbn. by rewrite sweep_insert.
Qed.

Lemma step_scan N k flag m c :
  (k < N)%nat →
  step (zero_state N k (AtScan 0) Finished c flag m) (Run k 0) =
  Some (zero_state N (S k) (AtScan 0) Finished (c + -1) flag m, []).
Proof.
  intros Hk. unfold step, thread_step. cbn [alive zero_state workers].
  change (myRand_range 0) with true. cbv iota.
  rewrite sweep_lookup by done. rewrite decide_False by lia.
  cbn [mbind option_bind pc me]. unfold zero_state, add_players, set_pool, set_workers.
  cbn. by rewrite sweep_insert.
Qed.

Lemma round_start_zero N flag :
  round_start N 0 flag = zero_state N 0 AtRegister AtStartingGun 0 flag AwaitRegistered.
Proof. reflexivity. Qed.

Lemma zero_round_runs N flag :
  run (round_start N 0 flag) (zero_round N) =
  Some (zero_state N N (AtScan 0) Finished 0 true AwaitFinished, []).
Proof.
  rewrite round_start_zero. unfold zero_round, all_run.
  pose proof (run_sweep N AtRegister AtStartingGun 1 flag AwaitRegistered 0) as H1.
  pose proof (run_sweep N AtStartingGun (AtScan 0) 0 true AwaitFinished (Z.of_nat N)) as H2.
  pose proof (run_sweep N (AtScan 0) Finished (-1) true AwaitFinished (Z.of_nat N)) as H3.
  specialize (H1 ltac:(intros k Hk; rewrite step_register by done; do 2 f_equal;
                       apply zero_state_eq; lia) N ltac:(lia)).
  specialize (H2 ltac:(intros k Hk; rewrite step_gun by done; do 2 f_equal;
                       apply zero_state_eq; lia) N ltac:(lia)).
  specialize (H3 ltac:(intros k Hk; rewrite step_scan by done; do 2 f_equal;
                       apply zero_state_eq; lia) N ltac:(lia)).
  rewrite Nat.sub_diag in H1, H2, H3.
  rewrite (zero_state_eq N 0 _ _ (0 + 1 * Z.of_nat 0%nat) 0) in H1 by lia.
  rewrite (zero_state_eq N N _ _ (0 + 1 * Z.of_nat N) (Z.of_nat N)) in H1 by lia.
  rewrite (zero_state_eq N 0 _ _ (Z.of_nat N + 0 * Z.of_nat 0%nat) (Z.of_nat N)) in H2 by lia.
  rewrite (zero_state_eq N N _ _ (Z.of_nat N + 0 * Z.of_nat N) (Z.of_nat N)) in H2 by lia.
  rewrite (zero_state_eq N 0 _ _ (Z.of_nat N + -1 * Z.of_nat 0%nat) (Z.of_nat N)) in H3 by lia.
  rewrite (zero_state_eq N N _ _ (Z.of_nat N + -1 * Z.of_nat N) 0) in H3 by lia.
  eapply (run_app _ _ _ _ [] _ []); [exact H1|].
  eapply (run_app _ [FireGun] _ _ [] _ []).
  { cbn [run]. unfold step. cbn [alive zero_state mainAt].
    rewrite decide_True by done. unfold main_step. cbn [mainAt].
    cbn [poolOfPlayers totalPlayerCount playerTotal]. rewrite decide_True by done.
    cbn. reflexivity. }
  unfold set_mainAt, set_pool. cbn.
  change (MkSys (MkGamePool [] 0) (sweep N N AtRegister AtStartingGun)
            (MkPlayerPool (Z.of_nat N) true) (Z.of_nat N) AwaitFinished true)
    with (zero_state N N AtRegister AtStartingGun (Z.of_nat N) true AwaitFinished).
  eapply (run_app _ _ _ _ [] _ []).
  { unfold zero_state at 1. rewrite (sweep_all N _ _ (AtScan 0)). exact H2. }
  unfold zero_state at 1. rewrite (sweep_all N _ _ Finished). exact H3.
Qed.

Lemma main_accepts_spec (N G : Z) : main_accepts N G = true ↔ 2 ≤ N ∧ 0 ≤ G.
Proof. unfold main_accepts. repeat case_decide; split; try done; lia. Qed.

(** The replay round without games, with the gun still fired: every thread
    registers, passes the gun and returns while [main] is still in its first
    wait. *)
Lemma replay_round_runs N :
  run (round_start N 0 true) (all_run N ++ all_run N ++ all_run N) =
  Some (zero_state N N (AtScan 0) Finished 0 true AwaitRegistered, []).
Proof.
  rewrite round_start_zero. unfold all_run.
  pose proof (run_sweep N AtRegister AtStartingGun 1 true AwaitRegistered 0) as H1.
  pose proof (run_sweep N AtStartingGun (AtScan 0) 0 true AwaitRegistered (Z.of_nat N)) as H2.
  pose proof (run_sweep N (AtScan 0) Finished (-1) true AwaitRegistered (Z.of_nat N)) as H3.
  specialize (H1 ltac:(intros k Hk; rewrite step_register by done; do 2 f_equal;
                       apply zero_state_eq; lia) N ltac:(lia)).
  specialize (H2 ltac:(intros k Hk; rewrite step_gun by done; do 2 f_equal;
                       apply zero_state_eq; lia) N ltac:(lia)).
  specialize (H3 ltac:(intros k Hk; rewrite step_scan by done; do 2 f_equal;
                       apply zero_state_eq; lia) N ltac:(lia)).
  rewrite Nat.sub_diag in H1, H2, H3.
  rewrite (zero_state_eq N 0 _ _ (0 + 1 * Z.of_nat 0%nat) 0) in H1 by lia.
  rewrite (zero_state_eq N N _ _ (0 + 1 * Z.of_nat N) (Z.of_nat N)) in H1 by lia.
  rewrite (zero_state_eq N 0 _ _ (Z.of_nat N + 0 * Z.of_nat 0%nat) (Z.of_nat N)) in H2 by lia.
  rewrite (zero_state_eq N N _ _ (Z.of_nat N + 0 * Z.of_nat N) (Z.of_nat N)) in H2 by lia.
  rewrite (zero_state_eq N 0 _ _ (Z.of_nat N + -1 * Z.of_nat 0%nat) (Z.of_nat N)) in H3 by lia.
  rewrite (zero_state_eq N N _ _ (Z.of_nat N + -1 * Z.of_nat N) 0) in H3 by lia.
  eapply (run_app _ _ _ _ [] _ []); [exact H1|].
  eapply (run_app _ _ _ _ [] _ []).
  { unfold zero_state at 1. rewrite (sweep_all N _ _ (AtScan 0)). exact H2. }
  unfold zero_state at 1. rewrite (sweep_all N _ _ Finished). exact H3.
Qed.

(** When every thread has returned and [main] is still in its first wait,
    nothing can move: the counter is 0 and [main] waits for [N]. *)
Lemma replay_round_stuck N flag e :
  (1 ≤ N)%nat →
  step (zero_state N N (AtScan 0) Finished 0 flag AwaitRegistered) e = None.
Proof.
  intros HN. unfold step. cbn [alive zero_state].
  destruct e as [t rnd|t| |answer].
  - destruct (myRand_range rnd); [|done]. unfold thread_step.
    cbn [zero_state workers].
    destruct (decide (t < N)%nat) as [Ht|Ht].
    + rewrite sweep_lookup by done. by rewrite decide_True.
    + rewrite (proj2 (lookup_ge_None _ _)); [done|].
      unfold sweep. rewrite length_fmap, length_seq. lia.
  - unfold spurious_step. cbn [zero_state workers].
    destruct (decide (t < N)%nat) as [Ht|Ht].
    + rewrite sweep_lookup by done. by rewrite decide_True.
    + rewrite (proj2 (lookup_ge_None _ _)); [done|].
      unfold sweep. rewrite length_fmap, length_seq. lia.
  - cbn [zero_state mainAt]. rewrite decide_True by done. unfold main_step.
    cbn [zero_state mainAt poolOfPlayers totalPlayerCount playerTotal].
    rewrite decide_False by lia. done.
  - cbn [zero_state mainAt]. by rewrite decide_False.
Qed.

(** The answer "y" after the first round without games. *)
Lemma zero_round_replay N :
  step (zero_state N N (AtScan 0) Finished 0 true AwaitFinished) (EndRound true) =
  Some (round_start N 0 true, []).
Proof.
  unfold step, main_step, zero_state.
  cbn [alive mainAt poolOfPlayers totalPlayerCount].
  rewrite !decide_True by done. do 2 f_equal.
  unfold main_replay, round_start, set_mainAt, set_workers, set_games. cbn.
  f_equal. unfold sweep. rewrite <- !list_fmap_compose.
  apply list_fmap_ext. intros i t Ht. done.
Qed.

(** C10, what the code does.  A game count of 0 passes the checks of [main]
    (with a valid player count only a negative game count is refused), and
    in a round without games there is no play: no thread ever claims or
    joins a slot, the loop of TryToPlayEachGame ends at its first test, and
    the counters of every player are 0 in every state of the round.  The
    first round can run to the second wait of [main] with every thread
    returned, and the answer "y" then starts the next round with [gunFlag]
    still true.  That round need not come to its end: the threads can
    register, pass the gun and return while [main] is in its first wait;
    then every thread has returned, the counter of the pool is 0, [main]
    waits for a count of [N], and no step is left. *)
Theorem zero_games_round :
  (∀ N G, main_accepts N G = true ↔ 2 ≤ N ∧ 0 ≤ G) ∧
  (∀ N, 2 ≤ N → main N 0 = Some (round_start (Z.to_nat N) 0 false)) ∧
  (∀ N flag acts s, exec (round_start N 0 flag) acts s →
     acts = [] ∧ games s = [] ∧
     ∀ t w, workers s !! t = Some w →
       outside (pc w) ∧ gamesPlayed (me w) = 0 ∧ winCount (me w) = 0 ∧
       loseCount (me w) = 0 ∧ drawCount (me w) = 0) ∧
  (∀ N flag acts s t w rnd,
     exec (round_start N 0 flag) acts s → alive s = true →
     myRand_range rnd = true → workers s !! t = Some w → pc w = AtScan 0 →
     step s (Run t rnd) =
     Some (set_workers (<[t := MkWorker (me w) Finished]> (workers s))
             (add_players (-1) s), [])) ∧
  (∀ N flag, ∃ s,
     run (round_start N 0 flag) (zero_round N) = Some (s, []) ∧
     Forall in_round (zero_round N) ∧
     mainAt s = AwaitFinished ∧ alive s = true ∧
     totalPlayerCount (poolOfPlayers s) = 0 ∧
     (∀ t w, workers s !! t = Some w → pc w = Finished ∧ me w = initPlayer t) ∧
     step s (EndRound true) = Some (round_start N 0 true, [])) ∧
  (∀ N, (1 ≤ N)%nat → ∃ s,
     run (round_start N 0 true) (all_run N ++ all_run N ++ all_run N) = Some (s, []) ∧
     Forall in_round (all_run N ++ all_run N ++ all_run N) ∧
     mainAt s = AwaitRegistered ∧ alive s = true ∧
     totalPlayerCount (poolOfPlayers s) = 0 ∧
     playerTotal s = Z.of_nat N ∧
     (∀ t w, workers s !! t = Some w → pc w = Finished ∧ me w = initPlayer t) ∧
     ∀ e, step s e = None).
Proof.
  assert (∀ N flag c m t w,
            workers (zero_state N N (AtScan 0) Finished c flag m) !! t = Some w →
            pc w = Finished ∧ me w = initPlayer t) as Hfinished.
  { intros N flag c m t w. cbn [workers zero_state]. intros Hw.
    assert (t < N)%nat as Ht.
    { apply lookup_lt_Some in Hw. unfold sweep in Hw.
      by rewrite length_fmap, length_seq in Hw. }
    rewrite sweep_lookup in Hw by done. rewrite decide_True in Hw by done.
    injection Hw as <-. done. }
  assert (∀ N, Forall in_round (all_run N)) as Hall.
  { intros N. unfold all_run. rewrite Forall_fmap.
    apply Forall_forall. intros; exact I. }
  split; [apply main_accepts_spec|]. split; [|split; [|split; [|split]]].
  - intros N HN. unfold main.
    rewrite (proj2 (main_accepts_spec N 0)) by lia. reflexivity.
  - intros N flag acts s Hexec.
    destruct (zero_exec _ _ _ _ Hexec) as ((Hg & _ & Hws) & ->).
    split; [done|]. split; [done|]. intros t w Hw.
    destruct (Hws t w Hw) as [-> Hout]. done.
  - intros N flag acts s t w rnd Hexec Halive Hrnd Hw Hpc.
    destruct (zero_exec _ _ _ _ Hexec) as ((_ & Htot & _) & _).
    unfold step, thread_step. rewrite Halive, Hrnd, Hw.
    cbn [mbind option_bind]. rewrite Hpc, Htot.
    rewrite decide_False by lia. reflexivity.
  - intros N flag. eexists. split; [apply zero_round_runs|].
    split.
    { unfold zero_round. rewrite !Forall_app.
      repeat split; try apply Hall. by constructor. }
    split; [done|]. split; [done|]. split; [done|].
    split; [apply Hfinished|]. apply zero_round_replay.
  - intros N HN. eexists. split; [apply replay_round_runs|].
    split; [rewrite !Forall_app; repeat split; apply Hall|].
    split; [done|]. split; [done|]. split; [done|]. split; [done|].
    split; [apply Hfinished|]. intros e. by apply replay_round_stuck.
Qed.

(** The witness: two players, no game; the first round, the answer "y", and
    the second round that stops with [main] in its first wait. *)
Lemma zero_games_round_witness :
  main 2 0 = Some (round_start 2 0 false) ∧
  ∃ s1 s2,
    run (round_start 2 0 false) (zero_round 2) = Some (s1, []) ∧
    mainAt s1 = AwaitFinished ∧
    step s1 (EndRound true) = Some (round_start 2 0 true, []) ∧
    run (round_start 2 0 true)
      [Run 0 0; Run 1 0; Run 0 0; Run 1 0; Run 0 0; Run 1 0] = Some (s2, []) ∧
    mainAt s2 = AwaitRegistered ∧
    ∀ e, step s2 e = None.
Proof.
  destruct zero_games_round as (_ & Hmain & _ & _ & Hrun & Hstuck).
  split; [apply (Hmain 2); lia|].
  destruct (Hrun 2%nat false) as (s1 & H1 & _ & Hm1 & _ & _ & _ & Hreplay).
  destruct (Hstuck 2%nat ltac:(lia)) as (s2 & H2 & _ & Hm2 & _ & _ & _ & _ & Hnone).
  by exists s1, s2.
Defined.

(** ** The barrier *)

Lemma runners_cons w ws : runners (w :: ws) = (runs_at w + runners ws)%nat.
Proof. unfold runners, runs_at. cbn. destruct (running (pc w)); reflexivity. Qed.

Lemma runners_insert ws t w w' :
  ws !! t = Some w →
  (runners (<[t := w']> ws) + runs_at w = runners ws + runs_at w')%nat.
Proof.
  revert t. induction ws as [|w0 ws IH]; intros t Ht; [done|].
  destruct t as [|t]; cbn in Ht.
  - injection Ht as ->. change (<[0%nat := w']> (w :: ws)) with (w' :: ws).
    rewrite !runners_cons. lia.
  - change (<[S t := w']> (w0 :: ws)) with (w0 :: <[t := w']> ws).
    rewrite !runners_cons. specialize (IH t Ht). lia.
Qed.

Lemma running_wake_loc i l : running (wake_loc i l) = running l.
Proof. destruct l; cbn; try case_decide; reflexivity. Qed.

Lemma runs_at_wake_if b i w : runs_at (wake_if b i w) = runs_at w.
Proof.
  unfold runs_at. rewrite pc_wake_if. destruct b; [|done].
  by rewrite running_wake_loc.
Qed.

Lemma runners_wake b i ws : runners (wake_if b i <$> ws) = runners ws.
Proof.
  induction ws as [|w ws IH]; [done|].
  rewrite fmap_cons, !runners_cons, IH, runs_at_wake_if. done.
Qed.

Lemma runners_after ws t w w' b i :
  ws !! t = Some w →
  (runners (after_step ws t w' b i) + runs_at w = runners ws + runs_at w')%nat.
Proof.
  intros Ht. unfold after_step.
  assert ((wake_if b i <$> ws) !! t = Some (wake_if b i w)) as Ht'
    by (rewrite list_lookup_fmap, Ht; done).
  pose proof (runners_insert _ _ _ w' Ht') as H.
  rewrite runners_wake, runs_at_wake_if in H. done.
Qed.

Lemma runners_le ws : (runners ws ≤ length ws)%nat.
Proof.
  induction ws as [|w ws IH]; [done|]. rewrite runners_cons. cbn [length].
  unfold runs_at. destruct (running (pc w)); lia.
Qed.

Lemma runners_all ws t w :
  runners ws = length ws → ws !! t = Some w → running (pc w) = true.
Proof.
  revert t. induction ws as [|w0 ws IH]; intros t Hall Ht; [done|].
  rewrite runners_cons in Hall. cbn [length] in Hall.
  pose proof (runners_le ws). unfold runs_at in Hall.
  destruct (running (pc w0)) eqn:E; [|lia].
  destruct t as [|t]; cbn in Ht; [congruence|]. apply (IH t); [lia|done].
Qed.

Lemma runners_none ws t w :
  runners ws = 0%nat → ws !! t = Some w → running (pc w) = false.
Proof.
  revert t. induction ws as [|w0 ws IH]; intros t Hnone Ht; [done|].
  rewrite runners_cons in Hnone. unfold runs_at in Hnone.
  destruct (running (pc w0)) eqn:E; [lia|].
  destruct t as [|t]; cbn in Ht; [congruence|]. apply (IH t); [lia|done].
Qed.

Lemma plain_step ws t w' :
  <[t := w']> ws = after_step ws t w' false 0.
Proof. unfold after_step. by rewrite <- (wake_if_fmap false). Qed.

Lemma thread_step_shape s t rnd s' a :
  thread_step s t rnd = Some (s', a) → ∃ w w', thread_shape s s' t w w'.
Proof.
  intros Hstep. unfold thread_step in Hstep.
  destruct (workers s !! t) as [w|] eqn:Ht; [|done]. cbn [mbind option_bind] in Hstep.
  exists w.
  assert (∀ i o, (pc w = AtJoin i ∨ inside i (pc w)) →
            commit s t i w <$> o = Some (s', a) → ∃ w', thread_shape s s' t w w')
    as Hsec.
  { intros i [c|] Hpc H; [|done]. apply some_eq in H.
    destruct (commit_fields s t i w c) as (Ews & _).
    rewrite H in Ews. cbn [fst] in Ews.
    assert (running (pc w) = true ∧ pc w ≠ AtStartingGun ∧ pc w ≠ AtRegister)
      as (Hrun & Hgun & Hreg)
      by (destruct Hpc as [-> | Hin]; [done|]; destruct (pc w); done).
    assert (running (next_loc i w c) = true ∧ next_loc i w c ≠ AtRegister) as [Hrun' Hreg'].
    { unfold next_loc. destruct (sec_exit c); done. }
    exists (MkWorker (sec_player c) (next_loc i w c)).
    split; [done|]. split; [by eexists _, _|].
    assert (s' = (commit s t i w c).1) as -> by (by rewrite H).
    unfold runs_at. cbn [pc]. rewrite Hrun, Hrun'. unfold commit.
    destruct (decide (sec_exit c = Exit1)); cbn; repeat split; auto; lia. }
  destruct (pc w) as [| |i|i|i [|]|i [|]|] eqn:Hpc; try done.
  - injection Hstep as <- <-. exists (MkWorker (me w) AtStartingGun).
    split; [done|]. split; [eexists _, _; apply plain_step|].
    unfold runs_at; rewrite ?Hpc; cbn. repeat split; auto; lia.
  - destruct (gunFlag (poolOfPlayers s)) eqn:E; [|done]. injection Hstep as <- <-.
    exists (MkWorker (me w) (AtScan 0)).
    split; [done|]. split; [eexists _, _; apply plain_step|].
    unfold runs_at; rewrite ?Hpc; cbn. repeat split; auto; lia.
  - destruct (decide _).
    + destruct (games s !! i) as [g|]; [|done]. cbn [mbind option_bind] in Hstep.
      destruct (TryToPlayEachGame_claim g) as [ok g']. injection Hstep as <- <-.
      exists (MkWorker (me w) (if ok then AtJoin i else AtScan (S i))).
      split; [done|]. split; [eexists _, _; apply plain_step|].
      unfold runs_at; rewrite ?Hpc; cbn. destruct ok; cbn; repeat split; auto; lia.
    + injection Hstep as <- <-. exists (MkWorker (me w) Finished).
      split; [done|]. split; [eexists _, _; apply plain_step|].
      unfold runs_at; rewrite ?Hpc; cbn. repeat split; auto; lia.
  - destruct (games s !! i) as [g|]; [|done]. eapply Hsec; [|exact Hstep]. by left.
  - destruct (games s !! i) as [g|]; [|done]. eapply Hsec; [|exact Hstep]. by right.
  - destruct (games s !! i) as [g|]; [|done]. eapply Hsec; [|exact Hstep]. by right.
Qed.

Lemma spurious_step_shape s t s' a :
  spurious_step s t = Some (s', a) → ∃ w w', thread_shape s s' t w w'.
Proof.
  intros Hstep. unfold spurious_step in Hstep.
  destruct (workers s !! t) as [w|] eqn:Ht; [|done]. cbn [mbind option_bind] in Hstep.
  exists w.
  destruct (pc w) as [| |i|i|i [|]|i [|]|] eqn:Hpc; try done;
    injection Hstep as <- <-; eexists (MkWorker (me w) _);
    (split; [done|]); (split; [eexists _, _; apply plain_step|]);
    unfold runs_at; rewrite Hpc; cbn; repeat split; auto; lia.
Qed.

Lemma wake_if_register b i w : pc (wake_if b i w) = AtRegister ↔ pc w = AtRegister.
Proof.
  rewrite pc_wake_if. destruct b; [|done].
  destruct (pc w); cbn; try case_decide; split; congruence.
Qed.

Lemma wake_if_before_gun b i w :
  pc w = AtRegister ∨ pc w = AtStartingGun → pc (wake_if b i w) = pc w.
Proof. rewrite pc_wake_if. destruct b; [|done]. intros [-> | ->]; done. Qed.

Lemma shape_barrier s s' t w w' :
  thread_shape s s' t w w' → barrier_inv s → barrier_inv s'.
Proof.
  intros (Ht & (b & i & Hws) & Hcount & _ & Hmain & Htotal & Hreg & _) (Hc & Hn & Hfin).
  pose proof (runners_after _ _ _ w' b i Ht) as Hrun.
  split; [rewrite Hws, Hcount, Hc; lia|].
  split; [by rewrite Htotal, Hws, after_step_length|].
  rewrite Hmain, Hws. intros Hm t' w1 Hl.
  destruct (after_step_inv _ _ _ _ _ _ _ _ Ht Hl) as [[-> ->] | (Hne & w0 & Hw0 & ->)];
    [done|].
  rewrite wake_if_register. by apply (Hfin Hm t').
Qed.

Lemma shape_gun s s' t w w' :
  thread_shape s s' t w w' → gun_inv s → gun_inv s'.
Proof.
  intros (Ht & (b & i & Hws) & _ & Hflag & Hmain & _ & _ & Hcase) Hgun Hm.
  rewrite Hmain in Hm. destruct (Hgun Hm) as [Hf Hall].
  split; [congruence|]. rewrite Hws. intros t' w1 Hl.
  destruct (Hall t w Ht) as [Hw | Hw];
    destruct Hcase as [[Hr Hr'] | [[Hg Hg'] | [Hrun Hng]]]; try congruence;
    try (rewrite Hw in Hrun; done).
  destruct (after_step_inv _ _ _ _ _ _ _ _ Ht Hl) as [[-> ->] | (Hne & w0 & Hw0 & ->)];
    [by right|].
  rewrite wake_if_before_gun by (by apply (Hall t')). by apply (Hall t').
Qed.

Lemma barrier_exec N G flag acts s :
  exec (round_start N G flag) acts s → barrier_inv s.
Proof.
  induction 1 as [|acts s e s' a _ IH He Hstep].
  - split; [|split; [|done]].
    + cbn. unfold runners.
      induction (seq 0 N) as [|k l IHl]; [done|]. cbn. exact IHl.
    + cbn. by rewrite length_fmap, length_seq.
  - unfold step in Hstep. destruct (alive s); [|done].
    destruct e as [t rnd|t| |answer]; [| | |done].
    + destruct (myRand_range rnd); [|done].
      destruct (thread_step_shape _ _ _ _ _ Hstep) as (w & w' & Hshape).
      by eapply shape_barrier.
    + destruct (spurious_step_shape _ _ _ _ Hstep) as (w & w' & Hshape).
      by eapply shape_barrier.
    + destruct (decide _) as [Hm|]; [|done]. unfold main_step in Hstep.
      rewrite Hm in Hstep. destruct (decide _) as [Hall|]; [|done].
      injection Hstep as <- <-. destruct IH as (Hc & Hn & _).
      split; [done|]. split; [done|]. cbn. intros _ t w Hw Hpc.
      assert (runners (workers s) = length (workers s)) as Hfull by lia.
      pose proof (runners_all _ _ _ Hfull Hw) as Hrun. by rewrite Hpc in Hrun.
Qed.

Lemma gun_exec N G acts s :
  exec (round_start N G false) acts s → gun_inv s.
Proof.
  induction 1 as [|acts s e s' a _ IH He Hstep].
  - intros _. split; [done|]. intros t w Hw.
    apply round_start_workers in Hw as ->. by left.
  - unfold step in Hstep. destruct (alive s); [|done].
    destruct e as [t rnd|t| |answer]; [| | |done].
    + destruct (myRand_range rnd); [|done].
      destruct (thread_step_shape _ _ _ _ _ Hstep) as (w & w' & Hshape).
      by eapply shape_gun.
    + destruct (spurious_step_shape _ _ _ _ Hstep) as (w & w' & Hshape).
      by eapply shape_gun.
    + destruct (decide _) as [Hm|]; [|done]. unfold main_step in Hstep.
      rewrite Hm in Hstep. destruct (decide _) as [Hall|]; [|done].
      injection Hstep as <- <-. intros Hm'. done.
Qed.

(** When [main] passes its second wait every thread has returned. *)
Lemma all_returned N G flag acts s :
  exec (round_start N G flag) acts s →
  mainAt s = AwaitFinished → totalPlayerCount (poolOfPlayers s) = 0 →
  ∀ t w, workers s !! t = Some w → pc w = Finished.
Proof.
  intros Hexec Hm Hc t w Hw.
  destruct (barrier_exec _ _ _ _ _ Hexec) as (Hcount & _ & Hreg).
  assert (runners (workers s) = 0%nat) as Hnone by lia.
  pose proof (runners_none _ _ _ Hnone Hw) as Hrun.
  pose proof (Hreg Hm t w Hw) as Hne.
  destruct (pc w); done.
Qed.

(** ** The replay *)

Lemma main_inv_exec N G flag acts s :
  exec (round_start N G flag) acts s → main_inv N s.
Proof.
  induction 1 as [|acts s e s' a _ [IH1 IH2] He Hstep]; [done|].
  unfold step in Hstep. destruct (alive s); [|done].
  destruct e as [t rnd|t| |answer]; [| | |done].
  - destruct (myRand_range rnd); [|done]. unfold thread_step in Hstep.
    destruct (workers s !! t) as [w|]; [|done]. cbn [mbind option_bind] in Hstep.
    assert (∀ i c, main_inv N (commit s t i w c).1) as Hcommit
      by (intros i c; unfold commit; destruct (decide _); done).
    assert (∀ i o, commit s t i w <$> o = Some (s', a) → main_inv N s') as Hsec.
    { intros i [c|] H; [|done]. apply some_eq in H. apply (f_equal fst) in H.
      cbn [fst] in H. rewrite <- H. apply Hcommit. }
    destruct (pc w) as [| |i|i|i [|]|i [|]|]; try done.
    + injection Hstep as <- <-. done.
    + destruct (gunFlag (poolOfPlayers s)) eqn:E; [|done].
      injection Hstep as <- <-. split; [done|]. cbn. by rewrite E.
    + destruct (decide _).
      * destruct (games s !! i) as [g|]; [|done]. cbn [mbind option_bind] in Hstep.
        destruct (TryToPlayEachGame_claim g). injection Hstep as <- <-. done.
      * injection Hstep as <- <-. done.
    + destruct (games s !! i) as [g|]; [|done]. by eapply Hsec.
    + destruct (games s !! i) as [g|]; [|done]. by eapply Hsec.
    + destruct (games s !! i) as [g|]; [|done]. by eapply Hsec.
  - unfold spurious_step in Hstep.
    destruct (workers s !! t) as [w|]; [|done]. cbn [mbind option_bind] in Hstep.
    destruct (pc w) as [| |i|i|i [|]|i [|]|]; try done; injection Hstep as <- <-; done.
  - destruct (decide _) as [Hm|]; [|done]. unfold main_step in Hstep.
    rewrite Hm in Hstep. destruct (decide _); [|done].
    injection Hstep as <- <-. done.
Qed.



(** ** The slots and the boards in a round *)

Lemma slot_ok_count g ws n i ph : slot_ok g ws n i ph → 0 ≤ playerCount g ≤ 2.
Proof.
  destruct ph; cbn [slot_ok]; intros H.
  - destruct H as (_&_&_&_&Hc&Hle&_). lia.
  - destruct H as (_&_&_&_&Hc&Hle&_). lia.
  - destruct H as (_&_&_&_&_&_&_&Hc&_). lia.
  - destruct H as (_&_&_&_&_&_&Hc&_). lia.
  - destruct H as (_&_&_&_&Hc&_). lia.
Qed.

(** C2. The claim of a slot adds one to its number of players only when
    that number is below 2, and succeeds exactly then; so whatever the number
    of attempts on a slot that starts empty, however many threads make them,
    the number of players never exceeds 2 and at most 2 attempts succeed.
    The same bound holds in every state of a round, where the claims of all
    threads interleave with the play. *)
Theorem claim_at_most_two :
  (∀ g before after,
     playerCount g = 0 →
     let '(oks1, g1) := claims before g in
     let '(ok, g2) := TryToPlayEachGame_claim g1 in
     let '(oks3, g3) := claims after g2 in
     (ok = true ↔ playerCount g1 < 2) ∧
     playerCount g2 = (if ok then playerCount g1 + 1 else playerCount g1) ∧
     playerCount g1 ≤ 2 ∧ playerCount g2 ≤ 2 ∧ playerCount g3 ≤ 2 ∧
     (successes (oks1 ++ ok :: oks3) ≤ 2)%nat ∧
     claims (before + 1 + after) g = (oks1 ++ ok :: oks3, g3)) ∧
  (∀ N G flag acts s i g,
     exec (round_start N G flag) acts s → games s !! i = Some g →
     0 ≤ playerCount g ≤ 2 ∧
     let '(ok, g') := TryToPlayEachGame_claim g in
     (ok = true ↔ playerCount g < 2) ∧
     playerCount g' = (if ok then playerCount g + 1 else playerCount g) ∧
     playerCount g' ≤ 2).
Proof.
  split; [apply claims_in_sequence|].
  intros N G flag acts s i g Hexec Hg.
  destruct (exec_inv _ _ _ _ _ Hexec) as ((Hlen & _) & _ & Hphase).
  assert (i < G)%nat as Hi by (rewrite <- Hlen; by eapply lookup_lt_Some).
  destruct (Hphase i Hi) as (ph & _ & g0 & Hg0 & Hok).
  assert (g0 = g) as -> by congruence.
  pose proof (slot_ok_count _ _ _ _ _ Hok) as Hc. split; [exact Hc|].
  pose proof (claim_spec g Hc) as H.
  destruct (TryToPlayEachGame_claim g) as [ok g']. tauto.
Qed.

(** The witness: five threads try to claim an empty slot one after the
    other; the first two succeed. *)
Lemma claim_at_most_two_witness :
  claims 5 (initGame 0) = ([true; true; false; false; false],
                           set_playerCount 2 (initGame 0)).
Proof.
  destruct claim_at_most_two as (Hseq & _).
  pose proof (Hseq (initGame 0) 2%nat 2%nat eq_refl) as H.
  cbn in H. destruct H as (_ & _ & _ & _ & _ & _ & H). exact H.
Defined.

(** C9. A call of MakeAMove writes at most one cell of the board; the cell it
    writes is inside the 3x3 board and is empty just before the write, and it
    receives the mark of the player, which in a round is X or O; a cell that
    holds a mark keeps it.  The source has no check of the cell at the write:
    no write ever reaches an occupied cell. *)
Theorem MakeAMove_writes_one_empty_cell :
  (∀ p g rnd,
     0 ≤ rnd →
     ∃ st p' g' acts, MakeAMove p g rnd = Some (st, p', g', acts) ∧
       (gameBoard g' = gameBoard g ∨
        ∃ row col, 0 ≤ row < 3 ∧ 0 ≤ col < 3 ∧
          getCell (gameBoard g) row col = Some PlayerType.None ∧
          setCell (gameBoard g) row col (type p) = Some (gameBoard g') ∧
          getCell (gameBoard g') row col = Some (type p) ∧
          ∀ r c, (r, c) ≠ (row, col) →
            getCell (gameBoard g') r c = getCell (gameBoard g) r c) ∧
       (∀ r c m, getCell (gameBoard g) r c = Some m → m ≠ PlayerType.None →
          getCell (gameBoard g') r c = Some m) ∧
       (∀ r c r' c',
          getCell (gameBoard g') r c ≠ getCell (gameBoard g) r c →
          getCell (gameBoard g') r' c' ≠ getCell (gameBoard g) r' c' →
          (r, c) = (r', c'))) ∧
  (∀ N G flag acts s i pid mk,
     exec (round_start N G flag) acts s → (i < G)%nat →
     (pid, mk) ∈ marks (gn_of i) acts →
     mk = PlayerType.X ∨ mk = PlayerType.O).
Proof.
  split; [apply MakeAMove_one_cell|].
  intros N G flag acts s i pid mk Hexec Hi Hin.
  destruct (exec_inv _ _ _ _ _ Hexec) as (_ & _ & Hphase).
  destruct (Hphase i Hi) as (ph & (Halt & _) & _).
  apply list_elem_of_lookup in Hin as [n Hn].
  assert ((snd <$> marks (gn_of i) acts) !! n = Some mk) as Hmk
    by (rewrite list_lookup_fmap, Hn; done).
  apply Halt in Hmk. subst. unfold turn_after. destruct (Nat.even n); auto.
Qed.

(** The witness: the first move of a game, with the number 4 drawn. *)
Lemma MakeAMove_writes_one_empty_cell_witness :
  0 ≤ 4 ∧
  ∃ st p' g' acts,
    MakeAMove (MkPlayer 1 0 0 0 0 PlayerType.X) (initGame 0) 4 = Some (st, p', g', acts).
Proof.
  split; [lia|].
  destruct MakeAMove_writes_one_empty_cell as (Hmove & _).
  destruct (Hmove (MkPlayer 1 0 0 0 0 PlayerType.X) (initGame 0) 4 ltac:(lia))
    as (st & p' & g' & acts & H & _).
  exists st, p', g', acts. exact H.
Defined.

(** ** PrintGameBoard *)

Lemma app_cons (c : ascii) (s t : string) : String c s +:+ t = String c (s +:+ t).
Proof. reflexivity. Qed.

Lemma app_assoc_string (s1 s2 s3 : string) : (s1 +:+ s2) +:+ s3 = s1 +:+ (s2 +:+ s3).
Proof. induction s1 as [|c s1 IH]; [done|]. by rewrite !app_cons, IH. Qed.

Lemma app_empty_r (s : string) : s +:+ "" = s.
Proof. induction s as [|c s IH]; [done|]. by rewrite app_cons, IH. Qed.

Lemma length_app_string (s1 s2 : string) :
  String.length (s1 +:+ s2) = (String.length s1 + String.length s2)%nat.
Proof. induction s1 as [|c s1 IH]; [done|]. rewrite app_cons. cbn. by rewrite IH. Qed.

Lemma readCell_show (c : PlayerType.t) (rest : string) :
  readCell (showCell c +:+ rest) = Some (c, rest).
Proof. by destruct c. Qed.

Lemma length_showCell (c : PlayerType.t) : String.length (showCell c) = 3%nat.
Proof. by destruct c. Qed.

Lemma readRow_show (r : Arr3 PlayerType.t) (rest : string) :
  readRow (showRow r +:+ rest) = Some (r, rest).
Proof.
  destruct r as [c0 c1 c2]. unfold readRow, showRow. cbn [a0 a1 a2].
  rewrite !app_assoc_string, readCell_show. cbn [mbind option_bind].
  rewrite readCell_show. cbn [mbind option_bind].
  rewrite readCell_show. done.
Qed.

Lemma readBoard_show (b : Board) : readBoard (showBoard b) = Some b.
Proof.
  destruct b as [r0 r1 r2]. unfold readBoard, showBoard. cbn [a0 a1 a2].
  rewrite readRow_show. cbn [mbind option_bind].
  rewrite readRow_show. cbn [mbind option_bind].
  rewrite <- (app_empty_r (showRow r2)), readRow_show. done.
Qed.

Lemma PrintGameBoard_row_show (b : Board) (row : Z) (r : Arr3 PlayerType.t) (out : string) :
  arr_get b row = Some r →
  PrintGameBoard_row b row out = Some (out +:+ showRow r).
Proof.
  intros Hr. unfold PrintGameBoard_row, PrintGameBoard_cell, getCell.
  rewrite for_range_3, Hr. cbn. unfold showRow.
  by rewrite !app_assoc_string.
Qed.

Lemma PrintGameBoard_show (g : Game) : PrintGameBoard g = Some (showBoard (gameBoard g)).
Proof.
  unfold PrintGameBoard. rewrite for_range_3.
  rewrite (PrintGameBoard_row_show _ 0 (a0 (gameBoard g))) by done. cbn [mbind option_bind].
  rewrite (PrintGameBoard_row_show _ 1 (a1 (gameBoard g))) by done. cbn [mbind option_bind].
  rewrite (PrintGameBoard_row_show _ 2 (a2 (gameBoard g))) by done.
  unfold showBoard. by rewrite !app_assoc_string.
Qed.

(** X1: the text of the board is three lines of three cells, 30 characters,
    and the board can be read back from it; so two games print the same text
    exactly when their boards are equal. *)
Theorem PrintGameBoard_readBoard (g g' : Game) :
  ∃ out, PrintGameBoard g = Some out ∧
    String.length out = 30%nat ∧
    readBoard out = Some (gameBoard g) ∧
    (PrintGameBoard g' = Some out ↔ gameBoard g' = gameBoard g).
Proof.
  exists (showBoard (gameBoard g)). rewrite !PrintGameBoard_show.
  split; [done|]. split.
  { unfold showBoard, showRow. rewrite !length_app_string, !length_showCell. done. }
  split; [apply readBoard_show|]. split.
  - intros H. apply some_eq in H.
    pose proof (readBoard_show (gameBoard g')) as H'. rewrite H, readBoard_show in H'.
    congruence.
  - by intros ->.
Qed.

(** ** PrintResults *)

Lemma at_index_app {A} (pre l : list A) (x : A) :
  at_index (pre ++ x :: l) (Z.of_nat (length pre)) = Some x.
Proof.
  unfold at_index. rewrite decide_True by lia. rewrite Nat2Z.id.
  by rewrite list_lookup_middle.
Qed.

Lemma at_index_out {A} (l : list A) (i : Z) :
  i < 0 ∨ Z.of_nat (length l) ≤ i → at_index l i = None.
Proof.
  intros H. unfold at_index. case_decide; [|done].
  apply lookup_ge_None. lia.
Qed.

(** A loop over the first entries of an array is a fold over them. *)
Lemma for_range_fold {A S} (f : A → S → S) (a : list A)
  (body : Z → S → option S) :
  (∀ i st, body i st = x ← at_index a i; Some (f x st)) →
  ∀ (l pre post : list A) (st : S),
    a = pre ++ l ++ post →
    for_range (Z.of_nat (length pre)) (length l) body st =
    Some (fold_left (λ st x, f x st) l st).
Proof.
  intros Hbody l. induction l as [|x l IH]; intros pre post st Ha; [done|].
  cbn [for_range length fold_left]. rewrite Hbody, Ha.
  rewrite <- app_comm_cons, at_index_app. cbn [mbind option_bind].
  specialize (IH (pre ++ [x]) post (f x st)).
  rewrite length_app in IH. cbn [length] in IH.
  replace (Z.of_nat (length pre) + 1) with (Z.of_nat (length pre + 1)) by lia.
  apply IH. rewrite Ha, <- !app_assoc. done.
Qed.

(** A loop that runs past the end of the array reads out of range. *)
Lemma for_range_past {A S} (f : A → S → S) (a : list A)
  (body : Z → S → option S) :
  (∀ i st, body i st = x ← at_index a i; Some (f x st)) →
  ∀ (k : nat) (from : Z) (st : S),
    0 ≤ from ≤ Z.of_nat (length a) → Z.of_nat (length a) < from + Z.of_nat k →
    for_range from k body st = None.
Proof.
  intros Hbody k. induction k as [|k IH]; intros from st Hfrom Hk; [lia|].
  cbn [for_range]. rewrite Hbody.
  destruct (at_index a from) as [x|] eqn:Hx; [|done]. cbn [mbind option_bind].
  apply IH; [|lia].
  destruct (decide (from = Z.of_nat (length a))) as [->|]; [|lia].
  rewrite at_index_out in Hx by lia. done.
Qed.

Lemma total_cons {A} (f : A → Z) (x : A) (l : list A) :
  total f (x :: l) = f x + total f l.
Proof. reflexivity. Qed.

Lemma total_app {A} (f : A → Z) (l1 l2 : list A) :
  total f (l1 ++ l2) = total f l1 + total f l2.
Proof.
  induction l1 as [|x l1 IH]; [done|].
  rewrite <- app_comm_cons, !total_cons, IH. lia.
Qed.

Lemma in_state_cons st g gs :
  in_state st (g :: gs) =
  (if decide (currentGameState g = st) then 1 else 0) + in_state st gs.
Proof.
  unfold in_state. cbn [List.filter].
  destruct (decide (currentGameState g = st)) as [E|E].
  - rewrite bool_decide_eq_true_2 by done. cbn [length]. lia.
  - rewrite bool_decide_eq_false_2 by done. lia.
Qed.

Lemma in_state_bounds st gs : 0 ≤ in_state st gs ≤ Z.of_nat (length gs).
Proof.
  induction gs as [|g gs IH]; [done|]. rewrite in_state_cons. cbn [length].
  case_decide; lia.
Qed.

Lemma int_wrap_id (z : Z) : INT_MIN ≤ z ≤ INT_MAX → int_wrap z = z.
Proof.
  unfold INT_MIN, INT_MAX, int_wrap. intros H.
  rewrite Z.mod_small by lia. lia.
Qed.

Lemma int_wrap_range (z : Z) : INT_MIN ≤ int_wrap z ≤ INT_MAX.
Proof.
  unfold INT_MIN, INT_MAX, int_wrap.
  pose proof (Z.mod_pos_bound (z + 2147483648) 4294967296 ltac:(lia)). lia.
Qed.

(** Adding to a sum that has wrapped around gives what the exact sum gives. *)
Lemma int_wrap_add (a b : Z) : int_wrap (int_wrap a + b) = int_wrap (a + b).
Proof.
  unfold int_wrap. f_equal.
  replace (Z.modulo (a + 2147483648) 4294967296 - 2147483648 + b + 2147483648)
    with (Z.modulo (a + 2147483648) 4294967296 + b) by lia.
  rewrite Zplus_mod_idemp_l. f_equal. lia.
Qed.

Lemma fold_players (l : list Player) (wins loses ties : Z) (log : list ResultLine) :
  fold_left (λ (st : PlayerSums * list ResultLine) p,
      (MkPlayerSums (int_wrap (totalPlayerWins st.1 + winCount p))
         (int_wrap (totalPlayerLoses st.1 + loseCount p))
         (int_wrap (totalPlayerTies st.1 + drawCount p)),
       st.2 ++ [playerLine p])) l
    (MkPlayerSums (int_wrap wins) (int_wrap loses) (int_wrap ties), log) =
  (MkPlayerSums (int_wrap (wins + total winCount l))
     (int_wrap (loses + total loseCount l))
     (int_wrap (ties + total drawCount l)),
   log ++ (playerLine <$> l)).
Proof.
  revert wins loses ties log. induction l as [|p l IH]; intros wins loses ties log.
  - cbn. by rewrite !Z.add_0_r, app_nil_r.
  - cbn [fold_left fst snd totalPlayerWins totalPlayerLoses totalPlayerTies].
    rewrite !int_wrap_add, IH, !total_cons. cbn [fmap list_fmap].
    rewrite <- app_assoc. do 2 f_equal; f_equal; lia.
Qed.

Lemma fold_games (l : list Game) (won tied : Z) (log : list ResultLine) :
  fold_left (λ (st : GameSums * list ResultLine) g,
      (if decide (currentGameState g = GameState.Won)
       then MkGameSums (int_wrap (totalGamesWon st.1 + 1)) (totalGamesTied st.1)
       else MkGameSums (totalGamesWon st.1) (int_wrap (totalGamesTied st.1 + 1)),
       st.2 ++ [gameLine g])) l
    (MkGameSums (int_wrap won) (int_wrap tied), log) =
  (MkGameSums (int_wrap (won + in_state GameState.Won l))
     (int_wrap (tied + (Z.of_nat (length l) - in_state GameState.Won l))),
   log ++ (gameLine <$> l)).
Proof.
  revert won tied log. induction l as [|g l IH]; intros won tied log.
  - cbn. rewrite app_nil_r. do 3 f_equal; unfold in_state; cbn; lia.
  - cbn [fold_left]. rewrite in_state_cons.
    cbn [fst snd fmap list_fmap length totalGamesWon totalGamesTied].
    case_decide; cbn [totalGamesWon totalGamesTied];
      rewrite int_wrap_add, IH, <- app_assoc; do 2 f_equal; f_equal; lia.
Qed.

Lemma PrintResults_report (players : list Player) (games : list Game) :
  PrintResults players (Z.of_nat (length players)) games (Z.of_nat (length games)) =
  Some (report players games).
Proof.
  unfold PrintResults. rewrite !Nat2Z.id.
  rewrite (for_range_fold
             (λ p (st : PlayerSums * list ResultLine),
                (MkPlayerSums (int_wrap (totalPlayerWins st.1 + winCount p))
                   (int_wrap (totalPlayerLoses st.1 + loseCount p))
                   (int_wrap (totalPlayerTies st.1 + drawCount p)),
                 st.2 ++ [playerLine p]))
             players (PrintResults_player players) (λ _ _, eq_refl)
             players [] []) by (by rewrite app_nil_r).
  change (MkPlayerSums 0 0 0)
    with (MkPlayerSums (int_wrap 0) (int_wrap 0) (int_wrap 0)).
  rewrite fold_players. cbn [mbind option_bind].
  rewrite (for_range_fold
             (λ g (st : GameSums * list ResultLine),
                (if decide (currentGameState g = GameState.Won)
                 then MkGameSums (int_wrap (totalGamesWon st.1 + 1)) (totalGamesTied st.1)
                 else MkGameSums (totalGamesWon st.1) (int_wrap (totalGamesTied st.1 + 1)),
                 st.2 ++ [gameLine g]))
             games (PrintResults_game games) (λ _ _, eq_refl)
             games [] []) by (by rewrite app_nil_r).
  change (MkGameSums 0 0) with (MkGameSums (int_wrap 0) (int_wrap 0)).
  rewrite fold_games. cbn [mbind option_bind]. unfold report. f_equal.
  cbn [totalPlayerWins totalPlayerLoses totalPlayerTies totalGamesWon totalGamesTied].
  rewrite !Z.add_0_l. by rewrite <- !app_assoc.
Qed.

(** ** The critical sections of a game *)

Lemma JoinGame_turn_outcome (p : Player) (g : Game) (rnd : Z) :
  myRand_range rnd = true →
  ∃ c, JoinGame_turn p g rnd = Some c ∧ TurnOutcome p g c.
Proof.
  intros Hrnd. unfold JoinGame_turn, PlayGame_loop.
  destruct (decide (currentGameState g = GameState.StillPlaying)) as [Hst|Hst].
  - unfold PlayGame_turn.
    destruct (decide (currentTurn g ≠ type p)) as [Hturn|Hturn].
    + eexists. split; [reflexivity|]. by constructor.
    + assert (currentTurn g = type p) as Hturn'.
      { destruct (decide (currentTurn g = type p)); [done|tauto]. }
      destruct (MakeAMove_in_range p (flipTurn p g) rnd Hrnd) as (r & Hr & Hspec).
      rewrite Hr. cbn [mbind option_bind].
      destruct Hspec as [Hfull | row col b won Hrow Hcol Hcell Hset Hwon].
      * exists (MkCritSec (drew_game p)
                  (moved p g (gameBoard g) GameState.Draw) Returned
                  [CountedDrawMoving (gameNumber g) (id p);
                   NotifiedAll (gameNumber g) (id p)]).
        split; [by destruct g|]. by apply Outcome_full.
      * destruct won.
        -- exists (MkCritSec (won_game p) (moved p g b GameState.Won) Returned
                     [Placed (gameNumber g) (id p) (type p) row col;
                      CountedWin (gameNumber g) (id p);
                      NotifiedAll (gameNumber g) (id p)]).
           split; [reflexivity|]. by eapply Outcome_won.
        -- exists (MkCritSec p (moved p g b GameState.StillPlaying) WaitTurn
                     [Placed (gameNumber g) (id p) (type p) row col;
                      NotifiedAll (gameNumber g) (id p)]).
           split; [reflexivity|]. by eapply Outcome_still.
  - eexists. split; [reflexivity|]. unfold PlayGame_over.
    destruct (decide (currentGameState g = GameState.Won)) as [Hw|Hw].
    + by apply Outcome_lost.
    + destruct (decide (currentGameState g = GameState.Draw)) as [Hd|Hd].
      * by apply Outcome_tied.
      * by destruct (currentGameState g).
Qed.

Lemma JoinGame_turn_is (p : Player) (g : Game) (rnd : Z) (c : CritSec) :
  myRand_range rnd = true → JoinGame_turn p g rnd = Some c → TurnOutcome p g c.
Proof.
  intros Hrnd Hc. destruct (JoinGame_turn_outcome p g rnd Hrnd) as (c' & Hc' & H).
  congruence.
Qed.

Lemma JoinGame_partner_spec (p : Player) (g : Game) (rnd : Z) (c : CritSec) :
  myRand_range rnd = true → playerO g ≠ -1 →
  JoinGame_partner p g rnd = Some c →
  (playerX g = -1 ∧ c = MkCritSec p g WaitPartner []) ∨
  (playerX g ≠ -1 ∧ TurnOutcome p g c).
Proof.
  intros Hrnd HO Hc.
  destruct (decide (playerX g = -1)) as [HX|HX].
  - left. split; [done|]. unfold JoinGame_partner in Hc.
    rewrite decide_False in Hc by tauto. congruence.
  - right. split; [done|]. rewrite JoinGame_partner_turn in Hc by done.
    by eapply JoinGame_turn_is.
Qed.

Lemma prepend_nil (c : CritSec) : prepend [] c = c.
Proof. by destruct c. Qed.

Lemma enters_spec (w : Worker) (g : Game) (i : nat) (rnd : Z) (c : CritSec) :
  myRand_range rnd = true → id (me w) ≠ -1 →
  (pc w = AtWaitPartner i true → playerO g ≠ -1) →
  (pc w = AtWaitTurn i true → playerO g ≠ -1 ∧ playerX g ≠ -1) →
  enters w g i rnd c → SectionSpec (me w) g i (pc w) c.
Proof.
  intros Hrnd Hid Hpartner Hturn [[Hpc Hc] | [[Hpc Hc] | [Hpc Hc]]]; rewrite Hpc.
  - destruct (decide (playerO g = -1)) as [HO|HO].
    + destruct (decide (playerX g = -1)) as [HX|HX].
      * rewrite JoinGame_first in Hc by done. apply some_eq in Hc as <-.
        eapply Section_wait; [by apply Entry_O|done..].
      * unfold JoinGame in Hc. rewrite decide_True in Hc by done.
        destruct (JoinGame_partner (set_type PlayerType.O (me w))
                    (set_playerO (id (me w)) g) rnd) as [c0|] eqn:Hc0; [|done].
        apply some_eq in Hc as <-.
        apply JoinGame_partner_spec in Hc0 as [[? _] | [_ H]]; [done| |done..].
        eapply Section_play; [by apply Entry_O|exact H|done..].
    + rewrite JoinGame_second in Hc by done.
      destruct (JoinGame_turn _ _ rnd) as [c0|] eqn:Hc0; [|done].
      apply some_eq in Hc as <-.
      eapply Section_play; [by apply Entry_X|by eapply JoinGame_turn_is|done..].
  - pose proof (Hpartner Hpc) as HO.
    apply JoinGame_partner_spec in Hc as [[HX ->] | [HX H]]; [| |done..].
    + eapply Section_wait; [apply Entry_partner|done..].
    + eapply Section_play; [apply Entry_partner|exact H|done..|].
      by rewrite prepend_nil.
  - destruct (Hturn Hpc) as [HO HX].
    eapply Section_play; [apply Entry_turn|by eapply JoinGame_turn_is|done..|].
    by rewrite prepend_nil.
Qed.

Lemma step_kinds (s : Sys) (e : Event) (s' : Sys) (a : list Action) :
  in_round e → step s e = Some (s', a) →
  alive s = true ∧ StepKind (is_spurious e) s s' a.
Proof.
  intros He Hstep. unfold step in Hstep.
  destruct (alive s) eqn:Halive; [|done]. split; [done|].
  destruct e as [t rnd|t| |answer]; [| | |done].
  - destruct (myRand_range rnd) eqn:Hrnd; [|done]. unfold thread_step in Hstep.
    destruct (workers s !! t) as [w|] eqn:Ht; [|done]. cbn [mbind option_bind] in Hstep.
    destruct (pc w) as [| |i|i|i [|]|i [|]|] eqn:Hpc; try done.
    + injection Hstep as <- <-.
      eapply Step_walk; [exact Ht| | |done..]; rewrite Hpc; [by left|done].
    + destruct (gunFlag (poolOfPlayers s)) eqn:Hgun; [|done].
      injection Hstep as <- <-.
      eapply Step_walk; [exact Ht| | |done..]; rewrite Hpc; [right; by left|done].
    + destruct (decide (Z.of_nat i < totalGameCount (poolOfGames s))) as [Hi|Hi].
      * destruct (games s !! i) as [g|] eqn:Hg; [|done].
        cbn [mbind option_bind] in Hstep.
        destruct (TryToPlayEachGame_claim g) as [ok g'] eqn:Hclaim.
        injection Hstep as <- <-.
        eapply (Step_claim _ _ _ _ t w i g); try done; by rewrite Hclaim.
      * injection Hstep as <- <-.
        eapply Step_walk; [exact Ht| | |done..]; rewrite Hpc; [|done].
        right. right. left. by exists i.
    + destruct (games s !! i) as [g|] eqn:Hg; [|done].
      cbn [mbind option_bind] in Hstep.
      destruct (JoinGame (me w) g rnd) as [c|] eqn:Hc; [|done].
      apply (some_eq (commit s t i w c)) in Hstep.
      destruct (commit_fields s t i w c) as (Ews & Egs & Etot & Eacts).
      rewrite Hstep in Ews, Egs, Etot, Eacts. cbn [fst snd] in Ews, Egs, Etot, Eacts.
      eapply (Step_section _ _ _ _ t w i g rnd c); try done.
      * left. by rewrite Hpc.
      * unfold commit in Hstep. injection Hstep as <- _.
        destruct (decide (sec_exit c = Exit1)); done.
    + destruct (games s !! i) as [g|] eqn:Hg; [|done].
      cbn [mbind option_bind] in Hstep.
      destruct (JoinGame_partner (me w) g rnd) as [c|] eqn:Hc; [|done].
      apply (some_eq (commit s t i w c)) in Hstep.
      destruct (commit_fields s t i w c) as (Ews & Egs & Etot & Eacts).
      rewrite Hstep in Ews, Egs, Etot, Eacts. cbn [fst snd] in Ews, Egs, Etot, Eacts.
      eapply (Step_section _ _ _ _ t w i g rnd c); try done.
      * right. left. by rewrite Hpc.
      * unfold commit in Hstep. injection Hstep as <- _.
        destruct (decide (sec_exit c = Exit1)); done.
    + destruct (games s !! i) as [g|] eqn:Hg; [|done].
      cbn [mbind option_bind] in Hstep.
      destruct (JoinGame_turn (me w) g rnd) as [c|] eqn:Hc; [|done].
      apply (some_eq (commit s t i w c)) in Hstep.
      destruct (commit_fields s t i w c) as (Ews & Egs & Etot & Eacts).
      rewrite Hstep in Ews, Egs, Etot, Eacts. cbn [fst snd] in Ews, Egs, Etot, Eacts.
      eapply (Step_section _ _ _ _ t w i g rnd c); try done.
      * right. right. by rewrite Hpc.
      * unfold commit in Hstep. injection Hstep as <- _.
        destruct (decide (sec_exit c = Exit1)); done.
  - unfold spurious_step in Hstep.
    destruct (workers s !! t) as [w|] eqn:Ht; [|done]. cbn [mbind option_bind] in Hstep.
    destruct (pc w) as [| |i|i|i [|]|i [|]|] eqn:Hpc; try done;
      injection Hstep as <- <-;
      (eapply Step_walk; [exact Ht| |done|done..]); rewrite Hpc.
    + right. right. right. left. by exists i.
    + right. right. right. right. by exists i.
  - destruct (decide (mainAt s = AwaitRegistered)) as [Hm|]; [|done].
    unfold main_step in Hstep. rewrite Hm in Hstep.
    destruct (decide _); [|done]. injection Hstep as <- <-.
    by apply Step_fire.
Qed.

(** ** Steps of a round that keep [round_inv] *)

Lemma section_spec N G s acts t w i g rnd c :
  round_inv N G s acts →
  workers s !! t = Some w → games s !! i = Some g →
  myRand_range rnd = true → enters w g i rnd c →
  SectionSpec (me w) g i (pc w) c ∧
  (t < N)%nat ∧ (i < G)%nat ∧ id (me w) = tid t ∧ gameNumber g = gn_of i.
Proof.
  intros (Hwf & _ & Hphase) Ht Hg Hrnd Hent.
  destruct Hwf as (Hlen & Htot & Hwlen & Hnum & Hwk).
  destruct (Hwk t w Ht) as [Hid Hloc].
  assert (i < G)%nat as Hi by (apply lookup_lt_Some in Hg; lia).
  assert (t < N)%nat as HtN by (apply lookup_lt_Some in Ht; lia).
  split; [|by auto].
  destruct (Hphase i Hi) as (ph & Htr & g0 & Hg0 & Hok).
  assert (g0 = g) as -> by congruence.
  apply enters_spec with (rnd := rnd); try done.
  - rewrite Hid. apply tid_ne.
  - intros Hpc.
    assert (inside i (pc w)) as Hin by (by rewrite Hpc).
    destruct ph as [|a|a b x y|a b m o how|a b m o how]; cbn [slot_ok] in Hok.
    + destruct Hok as (_ & _ & _ & _ & _ & _ & Hno).
      by apply (Hno t w Ht), elem_of_nil in Hin.
    + destruct Hok as (-> & _). apply tid_ne.
    + destruct Hok as (-> & _). apply tid_ne.
    + destruct Hok as (-> & _). apply tid_ne.
    + destruct Hok as (_ & _ & _ & _ & _ & _ & Hno).
      by apply (Hno t w Ht), elem_of_nil in Hin.
  - intros Hpc.
    assert (inside i (pc w)) as Hin by (by rewrite Hpc).
    destruct ph as [|a|a b x y|a b m o how|a b m o how]; cbn [slot_ok] in Hok.
    + destruct Hok as (_ & _ & _ & _ & _ & _ & Hno).
      by apply (Hno t w Ht), elem_of_nil in Hin.
    + destruct Hok as (_ & _ & _ & _ & _ & _ & Hno & wa & n & Hwa & Hpa & _).
      pose proof (Hno t w Ht Hin) as Hta. apply elem_one in Hta as ->.
      congruence.
    + destruct Hok as (-> & -> & _). split; apply tid_ne.
    + destruct Hok as (-> & -> & _). split; apply tid_ne.
    + destruct Hok as (_ & _ & _ & _ & _ & _ & Hno).
      by apply (Hno t w Ht), elem_of_nil in Hin.
Qed.

Lemma Entry_facts p g i l p0 g0 pre :
  Entry p g i l p0 g0 pre →
  id p0 = id p ∧ gamesPlayed p0 = gamesPlayed p ∧ winCount p0 = winCount p ∧
  loseCount p0 = loseCount p ∧ drawCount p0 = drawCount p ∧
  gameNumber g0 = gameNumber g ∧ playerCount g0 = playerCount g ∧
  currentGameState g0 = currentGameState g ∧ currentTurn g0 = currentTurn g ∧
  gameBoard g0 = gameBoard g ∧
  Forall (λ a, action_player a = id p ∧ action_game a = gameNumber g) pre ∧
  marks (gameNumber g) pre = [] ∧ tallies (gameNumber g) pre = [] ∧
  (l = AtJoin i ∨ l = AtWaitPartner i true ∨ l = AtWaitTurn i true).
Proof.
  destruct 1; cbn; repeat split; auto; repeat constructor.
Qed.

Lemma TurnOutcome_facts p g c :
  TurnOutcome p g c →
  id (sec_player c) = id p ∧ type (sec_player c) = type p ∧
  gamesPlayed (sec_player c) - winCount (sec_player c) - loseCount (sec_player c)
    - drawCount (sec_player c) =
  gamesPlayed p - winCount p - loseCount p - drawCount p ∧
  gameNumber (sec_game c) = gameNumber g ∧ playerCount (sec_game c) = playerCount g ∧
  playerX (sec_game c) = playerX g ∧ playerO (sec_game c) = playerO g ∧
  Forall (λ a, action_player a = id p ∧ action_game a = gameNumber g) (sec_actions c) ∧
  sec_exit c ≠ WaitPartner.
Proof.
  destruct 1; cbn; repeat split; auto; try lia; try done; repeat constructor; done.
Qed.

Lemma SectionSpec_facts p g i l c :
  SectionSpec p g i l c →
  id (sec_player c) = id p ∧
  gamesPlayed (sec_player c) - winCount (sec_player c) - loseCount (sec_player c)
    - drawCount (sec_player c) =
  gamesPlayed p - winCount p - loseCount p - drawCount p ∧
  gameNumber (sec_game c) = gameNumber g ∧ playerCount (sec_game c) = playerCount g ∧
  Forall (λ a, action_player a = id p ∧ action_game a = gameNumber g) (sec_actions c) ∧
  (l = AtJoin i ∨ l = AtWaitPartner i true ∨ l = AtWaitTurn i true).
Proof.
  intros [p0 g0 pre He HX -> | p0 g0 pre c0 He Hc0 HX HO ->];
    destruct (Entry_facts _ _ _ _ _ _ _ He)
      as (E1 & E2 & E3 & E4 & E5 & E6 & E7 & _ & _ & _ & E8 & _ & _ & E9).
  - cbn. repeat split; auto; lia.
  - destruct (TurnOutcome_facts _ _ _ Hc0) as (T1 & _ & T2 & T3 & T4 & _ & _ & T5 & _).
    cbn. repeat split; try congruence; try lia; auto.
    apply Forall_app. split; [done|].
    eapply Forall_impl; [exact T5|]. cbn. intros a [? ?]. split; congruence.
Qed.

(** ** The actions of a round *)

Lemma exec_actions N G flag acts s :
  exec (round_start N G flag) acts s → Forall (in_pools N G) acts.
Proof.
  induction 1 as [|acts s e s' a Hexec IH He Hstep]; [constructor|].
  apply Forall_app. split; [done|].
  pose proof (exec_inv _ _ _ _ _ Hexec) as Hinv.
  destruct (step_kinds _ _ _ _ He Hstep) as [_ Hk].
  destruct Hk as [t w l Ht Hwalk Hq Hws Hgs Hal ->
                 |t w i g Ht Hpc Hg Hws Hgs Htot Hal ->
                 |t w i g rnd c Ht Hg Hrnd Hent Hws Hgs Htot Hal ->
                 |Hws Hgs Hal ->]; try constructor.
  destruct (section_spec _ _ _ _ _ _ _ _ _ _ Hinv Ht Hg Hrnd Hent)
    as (Hsec & HtN & Hi & Hid & Hgn).
  destruct (SectionSpec_facts _ _ _ _ _ Hsec) as (_ & _ & _ & _ & Hall & _).
  eapply Forall_impl; [exact Hall|]. cbn. intros a [Hp Hgm]. split.
  - exists t. split; [done|congruence].
  - exists i. split; [done|congruence].
Qed.

(** ** The counter of the games played *)

Lemma step_played N G spur s acts s' a :
  round_inv N G s acts → StepKind spur s s' a → played_inv s → played_inv s'.
Proof.
  intros Hinv Hk Hp t' w' Hw'.
  destruct Hk as [t w l Ht Hwalk Hq Hws Hgs Hal ->
                 |t w i g Ht Hpc Hg Hws Hgs Htot Hal ->
                 |t w i g rnd c Ht Hg Hrnd Hent Hws Hgs Htot Hal ->
                 |Hws Hgs Hal ->].
  - rewrite Hws in Hw'. destruct (decide (t' = t)) as [->|Hne].
    + rewrite list_lookup_insert_eq in Hw' by (by eapply lookup_lt_Some).
      injection Hw' as <-. cbn. by apply (Hp t).
    + rewrite list_lookup_insert_ne in Hw' by done. by apply (Hp t').
  - rewrite Hws in Hw'. destruct (decide (t' = t)) as [->|Hne].
    + rewrite list_lookup_insert_eq in Hw' by (by eapply lookup_lt_Some).
      injection Hw' as <-. cbn. by apply (Hp t).
    + rewrite list_lookup_insert_ne in Hw' by done. by apply (Hp t').
  - rewrite Hws in Hw'.
    destruct (after_step_inv _ _ _ _ _ _ _ _ Ht Hw') as [[-> ->] | (Hne & w0 & Hw0 & ->)].
    + cbn [me].
      destruct (section_spec _ _ _ _ _ _ _ _ _ _ Hinv Ht Hg Hrnd Hent) as (Hsec & _).
      destruct (SectionSpec_facts _ _ _ _ _ Hsec) as (_ & Hd & _).
      pose proof (Hp t w Ht). lia.
    + rewrite me_wake_if. by apply (Hp t').
  - rewrite Hws in Hw'. by apply (Hp t').
Qed.

Lemma exec_played N G flag acts s :
  exec (round_start N G flag) acts s → played_inv s.
Proof.
  induction 1 as [|acts s e s' a Hexec IH He Hstep].
  - intros t w Hw. apply round_start_workers in Hw as ->. done.
  - destruct (step_kinds _ _ _ _ He Hstep) as [_ Hk].
    eapply step_played; [by eapply exec_inv|exact Hk|exact IH].
Qed.

(** ** The slots behind a thread *)

Lemma passed_wake_if b i w j : passed (pc (wake_if b i w)) j ↔ passed (pc w) j.
Proof.
  rewrite pc_wake_if. destruct b; [|done].
  destruct (pc w); cbn; try done; case_decide; done.
Qed.

Lemma passed_next_loc i w c j :
  pc w = AtJoin i ∨ pc w = AtWaitPartner i true ∨ pc w = AtWaitTurn i true →
  passed (next_loc i w c) j → passed (pc w) j.
Proof.
  intros Hpc. unfold next_loc.
  destruct (sec_exit c); [| | |done];
    destruct Hpc as [-> | [-> | ->]]; cbn; lia.
Qed.

Lemma step_scan_inv N G spur s acts s' a :
  round_inv N G s acts → StepKind spur s s' a → scan_inv s → scan_inv s'.
Proof.
  intros Hinv Hk Hs t' w' j g' Hw' Hg' Hpass.
  pose proof Hinv as (Hwf & _ & Hphase).
  destruct Hwf as (Hlen & Htot & Hwlen & Hnum & Hwk).
  destruct Hk as [t w l Ht Hwalk Hq Hws Hgs Hal ->
                 |t w i g Ht Hpc Hg Hws Hgs Htot' Hal ->
                 |t w i g rnd c Ht Hg Hrnd Hent Hws Hgs Htot' Hal ->
                 |Hws Hgs Hal ->].
  - unfold games in *. rewrite Hgs in Hg'. rewrite Hws in Hw'.
    destruct (decide (t' = t)) as [->|Hne].
    + rewrite list_lookup_insert_eq in Hw' by (by eapply lookup_lt_Some).
      injection Hw' as <-. cbn [pc] in Hpass.
      apply (Hs t w j g' Ht Hg').
      destruct Hwalk as [[E ->] | [(E & -> & _) | [(i & E & -> & Hi) |
                        [(i & E & ->) | (i & E & ->)]]]]; rewrite E; cbn in *;
        try done; try lia.
      apply lookup_lt_Some in Hg'. lia.
    + rewrite list_lookup_insert_ne in Hw' by done. by apply (Hs t' w' j g').
  - assert (0 ≤ playerCount g ≤ 2) as Hrange.
    { assert (i < G)%nat as Hi by (apply lookup_lt_Some in Hg; lia).
      destruct (Hphase i Hi) as (ph & _ & g0 & Hg0 & Hok).
      assert (g0 = g) as -> by congruence. by eapply slot_ok_count. }
    assert (playerCount g ≤ playerCount (TryToPlayEachGame_claim g).2 ∧
            0 < playerCount (TryToPlayEachGame_claim g).2) as (Hmono & Hpos).
    { unfold TryToPlayEachGame_claim. case_decide; cbn; lia. }
    rewrite Hgs in Hg'. destruct (decide (j = i)) as [->|Hji].
    + rewrite list_lookup_insert_eq in Hg' by (by eapply lookup_lt_Some).
      by injection Hg' as <-.
    + rewrite list_lookup_insert_ne in Hg' by done.
      rewrite Hws in Hw'. destruct (decide (t' = t)) as [->|Hne].
      * rewrite list_lookup_insert_eq in Hw' by (by eapply lookup_lt_Some).
        injection Hw' as <-. cbn [pc] in Hpass.
        apply (Hs t w j g' Ht Hg'). rewrite Hpc. cbn.
        destruct (TryToPlayEachGame_claim g).1; cbn in Hpass; lia.
      * rewrite list_lookup_insert_ne in Hw' by done. by apply (Hs t' w' j g').
  - destruct (section_spec _ _ _ _ _ _ _ _ _ _ Hinv Ht Hg Hrnd Hent) as (Hsec & _).
    destruct (SectionSpec_facts _ _ _ _ _ Hsec) as (_ & _ & _ & Hcount & _ & Hpc).
    assert (∃ w0, workers s !! t' = Some w0 ∧ passed (pc w0) j) as (w0 & Hw0 & Hp0).
    { rewrite Hws in Hw'.
      destruct (after_step_inv _ _ _ _ _ _ _ _ Ht Hw')
        as [[-> ->] | (Hne & w0 & Hw0 & ->)].
      - exists w. split; [done|]. by eapply passed_next_loc.
      - exists w0. split; [done|]. by apply passed_wake_if in Hpass. }
    rewrite Hgs in Hg'. destruct (decide (j = i)) as [->|Hji].
    + rewrite list_lookup_insert_eq in Hg' by (by eapply lookup_lt_Some).
      injection Hg' as <-. rewrite Hcount. by apply (Hs t' w0 i g).
    + rewrite list_lookup_insert_ne in Hg' by done. by apply (Hs t' w0 j g').
  - unfold games in *. rewrite Hgs in Hg'. rewrite Hws in Hw'.
    by apply (Hs t' w' j g').
Qed.

Lemma exec_scan_inv N G flag acts s :
  exec (round_start N G flag) acts s → scan_inv s.
Proof.
  induction 1 as [|acts s e s' a Hexec IH He Hstep].
  - intros t w i g Hw _ Hp. apply round_start_workers in Hw as ->. done.
  - destruct (step_kinds _ _ _ _ He Hstep) as [_ Hk].
    eapply step_scan_inv; [by eapply exec_inv|exact Hk|exact IH].
Qed.

(** When every thread has returned, every slot is complete. *)
Lemma all_completed N G flag acts s i :
  (0 < N)%nat → (i < G)%nat →
  exec (round_start N G flag) acts s →
  (∀ t w, workers s !! t = Some w → pc w = Finished) →
  completed s i.
Proof.
  intros HN Hi Hexec Hfin.
  pose proof (exec_inv _ _ _ _ _ Hexec) as Hinv.
  pose proof (exec_scan_inv _ _ _ _ _ Hexec) as Hscan.
  pose proof Hinv as (Hwf & _ & Hphase).
  destruct Hwf as (Hlen & Htot & Hwlen & Hnum & Hwk).
  destruct (Hphase i Hi) as (ph & Htr & g & Hg & Hok).
  destruct (workers s !! 0%nat) as [w0|] eqn:Hw0;
    [|apply lookup_ge_None in Hw0; lia].
  assert (0 < playerCount g) as Hpos.
  { apply (Hscan 0%nat w0 i g Hw0 Hg). by rewrite (Hfin _ _ Hw0). }
  assert (∀ t w, workers s !! t = Some w → pc w ≠ AtJoin i ∧ ¬ inside i (pc w)) as Hout.
  { intros t w Hw. rewrite (Hfin _ _ Hw). cbn. split; [congruence|tauto]. }
  exists g. split; [done|]. split; [|done].
  destruct ph as [|a|a b x y|a b m o how|a b m o how]; cbn [slot_ok] in Hok.
  - destruct Hok as (_ & _ & _ & _ & Hc & _).
    rewrite joining_none in Hc by (intros t w Hw; apply (Hout t w Hw)). lia.
  - destruct Hok as (_ & _ & _ & _ & _ & _ & _ & wa & n & Hwa & Hpa & _).
    rewrite (Hfin _ _ Hwa) in Hpa. done.
  - by destruct Hok as (_ & _ & _ & _ & _ & _ & _ & Hc & _).
  - by destruct Hok as (_ & _ & _ & _ & _ & _ & Hc & _).
  - by destruct Hok as (_ & _ & _ & _ & Hc & _).
Qed.

(** ** Counting the results of a round *)

Lemma times_cons f a acts :
  times f (a :: acts) = (if f a then 1 else 0) + times f acts.
Proof. unfold times. cbn [List.filter]. destruct (f a); cbn [length]; lia. Qed.

Lemma times_ext f f' acts : (∀ a, f a = f' a) → times f acts = times f' acts.
Proof.
  intros H. induction acts as [|a acts IH]; [done|].
  by rewrite !times_cons, H, IH.
Qed.

Lemma total_ext {A} (f f' : A → Z) (l : list A) :
  (∀ x, x ∈ l → f x = f' x) → total f l = total f' l.
Proof.
  induction l as [|x l IH]; intros H; [done|].
  rewrite !total_cons, H, IH; [done| |left]. intros y Hy. apply H. by right.
Qed.

Lemma total_add {A} (f f' : A → Z) (l : list A) :
  total (λ x, f x + f' x) l = total f l + total f' l.
Proof. induction l as [|x l IH]; [done|]. rewrite !total_cons, IH. lia. Qed.

Lemma total_zero {A} (l : list A) : total (λ _, 0) l = 0.
Proof. induction l as [|x l IH]; [done|]. by rewrite total_cons, IH. Qed.

(** Exactly one index below [n] is [k]. *)
Lemma total_one (idx : nat → Z) (n k : nat) :
  (∀ i j, idx i = idx j → i = j) → (k < n)%nat →
  total (λ i, if bool_decide (idx k = idx i) then 1 else 0) (seq 0 n) = 1.
Proof.
  intros Hinj. induction n as [|n IH]; intros Hk; [lia|].
  rewrite seq_S, total_app. cbn [Nat.add]. rewrite total_cons. cbn [total foldr].
  destruct (decide (k = n)) as [->|Hne].
  - rewrite bool_decide_eq_true_2 by done.
    rewrite (total_ext _ (λ _, 0)), total_zero; [lia|].
    intros i Hi. apply elem_of_seq in Hi.
    rewrite bool_decide_eq_false_2; [done|]. intros E. apply Hinj in E. lia.
  - rewrite IH by lia. rewrite bool_decide_eq_false_2; [lia|].
    intros E. by apply Hinj in E.
Qed.

(** The actions of a kind, counted key by key. *)
Lemma count_by_key (f : Action → bool) (key : Action → Z) (idx : nat → Z)
  (n : nat) (acts : list Action) :
  (∀ i j, idx i = idx j → i = j) →
  Forall (λ a, ∃ k, (k < n)%nat ∧ key a = idx k) acts →
  total (λ k, times (with_key f key (idx k)) acts) (seq 0 n) = times f acts.
Proof.
  intros Hinj Hall. induction Hall as [|a acts (k & Hk & Hkey) _ IH].
  - unfold times. cbn. apply total_zero.
  - rewrite times_cons, <- IH.
    rewrite (total_ext _ (λ i, (if with_key f key (idx i) a then 1 else 0)
                               + times (with_key f key (idx i)) acts))
      by (intros; apply times_cons).
    rewrite total_add. f_equal. unfold with_key. rewrite Hkey.
    destruct (f a).
    + rewrite (total_ext _ (λ i, if bool_decide (idx k = idx i) then 1 else 0));
        [by apply total_one|done].
    + rewrite (total_ext _ (λ _, 0)); [apply total_zero|done].
Qed.

Lemma is_win_key pid a : is_win pid a = with_key is_a_win action_player pid a.
Proof. by destruct a. Qed.
Lemma is_loss_key pid a : is_loss pid a = with_key is_a_loss action_player pid a.
Proof. by destruct a. Qed.
Lemma is_draw_key pid a : is_draw pid a = with_key is_a_draw action_player pid a.
Proof. by destruct a. Qed.

(** The sum of a counter over the threads. *)
Lemma total_workers (f : Player → Z) (h : nat → Z) (ws : list Worker) :
  (∀ t w, ws !! t = Some w → f (me w) = h t) →
  total f (me <$> ws) = total h (seq 0 (length ws)).
Proof.
  induction ws as [|w ws IH] using rev_ind; intros H; [done|].
  rewrite fmap_app, length_app, Nat.add_comm. cbn [length fmap list_fmap Nat.add].
  rewrite seq_S, !total_app, !total_cons. cbn [total foldr Nat.add].
  rewrite IH.
  - rewrite (H (length ws) w); [done|]. by rewrite list_lookup_middle.
  - intros t w' Hw'. apply H. by rewrite lookup_app_l by (by eapply lookup_lt_Some).
Qed.

Lemma total_games (f : Game → Z) (h : nat → Z) (gs : list Game) :
  (∀ i g, gs !! i = Some g → f g = h i) →
  total f gs = total h (seq 0 (length gs)).
Proof.
  induction gs as [|g gs IH] using rev_ind; intros H; [done|].
  rewrite length_app, Nat.add_comm. cbn [length Nat.add].
  rewrite seq_S, !total_app, !total_cons. cbn [total foldr Nat.add].
  rewrite IH.
  - rewrite (H (length gs) g); [done|]. by rewrite list_lookup_middle.
  - intros t w' Hw'. apply H. by rewrite lookup_app_l by (by eapply lookup_lt_Some).
Qed.

Lemma in_state_total st gs :
  in_state st gs = total (λ g, if decide (currentGameState g = st) then 1 else 0) gs.
Proof.
  induction gs as [|g gs IH]; [done|]. by rewrite in_state_cons, total_cons, IH.
Qed.

(** The results counted in one game are those with its number. *)
Lemma times_tallies f gn acts :
  (∀ a, f a = true → tally_of (action_game a) a = Some a) →
  times f (tallies gn acts) = times (with_key f action_game gn) acts.
Proof.
  intros Hf. induction acts as [|a acts IH]; [done|].
  rewrite times_cons, <- IH. unfold tallies, with_key. cbn [omap list_omap].
  fold (omap (tally_of gn) acts).
  destruct (f a) eqn:Hfa.
  - specialize (Hf a Hfa). cbn [andb].
    destruct (decide (action_game a = gn)) as [<-|Hne].
    + rewrite Hf, bool_decide_eq_true_2 by done. by rewrite times_cons, Hfa.
    + rewrite bool_decide_eq_false_2 by done.
      assert (tally_of gn a = None) as ->; [|lia].
      destruct a; cbn in *; try done; rewrite decide_False; done.
  - cbn [andb]. destruct (tally_of gn a) as [a'|] eqn:Ha; [|lia].
    assert (a' = a) as ->.
    { destruct a; cbn in Ha; try done; case_decide; congruence. }
    rewrite times_cons, Hfa. lia.
Qed.

Lemma tally_counts how gn m o :
  how ≠ GameState.StillPlaying →
  times is_a_win [first_tally how gn m; second_tally how gn o] =
    (if decide (how = GameState.Won) then 1 else 0) ∧
  times is_a_loss [first_tally how gn m; second_tally how gn o] =
    (if decide (how = GameState.Won) then 1 else 0) ∧
  times is_a_draw [first_tally how gn m; second_tally how gn o] =
    (if decide (how = GameState.Won) then 0 else 2).
Proof. by destruct how. Qed.

Lemma total_not_won gs :
  total (λ g, if decide (currentGameState g = GameState.Won) then 0 else 2) gs =
  2 * (Z.of_nat (length gs) - in_state GameState.Won gs).
Proof.
  induction gs as [|g gs IH]; [done|].
  rewrite total_cons, in_state_cons, IH. cbn [length]. case_decide; lia.
Qed.

(** When [main] passes its second wait every thread has returned. *)
Lemma end_of_round N G flag acts s answer s' a :
  exec (round_start N G flag) acts s →
  step s (EndRound answer) = Some (s', a) →
  ∀ t w, workers s !! t = Some w → pc w = Finished.
Proof.
  intros Hexec Hstep. unfold step in Hstep.
  destruct (alive s); [|done].
  destruct (decide (mainAt s = AwaitFinished)) as [Hm|]; [|done].
  unfold main_step in Hstep. rewrite Hm in Hstep.
  destruct (decide (totalPlayerCount (poolOfPlayers s) = 0)) as [Hc|]; [|done].
  by eapply all_returned.
Qed.

(** The sums of the counters when every slot is complete. *)
Lemma sums_of_round N G flag acts s :
  exec (round_start N G flag) acts s →
  (∀ i, (i < G)%nat → completed s i) →
  let won := in_state GameState.Won (games s) in
  total winCount (me <$> workers s) = won ∧
  total loseCount (me <$> workers s) = won ∧
  total drawCount (me <$> workers s) = 2 * (Z.of_nat G - won) ∧
  ∀ i g, games s !! i = Some g →
    currentGameState g = GameState.Won ∨ currentGameState g = GameState.Draw.
Proof.
  intros Hexec Hall won.
  pose proof (exec_inv _ _ _ _ _ Hexec) as Hinv.
  pose proof (exec_actions _ _ _ _ _ Hexec) as Hacts.
  pose proof Hinv as (Hwf & Hcount & _).
  destruct Hwf as (Hlen & Htot & Hwlen & Hnum & Hwk).
  assert (Forall (λ a, ∃ k, (k < N)%nat ∧ action_player a = tid k) acts) as Hplayers.
  { eapply Forall_impl; [exact Hacts|]. by intros a [? _]. }
  assert (Forall (λ a, ∃ k, (k < G)%nat ∧ action_game a = gn_of k) acts) as Hgames.
  { eapply Forall_impl; [exact Hacts|]. by intros a [_ ?]. }
  assert (∀ i g, games s !! i = Some g →
            ∃ how m o, currentGameState g = how ∧ how ≠ GameState.StillPlaying ∧
              tallies (gn_of i) acts =
                [first_tally how (gn_of i) m; second_tally how (gn_of i) o]) as Hdone.
  { intros i g Hg.
    assert (i < G)%nat as Hi by (apply lookup_lt_Some in Hg; lia).
    destruct (completed_done _ _ _ _ _ Hinv (Hall i Hi))
      as (g' & a & b & m & o & how & Hg' & (_ & _ & _ & Htal) & Hok).
    assert (g' = g) as -> by congruence.
    cbn [slot_ok] in Hok. destruct Hok as (_ & _ & Hhow & Hst & _).
    by exists how, (tid m), (tid o). }
  assert (∀ f : Action → bool,
            (∀ a, f a = true → tally_of (action_game a) a = Some a) →
            total (λ i, times f (tallies (gn_of i) acts)) (seq 0 G) = times f acts)
    as Hby_game.
  { intros f Hf.
    rewrite (total_ext _ (λ i, times (with_key f action_game (gn_of i)) acts))
      by (intros; by apply times_tallies).
    apply count_by_key; [apply gn_of_inj|done]. }
  assert (∀ (f : Action → bool) (fp : Z → Action → bool) (field : Player → Z),
            (∀ pid a, fp pid a = with_key f action_player pid a) →
            (∀ t w, workers s !! t = Some w → field (me w) = times (fp (tid t)) acts) →
            total field (me <$> workers s) = times f acts) as Hby_player.
  { intros f fp field Hkey Hfield.
    rewrite (total_workers field (λ t, times (fp (tid t)) acts)) by done.
    rewrite Hwlen.
    rewrite (total_ext _ (λ t, times (with_key f action_player (tid t)) acts))
      by (intros; by apply times_ext).
    apply count_by_key; [apply tid_inj|done]. }
  assert (∀ f : Action → bool,
            (∀ a, f a = true → tally_of (action_game a) a = Some a) →
            (∀ how gn m o, how ≠ GameState.StillPlaying →
               times f [first_tally how gn m; second_tally how gn o] =
               (if decide (how = GameState.Won) then 1 else 0)) →
            won = times f acts) as Hwon.
  { intros f Hf Hone. unfold won. rewrite in_state_total.
    rewrite (total_games _ (λ i, times f (tallies (gn_of i) acts))).
    - rewrite Hlen. by apply Hby_game.
    - intros i g Hg. destruct (Hdone i g Hg) as (how & m & o & -> & Hhow & ->).
      by rewrite Hone. }
  split; [|split; [|split]].
  - rewrite (Hwon is_a_win).
    + apply (Hby_player is_a_win is_win); [apply is_win_key|].
      intros t w Hw. by destruct (Hcount t w Hw) as (? & _).
    + intros [] H; try done; cbn; by rewrite decide_True.
    + intros how gn m o Hhow. by destruct (tally_counts how gn m o Hhow) as (-> & _).
  - rewrite (Hwon is_a_loss).
    + apply (Hby_player is_a_loss is_loss); [apply is_loss_key|].
      intros t w Hw. by destruct (Hcount t w Hw) as (_ & ? & _).
    + intros [] H; try done; cbn; by rewrite decide_True.
    + intros how gn m o Hhow.
      by destruct (tally_counts how gn m o Hhow) as (_ & -> & _).
  - rewrite (Hby_player is_a_draw is_draw); [|apply is_draw_key|].
    + rewrite <- Hby_game
        by (intros [] H; try done; cbn; by rewrite decide_True).
      rewrite <- Hlen at 1.
      rewrite <- (total_games
                    (λ g, if decide (currentGameState g = GameState.Won) then 0 else 2)).
      * unfold won. rewrite total_not_won. by rewrite Hlen.
      * intros i g Hg. destruct (Hdone i g Hg) as (how & m & o & -> & Hhow & ->).
        by destruct (tally_counts how (gn_of i) m o Hhow) as (_ & _ & ->).
    + intros t w Hw. by destruct (Hcount t w Hw) as (_ & _ & ?).
  - intros i g Hg. destruct (Hdone i g Hg) as (how & m & o & <- & Hhow & _).
    destruct (currentGameState g); auto. done.
Qed.

Lemma demo_end_exec : exec (round_start 2 1 false) demo_end.2 demo_end.1.
Proof.
  apply (run_exec _ demo_events); [repeat constructor|].
  vm_compute. reflexivity.
Defined.

(** X3: in the first round, with as many players as an [int] holds and so
    few games that twice their number is an [int], when [main] has passed
    its second wait PrintResults reports as many wins as losses, and these
    are the games that were won; the draws of the players, halved, are the
    other games; no game is left unfinished. *)
Theorem results_add_up N G acts s answer s' a :
  (0 < N)%nat → Z.of_nat N ≤ INT_MAX → 2 * Z.of_nat G ≤ INT_MAX →
  exec (round_start N G false) acts s →
  step s (EndRound answer) = Some (s', a) →
  ∃ won drawn,
    main_results s =
      Some ([PlayerHeader] ++ (playerLine <$> (me <$> workers s)) ++
            [PlayerTotals (Z.of_nat N) won won drawn; GameHeader] ++
            (gameLine <$> games s) ++ [GameTotals (Z.of_nat G) won drawn]) ∧
    0 ≤ won ∧ 0 ≤ drawn ∧ won + drawn = Z.of_nat G ∧
    won = in_state GameState.Won (games s) ∧
    drawn = in_state GameState.Draw (games s) ∧
    total gamesPlayed (me <$> workers s) = 2 * Z.of_nat G.
Proof.
  intros HN HNmax HGmax Hexec Hstep.
  pose proof (end_of_round _ _ _ _ _ _ _ _ Hexec Hstep) as Hfin.
  assert (∀ i, (i < G)%nat → completed s i) as Hall.
  { intros i Hi. by eapply all_completed. }
  destruct (sums_of_round _ _ _ _ _ Hexec Hall) as (Hw & Hl & Hd & Hst).
  destruct (exec_inv _ _ _ _ _ Hexec) as ((Hlen & Htot & Hwlen & _) & _).
  destruct (main_inv_exec _ _ _ _ _ Hexec) as [Hpt _].
  pose proof (in_state_bounds GameState.Won (games s)) as Hb.
  assert (in_state GameState.Draw (games s) =
          Z.of_nat G - in_state GameState.Won (games s)) as Hdraw.
  { rewrite <- Hlen. clear -Hst. revert Hst.
    generalize (games s). intros gs. induction gs as [|g gs IH] using rev_ind; intros H.
    - done.
    - assert (∀ st, in_state st (gs ++ [g]) =
                    in_state st gs + (if decide (currentGameState g = st) then 1 else 0))
        as Hsnoc.
      { intros st. rewrite !in_state_total, total_app, total_cons. cbn. lia. }
      rewrite !Hsnoc, length_app, IH.
      + cbn [length].
        destruct (H (length gs) g) as [E|E]; [by rewrite list_lookup_middle|..];
          rewrite E; repeat case_decide; try done; lia.
      + intros i g' Hg'. apply (H i).
        by rewrite lookup_app_l by (by eapply lookup_lt_Some). }
  exists (in_state GameState.Won (games s)), (in_state GameState.Draw (games s)).
  split.
  { unfold main_results. rewrite Hpt, Htot, <- Hlen.
    rewrite <- Hwlen, <- (length_fmap me (workers s)).
    rewrite PrintResults_report. unfold report.
    rewrite Hw, Hl, Hd, Hdraw, Hlen.
    rewrite Hlen in Hb.
    rewrite !int_wrap_id by (unfold INT_MIN, INT_MAX in *; lia).
    replace (2 * (Z.of_nat G - in_state GameState.Won (games s)))
      with ((Z.of_nat G - in_state GameState.Won (games s)) * 2) by lia.
    by rewrite Z.quot_mul by lia. }
  rewrite Hdraw, Hlen in *. repeat split; try lia.
  pose proof (exec_played _ _ _ _ _ Hexec) as Hplayed.
  rewrite (total_ext gamesPlayed (λ p, winCount p + (loseCount p + drawCount p))).
  - rewrite !total_add, Hw, Hl, Hd. lia.
  - intros p Hp. apply list_elem_of_fmap in Hp as (w & -> & Hw').
    apply list_elem_of_lookup in Hw' as [t Ht].
    rewrite (Hplayed t w Ht). lia.
Qed.

(** The witness: the report of the sample round, which player 1 wins. *)
Lemma results_add_up_witness :
  (0 < 2)%nat ∧ 2 * Z.of_nat 1 ≤ INT_MAX ∧
  exec (round_start 2 1 false) demo_end.2 demo_end.1 ∧
  main_results demo_end.1 =
    Some [PlayerHeader; PlayerResult 0 1 0 1 0; PlayerResult 1 1 1 0 0;
          PlayerTotals 2 1 1 0; GameHeader; GameResult 1 1 0 "Won";
          GameTotals 1 1 0].
Proof.
  split; [lia|]. split; [vm_compute; discriminate|]. split; [exact demo_end_exec|].
  destruct (results_add_up 2 1 _ _ false (main_replay false demo_end.1) []
              ltac:(lia) ltac:(vm_compute; discriminate)
              ltac:(vm_compute; discriminate) demo_end_exec eq_refl)
    as (won & drawn & H & _ & _ & _ & -> & -> & _).
  exact H.
Defined.

(** ** The boards of a round *)

Lemma filter_same {A} (P P' : A → bool) (l : list A) :
  (∀ x, x ∈ l → P' x = P x) → List.filter P' l = List.filter P l.
Proof.
  induction l as [|x l IH]; intros H; [done|]. cbn [List.filter].
  rewrite H by left. rewrite IH; [done|]. intros y Hy. apply H. by right.
Qed.

Lemma filter_flip {A} (P P' : A → bool) (l : list A) (k : A) :
  NoDup l → k ∈ l → P k = false → P' k = true →
  (∀ x, x ∈ l → x ≠ k → P' x = P x) →
  length (List.filter P' l) = S (length (List.filter P l)).
Proof.
  intros Hnd Hk HP HP' Hsame. induction l as [|x l IH]; [by apply elem_of_nil in Hk|].
  apply NoDup_cons in Hnd as [Hx Hnd]. cbn [List.filter].
  apply elem_of_cons in Hk as [<-|Hk].
  - rewrite HP, HP'. cbn [length]. f_equal. f_equal.
    apply filter_same. intros y Hy. apply Hsame; [by right|]. by intros ->.
  - rewrite (Hsame x); [|by left|by intros ->].
    assert (length (List.filter P' l) = S (length (List.filter P l))) as E.
    { apply IH; try done. intros y Hy. apply Hsame. by right. }
    destruct (P x); cbn [length]; by rewrite E.
Qed.

Lemma NoDup_cellNumbers : NoDup cellNumbers.
Proof. apply (bool_decide_unpack _). vm_compute. exact I. Qed.

Lemma elem_of_cellNumbers (m : Z) : m ∈ cellNumbers ↔ 0 ≤ m < 9.
Proof. rewrite <- cellNumbers_spec. apply list_elem_of_In. Qed.

Lemma filled_setCell (b b' : Board) (row col : Z) (v : PlayerType.t) :
  0 ≤ row < 3 → 0 ≤ col < 3 →
  getCell b row col = Some PlayerType.None →
  setCell b row col v = Some b' → v ≠ PlayerType.None →
  filled b' = S (filled b).
Proof.
  intros Hrow Hcol Hcell Hset Hv. unfold filled.
  destruct (number_of_cell row col Hrow Hcol) as [Hq Hr].
  apply (filter_flip _ _ _ (row * 3 + col)).
  - apply NoDup_cellNumbers.
  - apply elem_of_cellNumbers. lia.
  - unfold openAt. by rewrite Hq, Hr, Hcell.
  - unfold openAt. rewrite Hq, Hr, (getCell_setCell _ _ _ _ _ _ _ Hset).
    rewrite decide_True by done. by destruct v.
  - intros m Hm Hne. apply elem_of_cellNumbers in Hm.
    unfold openAt. rewrite (getCell_setCell _ _ _ _ _ _ _ Hset).
    rewrite decide_False; [done|]. intros [E1 E2]. apply Hne.
    pose proof (Z.quot_rem' m 3). lia.
Qed.

Lemma filled_full (b : Board) : boardFull b → filled b = 9%nat.
Proof.
  intros Hfull. apply boardFull_iff in Hfull. unfold filled.
  assert (∀ l, List.filter (openAt b) l = [] →
               length (List.filter (λ m, negb (openAt b m)) l) = length l) as H.
  { intros l. induction l as [|x l IH]; [done|]. cbn [List.filter].
    destruct (openAt b x); [done|]. cbn. intros E. by rewrite IH. }
  by rewrite H.
Qed.

Lemma filled_le (b : Board) : (filled b ≤ 9)%nat.
Proof.
  unfold filled.
  assert (∀ (P : Z → bool) l, (length (List.filter P l) ≤ length l)%nat) as H.
  { intros P l. induction l as [|x l IH]; [done|]. cbn [List.filter].
    destruct (P x); cbn [length]; lia. }
  apply (H _ cellNumbers).
Qed.

Lemma DidWeWin_lines (g : Game) (p : Player) (row col : Z) (won : bool) :
  0 ≤ row < 3 → 0 ≤ col < 3 →
  DidWeWin row col g p = Some won →
  won = true ↔
    rowFull (gameBoard g) row (type p) ∨ colFull (gameBoard g) col (type p) ∨
    diagFull (gameBoard g) (type p) ∨ antiDiagFull (gameBoard g) (type p).
Proof.
  intros Hrow Hcol Hwon.
  destruct (DidWeWin_cells g p row col Hrow Hcol) as (won' & Hwon' & Hiff).
  assert (won' = won) as -> by congruence.
  by rewrite rowFull_iff, colFull_iff, diagFull_iff, antiDiagFull_iff.
Qed.

(** A line of the board after a move is a line of the mover through the
    cell of the move, or was a line before. *)
Lemma line_after (b b' : Board) (row col : Z) (v m : PlayerType.t) :
  0 ≤ row < 3 → 0 ≤ col < 3 →
  setCell b row col v = Some b' →
  hasLine b' m →
  hasLine b m ∨
  (m = v ∧ (rowFull b' row v ∨ colFull b' col v ∨ diagFull b' v ∨ antiDiagFull b' v)).
Proof.
  intros Hrow Hcol Hset Hline.
  assert (getCell b' row col = Some v) as Hv.
  { rewrite (getCell_setCell _ _ _ _ _ _ _ Hset). by rewrite decide_True. }
  destruct Hline as [(r & Hr & H) | [(c & Hc & H) | [H | H]]].
  - destruct (decide (r = row)) as [->|Hne].
    + right. pose proof (H col Hcol) as E. rewrite Hv in E. injection E as <-. auto.
    + left. left. exists r. split; [done|]. intros i Hi.
      rewrite <- (H i Hi), (getCell_setCell _ _ _ _ _ _ _ Hset).
      rewrite decide_False; [done|]. tauto.
  - destruct (decide (c = col)) as [->|Hne].
    + right. pose proof (H row Hrow) as E. rewrite Hv in E. injection E as <-. auto.
    + left. right. left. exists c. split; [done|]. intros i Hi.
      rewrite <- (H i Hi), (getCell_setCell _ _ _ _ _ _ _ Hset).
      rewrite decide_False; [done|]. tauto.
  - destruct (decide (row = col)) as [->|Hne].
    + right. pose proof (H col Hcol) as E. rewrite Hv in E. injection E as <-. auto.
    + left. right. right. left. intros i Hi.
      rewrite <- (H i Hi), (getCell_setCell _ _ _ _ _ _ _ Hset).
      rewrite decide_False; [done|]. lia.
  - destruct (decide (row = 2 - col)) as [->|Hne].
    + right. pose proof (H col Hcol) as E. rewrite Hv in E. injection E as <-. auto.
    + left. right. right. right. intros i Hi.
      rewrite <- (H i Hi), (getCell_setCell _ _ _ _ _ _ _ Hset).
      rewrite decide_False; [done|]. lia.
Qed.

Lemma noLine_empty : noLine emptyBoard.
Proof.
  assert (∀ r c m, 0 ≤ r < 3 → 0 ≤ c < 3 → getCell emptyBoard r c = Some m →
                   m = PlayerType.None) as Hcell.
  { intros r c m Hr Hc.
    apply in_range3 in Hr as [-> | [-> | ->]];
      apply in_range3 in Hc as [-> | [-> | ->]]; vm_compute; congruence. }
  intros m Hm [(r & Hr & H) | [(c & Hc & H) | [H | H]]]; apply Hm.
  - apply (Hcell r 0); [done|lia|]. apply H. lia.
  - apply (Hcell 0 c); [lia|done|]. apply H. lia.
  - apply (Hcell 0 0); [lia|lia|]. apply H. lia.
  - apply (Hcell 2 0); [lia|lia|]. apply (H 0). lia.
Qed.

Lemma board_ok_ext g g' gn acts :
  currentTurn g' = currentTurn g → gameBoard g' = gameBoard g →
  currentGameState g' = currentGameState g →
  board_ok g gn acts → board_ok g' gn acts.
Proof. unfold board_ok. by intros -> -> ->. Qed.

Lemma board_ok_frame g gn acts a gn' :
  Forall (λ x, action_game x = gn') a → gn' ≠ gn →
  board_ok g gn acts → board_ok g gn (acts ++ a).
Proof.
  intros Ha Hne (Hturn & Hfill & Hplaced & Hcells & Hstate).
  destruct (other_game gn gn' a Ha Hne) as (_ & Hm & _).
  assert (∀ pid m r c, Placed gn pid m r c ∈ acts ++ a → Placed gn pid m r c ∈ acts)
    as Hback.
  { intros pid m r c Hin. apply elem_of_app in Hin as [Hin|Hin]; [done|].
    rewrite Forall_forall in Ha. apply Ha in Hin. cbn in Hin.
    congruence. }
  split; [done|]. rewrite marks_app, Hm, app_nil_r.
  split; [done|]. split; [intros pid m r c Hin; by eapply Hplaced, Hback|]. split.
  - intros m r c Hc Hm'. destruct (Hcells m r c Hc Hm') as [pid Hp].
    exists pid. apply elem_of_app. by left.
  - destruct (currentGameState g); [done| |done].
    destruct Hstate as (pid & m & Hlast & Hwin & Hline).
    exists pid, m. split; [done|]. split; [|done]. apply elem_of_app. by left.
Qed.

Lemma Entry_pre p g i l p0 g0 pre :
  Entry p g i l p0 g0 pre →
  pre = [] ∨ ∃ role, pre = [Joined (gameNumber g) (id p) role].
Proof. destruct 1; eauto. Qed.

Lemma board_ok_entry p g i l p0 g0 pre gn acts :
  Entry p g i l p0 g0 pre → board_ok g gn acts → board_ok g0 gn (acts ++ pre).
Proof.
  intros He Hok.
  destruct (Entry_facts _ _ _ _ _ _ _ He)
    as (_ & _ & _ & _ & _ & _ & _ & Est & Eturn & Eboard & _).
  apply (board_ok_ext g); try done.
  destruct (Entry_pre _ _ _ _ _ _ _ He) as [-> | [role ->]]; [by rewrite app_nil_r|].
  destruct Hok as (Hturn & Hfill & Hplaced & Hcells & Hstate).
  assert (marks gn (acts ++ [Joined (gameNumber g) (id p) role]) = marks gn acts) as Hm.
  { rewrite marks_app. unfold marks at 2. cbn. by rewrite app_nil_r. }
  split; [done|]. rewrite Hm. split; [done|]. split; [|split].
  - intros pid m r c Hin. apply (Hplaced pid).
    apply elem_of_app in Hin as [Hin|Hin]; [done|].
    by apply list_elem_of_singleton in Hin.
  - intros m r c Hc Hm'. destruct (Hcells m r c Hc Hm') as [pid Hp].
    exists pid. apply elem_of_app. by left.
  - destruct (currentGameState g); [done| |done].
    destruct Hstate as (pid & m & Hlast & Hwin & Hline).
    exists pid, m. split; [done|]. split; [|done]. apply elem_of_app. by left.
Qed.

Lemma otherTurn_mark t : otherTurn t ≠ PlayerType.None.
Proof. unfold otherTurn. by case_decide. Qed.

(** The board after a move. *)
Lemma board_ok_move p g gn acts row col b won tail :
  gameNumber g = gn →
  currentGameState g = GameState.StillPlaying → currentTurn g = type p →
  0 ≤ row < 3 → 0 ≤ col < 3 →
  getCell (gameBoard g) row col = Some PlayerType.None →
  setCell (gameBoard g) row col (type p) = Some b →
  DidWeWin row col (set_gameBoard b (flipTurn p g)) p = Some won →
  marks gn tail = [] →
  (∀ pid m r c, Placed gn pid m r c ∉ tail) →
  (won = true → CountedWin gn (id p) ∈ tail) →
  board_ok g gn acts →
  board_ok (moved p g b (if won then GameState.Won else GameState.StillPlaying)) gn
    (acts ++ Placed gn (id p) (type p) row col :: tail).
Proof.
  intros Hgn Hst Hturn Hrow Hcol Hcell Hset Hwon Htail Hnone Hcount
    (Hmark & Hfill & Hplaced & Hcells & Hstate).
  rewrite Hst in Hstate. rewrite Hturn in Hmark.
  assert (marks gn (acts ++ Placed gn (id p) (type p) row col :: tail) =
          marks gn acts ++ [(id p, type p)]) as Hm.
  { rewrite marks_app. f_equal. unfold marks in *. cbn [omap list_omap mark_of].
    rewrite decide_True by done. by rewrite Htail. }
  pose proof (DidWeWin_lines _ _ _ _ _ Hrow Hcol Hwon) as Hlines.
  cbn [gameBoard set_gameBoard] in Hlines.
  assert (∀ m, m ≠ PlayerType.None → hasLine b m → m = type p ∧ won = true) as Hline.
  { intros m Hm' Hl.
    destruct (line_after _ _ _ _ _ _ Hrow Hcol Hset Hl) as [Hold | [-> Hnew]].
    - by apply Hstate in Hold.
    - split; [done|]. by apply Hlines. }
  split; [apply otherTurn_mark|]. split.
  { replace (gameBoard (moved p g b _)) with b by (by destruct won).
    rewrite Hm, length_app, (filled_setCell _ _ _ _ _ Hrow Hcol Hcell Hset Hmark).
    cbn [length]. lia. }
  split; [|split].
  { replace (gameBoard (moved p g b _)) with b by (by destruct won).
    intros pid m r c Hin. rewrite (getCell_setCell _ _ _ _ _ _ _ Hset).
    apply elem_of_app in Hin as [Hin|Hin].
    - destruct (Hplaced pid m r c Hin) as [Hc Hm'].
      rewrite decide_False; [done|]. intros [-> ->]. congruence.
    - apply elem_of_cons in Hin as [Hin|Hin]; [|by apply Hnone in Hin].
      injection Hin as -> -> -> ->. by rewrite decide_True. }
  { replace (gameBoard (moved p g b _)) with b by (by destruct won).
    intros m r c Hc Hm'. rewrite (getCell_setCell _ _ _ _ _ _ _ Hset) in Hc.
    destruct (decide (r = row ∧ c = col)) as [[-> ->]|Hne].
    - injection Hc as <-. exists (id p). apply elem_of_app. right. left.
    - destruct (Hcells m r c Hc Hm') as [pid Hp].
      exists pid. apply elem_of_app. by left. }
  destruct won; cbn [currentGameState moved set_currentGameState gameBoard
                      set_gameBoard flipTurn set_currentTurn].
  - exists (id p), (type p). rewrite Hm, last_snoc. split; [done|]. split.
    { apply elem_of_app. right. right. by apply Hcount. }
    split.
    + destruct (proj1 Hlines eq_refl) as [H | [H | [H | H]]].
      * left. by exists row.
      * right. left. by exists col.
      * right. right. by left.
      * right. right. by right.
    + intros m' Hm' Hne Hl. by destruct (Hline m' Hm' Hl).
  - intros m Hm' Hl. by destruct (Hline m Hm' Hl).
Qed.

Lemma board_ok_turn p g c gn acts :
  TurnOutcome p g c → gameNumber g = gn →
  board_ok g gn acts → board_ok (sec_game c) gn (acts ++ sec_actions c).
Proof.
  intros Hc Hgn Hok.
  assert (∀ tail, marks gn tail = [] → (∀ pid m r c, Placed gn pid m r c ∉ tail) →
            (∀ pid, currentGameState g = GameState.Won → CountedWin gn pid ∈ acts →
                    CountedWin gn pid ∈ acts ++ tail) →
            board_ok g gn (acts ++ tail)) as Hsame.
  { intros tail Htail Hnone _.
    destruct Hok as (Hturn & Hfill & Hplaced & Hcells & Hstate).
    split; [done|]. rewrite marks_app, Htail, app_nil_r.
    split; [done|]. split; [|split].
    - intros pid m r c' Hin. apply (Hplaced pid).
      apply elem_of_app in Hin as [Hin|Hin]; [done|]. by apply Hnone in Hin.
    - intros m r c' Hc' Hm'. destruct (Hcells m r c' Hc' Hm') as [pid Hp].
      exists pid. apply elem_of_app. by left.
    - destruct (currentGameState g); [done| |done].
      destruct Hstate as (pid & m & Hlast & Hwin & Hline).
      exists pid, m. split; [done|]. split; [|done]. apply elem_of_app. by left. }
  destruct Hc as [Hst Hturn | row col b Hst Hturn Hrow Hcol Hcell Hset Hwon
                 | row col b Hst Hturn Hrow Hcol Hcell Hset Hwon
                 | Hst Hturn Hfull | Hst | Hst]; cbn [sec_game sec_actions].
  - apply Hsame; [done| |by intros; apply elem_of_app; left].
    intros pid m r c Hin. by apply list_elem_of_singleton in Hin.
  - rewrite <- Hgn.
    apply (board_ok_move p g (gameNumber g) acts row col b false); try done.
    + intros pid m r c Hin. by apply list_elem_of_singleton in Hin.
    + by rewrite Hgn.
  - rewrite <- Hgn.
    apply (board_ok_move p g (gameNumber g) acts row col b true); try done.
    + intros pid m r c Hin.
      apply elem_of_cons in Hin as [Hin|Hin]; [done|].
      by apply list_elem_of_singleton in Hin.
    + intros _. left.
    + by rewrite Hgn.
  - assert (board_ok g gn (acts ++ [CountedDrawMoving (gameNumber g) (id p);
                                    NotifiedAll (gameNumber g) (id p)]))
      as (Hmark & Hfill & Hplaced & Hcells & Hstate).
    { apply Hsame; [done| |by intros; apply elem_of_app; left].
      intros pid m r c Hin.
      apply elem_of_cons in Hin as [Hin|Hin]; [done|].
      by apply list_elem_of_singleton in Hin. }
    rewrite Hst in Hstate.
    split; [apply otherTurn_mark|].
    change (gameBoard (moved p g (gameBoard g) GameState.Draw)) with (gameBoard g).
    change (currentGameState (moved p g (gameBoard g) GameState.Draw))
      with GameState.Draw.
    do 3 (split; [done|]). by split.
  - apply Hsame; [done| |by intros; apply elem_of_app; left].
    intros pid m r c Hin. by apply list_elem_of_singleton in Hin.
  - apply Hsame; [done| |by intros; apply elem_of_app; left].
    intros pid m r c Hin. by apply list_elem_of_singleton in Hin.
Qed.

Lemma step_board N G spur s acts s' a :
  round_inv N G s acts → StepKind spur s s' a →
  board_inv s acts → board_inv s' (acts ++ a).
Proof.
  intros Hinv Hk Hb j g' Hg'.
  destruct Hk as [t w l Ht Hwalk Hq Hws Hgs Hal ->
                 |t w i g Ht Hpc Hg Hws Hgs Htot' Hal ->
                 |t w i g rnd c Ht Hg Hrnd Hent Hws Hgs Htot' Hal ->
                 |Hws Hgs Hal ->].
  - rewrite app_nil_r. unfold games in *. rewrite Hgs in Hg'. by apply Hb.
  - rewrite app_nil_r. rewrite Hgs in Hg'.
    destruct (decide (j = i)) as [->|Hne].
    + rewrite list_lookup_insert_eq in Hg' by (by eapply lookup_lt_Some).
      injection Hg' as <-. apply (board_ok_ext g); [..|by apply Hb];
        unfold TryToPlayEachGame_claim; by case_decide.
    + rewrite list_lookup_insert_ne in Hg' by done. by apply Hb.
  - destruct (section_spec _ _ _ _ _ _ _ _ _ _ Hinv Ht Hg Hrnd Hent)
      as (Hsec & _ & _ & _ & Hgn).
    rewrite Hgs in Hg'. destruct (decide (j = i)) as [->|Hne].
    + rewrite list_lookup_insert_eq in Hg' by (by eapply lookup_lt_Some).
      injection Hg' as <-. pose proof (Hb i g Hg) as Hok.
      destruct Hsec as [p0 g0 pre He HX -> | p0 g0 pre c0 He Hc0 HX HO ->].
      * cbn [sec_game sec_actions]. by apply (board_ok_entry _ _ _ _ _ _ _ _ _ He).
      * cbn [sec_game sec_actions prepend]. rewrite app_assoc.
        apply (board_ok_turn p0 g0);
          [done| |by apply (board_ok_entry _ _ _ _ _ _ _ _ _ He)].
        destruct (Entry_facts _ _ _ _ _ _ _ He) as (_ & _ & _ & _ & _ & E & _).
        congruence.
    + rewrite list_lookup_insert_ne in Hg' by done.
      destruct (SectionSpec_facts _ _ _ _ _ Hsec) as (_ & _ & _ & _ & Hall & _).
      apply (board_ok_frame _ _ _ _ (gn_of i)); [| |by apply Hb].
      * eapply Forall_impl; [exact Hall|]. cbn. intros x [_ ?]. congruence.
      * intros E. by apply gn_of_inj in E.
  - rewrite app_nil_r. unfold games in *. rewrite Hgs in Hg'. by apply Hb.
Qed.

Lemma exec_board N G flag acts s :
  exec (round_start N G flag) acts s → board_inv s acts.
Proof.
  induction 1 as [|acts s e s' a Hexec IH He Hstep].
  - intros i g Hg. cbn in Hg. rewrite list_lookup_fmap in Hg.
    destruct (seq 0 G !! i) as [k|] eqn:E; [|done]. injection Hg as <-.
    split; [done|]. split; [done|]. split; [|split].
    + intros pid m r c Hin. by apply elem_of_nil in Hin.
    + intros m r c Hc Hm. exfalso. apply (noLine_empty m Hm).
      assert (m = PlayerType.None); [|done].
      revert Hc. cbn [gameBoard initGame]. unfold getCell.
      destruct (arr_get emptyBoard r) as [row|] eqn:Er; [|done].
      assert (row = emptyRow) as ->.
      { destruct r as [|[[|[]|]|[]|]|]; cbn in Er; congruence. }
      cbn. destruct c as [|[[|[]|]|[]|]|]; cbn; congruence.
    + apply noLine_empty.
  - destruct (step_kinds _ _ _ _ He Hstep) as [_ Hk].
    eapply step_board; [by eapply exec_inv|exact Hk|exact IH].
Qed.

(** X6: the board of a game holds exactly the marks that were placed in it:
    every mark placed is still in its cell, every cell that is not empty
    was filled by a move, and the cells filled are as many as the moves;
    so no move overwrites a mark and a game has at most nine moves. *)
Theorem board_holds_the_marks N G flag acts s i g :
  exec (round_start N G flag) acts s → games s !! i = Some g →
  (∀ pid m r c, Placed (gn_of i) pid m r c ∈ acts →
     getCell (gameBoard g) r c = Some m ∧ m ≠ PlayerType.None) ∧
  (∀ m r c, getCell (gameBoard g) r c = Some m → m ≠ PlayerType.None →
     ∃ pid, Placed (gn_of i) pid m r c ∈ acts) ∧
  filled (gameBoard g) = length (marks (gn_of i) acts) ∧
  (length (marks (gn_of i) acts) ≤ 9)%nat.
Proof.
  intros Hexec Hg.
  destruct (exec_board _ _ _ _ _ Hexec i g Hg) as (_ & Hfill & Hplaced & Hcells & _).
  repeat split; try done.
  - by eapply Hplaced.
  - by eapply Hplaced.
  - rewrite <- Hfill. apply filled_le.
Qed.

(** X7: the state of a game says what its board shows.  While the game is
    played no row, column or diagonal is complete; a game that was won shows
    a line of the mark placed last, by the player that counted the win, and
    no line of the other mark; a game that ended in a draw has a full board
    of nine marks without a line. *)
Theorem state_matches_board N G flag acts s i g :
  exec (round_start N G flag) acts s → games s !! i = Some g →
  match currentGameState g with
  | GameState.StillPlaying => noLine (gameBoard g)
  | GameState.Won =>
      ∃ pid m, last (marks (gn_of i) acts) = Some (pid, m) ∧
        CountedWin (gn_of i) pid ∈ acts ∧
        hasLine (gameBoard g) m ∧
        ∀ m', m' ≠ PlayerType.None → m' ≠ m → ¬ hasLine (gameBoard g) m'
  | GameState.Draw =>
      boardFull (gameBoard g) ∧ noLine (gameBoard g) ∧
      length (marks (gn_of i) acts) = 9%nat
  end.
Proof.
  intros Hexec Hg.
  destruct (exec_board _ _ _ _ _ Hexec i g Hg) as (_ & Hfill & _ & _ & Hst).
  destruct (currentGameState g); [done|done|].
  destruct Hst as [Hfull Hno]. repeat split; try done.
  rewrite <- Hfill. by apply filled_full.
Qed.

Lemma demo_end_game :
  games demo_end.1 !! 0%nat =
  Some (MkGame 2 1 PlayerType.O GameState.Won 1 0
          (MkArr3 (MkArr3 PlayerType.X PlayerType.O PlayerType.X)
                  (MkArr3 PlayerType.O PlayerType.X PlayerType.O)
                  (MkArr3 PlayerType.X PlayerType.None PlayerType.None))).
Proof. vm_compute. reflexivity. Defined.

(** The witness: the board at the end of the sample round has seven marks. *)
Lemma board_holds_the_marks_witness :
  exec (round_start 2 1 false) demo_end.2 demo_end.1 ∧
  ∃ g, games demo_end.1 !! 0%nat = Some g ∧
       filled (gameBoard g) = 7%nat ∧
       (length (marks (gn_of 0) demo_end.2) ≤ 9)%nat.
Proof.
  split; [exact demo_end_exec|]. eexists. split; [exact demo_end_game|].
  split; [vm_compute; reflexivity|].
  by destruct (board_holds_the_marks 2 1 false _ _ 0%nat _ demo_end_exec demo_end_game)
    as (_ & _ & _ & H).
Defined.

(** The witness: the sample round is won by X on the diagonal from the
    lower left to the upper right. *)
Lemma state_matches_board_witness :
  exec (round_start 2 1 false) demo_end.2 demo_end.1 ∧
  ∃ g, games demo_end.1 !! 0%nat = Some g ∧
       currentGameState g = GameState.Won ∧
       ∃ pid m, last (marks (gn_of 0) demo_end.2) = Some (pid, m) ∧
                hasLine (gameBoard g) m.
Proof.
  split; [exact demo_end_exec|]. eexists. split; [exact demo_end_game|].
  split; [reflexivity|].
  pose proof (state_matches_board 2 1 false _ _ 0%nat _ demo_end_exec demo_end_game) as H.
  cbn [currentGameState] in H. destruct H as (pid & m & Hlast & _ & Hline & _).
  by exists pid, m.
Defined.

(** ** The two calls of [exit(1)] *)

Lemma TurnOutcome_exit p g c :
  TurnOutcome p g c →
  (sec_exit c = Exit1 →
   currentGameState g = GameState.StillPlaying ∧ currentTurn g ≠ type p ∧
   c = MkCritSec p g Exit1 [WrongPlayer (gameNumber g) (id p)]) ∧
  (sec_exit c ≠ Exit1 → Forall (λ a, is_exit a = false) (sec_actions c)) ∧
  (∀ gn pid, OnePlayer gn pid ∉ sec_actions c).
Proof.
  destruct 1; cbn; (split; [done|]);
    (split; [intros Hx; try done; by repeat constructor|]);
    intros gn pid Hin; repeat (apply elem_of_cons in Hin as [Hin|Hin]; [done|]);
    by apply elem_of_nil in Hin.
Qed.

Lemma SectionSpec_exit p g i l c :
  SectionSpec p g i l c →
  (sec_exit c ≠ Exit1 → Forall (λ a, is_exit a = false) (sec_actions c)) ∧
  (∀ gn pid, OnePlayer gn pid ∉ sec_actions c).
Proof.
  intros [p0 g0 pre He HX -> | p0 g0 pre c0 He Hc0 HX HO ->];
    destruct (Entry_pre _ _ _ _ _ _ _ He) as [-> | [role ->]]; cbn.
  - split; [by constructor|]. intros gn pid Hin. by apply elem_of_nil in Hin.
  - split; [by repeat constructor|]. intros gn pid Hin.
    by apply list_elem_of_singleton in Hin.
  - by destruct (TurnOutcome_exit _ _ _ Hc0) as (_ & ? & ?).
  - destruct (TurnOutcome_exit _ _ _ Hc0) as (_ & H1 & H2). split.
    + intros Hx. constructor; [done|]. by apply H1.
    + intros gn pid Hin. apply elem_of_cons in Hin as [Hin|Hin]; [done|].
      by apply H2 in Hin.
Qed.

Lemma one_player_exec N G flag acts s gn pid :
  exec (round_start N G flag) acts s → OnePlayer gn pid ∉ acts.
Proof.
  induction 1 as [|acts s e s' a Hexec IH He Hstep].
  - apply not_elem_of_nil.
  - intros Hin. apply elem_of_app in Hin as [Hin|Hin]; [done|].
    pose proof (exec_inv _ _ _ _ _ Hexec) as Hinv.
    destruct (step_kinds _ _ _ _ He Hstep) as [_ Hk].
    destruct Hk as [t w l Ht Hwalk Hq Hws Hgs Hal ->
                   |t w i g Ht Hpc Hg Hws Hgs Htot Hal ->
                   |t w i g rnd c Ht Hg Hrnd Hent Hws Hgs Htot Hal ->
                   |Hws Hgs Hal ->]; try (by apply elem_of_nil in Hin).
    destruct (section_spec _ _ _ _ _ _ _ _ _ _ Hinv Ht Hg Hrnd Hent) as (Hsec & _).
    destruct (SectionSpec_exit _ _ _ _ _ Hsec) as [_ Hno]. by apply Hno in Hin.
Qed.

(** X9: PlayGame has a check for a game with one player, and no execution
    reaches its [exit(1)]: PlayGame is called only with both players
    present, whatever the threads do and whenever they wake up. *)
Theorem one_player_exit_is_dead :
  (∀ p g rnd, playerO g = -1 ∨ playerX g = -1 →
     PlayGame p g rnd = Some (MkCritSec p g Exit1 [OnePlayer (gameNumber g) (id p)])) ∧
  (∀ N G flag acts s gn pid,
     exec (round_start N G flag) acts s → OnePlayer gn pid ∉ acts).
Proof.
  split.
  - intros p g rnd H. unfold PlayGame. by rewrite decide_True.
  - intros. by eapply one_player_exec.
Qed.

(** The witness: PlayGame on a game that nobody has joined. *)
Lemma one_player_exit_is_dead_witness :
  PlayGame (initPlayer 0) (initGame 0) 0 =
    Some (MkCritSec (initPlayer 0) (initGame 0) Exit1 [OnePlayer 1 0]) ∧
  OnePlayer 1 0 ∉ demo_end.2.
Proof.
  destruct one_player_exit_is_dead as [H1 H2]. split.
  - apply (H1 (initPlayer 0) (initGame 0) 0). by left.
  - apply (H2 2%nat 1%nat false _ _ 1 0 demo_end_exec).
Defined.

(** The phase of a slot in which a thread waits for its turn while the game
    goes on. *)
Lemma waiting_turn N G s acts t w i g flagged :
  round_inv N G s acts →
  workers s !! t = Some w → pc w = AtWaitTurn i flagged →
  games s !! i = Some g → currentGameState g = GameState.StillPlaying →
  ∃ a b x y wx wy,
    a ≠ b ∧ pair_of a b x y ∧ (t = x ∨ t = y) ∧
    playerO g = tid a ∧ playerX g = tid b ∧
    currentTurn g = role a x ∧
    workers s !! x = Some wx ∧ workers s !! y = Some wy ∧
    type (me wx) = role a x ∧ type (me wy) = role a y ∧
    ready i (pc wx) ∧ parked i (pc wy) ∧
    nobody_else (workers s) i [x; y] ∧ joining (workers s) i = 0%nat.
Proof.
  intros (Hwf & _ & Hphase) Ht Hpc Hg Hst.
  destruct Hwf as (Hlen & _).
  assert (i < G)%nat as Hi by (apply lookup_lt_Some in Hg; lia).
  destruct (Hphase i Hi) as (ph & _ & g0 & Hg0 & Hok).
  assert (g0 = g) as -> by congruence.
  assert (inside i (pc w)) as Hin by (by rewrite Hpc).
  destruct ph as [|a|a b x y|a b m o how|a b m o how]; cbn [slot_ok] in Hok.
  - destruct Hok as (_ & _ & _ & _ & _ & _ & Hno).
    by apply (Hno t w Ht), elem_of_nil in Hin.
  - destruct Hok as (_ & _ & _ & _ & _ & _ & Hno & wa & n & Hwa & Hpa & _).
    pose proof (Hno t w Ht Hin) as Hta. apply elem_one in Hta as ->. congruence.
  - destruct Hok as (HO & HX & Hab & Hpair & _ & Hturn & _ & _ & Hj & Hno &
                     wx & wy & Hwx & Hwy & Htx & Hty & Hrx & Hpy).
    exists a, b, x, y, wx, wy. repeat split; try done.
    by apply elem_two, (Hno t w Ht).
  - destruct Hok as (_ & _ & _ & _ & Hhow & Hhow' & _). congruence.
  - destruct Hok as (_ & _ & Hhow & Hhow' & _). congruence.
Qed.

(** X10: the wait of PlayGame has no predicate.  If the player that has just
    moved wakes up by itself while the game goes on, it finds the turn with
    the other player, logs the error and calls [exit(1)]. *)
Theorem spurious_wakeup_exits N G flag acts s t w i g rnd :
  exec (round_start N G flag) acts s → alive s = true →
  myRand_range rnd = true →
  workers s !! t = Some w → pc w = AtWaitTurn i false →
  games s !! i = Some g → currentGameState g = GameState.StillPlaying →
  ∃ s1 s2,
    step s (Spurious t) = Some (s1, []) ∧
    step s1 (Run t rnd) = Some (s2, [WrongPlayer (gn_of i) (tid t)]) ∧
    alive s2 = false ∧ ∀ e, step s2 e = None.
Proof.
  intros Hexec Halive Hrnd Ht Hpc Hg Hst.
  pose proof (exec_inv _ _ _ _ _ Hexec) as Hinv.
  destruct (waiting_turn _ _ _ _ _ _ _ _ _ Hinv Ht Hpc Hg Hst)
    as (a & b & x & y & wx & wy & Hab & Hpair & Hxy & _ & _ & Hturn &
        Hwx & Hwy & Htx & Hty & Hrx & Hpy & _).
  assert (currentTurn g ≠ type (me w)) as Hwrong.
  { destruct Hxy as [-> | ->].
    - assert (wx = w) as -> by congruence.
      rewrite Hpc in Hrx. by destruct Hrx.
    - assert (wy = w) as -> by congruence. rewrite Hturn, Hty.
      destruct (role_other a b x y Hab Hpair) as (-> & _).
      intros E. symmetry in E. by apply otherTurn_ne in E. }
  destruct Hinv as ((_ & _ & _ & Hnum & Hwk) & _).
  destruct (Hwk t w Ht) as [Hid _]. pose proof (Hnum i g Hg) as Hgn.
  eexists _, _. split; [|split; [|split]].
  - unfold step, spurious_step. rewrite Halive, Ht. cbn [mbind option_bind].
    rewrite Hpc. reflexivity.
  - unfold step, thread_step. cbn [alive set_workers workers]. rewrite Halive, Hrnd.
    rewrite list_lookup_insert_eq by (by eapply lookup_lt_Some).
    cbn [mbind option_bind pc me]. unfold games at 1. cbn [poolOfGames set_workers].
    fold (games s). rewrite Hg. cbn [mbind option_bind].
    unfold JoinGame_turn, PlayGame_loop. rewrite decide_True by done.
    rewrite PlayGame_turn_wrong by done. cbn [fmap option_fmap option_map].
    unfold JoinGame_return, commit. cbn [sec_exit sec_actions sec_game sec_player].
    rewrite decide_True by done. rewrite Hgn, Hid. reflexivity.
  - reflexivity.
  - intros e. unfold step. reflexivity.
Qed.

Lemma demo_first_move_exec :
  exec (round_start 2 1 false) demo_first_move.2 demo_first_move.1.
Proof.
  apply (run_exec _ (take 9 demo_events)); [repeat constructor|].
  vm_compute. reflexivity.
Defined.

(** The witness: player 1 wakes up by itself after its first move. *)
Lemma spurious_wakeup_exits_witness :
  exec (round_start 2 1 false) demo_first_move.2 demo_first_move.1 ∧
  ∃ s1 s2,
    step demo_first_move.1 (Spurious 1) = Some (s1, []) ∧
    step s1 (Run 1 0) = Some (s2, [WrongPlayer 1 1]) ∧ alive s2 = false.
Proof.
  split; [exact demo_first_move_exec|].
  destruct (spurious_wakeup_exits 2 1 false _ _ 1%nat _ 0%nat _ 0
              demo_first_move_exec eq_refl eq_refl eq_refl eq_refl eq_refl eq_refl)
    as (s1 & s2 & H1 & H2 & H3 & _).
  by exists s1, s2.
Defined.

Lemma section_no_exit N G s acts t w i g rnd c :
  round_inv N G s acts → calm s →
  workers s !! t = Some w → games s !! i = Some g →
  myRand_range rnd = true → enters w g i rnd c →
  sec_exit c ≠ Exit1.
Proof.
  intros Hinv [_ Hcalm] Ht Hg Hrnd Hent.
  destruct (section_spec _ _ _ _ _ _ _ _ _ _ Hinv Ht Hg Hrnd Hent)
    as (Hsec & _ & Hi & Hid & Hgn).
  destruct Hent as [[Hpc Hc] | Hent].
  { pose proof Hinv as (_ & _ & Hphase).
    destruct (Hphase i Hi) as (ph & Htr & g0 & Hg0 & Hok).
    assert (g0 = g) as -> by congruence.
    by destruct (slot_join g (workers s) acts i ph t w rnd c Ht Hpc Hid Hgn Hrnd Hc
                   Htr Hok) as (_ & ? & _). }
  destruct Hsec as [p0 g0 pre He HX -> | p0 g0 pre c0 He Hc0 HX HO ->]; [done|].
  cbn [sec_exit prepend]. intros Hx.
  destruct (TurnOutcome_exit _ _ _ Hc0) as (Hwrong & _).
  destruct (Hwrong Hx) as (Hst & Hturn & _).
  assert (p0 = me w ∧ g0 = g ∧ ∃ n, pc w = AtWaitTurn i n ∨ pc w = AtWaitPartner i true)
    as (-> & -> & n & Hpc).
  { inversion He; subst.
    - destruct Hent as [[E _] | [E _]]; congruence.
    - destruct Hent as [[E _] | [E _]]; congruence.
    - split; [done|]. split; [done|]. exists true. by right.
    - split; [done|]. split; [done|]. exists true. by left. }
  destruct Hpc as [Hpc | Hpc].
  - assert (n = true) as ->.
    { destruct Hent as [[E _] | [E _]]; congruence. }
    by apply Hturn, (Hcalm t w i g).
  - (* woken from the wait for the partner: it is the thread to move *)
    pose proof Hinv as (_ & _ & Hphase).
    destruct (Hphase i Hi) as (ph & _ & g0 & Hg0 & Hok).
    assert (g0 = g) as -> by congruence.
    assert (inside i (pc w)) as Hin by (by rewrite Hpc).
    destruct ph as [|a|a b x y|a b m o how|a b m o how]; cbn [slot_ok] in Hok.
    + destruct Hok as (_ & _ & _ & _ & _ & _ & Hno).
      by apply (Hno t w Ht), elem_of_nil in Hin.
    + by destruct Hok as (_ & ? & _).
    + destruct Hok as (_ & _ & Hab & Hpair & _ & Hturn' & _ & _ & _ & Hno &
                       wx & wy & Hwx & Hwy & Htx & Hty & Hrx & [n' Hpy]).
      pose proof (Hno t w Ht Hin) as Hxy. apply elem_two in Hxy as [-> | ->].
      * assert (wx = w) as -> by congruence. congruence.
      * assert (wy = w) as -> by congruence. congruence.
    + destruct Hok as (_ & _ & _ & _ & Hhow & Hhow' & _). congruence.
    + destruct Hok as (_ & _ & _ & _ & _ & _ & Hno).
      by apply (Hno t w Ht), elem_of_nil in Hin.
Qed.

Lemma wake_if_turn b i w j :
  pc (wake_if b i w) = AtWaitTurn j true →
  (pc w = AtWaitTurn j true) ∨ (j = i ∧ pc w = AtWaitTurn i false).
Proof.
  rewrite pc_wake_if. destruct b; [|by left].
  destruct (pc w) as [| |k|k|k n|k n|]; cbn; try done.
  - case_decide; done.
  - case_decide; [subst|by left]. intros E. injection E as <-.
    destruct n; [by left|by right].
Qed.

Lemma next_loc_not_woken i w c j :
  sec_exit c ≠ Exit1 → next_loc i w c ≠ AtWaitTurn j true.
Proof. unfold next_loc. by destruct (sec_exit c). Qed.

Lemma step_calm N G s acts s' a :
  round_inv N G s acts → StepKind false s s' a → calm s →
  calm s' ∧ Forall (λ x, is_exit x = false) a.
Proof.
  intros Hinv Hk Hcalm. pose proof Hcalm as [Halive Hturns].
  destruct Hk as [t w l Ht Hwalk Hq Hws Hgs Hal ->
                 |t w i g Ht Hpc Hg Hws Hgs Htot' Hal ->
                 |t w i g rnd c Ht Hg Hrnd Hent Hws Hgs Htot' Hal ->
                 |Hws Hgs Hal ->].
  - split; [|constructor]. split; [done|]. intros t' w' j g' Hw' Hpc' Hg'.
    unfold games in *. rewrite Hgs in Hg'. rewrite Hws in Hw'.
    destruct (decide (t' = t)) as [->|Hne].
    + rewrite list_lookup_insert_eq in Hw' by (by eapply lookup_lt_Some).
      injection Hw' as <-. cbn [pc] in Hpc'. subst l. exfalso.
      specialize (Hq eq_refl).
      destruct Hwalk as [[_ ?] | [(_ & ? & _) | [(? & _ & ? & _) |
                        [(? & E & _) | (? & E & _)]]]]; try done;
        rewrite E in Hq; done.
    + rewrite list_lookup_insert_ne in Hw' by done. by apply (Hturns t' w' j g').
  - split; [|constructor]. split; [done|]. intros t' w' j g' Hw' Hpc' Hg' Hst'.
    rewrite Hws in Hw'. rewrite Hgs in Hg'.
    assert (t' ≠ t) as Hne.
    { intros ->. rewrite list_lookup_insert_eq in Hw' by (by eapply lookup_lt_Some).
      injection Hw' as <-. cbn [pc] in Hpc'.
      by destruct (TryToPlayEachGame_claim g).1. }
    rewrite list_lookup_insert_ne in Hw' by done.
    destruct (decide (j = i)) as [->|Hji].
    + rewrite list_lookup_insert_eq in Hg' by (by eapply lookup_lt_Some).
      injection Hg' as <-.
      assert (currentTurn (TryToPlayEachGame_claim g).2 = currentTurn g ∧
              currentGameState (TryToPlayEachGame_claim g).2 = currentGameState g)
        as [E1 E2] by (unfold TryToPlayEachGame_claim; by case_decide).
      rewrite E1. rewrite E2 in Hst'. by apply (Hturns t' w' i g).
    + rewrite list_lookup_insert_ne in Hg' by done. by apply (Hturns t' w' j g').
  - pose proof (section_no_exit _ _ _ _ _ _ _ _ _ _ Hinv Hcalm Ht Hg Hrnd Hent) as Hx.
    destruct (section_spec _ _ _ _ _ _ _ _ _ _ Hinv Ht Hg Hrnd Hent)
      as (Hsec & _ & Hi & Hid & Hgn).
    split; [|by apply (SectionSpec_exit _ _ _ _ _ Hsec)].
    split; [by rewrite Hal, decide_False|].
    intros t' w' j g' Hw' Hpc' Hg' Hst'.
    rewrite Hws in Hw'. rewrite Hgs in Hg'.
    destruct (after_step_inv _ _ _ _ _ _ _ _ Ht Hw') as [[-> ->] | (Hne & w0 & Hw0 & ->)].
    { cbn [pc] in Hpc'. by apply next_loc_not_woken in Hpc'. }
    rewrite me_wake_if.
    destruct (decide (j = i)) as [->|Hji].
    2:{ rewrite list_lookup_insert_ne in Hg' by done.
        apply wake_if_turn in Hpc' as [Hpc' | [? _]]; [|done].
        by apply (Hturns t' w0 j g'). }
    rewrite list_lookup_insert_eq in Hg' by (by eapply lookup_lt_Some).
    injection Hg' as <-.
    assert (∃ n, pc w0 = AtWaitTurn i n) as [n Hpc0].
    { apply wake_if_turn in Hpc' as [? | [_ ?]]; eauto. }
    (* the game went on: the section was a move *)
    destruct Hsec as [p0 g0 pre He HX -> | p0 g0 pre c0 He Hc0 HX HO ->].
    { (* nobody waits for its turn in a game without its X *)
      cbn [sec_game] in Hst'.
      destruct (Entry_facts _ _ _ _ _ _ _ He)
        as (_ & _ & _ & _ & _ & _ & _ & Est & _).
      rewrite Est in Hst'.
      destruct (waiting_turn _ _ _ _ _ _ _ _ _ Hinv Hw0 Hpc0 Hg Hst')
        as (a0 & b0 & _ & _ & _ & _ & _ & _ & _ & _ & HXb & _).
      exfalso. inversion He; subst; cbn in HX; try congruence;
        rewrite ?HXb, ?Hid in HX; by apply tid_ne in HX. }
    cbn [sec_game prepend] in *.
    destruct (Entry_facts _ _ _ _ _ _ _ He)
      as (_ & _ & _ & _ & _ & _ & _ & Est & Eturn & _ & _ & _ & _ & Hloc).
    assert (currentGameState g = GameState.StillPlaying) as Hst.
    { rewrite <- Est. destruct Hc0; cbn in Hst'; try done; congruence. }
    destruct (waiting_turn _ _ _ _ _ _ _ _ _ Hinv Hw0 Hpc0 Hg Hst)
      as (a0 & b0 & x & y & wx & wy & Hab & Hpair & Hxy & _ & _ & Hturn &
          Hwx & Hwy & Htx & Hty & Hrx & [ny Hpy] & Hno & Hj).
    assert (inside i (pc w)) as Hin.
    { destruct Hloc as [E | [E | E]]; rewrite E; try done.
      apply (joining_pos _ _ _ _ Ht) in E. lia. }
    assert (p0 = me w ∧ g0 = g) as [-> ->].
    { inversion He; subst; try done; exfalso;
        match goal with E : AtJoin _ = pc w |- _ => rewrite <- E in Hin; done end. }
    pose proof (Hno t w Ht Hin) as Htxy. apply elem_two in Htxy.
    destruct (role_other a0 b0 x y Hab Hpair) as (Hother & Hxy' & _).
    assert (t = x ∧ t' = y) as [-> ->].
    { destruct Htxy as [-> | ->]; destruct Hxy as [-> | ->]; try done.
      (* the thread that has moved was not woken *)
      exfalso. assert (wy = w) as -> by congruence.
      assert (pc w = AtWaitTurn i true) as Hpcw.
      { destruct Hloc as [E | [E | E]]; congruence. }
      pose proof (Hturns y w i g Ht Hpcw Hg Hst) as E.
      rewrite Hturn, Hty, Hother in E. symmetry in E. by apply otherTurn_ne in E. }
    assert (wx = w) as -> by congruence. assert (wy = w0) as -> by congruence.
    rewrite Hty, Hother, <- Htx.
    destruct Hc0; cbn in Hst', Hx |- *; try done; congruence.
  - split; [|constructor]. split; [done|]. intros t' w' j g' Hw' Hpc' Hg'.
    unfold games in *. rewrite Hgs in Hg'. rewrite Hws in Hw'.
    by apply (Hturns t' w' j g').
Qed.

Lemma run_calm N G flag es :
  Forall in_round es → Forall (λ e, is_spurious e = false) es →
  ∀ s0 acts0 s acts,
    exec (round_start N G flag) acts0 s0 → calm s0 →
    run s0 es = Some (s, acts) →
    calm s ∧ Forall (λ a, is_exit a = false) acts.
Proof.
  intros Hround Hquiet. induction es as [|e es IH]; intros s0 acts0 s acts Hexec Hcalm Hrun.
  - cbn in Hrun. injection Hrun as <- <-. by split.
  - apply Forall_cons in Hround as [He Hround].
    apply Forall_cons in Hquiet as [Hq Hquiet].
    cbn [run] in Hrun.
    destruct (step s0 e) as [[s1 a1]|] eqn:Hstep; [|done].
    cbn [mbind option_bind] in Hrun.
    destruct (run s1 es) as [[s2 a2]|] eqn:Hrest; [|done].
    cbn [mbind option_bind] in Hrun. injection Hrun as <- <-.
    destruct (step_kinds _ _ _ _ He Hstep) as [_ Hk]. rewrite Hq in Hk.
    destruct (step_calm _ _ _ _ _ _ (exec_inv _ _ _ _ _ Hexec) Hk Hcalm) as [Hcalm1 Hno1].
    destruct (IH Hround Hquiet s1 (acts0 ++ a1) s2 a2) as [Hcalm2 Hno2]; try done.
    + by eapply exec_snoc.
    + split; [done|]. by apply Forall_app.
Qed.

(** X11: as long as no thread wakes up by itself, no execution calls
    [exit(1)]: every thread that is woken in PlayGame finds the game over
    or the turn with itself. *)
Theorem no_exit_without_spurious N G flag es s acts :
  Forall in_round es → Forall (λ e, is_spurious e = false) es →
  run (round_start N G flag) es = Some (s, acts) →
  alive s = true ∧ Forall (λ a, is_exit a = false) acts.
Proof.
  intros Hround Hquiet Hrun.
  destruct (run_calm N G flag es Hround Hquiet (round_start N G flag) [] s acts)
    as [[Halive _] Hno]; try done.
  - constructor.
  - split; [done|]. intros t w i g Hw Hpc.
    apply round_start_workers in Hw as ->. done.
Qed.

(** The witness: the sample round has no wake-up without notification. *)
Lemma no_exit_without_spurious_witness :
  run (round_start 2 1 false) demo_events = Some demo_end ∧
  alive demo_end.1 = true ∧ Forall (λ a, is_exit a = false) demo_end.2.
Proof.
  assert (run (round_start 2 1 false) demo_events = Some demo_end) as Hrun
    by (vm_compute; reflexivity).
  split; [exact Hrun|].
  apply (no_exit_without_spurious 2 1 false demo_events); [| |exact Hrun];
    repeat constructor.
Defined.

(** ** The choice of MakeAMove *)

Lemma MakeAMove_index (p : Player) (g : Game) (rnd m : Z) :
  0 ≤ rnd →
  openCells (gameBoard g) !!
    Z.to_nat (Z.rem rnd (Z.of_nat (length (openCells (gameBoard g))))) = Some m →
  0 ≤ Z.quot m 3 < 3 ∧ 0 ≤ Z.rem m 3 < 3 ∧
  getCell (gameBoard g) (Z.quot m 3) (Z.rem m 3) = Some PlayerType.None ∧
  ∃ b won,
    setCell (gameBoard g) (Z.quot m 3) (Z.rem m 3) (type p) = Some b ∧
    DidWeWin (Z.quot m 3) (Z.rem m 3) (set_gameBoard b g) p = Some won ∧
    MakeAMove p g rnd = Some (movePlaced p g (Z.quot m 3) (Z.rem m 3) b won).
Proof.
  intros Hrnd Hm. unfold openCells in Hm.
  assert (In m (List.filter (openAt (gameBoard g)) cellNumbers)) as Hin.
  { apply list_elem_of_In. eapply list_elem_of_lookup_2, Hm. }
  apply List.filter_In in Hin as [Hcell Ho].
  apply cellNumbers_spec, cell_of_number in Hcell as [Hrow Hcol].
  apply openAt_true in Ho.
  split; [done|]. split; [done|]. split; [done|].
  destruct (setCell_in_range (gameBoard g) _ _ (type p) Hrow Hcol) as [b Hb].
  destruct (DidWeWin_in_range _ _ (set_gameBoard b g) p Hrow Hcol) as [won Hwon].
  exists b, won. split; [done|]. split; [done|].
  unfold MakeAMove. rewrite findMoves_spec. cbn [mbind option_bind].
  assert (length (List.filter (openAt (gameBoard g)) cellNumbers) ≠ 0%nat) as Hlen.
  { intros E. apply length_zero_iff_nil in E. by rewrite E in Hm. }
  rewrite decide_True by lia.
  unfold readMove. rewrite decide_True by (apply Z.rem_nonneg; lia).
  rewrite Hm. cbn [mbind option_bind]. rewrite Hb. cbn [mbind option_bind].
  rewrite Hwon. cbn [mbind option_bind]. by destruct won.
Qed.

(** X8: MakeAMove numbers the empty cells row by row and writes the one
    whose index is the number drawn modulo their count; so every empty cell
    is chosen for some number that [myRand] can return. *)
Theorem MakeAMove_reaches_every_empty_cell (p : Player) (g : Game) :
  (∀ rnd m, 0 ≤ rnd →
     openCells (gameBoard g) !!
       Z.to_nat (Z.rem rnd (Z.of_nat (length (openCells (gameBoard g))))) = Some m →
     ∃ b won,
       setCell (gameBoard g) (Z.quot m 3) (Z.rem m 3) (type p) = Some b ∧
       MakeAMove p g rnd = Some (movePlaced p g (Z.quot m 3) (Z.rem m 3) b won)) ∧
  (∀ row col, 0 ≤ row < 3 → 0 ≤ col < 3 →
     getCell (gameBoard g) row col = Some PlayerType.None →
     ∃ rnd b won,
       myRand_range rnd = true ∧
       setCell (gameBoard g) row col (type p) = Some b ∧
       MakeAMove p g rnd = Some (movePlaced p g row col b won)).
Proof.
  split.
  - intros rnd m Hrnd Hm.
    destruct (MakeAMove_index p g rnd m Hrnd Hm) as (_ & _ & _ & b & won & Hb & _ & H).
    by exists b, won.
  - intros row col Hrow Hcol Hcell.
    destruct (number_of_cell row col Hrow Hcol) as [Hq Hr].
    assert (row * 3 + col ∈ openCells (gameBoard g)) as Hin.
    { apply list_elem_of_In, List.filter_In. split.
      - apply cellNumbers_spec. lia.
      - apply openAt_true. by rewrite Hq, Hr. }
    apply list_elem_of_lookup in Hin as [j Hj].
    pose proof (lookup_lt_Some _ _ _ Hj) as Hlt.
    assert (length (openCells (gameBoard g)) ≤ 9)%nat as Hle.
    { unfold openCells.
      assert (∀ (P : Z → bool) l, (length (List.filter P l) ≤ length l)%nat) as H.
      { intros P l. induction l as [|x l IH]; [done|]. cbn [List.filter].
        destruct (P x); cbn [length]; lia. }
      apply (H _ cellNumbers). }
    assert (Z.rem (Z.of_nat j) (Z.of_nat (length (openCells (gameBoard g)))) = Z.of_nat j)
      as Hrem by (apply Z.rem_small; lia).
    destruct (MakeAMove_index p g (Z.of_nat j) (row * 3 + col))
      as (_ & _ & _ & b & won & Hb & _ & H); [lia|by rewrite Hrem, Nat2Z.id|].
    rewrite Hq, Hr in Hb, H. exists (Z.of_nat j), b, won.
    split; [|done]. unfold myRand_range, INT_MAX.
    apply andb_true_iff. split; [apply Z.leb_le|apply Z.leb_le]; lia.
Qed.

(** The witness: on the empty board the number 4 picks the middle cell. *)
Lemma MakeAMove_reaches_every_empty_cell_witness :
  (∃ b won, MakeAMove (MkPlayer 1 0 0 0 0 PlayerType.X) (initGame 0) 4 =
            Some (movePlaced (MkPlayer 1 0 0 0 0 PlayerType.X) (initGame 0) 1 1 b won)) ∧
  (∃ rnd b won, myRand_range rnd = true ∧
     MakeAMove (MkPlayer 1 0 0 0 0 PlayerType.X) (initGame 0) rnd =
     Some (movePlaced (MkPlayer 1 0 0 0 0 PlayerType.X) (initGame 0) 2 2 b won)).
Proof.
  destruct (MakeAMove_reaches_every_empty_cell
              (MkPlayer 1 0 0 0 0 PlayerType.X) (initGame 0)) as [H1 H2].
  split.
  - destruct (H1 4 4 ltac:(lia) eq_refl) as (b & won & _ & H). by exists b, won.
  - destruct (H2 2 2 ltac:(lia) ltac:(lia) eq_refl) as (rnd & b & won & Hr & _ & H).
    by exists rnd, b, won.
Defined.

(** ** Where a thread cannot go on *)

Lemma sections_total (p : Player) (g : Game) (rnd : Z) :
  myRand_range rnd = true →
  is_Some (JoinGame p g rnd) ∧ is_Some (JoinGame_partner p g rnd) ∧
  is_Some (JoinGame_turn p g rnd).
Proof.
  intros Hrnd.
  assert (∀ p g, is_Some (JoinGame_turn p g rnd)) as Hturn.
  { intros p' g'. destruct (JoinGame_turn_outcome p' g' rnd Hrnd) as (c & -> & _). eauto. }
  assert (∀ p g, is_Some (JoinGame_return <$> PlayGame p g rnd)) as Hplay.
  { intros p' g'. unfold PlayGame. case_decide; [by eexists|]. apply Hturn. }
  assert (∀ p g, is_Some (JoinGame_partner p g rnd)) as Hpartner.
  { intros p' g'. unfold JoinGame_partner. case_decide; [apply Hplay|by eexists]. }
  split; [|split; [apply Hpartner|apply Hturn]].
  unfold JoinGame. case_decide; apply fmap_is_Some; [apply Hpartner|apply Hplay].
Qed.

(** A thread that has been notified inside a game can run. *)
Lemma ready_runs N G flag acts s t w i rnd :
  exec (round_start N G flag) acts s → alive s = true →
  myRand_range rnd = true → workers s !! t = Some w → ready i (pc w) →
  is_Some (step s (Run t rnd)).
Proof.
  intros Hexec Halive Hrnd Ht Hready.
  destruct (exec_inv _ _ _ _ _ Hexec) as ((Hlen & _ & _ & _ & Hwk) & _).
  destruct (Hwk t w Ht) as [_ Hloc].
  unfold step, thread_step. rewrite Halive, Hrnd, Ht. cbn [mbind option_bind].
  destruct Hready as [Hpc | Hpc]; rewrite Hpc in Hloc |- *; cbn in Hloc;
    (destruct (games s !! i) as [g|] eqn:Hg;
       [|apply lookup_ge_None in Hg; lia]); cbn [mbind option_bind];
    destruct (sections_total (me w) g rnd Hrnd) as (_ & [c1 H1] & [c2 H2]);
    rewrite ?H1, ?H2; by eexists.
Qed.

(** X12: inside the games a step of a thread fails exactly where the source
    blocks: in a wait on the condition variable of a game that nobody has
    ended, and after the return.  Everywhere else but at the starting gun
    the step is defined: no thread reads the pool of games, [possibleMoves]
    or the board out of range.  At the starting gun the step fails as long
    as the gun has not been fired. *)
Theorem thread_stops_only_where_it_waits N G flag acts s t w rnd :
  exec (round_start N G flag) acts s → alive s = true →
  myRand_range rnd = true → workers s !! t = Some w →
  (pc w ≠ AtStartingGun → (step s (Run t rnd) = None ↔ blocked (pc w))) ∧
  (pc w = AtStartingGun → gunFlag (poolOfPlayers s) = false →
   step s (Run t rnd) = None).
Proof.
  intros Hexec Halive Hrnd Ht.
  destruct (exec_inv _ _ _ _ _ Hexec) as ((Hlen & Htot & _ & _ & Hwk) & _).
  destruct (Hwk t w Ht) as [_ Hloc].
  pose proof (λ g, proj1 (sections_total (me w) g rnd Hrnd)) as HJ.
  pose proof (λ g, proj1 (proj2 (sections_total (me w) g rnd Hrnd))) as HP.
  pose proof (λ g, proj2 (proj2 (sections_total (me w) g rnd Hrnd))) as HT.
  unfold step, thread_step. rewrite Halive, Hrnd, Ht. cbn [mbind option_bind].
  assert (∀ i, (i < G)%nat → is_Some (games s !! i)) as Hgame.
  { intros i Hi. apply lookup_lt_is_Some. lia. }
  destruct (pc w) as [| |i|i|i [|]|i [|]|] eqn:Hpc; cbn [blocked];
    (split; [intros Hne|intros Hgun Hflag; try done]); try done.
  - by rewrite Hflag.
  - case_decide as Hi; [|done].
    destruct (Hgame i) as [g ->]; [lia|]. cbn [mbind option_bind].
    by destruct (TryToPlayEachGame_claim g).
  - destruct (Hgame i Hloc) as [g ->]. cbn [mbind option_bind].
    destruct (HJ g) as [c ->]. done.
  - destruct (Hgame i Hloc) as [g ->]. cbn [mbind option_bind].
    destruct (HP g) as [c ->]. done.
  - destruct (Hgame i Hloc) as [g ->]. cbn [mbind option_bind].
    destruct (HT g) as [c ->]. done.
Qed.

(** The witness: in the sample round player 1 waits for its turn after its
    first move and cannot go on, player 0 can; and before [main] has fired
    the gun a thread that has registered cannot go on. *)
Lemma thread_stops_only_where_it_waits_witness :
  exec (round_start 2 1 false) demo_first_move.2 demo_first_move.1 ∧
  step demo_first_move.1 (Run 1 0) = None ∧
  (∃ s' a, step demo_first_move.1 (Run 0 0) = Some (s', a)) ∧
  ∃ s, exec (round_start 2 1 false) [] s ∧ step s (Run 0 0) = None.
Proof.
  split; [exact demo_first_move_exec|]. split; [|split].
  - destruct (thread_stops_only_where_it_waits 2 1 false _ _ 1%nat _ 0
                demo_first_move_exec eq_refl eq_refl eq_refl) as [H _].
    apply H; [discriminate|exact I].
  - destruct (step demo_first_move.1 (Run 0 0)) as [[s' a]|] eqn:E; [by eauto|].
    destruct (thread_stops_only_where_it_waits 2 1 false _ _ 0%nat _ 0
                demo_first_move_exec eq_refl eq_refl eq_refl) as [H _].
    apply H in E; [|discriminate]. vm_compute in E. done.
  - assert (∃ s, run (round_start 2 1 false) [Run 0 0] = Some (s, []))
      as [s Hs] by (eexists; vm_compute; reflexivity).
    exists s.
    assert (exec (round_start 2 1 false) [] s) as Hexec
      by (apply (run_exec _ [Run 0 0]); [repeat constructor|exact Hs]).
    split; [exact Hexec|].
    vm_compute in Hs. injection Hs as <-.
    destruct (thread_stops_only_where_it_waits 2 1 false [] _ 0%nat _ 0
                Hexec eq_refl eq_refl eq_refl) as [_ H].
    by apply H.
Defined.

(** ** Further properties of a round *)

(** X4: no thread leaves a slot behind that nobody has claimed; so when
    every thread of a round with at least one player has returned, every
    game has been claimed twice, joined by two different threads as O and as
    X and finished, and each of the two has counted its result. *)
Theorem every_game_is_played N G flag acts s :
  exec (round_start N G flag) acts s →
  (∀ t w i g, workers s !! t = Some w → games s !! i = Some g →
     passed (pc w) i → 0 < playerCount g) ∧
  ((0 < N)%nat → (∀ t w, workers s !! t = Some w → pc w = Finished) →
   ∀ i, (i < G)%nat →
     ∃ g a b, games s !! i = Some g ∧ playerCount g = 2 ∧ a ≠ b ∧
       joins (gn_of i) acts = [(tid a, PlayerType.O); (tid b, PlayerType.X)] ∧
       (currentGameState g = GameState.Won ∨ currentGameState g = GameState.Draw) ∧
       length (tallies (gn_of i) acts) = 2%nat).
Proof.
  intros Hexec. split; [apply (exec_scan_inv _ _ _ _ _ Hexec)|].
  intros HN Hfin i Hi.
  pose proof (all_completed N G flag acts s i HN Hi Hexec Hfin) as Hdone.
  destruct (completed_done _ _ _ _ _ (exec_inv _ _ _ _ _ Hexec) Hdone)
    as (g & a & b & m & o & how & Hg & (_ & Hj & _ & Htal) & Hok).
  cbn [slot_ok] in Hok. destruct Hok as (Hab & _ & Hhow & Hst & Hcount & _).
  exists g, a, b. repeat split; try done.
  - rewrite Hst. destruct how; auto. done.
  - by rewrite Htal.
Qed.

(** The witness: the game of the sample round. *)
Lemma every_game_is_played_witness :
  exec (round_start 2 1 false) demo_end.2 demo_end.1 ∧
  ∃ g, games demo_end.1 !! 0%nat = Some g ∧ playerCount g = 2 ∧
       length (tallies (gn_of 0) demo_end.2) = 2%nat.
Proof.
  split; [exact demo_end_exec|].
  destruct (every_game_is_played 2 1 false _ _ demo_end_exec) as [_ H].
  destruct (H ltac:(lia)) with (i := 0%nat) as (g & a & b & Hg & Hc & _ & _ & _ & Ht);
    [|lia|by exists g].
  intros t w Hw. destruct t as [|[|t]]; vm_compute in Hw; [..|done];
    by injection Hw as <-.
Defined.

(** X5: between two critical sections the counter [gamesPlayed] of every
    player is the sum of its wins, losses and draws, and these are the
    results that the player has counted in the round. *)
Theorem gamesPlayed_is_the_sum N G flag acts s t w :
  exec (round_start N G flag) acts s → workers s !! t = Some w →
  gamesPlayed (me w) = winCount (me w) + loseCount (me w) + drawCount (me w) ∧
  gamesPlayed (me w) =
    times (is_win (tid t)) acts + times (is_loss (tid t)) acts +
    times (is_draw (tid t)) acts ∧
  0 ≤ gamesPlayed (me w).
Proof.
  intros Hexec Hw.
  pose proof (exec_played _ _ _ _ _ Hexec t w Hw) as Hp.
  destruct (exec_inv _ _ _ _ _ Hexec) as (_ & Hcount & _).
  destruct (Hcount t w Hw) as (H1 & H2 & H3).
  split; [done|]. split; [lia|]. rewrite Hp, H1, H2, H3. unfold times. lia.
Qed.

(** The witness: the winner of the sample round has played one game. *)
Lemma gamesPlayed_is_the_sum_witness :
  exec (round_start 2 1 false) demo_end.2 demo_end.1 ∧
  ∃ w, workers demo_end.1 !! 1%nat = Some w ∧
       gamesPlayed (me w) = 1 ∧ winCount (me w) = 1.
Proof.
  split; [exact demo_end_exec|]. eexists. split; [vm_compute; reflexivity|].
  destruct (gamesPlayed_is_the_sum 2 1 false _ _ 1%nat _ demo_end_exec eq_refl)
    as (H & _).
  split; reflexivity.
Defined.

(** X13: in the first round, where the gun is not fired at the start, the
    counter of the pool of players is the number of threads that have
    registered and not returned, so it stays between 0 and the number of
    players; [main] passes its first wait only when every thread of the
    round has registered and waits at the starting gun, and fires the gun
    then. *)
Theorem pool_counts_the_running_threads N G acts s :
  exec (round_start N G false) acts s →
  totalPlayerCount (poolOfPlayers s) = Z.of_nat (runners (workers s)) ∧
  0 ≤ totalPlayerCount (poolOfPlayers s) ≤ Z.of_nat N ∧
  (∀ s' a, step s FireGun = Some (s', a) →
     gunFlag (poolOfPlayers s) = false ∧
     gunFlag (poolOfPlayers s') = true ∧ workers s' = workers s ∧
     ∀ t w, workers s !! t = Some w → pc w = AtStartingGun).
Proof.
  intros Hexec.
  destruct (barrier_exec _ _ _ _ _ Hexec) as (Hrun & Hpt & _).
  destruct (exec_inv _ _ _ _ _ Hexec) as ((_ & _ & Hwlen & _) & _).
  pose proof (runners_le (workers s)) as Hle.
  split; [done|]. split; [lia|].
  intros s' a Hstep. unfold step in Hstep.
  destruct (alive s); [|done].
  destruct (decide (mainAt s = AwaitRegistered)) as [Hm|]; [|done].
  destruct (gun_exec _ _ _ _ Hexec Hm) as [Hgun Hat].
  unfold main_step in Hstep. rewrite Hm in Hstep.
  destruct (decide (totalPlayerCount (poolOfPlayers s) = playerTotal s)) as [Hc|]; [|done].
  injection Hstep as <- <-. split; [done|]. split; [done|]. split; [done|].
  intros t w Hw.
  pose proof (runners_all (workers s) t w ltac:(lia) Hw) as Hr.
  destruct (Hat t w Hw) as [E | E]; [|done]. by rewrite E in Hr.
Qed.

(** The witness: in the sample round both threads register before [main]
    fires the gun. *)
Lemma pool_counts_the_running_threads_witness :
  ∃ s, exec (round_start 2 1 false) [] s ∧
       totalPlayerCount (poolOfPlayers s) = 2 ∧
       ∃ s' a, step s FireGun = Some (s', a).
Proof.
  assert (∃ s, run (round_start 2 1 false) [Run 0 0; Run 1 0] = Some (s, []))
    as [s Hs] by (eexists; vm_compute; reflexivity).
  exists s.
  assert (exec (round_start 2 1 false) [] s) as Hexec
    by (apply (run_exec _ [Run 0 0; Run 1 0]); [repeat constructor|exact Hs]).
  split; [exact Hexec|].
  destruct (pool_counts_the_running_threads 2 1 [] s Hexec) as (H & _).
  vm_compute in Hs. injection Hs as <-. split; [reflexivity|].
  eexists _, _. vm_compute. reflexivity.
Defined.

(** ** PrintResults *)

(** X2: given the lengths of its two arrays, which are [int]s, PrintResults
    logs one line per player and per game between the headers and the
    totals.  The totals of the players are the sums of their counters as an
    [int] holds them, the draws halved: a sum between [INT_MIN] and
    [INT_MAX] is logged as it is, a sum of [INT_MAX + 1] as [INT_MIN].  A
    game counts as won in the state Won and as a draw in every other state,
    also when it is still being played, so the two totals of the games add
    up to their number.  Given more players or more games than the arrays
    hold, it reads out of range. *)
Theorem PrintResults_totals (players : list Player) (games : list Game) :
  Z.of_nat (length players) ≤ INT_MAX → Z.of_nat (length games) ≤ INT_MAX →
  PrintResults players (Z.of_nat (length players)) games (Z.of_nat (length games)) =
    Some ([PlayerHeader] ++ (playerLine <$> players) ++
          [PlayerTotals (Z.of_nat (length players))
             (int_wrap (total winCount players))
             (int_wrap (total loseCount players))
             (Z.quot (int_wrap (total drawCount players)) 2);
           GameHeader] ++
          (gameLine <$> games) ++
          [GameTotals (Z.of_nat (length games)) (in_state GameState.Won games)
             (Z.of_nat (length games) - in_state GameState.Won games)]) ∧
  (∀ z, INT_MIN ≤ z ≤ INT_MAX → int_wrap z = z) ∧
  (∀ z, INT_MIN ≤ int_wrap z ≤ INT_MAX ∧
        Z.modulo (int_wrap z) 4294967296 = Z.modulo z 4294967296) ∧
  int_wrap (INT_MAX + 1) = INT_MIN ∧
  Z.of_nat (length games) - in_state GameState.Won games =
    in_state GameState.StillPlaying games + in_state GameState.Draw games ∧
  (∀ n m, Z.of_nat (length players) < n →
     PrintResults players n games m = None) ∧
  (∀ m, Z.of_nat (length games) < m →
     PrintResults players (Z.of_nat (length players)) games m = None).
Proof.
  intros Hplayers Hgames.
  split; [|split; [apply int_wrap_id|split; [|split; [reflexivity|split; [|split]]]]].
  - rewrite PrintResults_report. unfold report.
    pose proof (in_state_bounds GameState.Won games) as Hb.
    rewrite (int_wrap_id (in_state GameState.Won games))
      by (unfold INT_MIN, INT_MAX in *; lia).
    rewrite (int_wrap_id (_ - _)) by (unfold INT_MIN, INT_MAX in *; lia).
    done.
  - intros z. split; [apply int_wrap_range|]. unfold int_wrap.
    rewrite <- (Z.add_opp_r _ 2147483648), Zplus_mod_idemp_l.
    f_equal. lia.
  - induction games as [|g gs IH]; [done|].
    rewrite !in_state_cons. cbn [length] in *.
    destruct (currentGameState g); repeat case_decide; try done; lia.
  - intros n m Hn. unfold PrintResults.
    rewrite (for_range_past
               (λ p (st : PlayerSums * list ResultLine),
                  (MkPlayerSums (int_wrap (totalPlayerWins st.1 + winCount p))
                     (int_wrap (totalPlayerLoses st.1 + loseCount p))
                     (int_wrap (totalPlayerTies st.1 + drawCount p)),
                   st.2 ++ [playerLine p])) players); [done|done|lia|lia].
  - intros m Hm. unfold PrintResults. rewrite Nat2Z.id.
    rewrite (for_range_fold
               (λ p (st : PlayerSums * list ResultLine),
                  (MkPlayerSums (int_wrap (totalPlayerWins st.1 + winCount p))
                     (int_wrap (totalPlayerLoses st.1 + loseCount p))
                     (int_wrap (totalPlayerTies st.1 + drawCount p)),
                   st.2 ++ [playerLine p]))
               players (PrintResults_player players) (λ _ _, eq_refl)
               players [] []) by (by rewrite app_nil_r).
    change (MkPlayerSums 0 0 0)
      with (MkPlayerSums (int_wrap 0) (int_wrap 0) (int_wrap 0)).
    rewrite fold_players. cbn [mbind option_bind].
    rewrite (for_range_past
               (λ g (st : GameSums * list ResultLine),
                  (if decide (currentGameState g = GameState.Won)
                   then MkGameSums (int_wrap (totalGamesWon st.1 + 1)) (totalGamesTied st.1)
                   else MkGameSums (totalGamesWon st.1) (int_wrap (totalGamesTied st.1 + 1)),
                   st.2 ++ [gameLine g])) games); [done|done|lia|lia].
Qed.

(** The witness: two players, one game that nobody has played; and two
    players whose wins add up to [INT_MAX + 1]. *)
Lemma PrintResults_totals_witness :
  PrintResults [initPlayer 0; initPlayer 1] 2 [initGame 0] 1 =
    Some [PlayerHeader; PlayerResult 0 0 0 0 0; PlayerResult 1 0 0 0 0;
          PlayerTotals 2 0 0 0; GameHeader; GameResult 1 (-1) (-1) "Draw";
          GameTotals 1 0 1] ∧
  PrintResults [initPlayer 0; initPlayer 1] 3 [initGame 0] 1 = None ∧
  PrintResults [MkPlayer 0 2147483647 2147483647 0 0 PlayerType.X;
                MkPlayer 1 1 1 0 0 PlayerType.X] 2 [] 0 =
    Some [PlayerHeader; PlayerResult 0 2147483647 2147483647 0 0;
          PlayerResult 1 1 1 0 0;
          PlayerTotals 2 (-2147483648) 0 0; GameHeader; GameTotals 0 0 0].
Proof.
  destruct (PrintResults_totals [initPlayer 0; initPlayer 1] [initGame 0])
    as (H1 & _ & _ & _ & _ & H2 & _); [vm_compute; discriminate..|].
  split; [exact H1|]. split; [apply H2; cbn; lia|].
  destruct (PrintResults_totals
              [MkPlayer 0 2147483647 2147483647 0 0 PlayerType.X;
               MkPlayer 1 1 1 0 0 PlayerType.X] [])
    as (H3 & _); [vm_compute; discriminate..|].
  exact H3.
Defined.

(** ** The seats of a game *)

(** The phase of a slot that a thread is about to join. *)
Lemma joining_phase N G s acts t w i g :
  round_inv N G s acts →
  workers s !! t = Some w → pc w = AtJoin i → games s !! i = Some g →
  playerX g = -1 ∧ currentGameState g = GameState.StillPlaying ∧
  currentTurn g = PlayerType.X ∧ marks (gn_of i) acts = [] ∧
  joins (gn_of i) acts = seat PlayerType.O (playerO g).
Proof.
  intros (Hwf & _ & Hphase) Ht Hpc Hg.
  destruct Hwf as (Hlen & _).
  assert (i < G)%nat as Hi by (apply lookup_lt_Some in Hg; lia).
  destruct (Hphase i Hi) as (ph & (_ & Htr) & g0 & Hg0 & Hok).
  assert (g0 = g) as -> by congruence.
  pose proof (joining_pos _ _ _ _ Ht Hpc) as Hpos.
  destruct ph as [|a|a b x y|a b m o how|a b m o how]; cbn [slot_ok] in Hok.
  - destruct Hok as (HO & HX & Hst & Hturn & _). destruct Htr as (Hj & Hm & _).
    rewrite Hj, HO. by repeat split.
  - destruct Hok as (HO & HX & Hst & Hturn & _). destruct Htr as (Hj & Hm & _).
    rewrite Hj, HO. unfold seat. rewrite decide_False by apply tid_ne.
    by repeat split.
  - destruct Hok as (_ & _ & _ & _ & _ & _ & _ & _ & Hj & _). lia.
  - destruct Hok as (_ & _ & _ & _ & _ & _ & _ & Hj & _). lia.
  - destruct Hok as (_ & _ & _ & _ & _ & Hj & _). lia.
Qed.

Lemma seats_frame gn acts a gn' :
  Forall (λ x, action_game x = gn') a → gn' ≠ gn →
  joins gn (acts ++ a) = joins gn acts.
Proof.
  intros Ha Hne. destruct (other_game gn gn' a Ha Hne) as (Hj & _).
  by rewrite joins_app, Hj, app_nil_r.
Qed.

Lemma TurnOutcome_joins p g c gn :
  TurnOutcome p g c → joins gn (sec_actions c) = [].
Proof. by destruct 1. Qed.

Lemma joins_joined gn pid r : joins gn [Joined gn pid r] = [(pid, r)].
Proof. unfold joins. cbn [omap list_omap join_of]. by rewrite decide_True. Qed.

Lemma seat_tid r t : seat r (tid t) = [(tid t, r)].
Proof. unfold seat. by rewrite decide_False by apply tid_ne. Qed.

Lemma step_seats N G spur s acts s' a :
  round_inv N G s acts → StepKind spur s s' a →
  seats_inv s acts → seats_inv s' (acts ++ a).
Proof.
  intros Hinv Hk Hs j g' Hg'.
  destruct Hk as [t w l Ht Hwalk Hq Hws Hgs Hal ->
                 |t w i g Ht Hpc Hg Hws Hgs Htot' Hal ->
                 |t w i g rnd c Ht Hg Hrnd Hent Hws Hgs Htot' Hal ->
                 |Hws Hgs Hal ->].
  - rewrite app_nil_r. unfold games in *. rewrite Hgs in Hg'. by apply Hs.
  - rewrite app_nil_r. rewrite Hgs in Hg'.
    destruct (decide (j = i)) as [->|Hne].
    + rewrite list_lookup_insert_eq in Hg' by (by eapply lookup_lt_Some).
      injection Hg' as <-. rewrite (Hs i g Hg).
      unfold TryToPlayEachGame_claim. by case_decide.
    + rewrite list_lookup_insert_ne in Hg' by done. by apply Hs.
  - destruct (section_spec _ _ _ _ _ _ _ _ _ _ Hinv Ht Hg Hrnd Hent)
      as (Hsec & _ & _ & Hid & Hgn).
    rewrite Hgs in Hg'. destruct (decide (j = i)) as [->|Hne].
    2:{ rewrite list_lookup_insert_ne in Hg' by done.
        destruct (SectionSpec_facts _ _ _ _ _ Hsec) as (_ & _ & _ & _ & Hall & _).
        rewrite (seats_frame (gn_of j) acts _ (gn_of i)); [apply Hs; exact Hg'| |].
        - eapply Forall_impl; [exact Hall|]. cbn. intros x [_ ?]. congruence.
        - intros E. by apply gn_of_inj in E. }
    rewrite list_lookup_insert_eq in Hg' by (by eapply lookup_lt_Some).
    injection Hg' as <-.
    assert (∀ p0 g0 pre, Entry (me w) g i (pc w) p0 g0 pre →
              joins (gn_of i) (acts ++ pre) =
              seat PlayerType.O (playerO g0) ++ seat PlayerType.X (playerX g0)) as Hentry.
    { intros p0 g0 pre He. rewrite joins_app.
      inversion He as [HO E | HO E | E | E]; subst.
      - destruct (joining_phase _ _ _ _ _ _ _ _ Hinv Ht (eq_sym E) Hg)
          as (HX & _ & _ & _ & Hj).
        rewrite Hj, HO, Hgn, Hid. cbn [playerO playerX set_playerO].
        rewrite HX, joins_joined, seat_tid. unfold seat.
        by rewrite decide_True.
      - destruct (joining_phase _ _ _ _ _ _ _ _ Hinv Ht (eq_sym E) Hg)
          as (HX & _ & _ & _ & Hj).
        rewrite Hj, Hgn, Hid. cbn [playerO playerX set_playerX].
        by rewrite joins_joined, seat_tid.
      - unfold joins at 2. cbn. rewrite app_nil_r. by apply Hs.
      - unfold joins at 2. cbn. rewrite app_nil_r. by apply Hs. }
    destruct Hsec as [p0 g0 pre He HX -> | p0 g0 pre c0 He Hc0 HX HO ->].
    + cbn [sec_game sec_actions]. by apply (Hentry p0).
    + cbn [sec_game sec_actions prepend]. rewrite app_assoc, joins_app.
      rewrite (TurnOutcome_joins _ _ _ _ Hc0), app_nil_r, (Hentry _ _ _ He).
      by destruct (TurnOutcome_facts _ _ _ Hc0) as (_ & _ & _ & _ & _ & -> & -> & _).
  - rewrite app_nil_r. unfold games in *. rewrite Hgs in Hg'. by apply Hs.
Qed.

Lemma exec_seats N G flag acts s :
  exec (round_start N G flag) acts s → seats_inv s acts.
Proof.
  induction 1 as [|acts s e s' a Hexec IH He Hstep].
  - intros i g Hg. cbn in Hg. rewrite list_lookup_fmap in Hg.
    destruct (seq 0 G !! i) as [k|] eqn:E; [|done]. by injection Hg as <-.
  - destruct (step_kinds _ _ _ _ He Hstep) as [_ Hk].
    eapply step_seats; [by eapply exec_inv|exact Hk|exact IH].
Qed.

Lemma joins_elem gn pid r acts :
  (pid, r) ∈ joins gn acts → Joined gn pid r ∈ acts.
Proof.
  unfold joins. intros Hin. apply list_elem_of_omap in Hin as (a & Ha & Hj).
  destruct a; cbn in Hj; try done. case_decide; [|done]. by simplify_eq.
Qed.

(** X14: the fields [playerO] and [playerX] of a game are -1 or the ids of
    the threads that have joined it as O and as X, in this order: X is
    never seated before O, and the two are different threads of the
    round. *)
Theorem seats_name_the_joiners N G flag acts s i g :
  exec (round_start N G flag) acts s → games s !! i = Some g →
  joins (gn_of i) acts =
    seat PlayerType.O (playerO g) ++ seat PlayerType.X (playerX g) ∧
  (∀ v, v = playerO g ∨ v = playerX g →
     v = -1 ∨ ∃ t, (t < N)%nat ∧ v = tid t) ∧
  (playerX g ≠ -1 → playerO g ≠ -1 ∧ playerX g ≠ playerO g).
Proof.
  intros Hexec Hg.
  pose proof (exec_seats _ _ _ _ _ Hexec i g Hg) as Hseats.
  pose proof (exec_actions _ _ _ _ _ Hexec) as Hacts.
  destruct (exec_inv _ _ _ _ _ Hexec) as ((Hlen & _) & _ & Hphase).
  assert (i < G)%nat as Hi by (apply lookup_lt_Some in Hg; lia).
  split; [done|]. split.
  - intros v Hv. destruct (decide (v = -1)) as [|Hne]; [by left|]. right.
    assert (∃ r, (v, r) ∈ joins (gn_of i) acts) as [r Hin].
    { rewrite Hseats. unfold seat.
      destruct Hv as [-> | ->].
      - rewrite (decide_False (P := playerO g = -1)) by done.
        exists PlayerType.O. apply elem_of_app. left. left.
      - rewrite (decide_False (P := playerX g = -1)) by done.
        exists PlayerType.X. apply elem_of_app. right. left. }
    apply joins_elem in Hin. rewrite Forall_forall in Hacts.
    destruct (Hacts _ Hin) as [(t & Ht & E) _]. by exists t.
  - intros HX. destruct (Hphase i Hi) as (ph & (_ & Htr) & g0 & _ & Hok).
    unfold seat in Hseats. rewrite (decide_False (P := playerX g = -1)) in Hseats by done.
    assert (∀ a b, a ≠ b →
              joins (gn_of i) acts = [(tid a, PlayerType.O); (tid b, PlayerType.X)] →
              playerO g ≠ -1 ∧ playerX g ≠ playerO g) as Htwo.
    { intros a b Hab Hj. rewrite Hj in Hseats.
      destruct (decide (playerO g = -1)); cbn [app] in Hseats; [done|].
      injection Hseats as E1 E2.
      split; [done|]. intros E. apply Hab. symmetry. apply tid_inj. congruence. }
    destruct ph as [|a|a b x y|a b m o how|a b m o how];
      destruct Htr as (Hj & _); cbn [slot_ok] in Hok.
    + rewrite Hj in Hseats. by destruct (decide (playerO g = -1)).
    + rewrite Hj in Hseats. by destruct (decide (playerO g = -1)).
    + apply (Htwo a b); [|done]. by destruct Hok as (_ & _ & ? & _).
    + apply (Htwo a b); [|done]. by destruct Hok as (_ & _ & ? & _).
    + apply (Htwo a b); [|done]. by destruct Hok as (? & _).
Qed.

(** The witness: the seats of the game of the sample round. *)
Lemma seats_name_the_joiners_witness :
  exec (round_start 2 1 false) demo_end.2 demo_end.1 ∧
  ∃ g, games demo_end.1 !! 0%nat = Some g ∧
       joins (gn_of 0) demo_end.2 = [(0, PlayerType.O); (1, PlayerType.X)] ∧
       playerO g = 0 ∧ playerX g = 1.
Proof.
  split; [exact demo_end_exec|]. eexists. split; [exact demo_end_game|].
  destruct (seats_name_the_joiners 2 1 false _ _ 0%nat _ demo_end_exec demo_end_game)
    as (H & _).
  split; [exact H|]. split; reflexivity.
Defined.

(** ** The player that finds the draw *)

(** The phase of a slot in which a thread is inside a game that goes on
    with both players. *)
Lemma playing_phase N G s acts t w i g :
  round_inv N G s acts →
  workers s !! t = Some w → inside i (pc w) →
  games s !! i = Some g → currentGameState g = GameState.StillPlaying →
  playerX g ≠ -1 →
  ∃ a b x y wx wy,
    a ≠ b ∧ pair_of a b x y ∧ (t = x ∨ t = y) ∧
    playerO g = tid a ∧ playerX g = tid b ∧
    currentTurn g = role a x ∧
    currentTurn g = turn_after (length (marks (gn_of i) acts)) ∧
    workers s !! x = Some wx ∧ workers s !! y = Some wy ∧
    type (me wx) = role a x ∧ type (me wy) = role a y.
Proof.
  intros (Hwf & _ & Hphase) Ht Hin Hg Hst HX.
  destruct Hwf as (Hlen & _).
  assert (i < G)%nat as Hi by (apply lookup_lt_Some in Hg; lia).
  destruct (Hphase i Hi) as (ph & _ & g0 & Hg0 & Hok).
  assert (g0 = g) as -> by congruence.
  destruct ph as [|a|a b x y|a b m o how|a b m o how]; cbn [slot_ok] in Hok.
  - destruct Hok as (_ & _ & _ & _ & _ & _ & Hno).
    by apply (Hno t w Ht), elem_of_nil in Hin.
  - by destruct Hok as (_ & ? & _).
  - destruct Hok as (HO & HX' & Hab & Hpair & _ & Hturn & Hturn' & _ & Hj & Hno &
                     wx & wy & Hwx & Hwy & Htx & Hty & Hrx & Hpy).
    exists a, b, x, y, wx, wy. repeat split; try done.
    by apply elem_two, (Hno t w Ht).
  - destruct Hok as (_ & _ & _ & _ & Hhow & Hhow' & _). congruence.
  - destruct Hok as (_ & _ & Hhow & Hhow' & _). congruence.
Qed.

Lemma Entry_cases p g i l p0 g0 pre :
  Entry p g i l p0 g0 pre →
  l = AtJoin i ∨ (p0 = p ∧ g0 = g ∧ pre = [] ∧ inside i l).
Proof. destruct 1; auto; right; done. Qed.

Lemma step_draw N G spur s acts s' a :
  round_inv N G s acts → board_inv s acts → StepKind spur s s' a →
  draw_inv s acts → draw_inv s' (acts ++ a).
Proof.
  intros Hinv Hboard Hk Hd j g' Hg' Hst'.
  destruct Hk as [t w l Ht Hwalk Hq Hws Hgs Hal ->
                 |t w i g Ht Hpc Hg Hws Hgs Htot' Hal ->
                 |t w i g rnd c Ht Hg Hrnd Hent Hws Hgs Htot' Hal ->
                 |Hws Hgs Hal ->].
  - rewrite app_nil_r. unfold games in *. rewrite Hgs in Hg'. by apply Hd.
  - rewrite app_nil_r. rewrite Hgs in Hg'.
    destruct (decide (j = i)) as [->|Hne].
    + rewrite list_lookup_insert_eq in Hg' by (by eapply lookup_lt_Some).
      injection Hg' as <-.
      assert (playerO (TryToPlayEachGame_claim g).2 = playerO g ∧
              currentGameState (TryToPlayEachGame_claim g).2 = currentGameState g)
        as [E1 E2] by (unfold TryToPlayEachGame_claim; by case_decide).
      rewrite E1. rewrite E2 in Hst'. by apply Hd.
    + rewrite list_lookup_insert_ne in Hg' by done. by apply Hd.
  - apply elem_of_app.
    rewrite Hgs in Hg'. destruct (decide (j = i)) as [->|Hne].
    2:{ rewrite list_lookup_insert_ne in Hg' by done. left. by apply Hd. }
    rewrite list_lookup_insert_eq in Hg' by (by eapply lookup_lt_Some).
    injection Hg' as <-.
    destruct (section_spec _ _ _ _ _ _ _ _ _ _ Hinv Ht Hg Hrnd Hent)
      as (Hsec & _ & _ & Hid & Hgn).
    assert (∀ p0 g0 pre, Entry (me w) g i (pc w) p0 g0 pre →
              (pc w = AtJoin i ∧ marks (gn_of i) acts = [] ∧
               currentGameState g = GameState.StillPlaying) ∨
              (p0 = me w ∧ g0 = g ∧ inside i (pc w))) as Hentry.
    { intros p0 g0 pre He.
      destruct (Entry_cases _ _ _ _ _ _ _ He) as [E | (-> & -> & _ & Hin)]; [|by right].
      left. destruct (joining_phase _ _ _ _ _ _ _ _ Hinv Ht E Hg)
        as (_ & ? & _ & ? & _). done. }
    destruct Hsec as [p0 g0 pre He HX -> | p0 g0 pre c0 He Hc0 HX HO ->];
      destruct (Entry_facts _ _ _ _ _ _ _ He)
        as (_ & _ & _ & _ & _ & Egn & _ & Est & Eturn & Eboard & _);
      cbn [sec_game sec_actions prepend] in *.
    + destruct (Hentry _ _ _ He) as [(_ & _ & Hst) | (-> & -> & _)]; [congruence|].
      left. by apply Hd.
    + destruct (Hentry _ _ _ He) as [(Hpc & Hm & Hst) | (-> & -> & Hin)].
      * (* the first move of a game is not a draw *)
        exfalso. destruct (Hboard i g Hg) as (_ & Hfill & _).
        rewrite Hm in Hfill. cbn [length] in Hfill.
        destruct Hc0; cbn in Hst'; try done; try congruence.
        match goal with H : boardFull _ |- _ => apply filled_full in H end.
        congruence.
      * destruct Hc0 as [Hst Hturn | row col b Hst Hturn Hrow Hcol Hcell Hset Hwon
                        | row col b Hst Hturn Hrow Hcol Hcell Hset Hwon
                        | Hst Hturn Hfull | Hst | Hst]; cbn in Hst' |- *;
          try done; try congruence.
        -- right. apply elem_of_app. right.
           destruct (playing_phase _ _ _ _ _ _ _ _ Hinv Ht Hin Hg Hst HX)
             as (a0 & b0 & x & y & wx & wy & Hab & Hpair & Hxy & HO' & _ &
                 Hrole & Hafter & Hwx & Hwy & Htx & Hty).
           destruct (Hboard i g Hg) as (_ & Hfill & _).
           rewrite <- Hfill, (filled_full _ Hfull) in Hafter.
           destruct (role_other a0 b0 x y Hab Hpair) as (Hother & _).
           assert (t = x) as ->.
           { destruct Hxy as [-> | ->]; [done|]. exfalso.
             assert (wy = w) as -> by congruence.
             rewrite Hrole, Hty, Hother in Hturn. symmetry in Hturn.
             by apply otherTurn_ne in Hturn. }
           assert (x = a0) as ->.
           { rewrite Hrole in Hafter. unfold role in Hafter.
             by destruct (decide (x = a0)). }
           rewrite HO', <- Hid, Hgn. left.
        -- left. by apply Hd.
  - rewrite app_nil_r. unfold games in *. rewrite Hgs in Hg'. by apply Hd.
Qed.

Lemma exec_draw N G flag acts s :
  exec (round_start N G flag) acts s → draw_inv s acts.
Proof.
  induction 1 as [|acts s e s' a Hexec IH He Hstep].
  - intros i g Hg. cbn in Hg. rewrite list_lookup_fmap in Hg.
    destruct (seq 0 G !! i) as [k|] eqn:E; [|done]. by injection Hg as <-.
  - destruct (step_kinds _ _ _ _ He Hstep) as [_ Hk].
    eapply step_draw; [by eapply exec_inv|by eapply exec_board|exact Hk|exact IH].
Qed.

Lemma alternates_nine (l : list PlayerType.t) :
  alternates l → length l = 9%nat →
  l = [PlayerType.X; PlayerType.O; PlayerType.X; PlayerType.O; PlayerType.X;
       PlayerType.O; PlayerType.X; PlayerType.O; PlayerType.X].
Proof.
  intros Halt Hlen.
  do 9 (destruct l as [|? l]; [done|]). destruct l; [|done].
  rewrite (Halt 0%nat _ eq_refl), (Halt 1%nat _ eq_refl), (Halt 2%nat _ eq_refl),
    (Halt 3%nat _ eq_refl), (Halt 4%nat _ eq_refl), (Halt 5%nat _ eq_refl),
    (Halt 6%nat _ eq_refl), (Halt 7%nat _ eq_refl), (Halt 8%nat _ eq_refl).
  reflexivity.
Qed.

(** X15: a draw takes ten turns.  X places five marks and O four, none
    completes a line, and then the player that joined as O finds no empty
    cell: it is MakeAMove called by O that counts the first draw of the
    game. *)
Theorem draw_is_found_by_O N G flag acts s i g :
  exec (round_start N G flag) acts s → games s !! i = Some g →
  currentGameState g = GameState.Draw →
  snd <$> marks (gn_of i) acts =
    [PlayerType.X; PlayerType.O; PlayerType.X; PlayerType.O; PlayerType.X;
     PlayerType.O; PlayerType.X; PlayerType.O; PlayerType.X] ∧
  playerO g ≠ -1 ∧
  CountedDrawMoving (gn_of i) (playerO g) ∈ acts ∧
  (playerO g, PlayerType.O) ∈ joins (gn_of i) acts.
Proof.
  intros Hexec Hg Hst.
  pose proof (exec_draw _ _ _ _ _ Hexec i g Hg Hst) as Hd.
  destruct (exec_board _ _ _ _ _ Hexec i g Hg) as (_ & Hfill & _ & _ & Hb).
  rewrite Hst in Hb. destruct Hb as [Hfull _].
  rewrite (filled_full _ Hfull) in Hfill.
  destruct (exec_inv _ _ _ _ _ Hexec) as ((Hlen & _) & _ & Hphase).
  assert (i < G)%nat as Hi by (apply lookup_lt_Some in Hg; lia).
  destruct (Hphase i Hi) as (ph & (Halt & _) & _).
  split; [apply alternates_nine; [done|by rewrite length_fmap]|].
  pose proof (exec_actions _ _ _ _ _ Hexec) as Hacts.
  rewrite Forall_forall in Hacts. destruct (Hacts _ Hd) as [(t & _ & E) _].
  cbn in E. assert (playerO g ≠ -1) as HO by (rewrite E; apply tid_ne).
  split; [done|]. split; [done|].
  rewrite (exec_seats _ _ _ _ _ Hexec i g Hg). unfold seat.
  rewrite (decide_False (P := playerO g = -1)) by done.
  apply elem_of_app. left. left.
Qed.

Lemma draw_end_exec : exec (round_start 2 1 false) draw_end.2 draw_end.1.
Proof.
  apply (run_exec _ draw_events); [repeat constructor|].
  vm_compute. reflexivity.
Defined.

Lemma draw_end_game :
  games draw_end.1 !! 0%nat =
  Some (MkGame 2 1 PlayerType.X GameState.Draw 1 0
          (MkArr3 (MkArr3 PlayerType.X PlayerType.O PlayerType.X)
                  (MkArr3 PlayerType.X PlayerType.O PlayerType.O)
                  (MkArr3 PlayerType.O PlayerType.X PlayerType.X))).
Proof. vm_compute. reflexivity. Defined.

(** The witness: the round that ends in a draw; player 0 has joined as O. *)
Lemma draw_is_found_by_O_witness :
  exec (round_start 2 1 false) draw_end.2 draw_end.1 ∧
  ∃ g, games draw_end.1 !! 0%nat = Some g ∧
       currentGameState g = GameState.Draw ∧ playerO g = 0 ∧
       CountedDrawMoving 1 0 ∈ draw_end.2.
Proof.
  split; [exact draw_end_exec|]. eexists. split; [exact draw_end_game|].
  split; [reflexivity|]. split; [reflexivity|].
  by destruct (draw_is_found_by_O 2 1 false _ _ 0%nat _ draw_end_exec draw_end_game
                 eq_refl) as (_ & _ & H & _).
Defined.

(** ** No wake-up is lost inside a game *)

(** X16: inside a game no wake-up is lost.  Whenever both players have
    joined a game and one of them is still inside JoinGame, one of them has
    been notified and its next critical section can run. *)
Theorem game_always_has_a_runner N G flag acts s i g t w :
  exec (round_start N G flag) acts s → alive s = true →
  games s !! i = Some g → playerX g ≠ -1 →
  workers s !! t = Some w → inside i (pc w) →
  ∃ r wr, workers s !! r = Some wr ∧ ready i (pc wr) ∧
    ∀ rnd, myRand_range rnd = true → ∃ s' a, step s (Run r rnd) = Some (s', a).
Proof.
  intros Hexec Halive Hg HX Ht Hin.
  destruct (exec_inv _ _ _ _ _ Hexec) as ((Hlen & _) & _ & Hphase).
  assert (i < G)%nat as Hi by (apply lookup_lt_Some in Hg; lia).
  destruct (Hphase i Hi) as (ph & _ & g0 & Hg0 & Hok).
  assert (g0 = g) as -> by congruence.
  assert (∃ r wr, workers s !! r = Some wr ∧ ready i (pc wr)) as (r & wr & Hr & Hready).
  { destruct ph as [|a|a b x y|a b m o how|a b m o how]; cbn [slot_ok] in Hok.
    - destruct Hok as (_ & _ & _ & _ & _ & _ & Hno).
      by apply (Hno t w Ht), elem_of_nil in Hin.
    - by destruct Hok as (_ & ? & _).
    - destruct Hok as (_ & _ & _ & _ & _ & _ & _ & _ & _ & _ &
                       wx & wy & Hwx & _ & _ & _ & Hrx & _).
      by exists x, wx.
    - destruct Hok as (_ & _ & _ & _ & _ & _ & _ & _ & _ & wo & Hwo & Hro).
      by exists o, wo.
    - destruct Hok as (_ & _ & _ & _ & _ & _ & Hno).
      by apply (Hno t w Ht), elem_of_nil in Hin. }
  exists r, wr. split; [done|]. split; [done|].
  intros rnd Hrnd.
  destruct (ready_runs _ _ _ _ _ _ _ _ _ Hexec Halive Hrnd Hr Hready) as [[s' a] E].
  by exists s', a.
Qed.

(** The witness: after the first move of the sample round player 0 has
    been notified and can move. *)
Lemma game_always_has_a_runner_witness :
  exec (round_start 2 1 false) demo_first_move.2 demo_first_move.1 ∧
  ∃ r s' a, step demo_first_move.1 (Run r 0) = Some (s', a).
Proof.
  split; [exact demo_first_move_exec|].
  destruct (game_always_has_a_runner 2 1 false _ _ 0%nat _ 1%nat _
              demo_first_move_exec eq_refl eq_refl ltac:(done) eq_refl eq_refl)
    as (r & wr & _ & _ & H).
  destruct (H 0 eq_refl) as (s' & a & Hs). by exists r, s', a.
Defined.
